(** * Sunburst mind map: angular layout and gap engine

    A shallow embedding of [LayoutCalculator] (layout of a node forest
    into sectors, weights, hit-testing, validation and statistics), of
    [GapManager] (insertion and removal of gap nodes, its reports, its
    registry and its configuration) and of the functions of
    [SunburstEngine] that work on its data, with the properties the
    specification states about them and further properties of the code.

    - Part 1 has the code: the nodes, module [LayoutCalculator], module
      [GapManager] on values, module [Heap], where the two functions
      of [GapManager] run on a store of objects, module
      [SunburstEngine], and the layout once more with the rounding of
      its arithmetic, in the modules [Rounded] and [Doubles].
    - Part 2 has the samples and the notions the properties are stated
      with, among them the statements of the specification that the code
      does not meet.
    - Part 3 has the properties the specification is about.
    - Part 4 has the properties of the validator, the statistics, the
      reports, the registry, the configuration and the engine.

    Numbers.  The JavaScript code computes with IEEE doubles.  In the
    modules [LayoutCalculator], [GapManager], [Heap] and
    [SunburstEngine] a number is an exact rational ([Q]); rounding is
    not modelled there, so an equation proved of them holds for the code
    up to rounding error, and a decimal literal such as [0.1] denotes
    the decimal itself.  Where rounding decides whether a property
    holds, as it does for a ring that ends exactly where the ring of
    its parent ends, the property is stated of module [Rounded], which
    is the layout with a rounding [fl] around every operation, and the
    ring of a child is computed on binary64 numbers in module
    [Doubles].  [Math.PI] is the rational value of the double the
    engine uses.  A property that may be [undefined] (or hold [NaN]) is
    an [option Q]: [None] stands for both, which no operation modelled
    here tells apart (arithmetic on either gives [NaN], every comparison
    is false).  Counts ([maxDepth], [minChildrenForGap], depths,
    indices) are natural numbers.  The code divides by a count or by a
    total weight that is not zero, or does not use the quotient; the one
    division by a radius is guarded in the model.

    Strings.  A string is held as the bytes of its UTF-8 text; where
    the code takes the length of a string or cuts it, the UTF-16 code
    units the engine counts are counted ([jsLength], [jsPrefix]). *)

From stdpp Require Import base strings list gmap pretty.
From Stdlib Require Import QArith Qminmax Qabs Lqa Lia.
From Stdlib Require Import Qround Floats.

Local Open Scope Q_scope.
Set Warnings "-register-all,-clear-no-such-hyp,-inexact-float".

(** * Part 1: the code *)

(** ** Numbers *)

Definition Math_PI : Q := 884279719003555 # 281474976710656.

Definition ofNat (n : nat) : Q := inject_Z (Z.of_nat n).

Definition num : Type := option Q.

Definition nadd (a b : num) : num :=
  match a, b with Some x, Some y => Some (x + y) | _, _ => None end.

Definition nmul (a b : num) : num :=
  match a, b with Some x, Some y => Some (x * y) | _, _ => None end.

Definition ndiv (a b : num) : num :=
  match a, b with Some x, Some y => Some (x / y) | _, _ => None end.

(** [a <= b] and [a >= b] of JavaScript: false as soon as one side is
    [undefined] or [NaN]. *)
Definition nle (a b : num) : bool :=
  match a, b with Some x, Some y => Qle_bool x y | _, _ => false end.

Definition nge (a b : num) : bool := nle b a.

Definition nlt (a b : num) : bool :=
  match a, b with Some x, Some y => negb (Qle_bool y x) | _, _ => false end.

Definition nsub (a b : num) : num :=
  match a, b with Some x, Some y => Some (x - y) | _, _ => None end.

(** [Math.abs] *)
Definition nabs (a : num) : num :=
  match a with Some x => Some (Qabs x) | None => None end.

(** [v || d] on a numeric property: [undefined], [NaN] and [0] are falsy. *)
Definition orDefault (v : num) (d : Q) : Q :=
  match v with
  | Some x => if Qeq_bool x 0 then d else x
  | None => d
  end.

(** ** Nodes

    One type for the plain objects the engine passes around: a raw node
    of the tree collaborator carries [name], [value] and [children]; a
    placed node also carries the layout properties; a gap node has
    [isGap] set.  Presentation properties (itemStyle, label, tooltip,
    emphasis, color) play no part in the layout and are left out. *)

Inductive node : Type := Node {
  id : option string;
  name : string;
  value : num;
  children : option (list node);
  isGap : bool;
  startAngle : num;
  angleRange : num;
  depth : option nat;
  innerRadius : num;
  outerRadius : num }.

Definition setChildren (n : node) (ch : list node) : node :=
  Node (id n) (name n) (value n) (Some ch) (isGap n)
       (startAngle n) (angleRange n) (depth n) (innerRadius n) (outerRadius n).

(** [child.startAngle = s; child.angleRange = r]. *)
Definition setAngles (n : node) (s r : num) : node :=
  Node (id n) (name n) (value n) (children n) (isGap n)
       s r (depth n) (innerRadius n) (outerRadius n).

Definition setAngleRange (n : node) (r : num) : node :=
  Node (id n) (name n) (value n) (children n) (isGap n)
       (startAngle n) r (depth n) (innerRadius n) (outerRadius n).

(** A raw node, as the tree collaborator hands it over. *)
Definition rawNode (nm : string) (v : num) (ch : option (list node)) : node :=
  Node (Some nm) nm v ch false None None None None None.

(** All nodes of a forest, parents before children, in sibling order. *)
Fixpoint subnodes (n : node) : list node :=
  n :: match children n with
       | Some ch => flat_map subnodes ch
       | None => []
       end.

Definition allNodes (forest : list node) : list node :=
  flat_map subnodes forest.

(** [node.children && node.children.length > 0] *)
Definition hasChildren (n : node) : bool :=
  match children n with
  | Some (_ :: _) => true
  | _ => false
  end.

(** The children of a node, none when the property is missing. *)
Definition childList (n : node) : list node :=
  match children n with
  | Some ch => ch
  | None => []
  end.

(** Sum of the [angleRange] of a sibling group; [NaN] as soon as one is
    missing. *)
Definition sumAngleRange (l : list node) : num :=
  fold_left (fun sum n => nadd sum (angleRange n)) l (Some 0).

(** ** LayoutCalculator *)

Module LayoutCalculator.

Record Options : Type := {
  opt_innerRadius : Q;
  opt_outerRadius : Q;
  opt_gapAngle : Q;
  opt_maxDepth : nat }.

(** The defaults of the constructor. *)
Definition defaults : Options :=
  {| opt_innerRadius := 0.15; opt_outerRadius := 0.90;
     opt_gapAngle := 3; opt_maxDepth := 10 |}.

(** The [layout] argument of [createLayoutNode]. *)
Record Layout : Type := {
  l_startAngle : Q;
  l_angleRange : Q;
  l_depth : nat;
  l_innerRadius : Q;
  l_outerRadius : Q }.

Definition calculateNodeWeight (n : node) : Q :=
  let weight := orDefault (value n) 1 in
  let weight :=
    match children n with
    | Some (c :: cs) => weight + ofNat (length (c :: cs)) * 0.1
    | _ => weight
    end in
  Qmax weight 0.1.

Definition calculateTotalWeight (nodes : list node) : Q :=
  fold_left (fun total n => total + calculateNodeWeight n) nodes 0.

Definition gapRadians (o : Options) : Q := opt_gapAngle o * Math_PI / 180.

Definition totalGapAngle (o : Options) (count : nat) : Q :=
  gapRadians o * ofNat count.

(** [{ ...node, startAngle, angleRange, depth, innerRadius, outerRadius }] *)
Definition spread (n : node) (layout : Layout) : node :=
  Node (id n) (name n) (value n) (children n) (isGap n)
       (Some (l_startAngle layout)) (Some (l_angleRange layout))
       (Some (l_depth layout))
       (Some (l_innerRadius layout)) (Some (l_outerRadius layout)).

(** The body shared by the two [forEach] loops, over the roots in
    [calculateLayout] and over the children in [createLayoutNode]:
    each sibling gets its share of [available], the running angle
    moves on by that share, and by the gap except after the last
    sibling.  [place] is the call of [createLayoutNode]. *)
Definition forEachSibling (place : node → Layout → node)
    (totalWeight available gap : Q) (count : nat)
    (dep : nat) (inner outer : Q)
  : list node → nat → Q → list node :=
  fix each (l : list node) (index : nat) (currentAngle : Q) : list node :=
    match l with
    | [] => []
    | n :: rest =>
        let nodeWeight := calculateNodeWeight n in
        let range := (nodeWeight / totalWeight) * available in
        let layoutNode :=
          place n {| l_startAngle := currentAngle; l_angleRange := range;
                     l_depth := dep;
                     l_innerRadius := inner; l_outerRadius := outer |} in
        let currentAngle := currentAngle + range in
        let currentAngle :=
          if (index <? count - 1)%nat then currentAngle + gap
          else currentAngle in
        layoutNode :: each rest (S index) currentAngle
    end.

Fixpoint createLayoutNode (o : Options) (n : node) (layout : Layout)
    {struct n} : node :=
  let layoutNode := spread n layout in
  match children n with
  | Some ch =>
      match ch with
      | [] => layoutNode
      | _ :: _ =>
          let childDepth := (l_depth layout + 1)%nat in
          let radiusStep :=
            (l_outerRadius layout - l_innerRadius layout)
            / ofNat (opt_maxDepth o + 1) in
          let childInnerRadius :=
            l_innerRadius layout + radiusStep * ofNat childDepth in
          let childOuterRadius := childInnerRadius + radiusStep in
          let childTotalWeight := calculateTotalWeight ch in
          let availableAngle :=
            l_angleRange layout - totalGapAngle o (length ch) in
          setChildren layoutNode
            (forEachSibling (createLayoutNode o)
               childTotalWeight availableAngle (gapRadians o) (length ch)
               childDepth childInnerRadius childOuterRadius
               ch 0%nat (l_startAngle layout))
      end
  | None => layoutNode
  end.

(** [calculateLayout] as a call computes it that finds no entry for
    its input in the memo table; [calculateLayoutCached] below is the
    method with its table. *)
Definition calculateLayout (o : Options) (nodes : list node) : list node :=
  match nodes with
  | [] => []
  | _ :: _ =>
      let totalWeight := calculateTotalWeight nodes in
      let availableAngle := 2 * Math_PI - totalGapAngle o (length nodes) in
      forEachSibling (createLayoutNode o)
        totalWeight availableAngle (gapRadians o) (length nodes)
        0%nat (opt_innerRadius o) (opt_outerRadius o)
        nodes 0%nat 0
  end.

(** [calculateLayout] with its memo table, which maps the JSON text of
    an input to the array returned for it.  An entry is that array
    itself, which the caller holds too and which [insertGaps] changes
    in place: what a later call finds under a key is what the array has
    become, so a table is any map from keys to forests.
    [JSON.stringify] is a parameter. *)
Section Cache.
Variable JSON_stringify : list node → string.

Definition generateCacheKey (nodes : list node) : string :=
  JSON_stringify nodes.

Definition calculateLayoutCached (o : Options)
    (cache : gmap string (list node)) (nodes : list node)
  : list node * gmap string (list node) :=
  match nodes with
  | [] => ([], cache)
  | _ :: _ =>
      let cacheKey := generateCacheKey nodes in
      match cache !! cacheKey with
      | Some result => (result, cache)
      | None =>
          let result := calculateLayout o nodes in
          (result, <[cacheKey := result]> cache)
      end
  end.

End Cache.

(** [findNodeByPolar]: is [angle] inside the node's interval, taken to
    wrap around when its end lies before its start. *)
Definition angleInRange (angle : Q) (n : node) : bool :=
  let angleStart := startAngle n in
  let angleEnd := nadd (startAngle n) (angleRange n) in
  if nle angleStart angleEnd
  then nge (Some angle) angleStart && nle (Some angle) angleEnd
  else nge (Some angle) angleStart || nle (Some angle) angleEnd.

Definition radiusInRange (radiusRatio : Q) (n : node) : bool :=
  nge (Some radiusRatio) (innerRadius n)
  && nle (Some radiusRatio) (outerRadius n).

(** The [for] loop of [findNodeByPolar]: the result of the first
    sibling on which the body of the loop returns. *)
Definition firstHit (body : node → option node)
  : list node → option node :=
  fix loop (l : list node) : option node :=
    match l with
    | [] => None
    | n :: rest =>
        match body n with
        | Some r => Some r
        | None => loop rest
        end
    end.

(** The body of the loop on the sibling [n]: [None] when the loop goes
    on to the next sibling, the node it returns otherwise.  The inner
    [firstHit] is the recursive call [findNodeByPolar(angle,
    radiusRatio, node.children)]. *)
Fixpoint hitNode (angle radiusRatio : Q) (n : node) {struct n}
  : option node :=
  if angleInRange angle n && radiusInRange radiusRatio n then
    match children n with
    | Some ch =>
        match ch with
        | [] => Some n
        | _ :: _ =>
            match firstHit (hitNode angle radiusRatio) ch with
            | Some childResult => Some childResult
            | None => Some n
            end
        end
    | None => Some n
    end
  else None.

Definition findNodeByPolar (angle radiusRatio : Q) (nodes : list node)
  : option node :=
  firstHit (hitNode angle radiusRatio) nodes.

(** [findNodeByCoordinates].  [Math.sqrt] and [Math.atan2] are taken
    as parameters: they have no exact rational value.  With a radius of
    0 the ratio [0 / 0] is [NaN], which no sector contains. *)
Section Coordinates.
Variable Math_sqrt : Q → Q.
Variable Math_atan2 : Q → Q → Q.

Definition findNodeByCoordinates (x y : Q) (nodes : list node)
    (width height : Q) : option node :=
  let centerX := width / 2 in
  let centerY := height / 2 in
  let radius := Qmin width height / 2 in
  let dx := x - centerX in
  let dy := y - centerY in
  let distance := Math_sqrt (dx * dx + dy * dy) in
  if negb (Qle_bool distance radius) then None
  else
    let angle := Math_atan2 dy dx in
    let angle :=
      if negb (Qle_bool 0 angle) then angle + 2 * Math_PI else angle in
    if Qeq_bool radius 0 then None
    else
      let radiusRatio := distance / radius in
      findNodeByPolar angle radiusRatio nodes.
End Coordinates.

(** [optimizeLayout]: the borrowing pass only annotates temporary
    items; the value returned is the input with every top-level
    [angleRange] below [minAngle] raised to it. *)
Definition optimizeLayout (nodes : list node) (minAngle : Q) : list node :=
  map (fun n =>
         if nlt (angleRange n) (Some minAngle)
         then setAngleRange n (Some minAngle) else n) nodes.

(** [countNode] of [countNodes]; the counter it increments is passed
    along. *)
Fixpoint countNode (n : node) (count : nat) : nat :=
  let count := S count in
  match children n with
  | Some ch => fold_left (fun k c => countNode c k) ch count
  | None => count
  end.

Definition countNodes (nodes : list node) : nat :=
  fold_left (fun k n => countNode n k) nodes 0%nat.

(** [calculateDepth] of [calculateMaxDepth]; the running maximum it
    updates is passed along. *)
Fixpoint calculateDepth (n : node) (d : nat) (maxDepth : nat) : nat :=
  let maxDepth := Nat.max maxDepth d in
  match children n with
  | Some ch => fold_left (fun m c => calculateDepth c (S d) m) ch maxDepth
  | None => maxDepth
  end.

Definition calculateMaxDepth (nodes : list node) : nat :=
  fold_left (fun m n => calculateDepth n 0 m) nodes 0%nat.

(** [validateLayout].  An entry of [issues] is kept as the kind of its
    message and the values the text is built from. *)
Inductive issue : Type :=
  | AngleSumError (expectedAngle : Q) (totalAngle : num)
  | AngleOverlap (name1 name2 : string)
  | RadiusInvalid (nodeName : string)
  | RadiusOutOfBounds (nodeName : string)
  | ChildRadiusOutside (childName : string).

(** [[...nodes].sort((a, b) => a.startAngle - b.startAngle)].  The sort
    of an array is stable: [insertSorted] puts a node behind the nodes
    it must follow, and before the first node the comparison function
    does not rank before it.  A difference that is [NaN] counts as 0,
    as the language has it; with a [startAngle] missing the comparison
    is not an order and an engine may sort otherwise. *)
Fixpoint insertSorted (a : node) (l : list node) : list node :=
  match l with
  | [] => [a]
  | b :: rest =>
      if nlt (Some 0) (nsub (startAngle a) (startAngle b))
      then b :: insertSorted a rest
      else a :: b :: rest
  end.

Definition sortByStartAngle (nodes : list node) : list node :=
  fold_right insertSorted [] nodes.

(** The loop over the neighbours [sortedNodes[i]], [sortedNodes[i + 1]]. *)
Fixpoint checkOverlap (sortedNodes : list node) : list issue :=
  match sortedNodes with
  | node1 :: rest =>
      match rest with
      | node2 :: _ =>
          let node1End := nadd (startAngle node1) (angleRange node1) in
          (if nlt (startAngle node2) node1End
           then [AngleOverlap (name node1) (name node2)] else [])
          ++ checkOverlap rest
      | [] => []
      end
  | [] => []
  end.

(** [checkNodeRadius]: the issues it pushes, in the order of the pushes. *)
Fixpoint checkNodeRadius (n : node) : list issue :=
  (if nge (innerRadius n) (outerRadius n)
   then [RadiusInvalid (name n)] else [])
  ++ (if nlt (innerRadius n) (Some 0) || nlt (Some 1) (outerRadius n)
      then [RadiusOutOfBounds (name n)] else [])
  ++ match children n with
     | Some ch =>
         flat_map
           (fun child =>
              (if nlt (innerRadius child) (innerRadius n)
                  || nlt (outerRadius n) (outerRadius child)
               then [ChildRadiusOutside (name child)] else [])
              ++ checkNodeRadius child)
           ch
     | None => []
     end.

Record Validation : Type := {
  v_isValid : bool;
  v_issues : list issue;
  v_totalNodes : nat;
  v_totalAngle : num;
  v_angleError : num;
  v_maxDepth : nat }.

Definition validateLayout (nodes : list node) : Validation :=
  let totalAngle := sumAngleRange nodes in
  let expectedAngle := 2 * Math_PI in
  let angleError := nabs (nsub totalAngle (Some expectedAngle)) in
  let issues :=
    (if nlt (Some 0.01) angleError
     then [AngleSumError expectedAngle totalAngle] else [])
    ++ checkOverlap (sortByStartAngle nodes)
    ++ flat_map checkNodeRadius nodes in
  {| v_isValid := match issues with [] => true | _ :: _ => false end;
     v_issues := issues;
     v_totalNodes := countNodes nodes;
     v_totalAngle := totalAngle;
     v_angleError := angleError;
     v_maxDepth := calculateMaxDepth nodes |}.

(** [getLayoutStats].  [Math.min] and [Math.max] of no argument are
    the two infinities, and [NaN] as soon as one argument is. *)
Inductive extended : Type :=
  | Finite (q : Q)
  | Infinity
  | NegInfinity
  | NaN.

Definition Math_min (args : list num) : extended :=
  fold_left (fun acc x =>
               match acc, x with
               | NaN, _ | _, None => NaN
               | Infinity, Some q => Finite q
               | Finite m, Some q => Finite (Qmin m q)
               | NegInfinity, Some _ => NegInfinity
               end) args Infinity.

Definition Math_max (args : list num) : extended :=
  fold_left (fun acc x =>
               match acc, x with
               | NaN, _ | _, None => NaN
               | NegInfinity, Some q => Finite q
               | Finite m, Some q => Finite (Qmax m q)
               | Infinity, Some _ => Infinity
               end) args NegInfinity.

Record LayoutStats : Type := {
  st_totalNodes : nat;
  st_maxDepth : nat;
  st_totalWeight : Q;
  st_minAngle : extended;
  st_maxAngle : extended;
  st_avgAngle : num }.

(** The average is [0 / 0], which is [NaN], on the empty array.  It is
    the exact quotient here, where the engine rounds the sum and the
    quotient: the properties below say that it is a number, or not,
    and nothing of its value. *)
Definition getLayoutStats (nodes : list node) : LayoutStats :=
  {| st_totalNodes := countNodes nodes;
     st_maxDepth := calculateMaxDepth nodes;
     st_totalWeight := calculateTotalWeight nodes;
     st_minAngle := Math_min (map angleRange nodes);
     st_maxAngle := Math_max (map angleRange nodes);
     st_avgAngle :=
       match nodes with
       | [] => None
       | _ :: _ => ndiv (sumAngleRange nodes) (Some (ofNat (length nodes)))
       end |}.

End LayoutCalculator.

(** ** GapManager

    [insertGaps] and [removeGaps] work in place.  The functions of this
    module give, as a value, the state of the objects after the call;
    module [Heap] below has the two functions on a store of objects,
    where the sharing between argument and result shows, and the two
    views are proved to agree on stores that hold a forest. *)

Module GapManager.

Record Options : Type := {
  opt_gapAngle : Q;
  opt_enableGaps : bool;
  opt_minChildrenForGap : nat }.

Definition defaults : Options :=
  {| opt_gapAngle := 3; opt_enableGaps := true;
     opt_minChildrenForGap := 2 |}.

Definition gapRadians (o : Options) : Q := opt_gapAngle o * Math_PI / 180.

Definition totalGapAngle (o : Options) (count : nat) : Q :=
  gapRadians o * ofNat count.

(** [`gap_${parentNode.id || 'root'}_${gapIndex}`] *)
Definition gapId (parentNode : node) (gapIndex : nat) : string :=
  let pid := match id parentNode with
             | Some s => if String.eqb s EmptyString then "root" else s
             | None => "root"
             end in
  String.append "gap_"
    (String.append pid (String.append "_" (pretty gapIndex))).

(** [createGapNode], without the presentation properties it gives the
    gap node ([itemStyle], [label], [emphasis], [tooltip]) and without
    the entry it makes in the registry, which [registerGap] below has. *)
Definition createGapNode (start range : Q) (parentNode : node)
    (gapIndex : nat) : node :=
  Node (Some (gapId parentNode gapIndex)) EmptyString (Some 0) (Some [])
       true (Some start) (Some range) None None None.

(** The [forEach] of [processNode].  [recur child childAngle start] is
    the recursive call on the child, whose two angle properties were
    assigned just before. *)
Definition forEachChild (recur : node → Q → Q → node)
    (parentNode : node) (gap childAngle : Q) (childrenCount : nat)
  : list node → nat → Q → nat → list node :=
  fix each (l : list node) (index : nat) (currentAngle : Q) (gapIndex : nat)
    : list node :=
    match l with
    | [] => []
    | child :: rest =>
        let childStart := currentAngle in
        let currentAngle := currentAngle + childAngle in
        let processed := recur child childAngle childStart in
        if (index <? childrenCount - 1)%nat then
          processed
            :: createGapNode currentAngle gap parentNode gapIndex
            :: each rest (S index) (currentAngle + gap) (S gapIndex)
        else processed :: each rest (S index) currentAngle gapIndex
    end.

(** [processNode] assigns [child.startAngle] and [child.angleRange]
    and then calls itself on the child; the call reads and writes only
    the [children] of the node it is given, so the two assignments are
    made here on its result. *)
Fixpoint processNode (o : Options) (n : node)
    (parentAngleRange parentStartAngle : Q) {struct n} : node :=
  match children n with
  | None => n
  | Some ch =>
      if (length ch <? opt_minChildrenForGap o)%nat then n
      else
        let childrenCount := length ch in
        let childAngle :=
          (parentAngleRange - totalGapAngle o childrenCount)
          / ofNat childrenCount in
        setChildren n
          (forEachChild
             (fun child range start =>
                setAngles (processNode o child range start)
                          (Some start) (Some range))
             n (gapRadians o) childAngle childrenCount
             ch 0%nat parentStartAngle 0%nat)
  end.

Definition insertGaps (o : Options) (data : list node) : list node :=
  if negb (opt_enableGaps o) || Qle_bool (opt_gapAngle o) 0 then data
  else map (fun n => processNode o n (2 * Math_PI) 0) data.

Definition isReal (n : node) : bool := negb (isGap n).

(** The [forEach] of [removeGapsFromNode] over [realChildren], run
    here over [children] with the gap nodes skipped, which is the
    filter and the loop in one pass.  [recur child start range] is
    the recursive call on the child once its two angle properties are
    assigned. *)
Definition forEachReal (recur : node → num → num → node)
    (start childAngle : num) : list node → nat → list node :=
  fix each (l : list node) (index : nat) : list node :=
    match l with
    | [] => []
    | child :: rest =>
        if isReal child then
          recur child (nadd start (nmul childAngle (Some (ofNat index))))
                childAngle
          :: each rest (S index)
        else each rest index
    end.

(** [removeGapsFromNode] on the node [n] whose [startAngle] and
    [angleRange] hold [start] and [range]: the source assigns the two
    properties of a child and then calls itself on it. *)
Fixpoint removeGapsFrom (n : node) (start range : num) {struct n} : node :=
  let n' := setAngles n start range in
  match children n with
  | None => n'
  | Some ch =>
      let realChildren := List.filter isReal ch in
      let count := length realChildren in
      if (0 <? count)%nat then
        let childAngle := ndiv range (Some (ofNat count)) in
        setChildren n' (forEachReal removeGapsFrom start childAngle ch 0%nat)
      else setChildren n' realChildren
  end.

Definition removeGapsFromNode (n : node) : node :=
  removeGapsFrom n (startAngle n) (angleRange n).

Definition removeGaps (data : list node) : list node :=
  map removeGapsFromNode data.

(** [calculateTotalGapAngle] and [calculateAvailableAngle] *)
Definition calculateTotalGapAngle (o : Options) (n : node) : Q :=
  match children n with
  | None => 0
  | Some ch =>
      if (length ch <? 2)%nat then 0
      else gapRadians o * ofNat (length ch - 1)
  end.

Definition calculateAvailableAngle (o : Options) (n : node) : num :=
  let totalGapAngle := calculateTotalGapAngle o n in
  nsub (angleRange n) (Some totalGapAngle).

(** [validateGapConfiguration].  The message is kept as its kind and
    the angles its text shows. *)
Inductive gapMessage : Type :=
  | GapsDisabled
  | GapAngleNotPositive
  | TooFewChildren
  | GapsExceedRange (totalGapAngle : Q) (nodeAngleRange : num)
  | ChildAngleTooSmall (minChildAngle : num)
  | ConfigurationValid (minChildAngle : num).

Record GapValidation : Type := {
  gv_isValid : bool;
  gv_message : gapMessage }.

Definition validateGapConfiguration (o : Options) (n : node)
  : GapValidation :=
  if negb (opt_enableGaps o) then
    {| gv_isValid := true; gv_message := GapsDisabled |}
  else if Qle_bool (opt_gapAngle o) 0 then
    {| gv_isValid := false; gv_message := GapAngleNotPositive |}
  else
    match children n with
    | None => {| gv_isValid := true; gv_message := TooFewChildren |}
    | Some ch =>
        if (length ch <? 2)%nat then
          {| gv_isValid := true; gv_message := TooFewChildren |}
        else
          let totalGapAngle := gapRadians o * ofNat (length ch - 1) in
          if nge (Some totalGapAngle) (angleRange n) then
            {| gv_isValid := false;
               gv_message := GapsExceedRange totalGapAngle (angleRange n) |}
          else
            let availableAngle :=
              nsub (angleRange n) (Some totalGapAngle) in
            let minChildAngle :=
              ndiv availableAngle (Some (ofNat (length ch))) in
            if nlt minChildAngle (Some 0.01) then
              {| gv_isValid := false;
                 gv_message := ChildAngleTooSmall minChildAngle |}
            else
              {| gv_isValid := true;
                 gv_message := ConfigurationValid minChildAngle |}
    end.

(** [getGapStats].  The counters that [countGaps] updates are passed
    along; [nodesWithGaps] is the set of the ids added. *)
Record GapCounters : Type := {
  totalGaps : nat;
  maxGapsPerNode : nat;
  nodesWithGaps : gset string }.

(** [node.id || 'root'] *)
Definition idOrRoot (n : node) : string :=
  match id n with
  | Some s => if String.eqb s EmptyString then "root" else s
  | None => "root"
  end.

Fixpoint countGaps (n : node) (c : GapCounters) {struct n} : GapCounters :=
  match children n with
  | None => c
  | Some ch =>
      let '(c, nodeGapCount) :=
        fold_left
          (fun (acc : GapCounters * nat) child =>
             let '(c, nodeGapCount) := acc in
             if isGap child then
               ({| totalGaps := S (totalGaps c);
                   maxGapsPerNode := maxGapsPerNode c;
                   nodesWithGaps := {[ idOrRoot n ]} ∪ nodesWithGaps c |},
                S nodeGapCount)
             else (countGaps child c, nodeGapCount))
          ch (c, 0%nat) in
      {| totalGaps := totalGaps c;
         maxGapsPerNode := Nat.max (maxGapsPerNode c) nodeGapCount;
         nodesWithGaps := nodesWithGaps c |}
  end.

Record GapStats : Type := {
  gs_totalGaps : nat;
  gs_maxGapsPerNode : nat;
  gs_nodesWithGapsCount : nat;
  gs_gapAngle : Q;
  gs_enabled : bool }.

Definition getGapStats (o : Options) (data : list node) : GapStats :=
  let c := fold_left (fun c n => countGaps n c) data
             {| totalGaps := 0; maxGapsPerNode := 0; nodesWithGaps := ∅ |} in
  {| gs_totalGaps := totalGaps c;
     gs_maxGapsPerNode := maxGapsPerNode c;
     gs_nodesWithGapsCount := size (nodesWithGaps c);
     gs_gapAngle := opt_gapAngle o;
     gs_enabled := opt_enableGaps o |}.

(** [adjustGapAngle]: the options after the call and the array
    returned. *)
Definition adjustGapAngle (o : Options) (newGapAngle : Q)
    (data : list node) : Options * list node :=
  let o := {| opt_gapAngle := newGapAngle;
              opt_enableGaps := opt_enableGaps o;
              opt_minChildrenForGap := opt_minChildrenForGap o |} in
  let dataWithoutGaps := removeGaps data in
  (o, insertGaps o dataWithoutGaps).

(** [createGapExample]: [validation] is computed on [parentNode] after
    [insertGaps] has worked on it, which is the node the array in [data]
    holds. *)
Record GapExample : Type := {
  ex_data : list node;
  ex_stats : GapStats;
  ex_validation : GapValidation;
  ex_config : Options }.

Definition createGapExample (o : Options) (childCount : nat)
    (parentAngle : Q) : GapExample :=
  let parentNode :=
    Node None "父节点" (Some (ofNat childCount))
         (Some (map (fun i =>
                       Node None (String.append "子节点 " (pretty (i + 1)%nat))
                            (Some 1) (Some []) false
                            None None None None None)
                    (seq 0 childCount)))
         false (Some 0) (Some (parentAngle * Math_PI / 180))
         None None None in
  let withGaps := insertGaps o [parentNode] in
  let parentNode := match withGaps with
                    | p :: _ => p
                    | [] => parentNode
                    end in
  {| ex_data := withGaps;
     ex_stats := getGapStats o withGaps;
     ex_validation := validateGapConfiguration o parentNode;
     ex_config := o |}.

(** The registry [gapNodes].  A [Map] keeps its keys in the order they
    were first set; it is a list of keys and values here, with one
    entry to a key. *)
Record GapInfo : Type := {
  gi_id : string;
  gi_parentId : option string;
  gi_startAngle : Q;
  gi_angleRange : Q;
  gi_gapIndex : nat }.

Abbreviation registry := (list (string * GapInfo)).

(** [gapNodes.set(key, value)] *)
Fixpoint mapSet (key : string) (value : GapInfo) (m : registry) : registry :=
  match m with
  | [] => [(key, value)]
  | (k, v) :: rest =>
      if String.eqb k key then (key, value) :: rest
      else (k, v) :: mapSet key value rest
  end.

(** [gapNodes.get(key)] *)
Fixpoint mapGet (key : string) (m : registry) : option GapInfo :=
  match m with
  | [] => None
  | (k, v) :: rest => if String.eqb k key then Some v else mapGet key rest
  end.

(** What [createGapNode] does to the registry. *)
Definition registerGap (start range : Q) (parentNode : node)
    (gapIndex : nat) (m : registry) : registry :=
  let gapId := gapId parentNode gapIndex in
  mapSet gapId
    {| gi_id := gapId; gi_parentId := id parentNode;
       gi_startAngle := start; gi_angleRange := range;
       gi_gapIndex := gapIndex |} m.

(** [processNode] and [insertGaps] with the registry passed along:
    the functions above give the nodes, these the nodes and the
    registry after the call. *)
Definition forEachChildWith
    (recur : node → Q → Q → registry → node * registry)
    (parentNode : node) (gap childAngle : Q) (childrenCount : nat)
  : list node → nat → Q → nat → registry → list node * registry :=
  fix each (l : list node) (index : nat) (currentAngle : Q) (gapIndex : nat)
      (m : registry) : list node * registry :=
    match l with
    | [] => ([], m)
    | child :: rest =>
        let childStart := currentAngle in
        let currentAngle := currentAngle + childAngle in
        let '(processed, m) := recur child childAngle childStart m in
        if (index <? childrenCount - 1)%nat then
          let gapNode := createGapNode currentAngle gap parentNode gapIndex in
          let m := registerGap currentAngle gap parentNode gapIndex m in
          let '(others, m) :=
            each rest (S index) (currentAngle + gap) (S gapIndex) m in
          (processed :: gapNode :: others, m)
        else
          let '(others, m) := each rest (S index) currentAngle gapIndex m in
          (processed :: others, m)
    end.

Fixpoint processNodeWith (o : Options) (n : node)
    (parentAngleRange parentStartAngle : Q) (m : registry) {struct n}
  : node * registry :=
  match children n with
  | None => (n, m)
  | Some ch =>
      if (length ch <? opt_minChildrenForGap o)%nat then (n, m)
      else
        let childrenCount := length ch in
        let childAngle :=
          (parentAngleRange - totalGapAngle o childrenCount)
          / ofNat childrenCount in
        let '(newChildren, m) :=
          forEachChildWith
            (fun child range start m =>
               let '(processed, m) := processNodeWith o child range start m in
               (setAngles processed (Some start) (Some range), m))
            n (gapRadians o) childAngle childrenCount
            ch 0%nat parentStartAngle 0%nat m in
        (setChildren n newChildren, m)
  end.

(** [insertGaps] returns before it clears the registry when gaps are
    disabled. *)
Definition insertGapsWith (o : Options) (data : list node) (m : registry)
  : list node * registry :=
  if negb (opt_enableGaps o) || Qle_bool (opt_gapAngle o) 0 then (data, m)
  else
    fold_left (fun (acc : list node * registry) n =>
                 let '(done, m) := acc in
                 let '(processed, m) :=
                   processNodeWith o n (2 * Math_PI) 0 m in
                 (done ++ [processed], m))
              data ([], []).

(** [removeGaps] clears the registry. *)
Definition removeGapsWith (data : list node) (m : registry)
  : list node * registry :=
  (removeGaps data, []).

(** [getGapInfo] and [getAllGaps] *)
Definition getGapInfo (gapId : string) (m : registry) : option GapInfo :=
  mapGet gapId m.

Definition getAllGaps (m : registry) : list GapInfo := map snd m.

(** The manager as [exportConfig] and [importConfig] see it: the
    options above, the two presentation options, and the registry. *)
Record Manager : Type := {
  m_options : Options;
  m_gapColor : string;
  m_gapOpacity : Q;
  m_gapNodes : registry }.

(** A configuration object; [importConfig] takes one with properties
    missing. *)
Record Config : Type := {
  c_gapAngle : num;
  c_gapColor : option string;
  c_gapOpacity : num;
  c_enableGaps : option bool;
  c_minChildrenForGap : option nat;
  c_gapNodes : option (list GapInfo) }.

Definition exportConfig (m : Manager) : Config :=
  {| c_gapAngle := Some (opt_gapAngle (m_options m));
     c_gapColor := Some (m_gapColor m);
     c_gapOpacity := Some (m_gapOpacity m);
     c_enableGaps := Some (opt_enableGaps (m_options m));
     c_minChildrenForGap := Some (opt_minChildrenForGap (m_options m));
     c_gapNodes := Some (map snd (m_gapNodes m)) |}.

(** [config.x || this.options.x]: a property that is missing, 0 or the
    empty string leaves the option as it is; [enableGaps] is taken
    unless it is missing. *)
Definition importConfig (config : Config) (m : Manager) : Manager :=
  {| m_options :=
       {| opt_gapAngle :=
            orDefault (c_gapAngle config) (opt_gapAngle (m_options m));
          opt_enableGaps :=
            match c_enableGaps config with
            | Some b => b
            | None => opt_enableGaps (m_options m)
            end;
          opt_minChildrenForGap :=
            match c_minChildrenForGap config with
            | Some (S k) => S k
            | _ => opt_minChildrenForGap (m_options m)
            end |};
     m_gapColor :=
       match c_gapColor config with
       | Some s => if String.eqb s EmptyString then m_gapColor m else s
       | None => m_gapColor m
       end;
     m_gapOpacity := orDefault (c_gapOpacity config) (m_gapOpacity m);
     m_gapNodes :=
       match c_gapNodes config with
       | Some gapNodes =>
           fold_left (fun reg gapInfo => mapSet (gi_id gapInfo) gapInfo reg)
                     gapNodes []
       | None => m_gapNodes m
       end |}.

(** [setGapOpacity] *)
Definition setGapOpacity (opacity : Q) (m : Manager) : Manager :=
  {| m_options := m_options m;
     m_gapColor := m_gapColor m;
     m_gapOpacity := Qmax 0 (Qmin 1 opacity);
     m_gapNodes := m_gapNodes m |}.

End GapManager.

(** ** The store of objects

    [insertGaps] and [removeGaps] assign to properties of the objects
    they are given.  Here an object lives at a location of a store, an
    array is a list of locations, and the two functions are state
    transformers.  A run fails on a dangling location, or when the
    recursion budget [fuel] is used up (a store may hold a cycle).  The
    registry [gapNodes] of the manager, written by [createGapNode] and
    read only by its reporting methods, is left out. *)

Module Heap.

Definition loc : Type := nat.

Record object : Type := Obj {
  o_id : option string;
  o_name : string;
  o_value : num;
  o_children : option (list loc);
  o_isGap : bool;
  o_startAngle : num;
  o_angleRange : num }.

Abbreviation store := (gmap loc object).

Definition M (A : Type) : Type := store → option (A * store).

Definition ret {A} (a : A) : M A := fun s => Some (a, s).

Definition bind {A B} (c : M A) (k : A → M B) : M B :=
  fun s => match c s with
           | Some (a, s') => k a s'
           | None => None
           end.

Notation "'do' x <- c ; k" := (bind c (fun x => k))
  (at level 10, x name, c at level 100, k at level 200).

Definition read (l : loc) : M object :=
  fun s => match s !! l with
           | Some ob => Some (ob, s)
           | None => None
           end.

Definition write (l : loc) (f : object → object) : M unit :=
  fun s => match s !! l with
           | Some ob => Some (tt, <[l := f ob]> s)
           | None => None
           end.

(** A new object, at a location not in use. *)
Definition alloc (ob : object) : M loc :=
  fun s => let l := fresh (dom s) in Some (l, <[l := ob]> s).

Definition assignAngles (s r : num) (ob : object) : object :=
  Obj (o_id ob) (o_name ob) (o_value ob) (o_children ob) (o_isGap ob) s r.

Definition assignChildren (ch : list loc) (ob : object) : object :=
  Obj (o_id ob) (o_name ob) (o_value ob) (Some ch) (o_isGap ob)
      (o_startAngle ob) (o_angleRange ob).

Definition gapId (parentNode : object) (gapIndex : nat) : string :=
  let pid := match o_id parentNode with
             | Some s => if String.eqb s EmptyString then "root" else s
             | None => "root"
             end in
  String.append "gap_"
    (String.append pid (String.append "_" (pretty gapIndex))).

Definition createGapNode (start range : Q) (parentNode : loc)
    (gapIndex : nat) : M loc :=
  do p <- read parentNode;
  alloc (Obj (Some (gapId p gapIndex)) EmptyString (Some 0) (Some [])
             true (Some start) (Some range)).

Definition forEachChild (recur : loc → Q → Q → M loc)
    (parentNode : loc) (gap childAngle : Q) (childrenCount : nat)
  : list loc → nat → Q → nat → M (list loc) :=
  fix each (l : list loc) (index : nat) (currentAngle : Q) (gapIndex : nat)
    : M (list loc) :=
    match l with
    | [] => ret []
    | child :: rest =>
        do _ <- write child
                  (assignAngles (Some currentAngle) (Some childAngle));
        let childStart := currentAngle in
        let currentAngle := currentAngle + childAngle in
        do processed <- recur child childAngle childStart;
        if (index <? childrenCount - 1)%nat then
          do gapNode <- createGapNode currentAngle gap parentNode gapIndex;
          do tl <- each rest (S index) (currentAngle + gap) (S gapIndex);
          ret (processed :: gapNode :: tl)
        else
          do tl <- each rest (S index) currentAngle gapIndex;
          ret (processed :: tl)
    end.

Fixpoint processNode (fuel : nat) (o : GapManager.Options) (n : loc)
    (parentAngleRange parentStartAngle : Q) {struct fuel} : M loc :=
  match fuel with
  | O => fun _ => None
  | S fuel =>
      do ob <- read n;
      match o_children ob with
      | None => ret n
      | Some ch =>
          if (length ch <? GapManager.opt_minChildrenForGap o)%nat then ret n
          else
            let childrenCount := length ch in
            let childAngle :=
              (parentAngleRange - GapManager.totalGapAngle o childrenCount)
              / ofNat childrenCount in
            do newChildren <-
              forEachChild (processNode fuel o) n
                (GapManager.gapRadians o) childAngle childrenCount
                ch 0%nat parentStartAngle 0%nat;
            do _ <- write n (assignChildren newChildren);
            ret n
      end
  end.

(** [data.map(f)] *)
Fixpoint mapArray {A B} (f : A → M B) (l : list A) : M (list B) :=
  match l with
  | [] => ret []
  | a :: rest => do b <- f a; do tl <- mapArray f rest; ret (b :: tl)
  end.

Definition insertGaps (fuel : nat) (o : GapManager.Options)
    (data : list loc) : M (list loc) :=
  if negb (GapManager.opt_enableGaps o)
     || Qle_bool (GapManager.opt_gapAngle o) 0
  then ret data
  else mapArray (fun n => processNode fuel o n (2 * Math_PI) 0) data.

(** [node.children.filter(child => !child.isGap)] *)
Fixpoint filterReal (l : list loc) : M (list loc) :=
  match l with
  | [] => ret []
  | child :: rest =>
      do cob <- read child;
      do tl <- filterReal rest;
      ret (if o_isGap cob then tl else child :: tl)
  end.

(** The [forEach] of [removeGapsFromNode]; [node.startAngle] is read
    at every turn. *)
Definition forEachReal (recur : loc → M loc) (n : loc) (childAngle : num)
  : list loc → nat → M unit :=
  fix each (l : list loc) (index : nat) : M unit :=
    match l with
    | [] => ret tt
    | child :: rest =>
        do nob <- read n;
        do _ <- write child
                  (assignAngles
                     (nadd (o_startAngle nob)
                           (nmul childAngle (Some (ofNat index))))
                     childAngle);
        do _ <- recur child;
        each rest (S index)
    end.

Fixpoint removeGapsFromNode (fuel : nat) (n : loc) {struct fuel} : M loc :=
  match fuel with
  | O => fun _ => None
  | S fuel =>
      do ob <- read n;
      match o_children ob with
      | None => ret n
      | Some ch =>
          do realChildren <- filterReal ch;
          do _ <-
            (if (0 <? length realChildren)%nat then
               let childAngle :=
                 ndiv (o_angleRange ob) (Some (ofNat (length realChildren))) in
               forEachReal (removeGapsFromNode fuel) n childAngle
                           realChildren 0%nat
             else ret tt);
          do _ <- write n (assignChildren realChildren);
          ret n
      end
  end.

Definition removeGaps (fuel : nat) (data : list loc) : M (list loc) :=
  mapArray (removeGapsFromNode fuel) data.

(** The node an object is, with the trees [ch] for its children; the
    layout properties a stored object does not have are left undefined. *)
Definition valueOf (ob : object) (ch : option (list node)) : node :=
  Node (o_id ob) (o_name ob) (o_value ob) ch
       (o_isGap ob) (o_startAngle ob) (o_angleRange ob)
       None None None.

(** The tree below a location, read back as a value. *)
Fixpoint reify (fuel : nat) (s : store) (l : loc) : option node :=
  match fuel with
  | O => None
  | S fuel =>
      match s !! l with
      | None => None
      | Some ob =>
          match o_children ob with
          | None => Some (valueOf ob None)
          | Some ch =>
              match mapM (reify fuel s) ch with
              | Some ts => Some (valueOf ob (Some ts))
              | None => None
              end
          end
      end
  end.

End Heap.

(** ** Strings

    A name is held as the bytes of its UTF-8 text.  The engine counts a
    string in UTF-16 code units: a byte that continues a character
    ([10xxxxxx]) begins none, the first byte of a character of four
    bytes ([11110xxx]) stands for the two units of a surrogate pair,
    and any other first byte for one unit. *)
Definition codeUnits (c : Ascii.ascii) : nat :=
  let b := Ascii.nat_of_ascii c in
  if (b <? 128)%nat then 1%nat
  else if (b <? 192)%nat then 0%nat
  else if (b <? 240)%nat then 1%nat
  else 2%nat.

(** [s.length] *)
Fixpoint jsLength (s : string) : nat :=
  match s with
  | EmptyString => 0%nat
  | String c rest => (codeUnits c + jsLength rest)%nat
  end.

(** [s.substring(0, k)]: the characters within the first [k] units.
    When the cut falls inside a surrogate pair the engine keeps the
    first half of the pair, which no UTF-8 text holds; the text here
    ends before that character. *)
Fixpoint jsPrefix (k : nat) (s : string) : string :=
  match s with
  | EmptyString => EmptyString
  | String c rest =>
      match codeUnits c with
      | O => String c (jsPrefix k rest)
      | S u =>
          if (S u <=? k)%nat then String c (jsPrefix (k - S u) rest)
          else EmptyString
      end
  end.

(** ** SunburstEngine

    The functions of the engine that work on the data it holds: its own
    gap insertion, the two searches by position, the formatter of the
    labels, and the registration of listeners.  The chart is left out. *)

Module SunburstEngine.

(** The gap node of [applyGaps]; it has no [id]. *)
Definition gapNode (start range : Q) : node :=
  Node None EmptyString (Some 0) (Some []) true (Some start) (Some range)
       None None None.

(** The [forEach] of [processNode] in [applyGaps]. *)
Definition forEachChild (recur : node → Q → Q → node)
    (gapRadians childAngle : Q) (childrenCount : nat)
  : list node → nat → Q → list node :=
  fix each (l : list node) (index : nat) (currentAngle : Q) : list node :=
    match l with
    | [] => []
    | child :: rest =>
        let childStart := currentAngle in
        let currentAngle := currentAngle + childAngle in
        let processed := recur child childAngle childStart in
        if (index <? childrenCount - 1)%nat then
          processed
            :: gapNode currentAngle gapRadians
            :: each rest (S index) (currentAngle + gapRadians)
        else processed :: each rest (S index) currentAngle
    end.

(** As in [GapManager], the two assignments to the child are made on
    the result of the recursive call. *)
Fixpoint processNode (gapRadians : Q) (n : node)
    (parentAngleRange parentStartAngle : Q) {struct n} : node :=
  match children n with
  | None => n
  | Some ch =>
      match ch with
      | [] => n
      | _ :: _ =>
          let childrenCount := length ch in
          let totalGapAngle := gapRadians * ofNat childrenCount in
          let childAngle :=
            (parentAngleRange - totalGapAngle) / ofNat childrenCount in
          setChildren n
            (forEachChild
               (fun child range start =>
                  setAngles (processNode gapRadians child range start)
                            (Some start) (Some range))
               gapRadians childAngle childrenCount
               ch 0%nat parentStartAngle)
      end
  end.

Definition applyGaps (data : list node) (gapAngle : Q) : list node :=
  let gapRadians := gapAngle * Math_PI / 180 in
  map (fun n => processNode gapRadians n (2 * Math_PI) 0) data.

(** The [for] loop of [findNodeRecursive], in [findNodeIndex] and in
    [findNodeByIndex]: [body] runs on a node with the counter
    [currentIndex] and either returns what was found or hands on the
    counter. *)
Definition findLoop {A : Type} (body : node → nat → A + nat)
  : list node → nat → A + nat :=
  fix loop (l : list node) (currentIndex : nat) : A + nat :=
    match l with
    | [] => inr currentIndex
    | n :: rest =>
        match body n currentIndex with
        | inl found => inl found
        | inr currentIndex => loop rest currentIndex
        end
    end.

(** [findNodeIndex]: [node.id === nodeId] holds of two missing ids. *)
Fixpoint indexVisit (nodeId : option string) (n : node) (currentIndex : nat)
    {struct n} : nat + nat :=
  if bool_decide (id n = nodeId) then inl currentIndex
  else
    let currentIndex := S currentIndex in
    match children n with
    | Some ch =>
        match ch with
        | [] => inr currentIndex
        | _ :: _ => findLoop (indexVisit nodeId) ch currentIndex
        end
    | None => inr currentIndex
    end.

Definition findNodeIndex (data : list node) (nodeId : option string) : Z :=
  match findLoop (indexVisit nodeId) data 0%nat with
  | inl index => Z.of_nat index
  | inr _ => (-1)%Z
  end.

(** [findNodeByIndex] *)
Fixpoint nodeVisit (index : Z) (n : node) (currentIndex : nat)
    {struct n} : node + nat :=
  if (Z.of_nat currentIndex =? index)%Z then inl n
  else
    let currentIndex := S currentIndex in
    match children n with
    | Some ch =>
        match ch with
        | [] => inr currentIndex
        | _ :: _ => findLoop (nodeVisit index) ch currentIndex
        end
    | None => inr currentIndex
    end.

Definition findNodeByIndex (data : list node) (index : Z) : option node :=
  match findLoop (nodeVisit index) data 0%nat with
  | inl found => Some found
  | inr _ => None
  end.

(** [labelFormatter] on the node [params.data] and the sector angle
    [params.angleRange]. *)
Definition labelFormatter (n : node) (angleRange : num) : string :=
  if isGap n then EmptyString
  else if nlt angleRange (Some 0.1) then EmptyString
  else
    match angleRange with
    | Some a =>
        let maxLength := Qfloor (a * 10) in
        if (maxLength <? Z.of_nat (jsLength (name n)))%Z
           && (3 <? maxLength)%Z
        then String.append
               (jsPrefix (Z.to_nat (maxLength - 2)) (name n)) "..."
        else name n
    | None => name n
    end.

(** The event listeners.  A listener is a function, which [indexOf]
    tells from another by identity: here it is a number.
    [eventListeners] maps an event name to the array of its listeners.
    [emit], which calls them, is left out. *)
Definition listener : Type := nat.

Abbreviation listeners := (gmap string (list listener)).

Definition on (event : string) (l : listener) (m : listeners) : listeners :=
  match m !! event with
  | None => <[event := [l]]> m
  | Some ls => <[event := ls ++ [l]]> m
  end.

(** [listeners.indexOf(listener)] and [listeners.splice(index, 1)]:
    the first occurrence goes. *)
Fixpoint spliceFirst (l : listener) (ls : list listener) : list listener :=
  match ls with
  | [] => []
  | x :: rest =>
      if bool_decide (x = l) then rest else x :: spliceFirst l rest
  end.

Definition off (event : string) (l : listener) (m : listeners) : listeners :=
  match m !! event with
  | None => m
  | Some ls => <[event := spliceFirst l ls]> m
  end.

End SunburstEngine.

(** ** LayoutCalculator, with the rounding of its arithmetic

    The engine computes with doubles: the result of every operation is
    the double nearest to the exact result.  Here [fl] stands for that
    rounding, and the layout of [LayoutCalculator] is written out once
    more with [fl] around every operation; with the identity for [fl]
    it is the layout above.  A count is a number that needs no
    rounding. *)

Module Rounded.
Import LayoutCalculator.

Section Rounding.
Variable fl : Q → Q.

Definition calculateNodeWeight (n : node) : Q :=
  let weight := orDefault (value n) 1 in
  let weight :=
    match children n with
    | Some (c :: cs) => fl (weight + fl (ofNat (length (c :: cs)) * fl 0.1))
    | _ => weight
    end in
  Qmax weight (fl 0.1).

Definition calculateTotalWeight (nodes : list node) : Q :=
  fold_left (fun total n => fl (total + calculateNodeWeight n)) nodes 0.

Definition gapRadians (o : Options) : Q :=
  fl (fl (opt_gapAngle o * Math_PI) / 180).

Definition totalGapAngle (o : Options) (count : nat) : Q :=
  fl (gapRadians o * ofNat count).

Definition forEachSibling (place : node → Layout → node)
    (totalWeight available gap : Q) (count : nat)
    (dep : nat) (inner outer : Q)
  : list node → nat → Q → list node :=
  fix each (l : list node) (index : nat) (currentAngle : Q) : list node :=
    match l with
    | [] => []
    | n :: rest =>
        let nodeWeight := calculateNodeWeight n in
        let range := fl (fl (nodeWeight / totalWeight) * available) in
        let layoutNode :=
          place n {| l_startAngle := currentAngle; l_angleRange := range;
                     l_depth := dep;
                     l_innerRadius := inner; l_outerRadius := outer |} in
        let currentAngle := fl (currentAngle + range) in
        let currentAngle :=
          if (index <? count - 1)%nat then fl (currentAngle + gap)
          else currentAngle in
        layoutNode :: each rest (S index) currentAngle
    end.

Fixpoint createLayoutNode (o : Options) (n : node) (layout : Layout)
    {struct n} : node :=
  let layoutNode := spread n layout in
  match children n with
  | Some ch =>
      match ch with
      | [] => layoutNode
      | _ :: _ =>
          let childDepth := (l_depth layout + 1)%nat in
          let radiusStep :=
            fl (fl (l_outerRadius layout - l_innerRadius layout)
                / ofNat (opt_maxDepth o + 1)) in
          let childInnerRadius :=
            fl (l_innerRadius layout + fl (radiusStep * ofNat childDepth)) in
          let childOuterRadius := fl (childInnerRadius + radiusStep) in
          let childTotalWeight := calculateTotalWeight ch in
          let availableAngle :=
            fl (l_angleRange layout - totalGapAngle o (length ch)) in
          setChildren layoutNode
            (forEachSibling (createLayoutNode o)
               childTotalWeight availableAngle (gapRadians o) (length ch)
               childDepth childInnerRadius childOuterRadius
               ch 0%nat (l_startAngle layout))
      end
  | None => layoutNode
  end.

Definition calculateLayout (o : Options) (nodes : list node) : list node :=
  match nodes with
  | [] => []
  | _ :: _ =>
      let totalWeight := calculateTotalWeight nodes in
      let availableAngle :=
        fl (fl (2 * Math_PI) - totalGapAngle o (length nodes)) in
      forEachSibling (createLayoutNode o)
        totalWeight availableAngle (gapRadians o) (length nodes)
        0%nat (opt_innerRadius o) (opt_outerRadius o)
        nodes 0%nat 0
  end.
End Rounding.

End Rounded.

(** ** The ring of a child, on doubles

    The three lines of [createLayoutNode] that compute the ring of the
    children of a node, on binary64 numbers, each operation rounded as
    the engine rounds it. *)

Module Doubles.

Definition radiusStep (innerRadius outerRadius maxDepth : float) : float :=
  ((outerRadius - innerRadius) / (maxDepth + 1))%float.

Definition childInnerRadius
    (innerRadius outerRadius maxDepth childDepth : float) : float :=
  (innerRadius + radiusStep innerRadius outerRadius maxDepth * childDepth)%float.

Definition childOuterRadius
    (innerRadius outerRadius maxDepth childDepth : float) : float :=
  (childInnerRadius innerRadius outerRadius maxDepth childDepth
   + radiusStep innerRadius outerRadius maxDepth)%float.

End Doubles.

(** * Part 2: samples and statements

    The samples and the notions the properties below are stated with. *)

Import LayoutCalculator.

(** ** Samples *)

(** A raw node without children. *)
Definition leaf (nm : string) (v : Q) : node := rawNode nm (Some v) None.

(** A root with a leaf and a node of two leaves, of weight 1 and 1000. *)
Definition sampleTree : node :=
  rawNode "R" None
    (Some [leaf "A" 1;
           rawNode "B" (Some 3) (Some [leaf "C" 1; leaf "D" 1000])]).

(** A root with a heavy leaf next to a light node of two leaves. *)
Definition skewedTree : node :=
  rawNode "R" None
    (Some [leaf "A" 1000;
           rawNode "B" (Some 1) (Some [leaf "C" 1; leaf "D" 1])]).

(** A chain of [k + 1] nodes, one below the other. *)
Fixpoint chain (k : nat) : node :=
  match k with
  | O => rawNode "n" None None
  | S k => rawNode "n" None (Some [chain k])
  end.

(** The scenario of the specification: a root with two children of
    weight 1 and 3, and a gap of 10 degrees; and the two children as
    roots. *)
Definition sampleData : node :=
  rawNode "R" None (Some [leaf "A" 1; leaf "B" 3]).

Definition twoRoots : list node := [leaf "A" 1; leaf "B" 3].

Definition gap10 : Options :=
  {| opt_innerRadius := 0.15; opt_outerRadius := 0.90;
     opt_gapAngle := 10; opt_maxDepth := 10 |}.

(** The default options with [maxDepth] 1. *)
Definition twoLevels : Options :=
  {| opt_innerRadius := 0.15; opt_outerRadius := 0.90;
     opt_gapAngle := 3; opt_maxDepth := 1 |}.

(** The default options without gaps. *)
Definition noGaps : Options :=
  {| opt_innerRadius := 0.15; opt_outerRadius := 0.90;
     opt_gapAngle := 0; opt_maxDepth := 10 |}.

(** The layout of [sampleTree] with the default options, its root and
    the first child of the root. *)
Definition sampleLayout : list node := calculateLayout defaults [sampleTree].

Definition sampleRoot : node := hd sampleTree sampleLayout.

Definition sampleChild : node := hd sampleTree (childList sampleRoot).

(** A layout computed from data that [insertGaps] went through. *)
Definition layoutOverGaps : list node :=
  calculateLayout defaults
    (GapManager.insertGaps GapManager.defaults [sampleTree]).

(** A table without entries, a key function, and a table that holds
    under the key of [sampleTree] the layout of another input. *)
Definition emptyCache : gmap string (list node) := ∅.

Definition sampleKey (nodes : list node) : string :=
  String.concat "," (map name nodes).

Definition staleCache : gmap string (list node) :=
  {[ sampleKey [sampleTree] := layoutOverGaps ]}.

Definition leafObject (nm : string) (v : Q) : Heap.object :=
  Heap.Obj (Some nm) nm (Some v) None false None None.

(** [sampleData] in a store: the root at location 0, its two leaves at
    1 and 2. *)
Definition sampleStore : Heap.store :=
  list_to_map
    [(0%nat, Heap.Obj (Some "R") "R" None (Some [1%nat; 2%nat]) false
                      None None);
     (1%nat, leafObject "A" 1);
     (2%nat, leafObject "B" 3)].

(** ** Weights *)

(** The weight of a sibling group, summed from the left. *)
Fixpoint sumWeights (l : list node) : Q :=
  match l with
  | [] => 0
  | n :: rest => calculateNodeWeight n + sumWeights rest
  end.

Definition setValue (n : node) (v : num) : node :=
  Node (id n) (name n) v (children n) (isGap n)
       (startAngle n) (angleRange n) (depth n) (innerRadius n) (outerRadius n).

(** The weight in the words of the specification: [max(w, 0.1)] where
    [w] is the value if it is a non-zero number, else 1, plus 0.1 times
    the number of children. *)
Definition specWeight (n : node) : Q :=
  let v := match value n with
           | Some x => if Qeq_bool x 0 then 1 else x
           | None => 1
           end in
  Qmax (v + 0.1 * ofNat (length (childList n))) 0.1.

(** ** Angles *)

(** Angle conservation as the specification states it: the children of
    [p], gap nodes included, add up to the range of [p] within [tol]. *)
Definition conserved (tol : Q) (p : node) : bool :=
  match children p with
  | Some (c :: cs) =>
      match angleRange p, sumAngleRange (c :: cs) with
      | Some r, Some s => Qle_bool (Qabs (s - r)) tol
      | _, _ => false
      end
  | _ => true
  end.

Definition angleConservation (tol : Q) (forest : list node) : bool :=
  forallb (conserved tol) (allNodes forest).

(** What the layout keeps instead: the children of [p] add up to the
    range of [p] less the gap angle reserved for the group. *)
Definition groupBudget (o : Options) (p : node) : Prop :=
  ∀ c cs, children p = Some (c :: cs) →
    ∃ r s, angleRange p = Some r
      ∧ sumAngleRange (c :: cs) = Some s
      ∧ s == r - totalGapAngle o (length (c :: cs)).

(** [n] is placed at angle [s] with range [r]. *)
Definition hasAngles (n : node) (s r : Q) : Prop :=
  ∃ s' r', startAngle n = Some s' ∧ angleRange n = Some r'
           ∧ s' == s ∧ r' == r.

Definition degrees (d : Q) : Q := d * Math_PI / 180.

(** The start angle of sibling number [k] of the group [l] laid out from
    [a] on: the shares of the siblings before it, and one gap after each
    of them. *)
Fixpoint startOf (totalWeight available gap : Q) (l : list node) (k : nat)
    (a : Q) : Q :=
  match k, l with
  | S k, n :: rest =>
      startOf totalWeight available gap rest k
              (a + calculateNodeWeight n / totalWeight * available + gap)
  | _, _ => a
  end.

(** No real node has an angle range of zero or less. *)
Definition positiveAngles (forest : list node) : bool :=
  forallb (fun p => isGap p || nlt (Some 0) (angleRange p)) (allNodes forest).

(** An issue about angles: the sum of the roots, or an overlap. *)
Definition angleIssue (i : issue) : bool :=
  match i with
  | AngleSumError _ _ | AngleOverlap _ _ => true
  | _ => false
  end.

(** ** Rings and depth *)

(** The layout a child is placed with, from the layout of its parent:
    one level down, in band number [depth] of the [maxDepth + 1] equal
    bands of the parent's ring. *)
Definition childLayoutOf (o : Options) (layout child : Layout) : Prop :=
  let radiusStep :=
    (l_outerRadius layout - l_innerRadius layout)
    / ofNat (opt_maxDepth o + 1) in
  l_depth child = (l_depth layout + 1)%nat
  ∧ l_innerRadius child
    = l_innerRadius layout + radiusStep * ofNat (l_depth layout + 1)
  ∧ l_outerRadius child
    = l_innerRadius layout + radiusStep * ofNat (l_depth layout + 1)
      + radiusStep.

(** The ring of the child [c] of [p], as the layout computes it. *)
Definition ringOfChild (o : Options) (p c : node) : Prop :=
  ∃ pi po d ci co,
    innerRadius p = Some pi ∧ outerRadius p = Some po
    ∧ depth c = Some d ∧ depth p = Some (d - 1)%nat ∧ (1 <= d)%nat
    ∧ innerRadius c = Some ci ∧ outerRadius c = Some co
    ∧ ci == pi + (po - pi) / ofNat (opt_maxDepth o + 1) * ofNat d
    ∧ co == ci + (po - pi) / ofNat (opt_maxDepth o + 1).

(** Radius nesting: [p.inner <= c.inner < c.outer <= p.outer]. *)
Definition nested (p c : node) : Prop :=
  ∃ pi po ci co,
    innerRadius p = Some pi ∧ outerRadius p = Some po
    ∧ innerRadius c = Some ci ∧ outerRadius c = Some co
    ∧ pi <= ci ∧ ci < co ∧ co <= po.

Definition nestedb (p c : node) : bool :=
  match innerRadius p, outerRadius p, innerRadius c, outerRadius c with
  | Some pi, Some po, Some ci, Some co =>
      Qle_bool pi ci && negb (Qle_bool co ci) && Qle_bool co po
  | _, _, _, _ => false
  end.

Definition radiusNesting (forest : list node) : bool :=
  forallb (fun p => forallb (nestedb p) (childList p)) (allNodes forest).

(** The radial band in the words of the specification: the root range
    cut into [maxDepth + 1] equal bands, band [depth] for a node at
    [depth], the last band beyond [maxDepth]. *)
Definition ringFor (d : nat) (rootInner rootOuter : Q) (maxDepth : nat)
  : Q * Q :=
  let step := (rootOuter - rootInner) / ofNat (maxDepth + 1) in
  let band := Nat.min d maxDepth in
  (rootInner + step * ofNat band, rootInner + step * ofNat (band + 1)).

Definition inBand (o : Options) (p : node) : bool :=
  match depth p, innerRadius p, outerRadius p with
  | Some d, Some i, Some e =>
      let band := ringFor d (opt_innerRadius o) (opt_outerRadius o)
                          (opt_maxDepth o) in
      Qeq_bool i (fst band) && Qeq_bool e (snd band)
  | _, _, _ => false
  end.

Definition bandAssignment (o : Options) (forest : list node) : bool :=
  forallb (inBand o) (allNodes forest).

(** Depth truncation as the specification states it: no node of the
    layout lies deeper than [maxDepth]. *)
Definition depthBounded (o : Options) (forest : list node) : bool :=
  forallb (fun p => match depth p with
                    | Some d => (d <=? opt_maxDepth o)%nat
                    | None => false
                    end)
          (allNodes (calculateLayout o forest)).

(** The level of every node of a tree whose root is at level [d], in the
    order of [subnodes]. *)
Fixpoint levelsFrom (d : nat) (n : node) : list nat :=
  d :: match children n with
       | Some ch => flat_map (levelsFrom (S d)) ch
       | None => []
       end.

Definition levels (forest : list node) : list nat :=
  flat_map (levelsFrom 0) forest.

(** What a placed node keeps of the input node it is placed for. *)
Definition payload (n : node) : option string * string * num * bool :=
  (id n, name n, value n, isGap n).

(** Rounding to the nearest multiple of [1 / 64], the upper one at a
    tie: a rounding with few numbers, as the doubles are one with
    many. *)
Definition toSixtyFourths (x : Q) : Q := Qfloor (x * 64 + (1 # 2)) # 64.

(** The lower half of radius nesting: [p.inner <= c.inner <= c.outer]. *)
Definition nestedBelow (p c : node) : Prop :=
  ∃ pi ci co,
    innerRadius p = Some pi
    ∧ innerRadius c = Some ci ∧ outerRadius c = Some co
    ∧ pi <= ci ∧ ci <= co.

(** A layout a node is placed with: the outer radius is not below the
    inner one, and the inner radius is a stored number. *)
Definition ringStored (fl : Q → Q) (layout : Layout) : Prop :=
  l_innerRadius layout <= l_outerRadius layout
  ∧ fl (l_innerRadius layout) == l_innerRadius layout.

(** Options whose radii are multiples of [1 / 64], and the layout of
    [sampleTree] with them when every result is rounded to such a
    multiple. *)
Definition coarse : Options :=
  {| opt_innerRadius := 1 # 4; opt_outerRadius := 7 # 8;
     opt_gapAngle := 3; opt_maxDepth := 1 |}.

Definition coarseLayout : list node :=
  Rounded.calculateLayout toSixtyFourths coarse [sampleTree].

Definition coarseRoot : node := hd sampleTree coarseLayout.

Definition coarseChild : node := hd sampleTree (childList coarseRoot).

(** ** Hit-testing *)

(** The sector of [n] contains the point, as [findNodeByPolar] tests it. *)
Definition contains (angle radiusRatio : Q) (n : node) : bool :=
  angleInRange angle n && radiusInRange radiusRatio n.

(** The classification of hit-test results as the specification states
    it: no node exactly when the point is out of bounds, and never a gap
    node. *)
Definition hitTestClaim (forest : list node) (angle radiusRatio : Q) : Prop :=
  (findNodeByPolar angle radiusRatio forest = None ↔ 1 < radiusRatio)
  ∧ (∀ n, findNodeByPolar angle radiusRatio forest = Some n →
          isGap n = false).

(** ** Gaps *)

(** No node of the forest is a gap node. *)
Definition gapFree (forest : list node) : Prop :=
  ∀ p, In p (allNodes forest) → isGap p = false.

(** The children of [p] split its range evenly, from its start angle on,
    with nothing between them. *)
Definition evenlySplit (p : node) : Prop :=
  let childAngle :=
    ndiv (angleRange p) (Some (ofNat (length (childList p)))) in
  ∀ i c, nth_error (childList p) i = Some c →
    angleRange c = childAngle
    ∧ startAngle c = nadd (startAngle p) (nmul childAngle (Some (ofNat i))).

Definition closeNum (tol : Q) (a b : num) : bool :=
  match a, b with
  | Some x, Some y => Qle_bool (Qabs (x - y)) tol
  | None, None => true
  | _, _ => false
  end.

(** Two forests have the same nodes, one for one, with the same start
    angle and angle range within [tol]. *)
Definition sameAssignment (tol : Q) (f g : list node) : bool :=
  (length (allNodes f) =? length (allNodes g))%nat
  && forallb (fun ab => closeNum tol (startAngle (fst ab)) (startAngle (snd ab))
                        && closeNum tol (angleRange (fst ab))
                                    (angleRange (snd ab)))
             (combine (allNodes f) (allNodes g)).

(** The gap nodes that belong between the children of the nodes of a
    forest: one fewer than the children, at every node that has
    children; and the most that belong below one node. *)
Definition gapsBetween (l : list node) : nat :=
  list_sum (map (fun p => (length (childList p) - 1)%nat) l).

Definition mostGapsBetween (l : list node) : nat :=
  list_max (map (fun p => (length (childList p) - 1)%nat) l).

(** A tree with the angles of all its nodes taken away: the nodes that
    are left, what they carry and where they sit in the tree. *)
Fixpoint skeleton (n : node) : node :=
  Node (id n) (name n) (value n)
       (match children n with
        | Some ch => Some (map skeleton ch)
        | None => None
        end)
       (isGap n) None None (depth n) (innerRadius n) (outerRadius n).

(** Two numbers are the same number, or are both missing. *)
Definition numEq (a b : num) : Prop :=
  match a, b with
  | Some x, Some y => x == y
  | None, None => True
  | _, _ => False
  end.

(** [evenlySplit] read on the value of the numbers: the angles of the
    children of [p] are the numbers of the even split of its range. *)
Definition evenSplit (p : node) : Prop :=
  let childAngle :=
    ndiv (angleRange p) (Some (ofNat (length (childList p)))) in
  ∀ i c, nth_error (childList p) i = Some c →
    numEq (angleRange c) childAngle
    ∧ numEq (startAngle c)
            (nadd (startAngle p) (nmul childAngle (Some (ofNat i)))).

(** Two nodes have the same start angle and the same angle range. *)
Definition sameAngles (a b : node) : Prop :=
  numEq (startAngle a) (startAngle b) ∧ numEq (angleRange a) (angleRange b).


(** The start angle of child number [k] of a group that [insertGaps]
    lays out from [a] on: a child and a gap further for every child
    before it. *)
Fixpoint gapStartOf (gap childAngle : Q) (k : nat) (a : Q) : Q :=
  match k with
  | O => a
  | S k => gapStartOf gap childAngle k (a + childAngle + gap)
  end.

(** [ch'] is the children [ch] of [parentNode] with the gap nodes
    spliced in: child number [k], processed, at place [2 * k], and a
    gap node at every place [2 * k + 1] between two of them. *)
Definition spliced (o : GapManager.Options) (parentNode : node)
    (range start : Q) (ch ch' : list node) : Prop :=
  let childAngle :=
    (range - GapManager.totalGapAngle o (length ch)) / ofNat (length ch) in
  let gap := GapManager.gapRadians o in
  length ch' = (length ch + (length ch - 1))%nat
  ∧ (∀ k c, nth_error ch k = Some c →
       nth_error ch' (2 * k)
       = Some (setAngles
                 (GapManager.processNode o c childAngle
                    (gapStartOf gap childAngle k start))
                 (Some (gapStartOf gap childAngle k start))
                 (Some childAngle)))
  ∧ (∀ k, (S k < length ch)%nat →
       nth_error ch' (2 * k + 1)
       = Some (GapManager.createGapNode
                 (gapStartOf gap childAngle k start + childAngle) gap
                 parentNode k)).

(** The node [createGapExample] builds before it inserts the gaps. *)
Definition exampleParent (childCount : nat) (parentAngle : Q) : node :=
  Node None "父节点" (Some (ofNat childCount))
       (Some (map (fun i =>
                     Node None (String.append "子节点 " (pretty (i + 1)%nat))
                          (Some 1) (Some []) false
                          None None None None None)
                  (seq 0 childCount)))
       false (Some 0) (Some (parentAngle * Math_PI / 180))
       None None None.

(** ** The store *)

(** Purity of [insertGaps] as the specification states it: every object
    of the store is after the call what it was before. *)
Definition leavesInputUnchanged (fuel : nat) (o : GapManager.Options)
    (data : list Heap.loc) (s : Heap.store) : Prop :=
  ∀ r s', Heap.insertGaps fuel o data s = Some (r, s') →
    ∀ l ob, s !! l = Some ob → s' !! l = Some ob.

(** The number of levels of a tree. *)
Fixpoint height (n : node) : nat :=
  S (match children n with
     | Some ch => list_max (map height ch)
     | None => 0
     end).

(** [tree s l t X]: in the store [s] the object at [l] and the objects
    below it are the tree [t], and they sit at the locations [X], each
    object at one place of the tree only.  [forest] is the same for a
    list of locations. *)
Inductive tree (s : Heap.store) : Heap.loc → node → gset Heap.loc → Prop :=
  | tree_leaf l ob :
      s !! l = Some ob → Heap.o_children ob = None →
      tree s l (Heap.valueOf ob None) {[l]}
  | tree_node l ob ls ts X :
      s !! l = Some ob → Heap.o_children ob = Some ls →
      forest s ls ts X → l ∉ X →
      tree s l (Heap.valueOf ob (Some ts)) ({[l]} ∪ X)
with forest (s : Heap.store)
  : list Heap.loc → list node → gset Heap.loc → Prop :=
  | forest_nil : forest s [] [] ∅
  | forest_cons l ls t ts X Y :
      tree s l t X → forest s ls ts Y → X ## Y →
      forest s (l :: ls) (t :: ts) (X ∪ Y).

(** [processNode] on the store does to a tree what [processNode] on
    values computes: it returns the location it was given, leaves there
    the processed tree, at the old locations and at new ones, and touches
    no other object. *)
Definition simulates (o : GapManager.Options) (t : node) : Prop :=
  ∀ sa ar s l X fuel range start,
    tree s l (setAngles t sa ar) X → (height t <= fuel)%nat →
    ∃ s' X',
      Heap.processNode fuel o l range start s = Some (l, s')
      ∧ tree s' l (GapManager.processNode o (setAngles t sa ar) range start) X'
      ∧ (∀ l', l' ∈ X' → l' ∉ X → l' ∉ dom s)
      ∧ (∀ l', l' ∈ dom s → l' ∉ X → s' !! l' = s !! l')
      ∧ dom s ⊆ dom s'.

(** The same for [removeGapsFromNode]; it makes no new object. *)
Definition simulatesRemove (t : node) : Prop :=
  ∀ sa ar s l X fuel,
    tree s l (setAngles t sa ar) X → (height t <= fuel)%nat →
    ∃ s' X',
      Heap.removeGapsFromNode fuel l s = Some (l, s')
      ∧ tree s' l (GapManager.removeGapsFrom t sa ar) X'
      ∧ X' ⊆ X
      ∧ (∀ l', l' ∉ X → s' !! l' = s !! l')
      ∧ dom s' = dom s.

(** ** The engine *)

(** A node with the [id] of every gap node in it taken away. *)
Fixpoint withoutGapIds (n : node) : node :=
  Node (if isGap n then None else id n) (name n) (value n)
       (match children n with
        | Some ch => Some (map withoutGapIds ch)
        | None => None
        end)
       (isGap n) (startAngle n) (angleRange n) (depth n)
       (innerRadius n) (outerRadius n).

(** The default options of the manager with gaps from one child on. *)
Definition everyNode : GapManager.Options :=
  {| GapManager.opt_gapAngle := 3; GapManager.opt_enableGaps := true;
     GapManager.opt_minChildrenForGap := 1 |}.

(** An engine no listener was added to. *)
Definition noListeners : SunburstEngine.listeners := ∅.

(** A registry as [createGapNode] writes it: one entry to a key, every
    entry under the [id] it holds, every gap as wide as [gap]. *)
Definition registryOk (gap : Q) (m : GapManager.registry) : Prop :=
  NoDup (map fst m)
  ∧ ∀ k v, In (k, v) m →
      GapManager.gi_id v = k ∧ GapManager.gi_angleRange v = gap.

(** The gap nodes among the children of the nodes of [l] are all in the
    registry, under their [id]. *)
Definition gapsRegistered (l : list node) (m : GapManager.registry) : Prop :=
  ∀ p c, In p l → In c (childList p) → isGap c = true →
    ∃ k v, id c = Some k ∧ GapManager.getGapInfo k m = Some v.

(** What [processNodeWith] does to a node: it gives the node of
    [processNode]; the registry stays as [createGapNode] writes it and
    loses no key; and, when the node had no gap node among the children
    of its nodes, those of the result are registered. *)
Definition registers (o : GapManager.Options) (x : node) : Prop :=
  ∀ range start m,
    fst (GapManager.processNodeWith o x range start m)
    = GapManager.processNode o x range start
    ∧ (registryOk (GapManager.gapRadians o) m →
       registryOk (GapManager.gapRadians o)
                  (snd (GapManager.processNodeWith o x range start m)))
    ∧ (∀ k, GapManager.mapGet k m ≠ None →
            GapManager.mapGet k
              (snd (GapManager.processNodeWith o x range start m)) ≠ None)
    ∧ ((∀ p c, In p (subnodes x) → In c (childList p) → isGap c = false) →
       gapsRegistered
         (subnodes (GapManager.processNode o x range start))
         (snd (GapManager.processNodeWith o x range start m))).

(** The default options of the manager with gaps disabled. *)
Definition gapsDisabled : GapManager.Options :=
  {| GapManager.opt_gapAngle := 3; GapManager.opt_enableGaps := false;
     GapManager.opt_minChildrenForGap := 2 |}.

(** A registry with one entry to a key, every entry under the [id] it
    holds. *)
Definition registryKeyed (m : GapManager.registry) : Prop :=
  NoDup (map fst m) ∧ ∀ k v, In (k, v) m → GapManager.gi_id v = k.

(** A manager with the defaults of the constructor, and one with other
    options and an opacity of 0.5. *)
Definition defaultManager : GapManager.Manager :=
  {| GapManager.m_options := GapManager.defaults;
     GapManager.m_gapColor := "transparent";
     GapManager.m_gapOpacity := 0;
     GapManager.m_gapNodes := [] |}.

Definition otherManager : GapManager.Manager :=
  {| GapManager.m_options := everyNode;
     GapManager.m_gapColor := "white";
     GapManager.m_gapOpacity := 0.5;
     GapManager.m_gapNodes := [] |}.

(** The listeners of an event: the array [eventListeners] holds for
    it, in the order of the array, and none when it holds no array. *)
Definition listenersOf (event : string) (m : SunburstEngine.listeners)
  : list SunburstEngine.listener :=
  match m !! event with
  | Some ls => ls
  | None => []
  end.

(** A text without characters beyond the basic plane: no character of
    four bytes, so no surrogate pair. *)
Fixpoint basicPlane (s : string) : Prop :=
  match s with
  | EmptyString => True
  | String c rest => (codeUnits c <= 1)%nat ∧ basicPlane rest
  end.

(** A node named in Chinese, six characters of three bytes each. *)
Definition namedNode : node := leaf "中心主题思想" 1.

(** * Part 3: properties *)

(** ** Induction over a node and its subtrees *)

Lemma node_subtree_ind (P : node → Prop) :
  (∀ n, (∀ ch, children n = Some ch → Forall P ch) → P n) →
  ∀ n, P n.
Proof.
  intros step.
  fix IH 1. intros [i nm v och g s r d ir or]. apply step; simpl.
  destruct och as [l|]; [|discriminate].
  assert (HF : Forall P l).
  { induction l as [|c l IHl]; constructor; [apply IH | exact IHl]. }
  intros ch E. injection E as <-. exact HF.
Qed.

Lemma subnodes_self (n : node) : In n (subnodes n).
Proof. destruct n; simpl; auto. Qed.

Lemma subnodes_child (n c : node) (ch : list node) (p : node) :
  children n = Some ch → In c ch → In p (subnodes c) → In p (subnodes n).
Proof.
  intros Hch Hc Hp. destruct n; simpl in *. subst. right.
  apply in_flat_map. eauto.
Qed.

(** ** Numbers *)

Lemma ofNat_S (n : nat) : ofNat (S n) == ofNat n + 1.
Proof.
  unfold ofNat. rewrite Nat2Z.inj_succ, <- Z.add_1_r, inject_Z_plus.
  reflexivity.
Qed.

Lemma ofNat_nonneg (n : nat) : 0 <= ofNat n.
Proof.
  unfold ofNat. change 0 with (inject_Z 0). rewrite <- Zle_Qle. lia.
Qed.

Lemma ofNat_pos (n : nat) : (0 < n)%nat → 0 < ofNat n.
Proof.
  intros H. unfold ofNat. change 0 with (inject_Z 0). rewrite <- Zlt_Qlt. lia.
Qed.

Lemma ofNat_le (n m : nat) : (n <= m)%nat → ofNat n <= ofNat m.
Proof. intros H. unfold ofNat. rewrite <- Zle_Qle. lia. Qed.

(** ** Comparisons of numbers *)

Lemma nlt_Some (a b : Q) : nlt (Some a) (Some b) = true ↔ a < b.
Proof.
  unfold nlt. destruct (Qle_bool b a) eqn:E; simpl.
  - apply Qle_bool_iff in E. split; [discriminate|]. intros H. lra.
  - split; [|reflexivity]. intros _.
    destruct (Qlt_le_dec a b) as [H|H]; [exact H|].
    apply Qle_bool_iff in H. congruence.
Qed.

Lemma nlt_Some_false (a b : Q) : nlt (Some a) (Some b) = false ↔ b <= a.
Proof.
  unfold nlt. destruct (Qle_bool b a) eqn:E; simpl.
  - apply Qle_bool_iff in E. tauto.
  - split; [discriminate|]. intros H. apply Qle_bool_iff in H. congruence.
Qed.

Lemma nle_Some (a b : Q) : nle (Some a) (Some b) = true ↔ a <= b.
Proof. unfold nle. apply Qle_bool_iff. Qed.

Lemma nle_Some_false (a b : Q) : nle (Some a) (Some b) = false ↔ b < a.
Proof.
  unfold nle. destruct (Qle_bool a b) eqn:E.
  - apply Qle_bool_iff in E. split; [discriminate|]. intros H. lra.
  - split; [|reflexivity]. intros _.
    destruct (Qlt_le_dec b a) as [H|H]; [exact H|].
    apply Qle_bool_iff in H. congruence.
Qed.

(** ** The weight model *)

Lemma calculateNodeWeight_min (n : node) : 0.1 <= calculateNodeWeight n.
Proof. unfold calculateNodeWeight. apply Q.le_max_r. Qed.

Lemma calculateNodeWeight_pos (n : node) : 0 < calculateNodeWeight n.
Proof. pose proof (calculateNodeWeight_min n). lra. Qed.

Lemma fold_weights (l : list node) (acc : Q) :
  fold_left (fun total n => total + calculateNodeWeight n) l acc
  == acc + sumWeights l.
Proof.
  revert acc. induction l as [|n l IH]; intros acc; simpl.
  - lra.
  - rewrite IH. lra.
Qed.

Lemma calculateTotalWeight_sum (l : list node) :
  calculateTotalWeight l == sumWeights l.
Proof. unfold calculateTotalWeight. rewrite fold_weights. lra. Qed.

Lemma sumWeights_min (l : list node) : 0.1 * ofNat (length l) <= sumWeights l.
Proof.
  induction l as [|n l IH].
  - unfold Qle; simpl; lia.
  - cbn [length sumWeights]. rewrite ofNat_S.
    pose proof (calculateNodeWeight_min n). lra.
Qed.

Lemma calculateTotalWeight_pos (l : list node) :
  l ≠ [] → 0 < calculateTotalWeight l.
Proof.
  intros Hl. rewrite calculateTotalWeight_sum.
  destruct l as [|n l]; [congruence|].
  pose proof (sumWeights_min l). pose proof (ofNat_nonneg (length l)).
  pose proof (calculateNodeWeight_pos n). simpl. nra.
Qed.

Lemma Qmax_eq_compat (a b c : Q) : a == b → Qmax a c == Qmax b c.
Proof. intros H. rewrite H. reflexivity. Qed.

Lemma calculateNodeWeight_spec (n : node) :
  calculateNodeWeight n == specWeight n.
Proof.
  unfold calculateNodeWeight, specWeight, childList, orDefault.
  apply Qmax_eq_compat.
  destruct (children n) as [[|c cs]|]; cbn iota.
  - change (ofNat (length [])) with 0. lra.
  - lra.
  - change (ofNat (length [])) with 0. lra.
Qed.

Lemma calculateNodeWeight_setValue_zero (n : node) :
  calculateNodeWeight (setValue n (Some 0))
  = calculateNodeWeight (setValue n (Some 1))
  ∧ calculateNodeWeight (setValue n None)
    = calculateNodeWeight (setValue n (Some 1)).
Proof. split; reflexivity. Qed.

Lemma calculateNodeWeight_children (n : node) (v : Q) :
  hasChildren n = true → value n = Some v → 0 < v →
  calculateNodeWeight n == v + 0.1 * ofNat (length (childList n))
  ∧ v < calculateNodeWeight n.
Proof.
  intros Hch Hv Hpos.
  assert (Hlen : 1 <= ofNat (length (childList n))).
  { unfold hasChildren, childList in *.
    destruct (children n) as [[|c cs]|]; try discriminate.
    cbn iota. change 1 with (ofNat 1). apply ofNat_le. simpl. lia. }
  assert (E : calculateNodeWeight n
              == v + 0.1 * ofNat (length (childList n))).
  { rewrite calculateNodeWeight_spec. unfold specWeight. rewrite Hv.
    destruct (Qeq_bool v 0) eqn:E0.
    { apply Qeq_bool_iff in E0. lra. }
    apply Q.max_l. lra. }
  split; [exact E|]. rewrite E. lra.
Qed.

(** C10.  The weight that sizes a sector is [max(w, 0.1)], where [w] is
    the value when it is a non-zero number and 1 otherwise, plus 0.1 per
    child.  So it is at least 0.1; a node of value 0 weighs what the same
    node weighs with value 1 or with no value; and a node with children
    and a positive value weighs strictly more than its value. *)
Theorem weight_model (n : node) :
  calculateNodeWeight n == specWeight n
  ∧ 0.1 <= calculateNodeWeight n
  ∧ calculateNodeWeight (setValue n (Some 0))
    = calculateNodeWeight (setValue n (Some 1))
  ∧ calculateNodeWeight (setValue n None)
    = calculateNodeWeight (setValue n (Some 1))
  ∧ (∀ v, hasChildren n = true → value n = Some v → 0 < v →
       calculateNodeWeight n == v + 0.1 * ofNat (length (childList n))
       ∧ v < calculateNodeWeight n).
Proof.
  split; [apply calculateNodeWeight_spec|].
  split; [apply calculateNodeWeight_min|].
  split; [apply calculateNodeWeight_setValue_zero|].
  split; [apply calculateNodeWeight_setValue_zero|].
  intros v. apply calculateNodeWeight_children.
Qed.

(** ** The layout of a sibling group *)

Lemma createLayoutNode_eq (o : Options) (n : node) (layout : Layout) :
  createLayoutNode o n layout =
  match children n with
  | Some (c :: cs) =>
      let ch := c :: cs in
      let childDepth := (l_depth layout + 1)%nat in
      let radiusStep :=
        (l_outerRadius layout - l_innerRadius layout)
        / ofNat (opt_maxDepth o + 1) in
      let childInnerRadius :=
        l_innerRadius layout + radiusStep * ofNat childDepth in
      setChildren (spread n layout)
        (forEachSibling (createLayoutNode o)
           (calculateTotalWeight ch)
           (l_angleRange layout - totalGapAngle o (length ch))
           (gapRadians o) (length ch)
           childDepth childInnerRadius (childInnerRadius + radiusStep)
           ch 0%nat (l_startAngle layout))
  | _ => spread n layout
  end.
Proof. destruct n as [i nm v [[|c cs]|] g s r d ir or]; reflexivity. Qed.

Lemma createLayoutNode_fields (o : Options) (n : node) (layout : Layout) :
  startAngle (createLayoutNode o n layout) = Some (l_startAngle layout)
  ∧ angleRange (createLayoutNode o n layout) = Some (l_angleRange layout)
  ∧ depth (createLayoutNode o n layout) = Some (l_depth layout)
  ∧ innerRadius (createLayoutNode o n layout) = Some (l_innerRadius layout)
  ∧ outerRadius (createLayoutNode o n layout) = Some (l_outerRadius layout).
Proof.
  rewrite createLayoutNode_eq.
  destruct (children n) as [[|c cs]|]; repeat split; reflexivity.
Qed.

Lemma createLayoutNode_payload (o : Options) (n : node) (layout : Layout) :
  id (createLayoutNode o n layout) = id n
  ∧ name (createLayoutNode o n layout) = name n
  ∧ value (createLayoutNode o n layout) = value n
  ∧ isGap (createLayoutNode o n layout) = isGap n.
Proof.
  rewrite createLayoutNode_eq.
  destruct (children n) as [[|c cs]|]; repeat split; reflexivity.
Qed.

Section Siblings.
Variable place : node → Layout → node.
Variables totalWeight available gap : Q.
Variable count dep : nat.
Variables inner outer : Q.

Local Abbreviation each :=
  (forEachSibling place totalWeight available gap count dep inner outer).

Lemma forEachSibling_length (l : list node) (i : nat) (a : Q) :
  length (each l i a) = length l.
Proof.
  revert i a. induction l as [|n l IH]; intros i a; simpl; [|rewrite IH];
    reflexivity.
Qed.

(** Every placed sibling is the placement of an input sibling, in the
    ring and at the depth of the group, with its share of the angle. *)
Lemma forEachSibling_In (l : list node) (i : nat) (a : Q) (p : node) :
  In p (each l i a) →
  ∃ n s, In n l
    ∧ p = place n {| l_startAngle := s;
                     l_angleRange :=
                       calculateNodeWeight n / totalWeight * available;
                     l_depth := dep;
                     l_innerRadius := inner; l_outerRadius := outer |}.
Proof.
  revert i a. induction l as [|n l IH]; intros i a; simpl; [tauto|].
  intros [<- | H].
  - exists n, a. split; [left|]; reflexivity.
  - apply IH in H as (n' & s & Hin & ->). exists n', s. split; [right|]; auto.
Qed.

Hypothesis place_angleRange :
  ∀ n layout, angleRange (place n layout) = Some (l_angleRange layout).

Lemma forEachSibling_fold (l : list node) (i : nat) (a acc : Q) :
  ∃ s, fold_left (fun sum n => nadd sum (angleRange n)) (each l i a)
                 (Some acc) = Some s
       ∧ s == acc + sumWeights l / totalWeight * available.
Proof.
  revert i a acc. induction l as [|n l IH]; intros i a acc; simpl.
  - exists acc. split; [reflexivity|]. unfold Qdiv. ring.
  - rewrite place_angleRange. simpl.
    edestruct IH as (s & -> & Hs). exists s. split; [reflexivity|].
    rewrite Hs. unfold Qdiv. ring.
Qed.

Lemma forEachSibling_sum (l : list node) (i : nat) (a : Q) :
  l ≠ [] → totalWeight == calculateTotalWeight l →
  ∃ s, sumAngleRange (each l i a) = Some s ∧ s == available.
Proof.
  intros Hl Htw. destruct (forEachSibling_fold l i a 0) as (s & E & Hs).
  exists s. split; [exact E|]. rewrite Hs.
  pose proof (calculateTotalWeight_pos l Hl) as Hpos.
  rewrite <- calculateTotalWeight_sum, <- Htw.
  rewrite <- Htw in Hpos. field. lra.
Qed.
End Siblings.

Lemma childList_createLayoutNode (o : Options) (n : node) (layout : Layout) :
  childList (createLayoutNode o n layout) =
  match childList n with
  | [] => []
  | c :: cs =>
      let radiusStep :=
        (l_outerRadius layout - l_innerRadius layout)
        / ofNat (opt_maxDepth o + 1) in
      let childInnerRadius :=
        l_innerRadius layout + radiusStep * ofNat (l_depth layout + 1) in
      forEachSibling (createLayoutNode o)
        (calculateTotalWeight (c :: cs))
        (l_angleRange layout - totalGapAngle o (length (c :: cs)))
        (gapRadians o) (length (c :: cs))
        (l_depth layout + 1) childInnerRadius (childInnerRadius + radiusStep)
        (c :: cs) 0%nat (l_startAngle layout)
  end.
Proof.
  rewrite createLayoutNode_eq. unfold childList.
  destruct (children n) as [[|c cs]|] eqn:Hch; simpl; try rewrite Hch;
    reflexivity.
Qed.

(** ** Angle budget of a sibling group *)

Lemma subnodes_eq (n : node) :
  subnodes n = n :: flat_map subnodes (childList n).
Proof. destruct n as [i nm v [ch|] g s r d ir or]; reflexivity. Qed.

Lemma setAngles_same (t : node) : setAngles t (startAngle t) (angleRange t) = t.
Proof. destruct t; reflexivity. Qed.

Lemma subnodes_setChildren (n : node) (ch : list node) :
  subnodes (setChildren n ch) = setChildren n ch :: flat_map subnodes ch.
Proof. reflexivity. Qed.

Lemma subnodes_spread_leaf (n : node) (layout : Layout) :
  hasChildren n = false → subnodes (spread n layout) = [spread n layout].
Proof.
  unfold hasChildren. rewrite subnodes_eq. unfold childList, spread. simpl.
  destruct (children n) as [[|c cs]|]; try discriminate; reflexivity.
Qed.

Lemma placed_sum (o : Options) (tw av g : Q) (cnt d : nat) (inn out : Q)
    (l : list node) (i : nat) (a : Q) :
  l ≠ [] → tw == calculateTotalWeight l →
  ∃ s, sumAngleRange
         (forEachSibling (createLayoutNode o) tw av g cnt d inn out l i a)
       = Some s ∧ s == av.
Proof.
  apply forEachSibling_sum. intros n layout. apply createLayoutNode_fields.
Qed.

Lemma createLayoutNode_budget (o : Options) (n : node) :
  ∀ layout p, In p (subnodes (createLayoutNode o n layout)) → groupBudget o p.
Proof.
  induction n as [n IH] using node_subtree_ind. intros layout p.
  rewrite createLayoutNode_eq.
  destruct (children n) as [[|c cs]|] eqn:Hch.
  - rewrite subnodes_spread_leaf by (unfold hasChildren; rewrite Hch; auto).
    intros [<- | []] c' cs'. simpl. rewrite Hch. discriminate.
  - cbv zeta. specialize (IH _ eq_refl). rewrite Forall_forall in IH.
    remember (c :: cs) as ch eqn:Ech.
    match goal with
    | |- context [setChildren _ ?L] => remember L as placed eqn:Hplaced
    end.
    rewrite subnodes_setChildren. intros [<- | Hin].
    + intros c' cs' Hc'. unfold setChildren in Hc'. cbn [children] in Hc'.
      injection Hc' as Hc'. rewrite <- Hc', Hplaced, forEachSibling_length.
      match goal with
      | |- context [sumAngleRange
                      (forEachSibling _ ?tw ?av ?g ?cnt ?d ?inn ?out ?l ?i ?a)]
        => destruct (placed_sum o tw av g cnt d inn out l i a)
             as (s & Es & Hs)
      end; [rewrite Ech; discriminate|reflexivity|].
      eexists _, s. split; [reflexivity|]. split; [exact Es|]. exact Hs.
    + apply in_flat_map in Hin as (q & Hq & Hp). rewrite Hplaced in Hq.
      apply forEachSibling_In in Hq as (n' & s' & Hn' & ->).
      eapply IH; [|exact Hp]. apply list_elem_of_In. exact Hn'.
  - rewrite subnodes_spread_leaf by (unfold hasChildren; rewrite Hch; auto).
    intros [<- | []] c' cs'. simpl. rewrite Hch. discriminate.
Qed.

(** Every node of a layout lies in the placement of a root. *)
Lemma calculateLayout_nodes (o : Options) (forest : list node) (p : node) :
  In p (allNodes (calculateLayout o forest)) →
  ∃ n s, In n forest
    ∧ In p (subnodes
              (createLayoutNode o n
                 {| l_startAngle := s;
                    l_angleRange :=
                      calculateNodeWeight n / calculateTotalWeight forest
                      * (2 * Math_PI - totalGapAngle o (length forest));
                    l_depth := 0;
                    l_innerRadius := opt_innerRadius o;
                    l_outerRadius := opt_outerRadius o |})).
Proof.
  unfold allNodes, calculateLayout. destruct forest as [|n0 rest].
  { simpl. tauto. }
  intros Hin. apply in_flat_map in Hin as (q & Hq & Hp).
  apply forEachSibling_In in Hq as (n & s & Hn & ->). eauto.
Qed.

(** ** The nodes of a layout and the nodes of the input *)

Lemma forEachSibling_map {A : Type} (f : node → A) (place : node → Layout → node)
    (tw av g : Q) (cnt d : nat) (inn out : Q) (l : list node) :
  Forall (fun n => ∀ layout, map f (subnodes (place n layout))
                             = map f (subnodes n)) l →
  ∀ i a,
    map f (flat_map subnodes
             (forEachSibling place tw av g cnt d inn out l i a))
    = map f (flat_map subnodes l).
Proof.
  induction 1 as [|n l Hn _ IH]; intros i a; [reflexivity|].
  cbn [forEachSibling flat_map]. fold (forEachSibling place).
  rewrite !map_app, Hn. f_equal. apply IH.
Qed.

(** A property of a node that [createLayoutNode] keeps is, over the
    placed subtree, what it is over the input subtree, node for node. *)
Lemma createLayoutNode_map {A : Type} (f : node → A) (o : Options) :
  (∀ n layout, f (createLayoutNode o n layout) = f n) →
  ∀ n layout,
    map f (subnodes (createLayoutNode o n layout)) = map f (subnodes n).
Proof.
  intros Hf n. induction n as [n IH] using node_subtree_ind. intros layout.
  rewrite (subnodes_eq (createLayoutNode o n layout)), (subnodes_eq n).
  cbn [map]. rewrite Hf. f_equal. rewrite childList_createLayoutNode.
  destruct (childList n) as [|c cs] eqn:Hcl; [reflexivity|].
  cbv zeta. apply forEachSibling_map.
  unfold childList in Hcl. destruct (children n) as [ch|] eqn:Hch;
    [|discriminate]. subst ch. apply (IH _ eq_refl).
Qed.

Lemma calculateLayout_map {A : Type} (f : node → A) (o : Options)
    (forest : list node) :
  (∀ n layout, f (createLayoutNode o n layout) = f n) →
  map f (allNodes (calculateLayout o forest)) = map f (allNodes forest).
Proof.
  intros Hf. unfold allNodes, calculateLayout.
  destruct forest as [|n rest]; [reflexivity|].
  apply forEachSibling_map. apply Forall_forall. intros x _ layout.
  apply createLayoutNode_map. exact Hf.
Qed.

Lemma payload_createLayoutNode (o : Options) (n : node) (layout : Layout) :
  payload (createLayoutNode o n layout) = payload n.
Proof.
  unfold payload.
  destruct (createLayoutNode_payload o n layout) as (-> & -> & -> & ->).
  reflexivity.
Qed.

Lemma calculateLayout_payload (o : Options) (forest : list node) :
  map payload (allNodes (calculateLayout o forest))
  = map payload (allNodes forest).
Proof. apply calculateLayout_map, payload_createLayoutNode. Qed.

Lemma calculateNodeWeight_createLayoutNode (o : Options) (n : node)
    (layout : Layout) :
  calculateNodeWeight (createLayoutNode o n layout) = calculateNodeWeight n.
Proof.
  rewrite createLayoutNode_eq.
  destruct n as [i nm v [[|c cs]|] g s r d ir or]; try reflexivity.
  cbv zeta. unfold calculateNodeWeight.
  cbn [children setChildren spread value forEachSibling].
  fold (forEachSibling (createLayoutNode o)).
  cbn [length]. rewrite forEachSibling_length. reflexivity.
Qed.

Lemma forEachSibling_weights (o : Options) (tw av g : Q) (cnt d : nat)
    (inn out : Q) (l : list node) :
  ∀ i a,
    map calculateNodeWeight
      (forEachSibling (createLayoutNode o) tw av g cnt d inn out l i a)
    = map calculateNodeWeight l.
Proof.
  induction l as [|n l IH]; intros i a; [reflexivity|].
  cbn [forEachSibling map]. fold (forEachSibling (createLayoutNode o)).
  rewrite calculateNodeWeight_createLayoutNode. f_equal. apply IH.
Qed.

Lemma calculateTotalWeight_map (l l' : list node) :
  map calculateNodeWeight l = map calculateNodeWeight l' →
  calculateTotalWeight l = calculateTotalWeight l'.
Proof.
  unfold calculateTotalWeight. generalize 0.
  revert l'. induction l as [|n l IH]; intros [|n' l'] acc E;
    try discriminate; [reflexivity|].
  cbn [map] in E. injection E as En El. cbn [fold_left]. rewrite En.
  apply IH. exact El.
Qed.

(** ** Gap insertion *)

Lemma processNode_eq (o : GapManager.Options) (n : node) (range start : Q) :
  GapManager.processNode o n range start =
  match children n with
  | None => n
  | Some ch =>
      if (length ch <? GapManager.opt_minChildrenForGap o)%nat then n
      else
        let childAngle :=
          (range - GapManager.totalGapAngle o (length ch))
          / ofNat (length ch) in
        setChildren n
          (GapManager.forEachChild
             (fun child range start =>
                setAngles (GapManager.processNode o child range start)
                          (Some start) (Some range))
             n (GapManager.gapRadians o) childAngle (length ch)
             ch 0%nat start 0%nat)
  end.
Proof. destruct n as [i nm v [ch|] g s r d ir or]; reflexivity. Qed.

Lemma ofNat_pred (n : nat) : (0 < n)%nat → ofNat (n - 1) == ofNat n - 1.
Proof.
  intros H. destruct n as [|n]; [lia|].
  replace (S n - 1)%nat with n by lia. rewrite ofNat_S. lra.
Qed.

Section GapLoop.
Variable recur : node → Q → Q → node.
Variable parentNode : node.
Variables gap childAngle : Q.
Variable childrenCount : nat.

Local Abbreviation each :=
  (GapManager.forEachChild recur parentNode gap childAngle childrenCount).

Hypothesis recur_angleRange :
  ∀ c range start, angleRange (recur c range start) = Some range.

Lemma forEachChild_fold (l : list node) (i : nat) (a : Q) (gi : nat)
    (acc : Q) :
  (i + length l = childrenCount)%nat →
  ∃ s, fold_left (fun sum n => nadd sum (angleRange n)) (each l i a gi)
                 (Some acc) = Some s
       ∧ s == acc + childAngle * ofNat (length l)
              + gap * ofNat (length l - 1).
Proof.
  revert i a gi acc. induction l as [|c l IH]; intros i a gi acc Hlen.
  - exists acc. split; [reflexivity|]. simpl. change (ofNat 0) with 0. ring.
  - cbn [length] in Hlen. unfold each. cbn [GapManager.forEachChild].
    fold each. destruct (i <? childrenCount - 1)%nat eqn:Ei.
    + apply Nat.ltb_lt in Ei.
      cbn [fold_left]. rewrite recur_angleRange. cbn [nadd angleRange
        GapManager.createGapNode].
      destruct (IH (S i) (a + childAngle + gap) (S gi)
                   (acc + childAngle + gap)) as (s & -> & Hs); [lia|].
      exists s. split; [reflexivity|]. rewrite Hs.
      cbn [length]. replace (S (length l) - 1)%nat with (length l) by lia.
      rewrite ofNat_S, ofNat_pred by lia. ring.
    + apply Nat.ltb_ge in Ei. destruct l as [|c' l]; [|simpl in Hlen; lia].
      cbn [fold_left]. rewrite recur_angleRange. unfold each. simpl.
      exists (acc + childAngle). split; [reflexivity|].
      change (ofNat 1) with 1. change (ofNat 0) with 0. ring.
Qed.

Lemma forEachChild_length (l : list node) (i : nat) (a : Q) (gi : nat) :
  (i + length l = childrenCount)%nat →
  length (each l i a gi) = (length l + (length l - 1))%nat.
Proof.
  revert i a gi. induction l as [|c l IH]; intros i a gi Hlen.
  - reflexivity.
  - cbn [length] in Hlen. unfold each. cbn [GapManager.forEachChild].
    fold each. destruct (i <? childrenCount - 1)%nat eqn:Ei.
    + apply Nat.ltb_lt in Ei. cbn [length]. rewrite IH by lia. lia.
    + apply Nat.ltb_ge in Ei. destruct l as [|c' l]; [|simpl in Hlen; lia].
      reflexivity.
Qed.
End GapLoop.

(** A call of [processNode] on a node with enough children leaves it
    with children, gap nodes included, that add up to the range less the
    reserved gap angle, plus one gap per gap node. *)
Lemma processNode_budget (o : GapManager.Options) (n : node)
    (range start : Q) (ch : list node) :
  children n = Some ch → ch ≠ [] →
  (GapManager.opt_minChildrenForGap o <= length ch)%nat →
  ∃ ch' s,
    children (GapManager.processNode o n range start) = Some ch'
    ∧ length ch' = (length ch + (length ch - 1))%nat
    ∧ sumAngleRange ch' = Some s
    ∧ s == range - GapManager.totalGapAngle o (length ch)
           + GapManager.gapRadians o * ofNat (length ch - 1).
Proof.
  intros Hch Hne Hmin. rewrite processNode_eq, Hch.
  destruct (length ch <? GapManager.opt_minChildrenForGap o)%nat eqn:E.
  { apply Nat.ltb_lt in E. lia. }
  cbv zeta. eexists. 
  match goal with
  | |- context [GapManager.forEachChild ?rc ?pn ?g ?ca ?cnt ?l ?i ?a ?gi] =>
      destruct (forEachChild_fold rc pn g ca cnt (fun _ _ _ => eq_refl)
                                  l i a gi 0 eq_refl) as (s & Es & Hs);
      pose proof (forEachChild_length rc pn g ca cnt l i a gi eq_refl) as Hl
  end.
  exists s. split; [reflexivity|]. split; [exact Hl|]. split; [exact Es|].
  rewrite Hs. assert (0 < ofNat (length ch)).
  { apply ofNat_pos. destruct ch; [congruence|simpl; lia]. }
  field. lra.
Qed.

(** ** C1: angle conservation *)

(** C1, as stated, fails: in the layout of [sampleTree] with the default
    options, and in that layout after [insertGaps], some node's children
    do not add up to its range within 1e-6 rad. *)
Lemma angle_conservation_fails :
  angleConservation (1 # 1000000) (calculateLayout defaults [sampleTree])
  = false
  ∧ angleConservation (1 # 1000000)
      (GapManager.insertGaps GapManager.defaults
         (calculateLayout defaults [sampleTree]))
    = false.
Proof. split; vm_compute; reflexivity. Qed.

(** *** The memo table of [calculateLayout] *)

(** A call that finds no entry for its input computes the layout and
    stores it; a call that finds one returns it as it is. *)
Lemma calculateLayoutCached_miss (stringify : list node → string)
    (o : Options) (cache : gmap string (list node)) (forest : list node) :
  forest ≠ [] →
  cache !! generateCacheKey stringify forest = None →
  calculateLayoutCached stringify o cache forest
  = (calculateLayout o forest,
     <[generateCacheKey stringify forest := calculateLayout o forest]> cache).
Proof.
  intros Hne Hmiss. unfold calculateLayoutCached.
  destruct forest as [|n rest]; [congruence|]. cbv zeta.
  rewrite Hmiss. reflexivity.
Qed.

Lemma calculateLayoutCached_hit (stringify : list node → string)
    (o : Options) (cache : gmap string (list node)) (forest : list node)
    (stored : list node) :
  forest ≠ [] →
  cache !! generateCacheKey stringify forest = Some stored →
  calculateLayoutCached stringify o cache forest = (stored, cache).
Proof.
  intros Hne Hhit. unfold calculateLayoutCached.
  destruct forest as [|n rest]; [congruence|]. cbv zeta.
  rewrite Hhit. reflexivity.
Qed.

(** *** The children [processNode] leaves *)

Section Spliced.
Variable recur : node → Q → Q → node.
Variable parentNode : node.
Variables gap childAngle : Q.
Variable childrenCount : nat.

Local Abbreviation each :=
  (GapManager.forEachChild recur parentNode gap childAngle childrenCount).

Lemma forEachChild_even (l : list node) :
  ∀ i a gi k c,
    (i + length l = childrenCount)%nat →
    nth_error l k = Some c →
    nth_error (each l i a gi) (2 * k)
    = Some (recur c childAngle (gapStartOf gap childAngle k a)).
Proof.
  induction l as [|x l IH]; intros i a gi k c Hlen Hk.
  - destruct k; discriminate.
  - cbn [length] in Hlen. unfold each. cbn [GapManager.forEachChild].
    fold each. destruct k as [|k].
    + cbn in Hk. injection Hk as <-.
      destruct (i <? childrenCount - 1)%nat; reflexivity.
    + cbn [nth_error] in Hk.
      assert (Hk' : (k < length l)%nat).
      { apply nth_error_Some. rewrite Hk. discriminate. }
      assert (E : (i <? childrenCount - 1)%nat = true)
        by (apply Nat.ltb_lt; lia).
      rewrite E. replace (2 * S k)%nat with (S (S (2 * k))) by lia.
      cbn [nth_error gapStartOf]. apply IH; [lia|exact Hk].
Qed.

Lemma forEachChild_odd (l : list node) :
  ∀ i a gi k,
    (i + length l = childrenCount)%nat →
    (S k < length l)%nat →
    nth_error (each l i a gi) (2 * k + 1)
    = Some (GapManager.createGapNode
              (gapStartOf gap childAngle k a + childAngle) gap
              parentNode (gi + k)).
Proof.
  induction l as [|x l IH]; intros i a gi k Hlen Hk.
  - simpl in Hk. lia.
  - cbn [length] in Hlen, Hk. unfold each. cbn [GapManager.forEachChild].
    fold each.
    assert (E : (i <? childrenCount - 1)%nat = true)
      by (apply Nat.ltb_lt; lia).
    rewrite E. destruct k as [|k].
    + cbn [Nat.mul Nat.add nth_error gapStartOf]. rewrite Nat.add_0_r.
      reflexivity.
    + replace (2 * S k + 1)%nat with (S (S (2 * k + 1))) by lia.
      cbn [nth_error gapStartOf]. rewrite IH by lia.
      replace (S gi + k)%nat with (gi + S k)%nat by lia. reflexivity.
Qed.
End Spliced.

Lemma processNode_spliced (o : GapManager.Options) (n : node)
    (range start : Q) (ch : list node) :
  children n = Some ch →
  (GapManager.opt_minChildrenForGap o <= length ch)%nat →
  ∃ ch', children (GapManager.processNode o n range start) = Some ch'
    ∧ spliced o n range start ch ch'.
Proof.
  intros Hch Hmin. rewrite processNode_eq, Hch.
  destruct (length ch <? GapManager.opt_minChildrenForGap o)%nat eqn:E.
  { apply Nat.ltb_lt in E. lia. }
  cbv zeta. eexists. split; [reflexivity|]. split; [|split].
  - apply forEachChild_length. reflexivity.
  - intros k c Hk.
    rewrite (forEachChild_even _ n _ _ (length ch) ch 0%nat start 0%nat k c
               eq_refl Hk).
    reflexivity.
  - intros k Hk.
    rewrite (forEachChild_odd _ n _ _ (length ch) ch 0%nat start 0%nat k
               eq_refl Hk).
    reflexivity.
Qed.

Lemma isGap_createLayoutNode (o : Options) (n : node) (layout : Layout) :
  isGap (createLayoutNode o n layout) = isGap n.
Proof. apply createLayoutNode_payload. Qed.

(** C1, amended.  A call of [calculateLayout] that finds no entry for
    its input in the memo table returns the layout it computes and
    stores it; a call that finds one returns the stored array as it
    then is, of which nothing is said here.  In the computed layout the
    roots add up to the full circle less the gap angle reserved for
    them, and the children of a node add up to the range of the node
    less the gap angle reserved for their group; the layout makes no gap
    node: its nodes are those of the input, one for one, and a node is a
    gap node exactly when the input node is.  A call of [processNode] of
    [insertGaps] on a node with at least [minChildrenForGap] children
    leaves it with its children, processed, and one gap node between
    consecutive children, and all of them together add up to the range
    handed to the call, less the gap angle reserved for the group, plus
    the gap nodes. *)
Theorem angle_budget :
  (∀ (stringify : list node → string) (o : Options)
     (cache : gmap string (list node)) (forest : list node),
     forest ≠ [] →
     (cache !! generateCacheKey stringify forest = None →
      calculateLayoutCached stringify o cache forest
      = (calculateLayout o forest,
         <[generateCacheKey stringify forest := calculateLayout o forest]>
           cache))
     ∧ (∀ stored,
          cache !! generateCacheKey stringify forest = Some stored →
          calculateLayoutCached stringify o cache forest = (stored, cache)))
  ∧ (∀ (o : Options) (forest : list node),
       forest ≠ [] →
       ∃ s, sumAngleRange (calculateLayout o forest) = Some s
         ∧ s == 2 * Math_PI - totalGapAngle o (length forest))
  ∧ (∀ (o : Options) (forest : list node) (p : node),
       In p (allNodes (calculateLayout o forest)) → groupBudget o p)
  ∧ (∀ (o : Options) (forest : list node),
       map isGap (allNodes (calculateLayout o forest))
       = map isGap (allNodes forest))
  ∧ (∀ (o : GapManager.Options) (n : node) (range start : Q)
       (ch : list node),
       children n = Some ch → ch ≠ [] →
       (GapManager.opt_minChildrenForGap o <= length ch)%nat →
       ∃ ch' s,
         children (GapManager.processNode o n range start) = Some ch'
         ∧ spliced o n range start ch ch'
         ∧ sumAngleRange ch' = Some s
         ∧ s == range - GapManager.totalGapAngle o (length ch)
                + GapManager.gapRadians o * ofNat (length ch - 1)).
Proof.
  split; [|split; [|split; [|split]]].
  - intros stringify o cache forest Hne. split.
    + apply calculateLayoutCached_miss. exact Hne.
    + intros stored. apply calculateLayoutCached_hit. exact Hne.
  - intros o forest Hne. unfold calculateLayout.
    destruct forest as [|n0 rest]; [congruence|].
    apply placed_sum; [exact Hne|reflexivity].
  - intros o forest p Hp.
    apply calculateLayout_nodes in Hp as (n & s & _ & Hp).
    eapply createLayoutNode_budget. exact Hp.
  - intros o forest. apply calculateLayout_map, isGap_createLayoutNode.
  - intros o n range start ch Hch Hne Hmin.
    destruct (processNode_budget o n range start ch Hch Hne Hmin)
      as (ch' & s & E & _ & Es & Hs).
    destruct (processNode_spliced o n range start ch Hch Hmin)
      as (ch2 & E2 & Hsp).
    rewrite E in E2. injection E2 as <-.
    exists ch', s. auto.
Qed.

Lemma angle_budget_witness :
  (calculateLayoutCached sampleKey defaults emptyCache [sampleTree]
   = (calculateLayout defaults [sampleTree],
      <[generateCacheKey sampleKey [sampleTree]
        := calculateLayout defaults [sampleTree]]> emptyCache)
   ∧ calculateLayoutCached sampleKey defaults staleCache [sampleTree]
     = (layoutOverGaps, staleCache))
  ∧ (∃ s, sumAngleRange (calculateLayout defaults [sampleTree]) = Some s
       ∧ s == 2 * Math_PI - totalGapAngle defaults 1)
  ∧ groupBudget defaults
      (hd sampleTree (calculateLayout defaults [sampleTree]))
  ∧ ∃ ch' s,
      children (GapManager.processNode GapManager.defaults sampleTree
                  (2 * Math_PI) 0) = Some ch'
      ∧ spliced GapManager.defaults sampleTree (2 * Math_PI) 0
          [leaf "A" 1;
           rawNode "B" (Some 3) (Some [leaf "C" 1; leaf "D" 1000])] ch'
      ∧ sumAngleRange ch' = Some s
      ∧ s == 2 * Math_PI - GapManager.totalGapAngle GapManager.defaults 2
             + GapManager.gapRadians GapManager.defaults * ofNat 1.
Proof.
  split; [split|split; [|split]].
  - apply (proj1 (proj1 angle_budget sampleKey defaults emptyCache
                    [sampleTree] ltac:(discriminate))).
    reflexivity.
  - apply (proj2 (proj1 angle_budget sampleKey defaults staleCache
                    [sampleTree] ltac:(discriminate)) layoutOverGaps).
    reflexivity.
  - apply (proj1 (proj2 angle_budget) defaults [sampleTree]). discriminate.
  - apply (proj1 (proj2 (proj2 angle_budget)) defaults [sampleTree]).
    vm_compute. left. reflexivity.
  - apply (proj2 (proj2 (proj2 (proj2 angle_budget))) GapManager.defaults
             sampleTree (2 * Math_PI) 0
             [leaf "A" 1;
              rawNode "B" (Some 3) (Some [leaf "C" 1; leaf "D" 1000])]).
    + reflexivity.
    + discriminate.
    + simpl. lia.
Defined.

(** ** C2: the partition of a sibling group *)

(** Sibling number [k] of a group is the placement of input sibling
    number [k], at the start angle [startOf] gives. *)
Lemma forEachSibling_nth (place : node → Layout → node)
    (tw av g : Q) (cnt d : nat) (inn out : Q) (l : list node) :
  ∀ i a k p,
    (i + length l = cnt)%nat →
    nth_error (forEachSibling place tw av g cnt d inn out l i a) k = Some p →
    ∃ n, nth_error l k = Some n
      ∧ p = place n {| l_startAngle := startOf tw av g l k a;
                       l_angleRange := calculateNodeWeight n / tw * av;
                       l_depth := d;
                       l_innerRadius := inn; l_outerRadius := out |}.
Proof.
  induction l as [|n l IH]; intros i a k p Hlen.
  - destruct k; discriminate.
  - cbn [length] in Hlen. cbn [forEachSibling].
    destruct k as [|k]; cbn [nth_error startOf].
    + intros [= <-]. exists n. split; reflexivity.
    + intros Hk.
      assert (Hk' : (k < length l)%nat).
      { rewrite <- (forEachSibling_length place tw av g cnt d inn out l (S i)
                      (if (i <? cnt - 1)%nat
                       then a + calculateNodeWeight n / tw * av + g
                       else a + calculateNodeWeight n / tw * av)).
        apply nth_error_Some. rewrite Hk. discriminate. }
      assert (E : (i <? cnt - 1)%nat = true) by (apply Nat.ltb_lt; lia).
      rewrite E in Hk. apply IH in Hk; [exact Hk|lia].
Qed.

(** What holds of the partition in general: the roots are placed in
    input order, the first at angle 0, each after the share of the one
    before it and one gap, and each with its weight share of the
    available angle. *)
Lemma partition_in_order (o : Options) (forest : list node) (k : nat)
    (p : node) :
  nth_error (calculateLayout o forest) k = Some p →
  ∃ n, nth_error forest k = Some n
    ∧ startAngle p
      = Some (startOf (calculateTotalWeight forest)
                      (2 * Math_PI - totalGapAngle o (length forest))
                      (gapRadians o) forest k 0)
    ∧ angleRange p
      = Some (calculateNodeWeight n / calculateTotalWeight forest
              * (2 * Math_PI - totalGapAngle o (length forest))).
Proof.
  unfold calculateLayout. destruct forest as [|n0 rest].
  { destruct k; discriminate. }
  intros Hk. apply forEachSibling_nth in Hk as (n & Hn & ->); [|reflexivity].
  exists n. split; [exact Hn|]. split; apply createLayoutNode_fields.
Qed.

(** C2, on the scenario of the specification.  With a gap of 10 degrees
    the layout reserves one gap per sibling.  The two children, of
    weight 1 and 3, of a single root share the 350 degrees of the root
    less 2 * 10: A gets 82.5 degrees from 0, B gets 247.5 degrees from
    92.5, and not the 87.5 and 262.5 degrees of 360 - 10.  Two roots of
    weight 1 and 3 share 360 - 2 * 10 degrees: 85 degrees from 0 and 255
    degrees from 95. *)
Theorem partition_scenario :
  Forall2 (fun n sr => hasAngles n (degrees (fst sr)) (degrees (snd sr)))
          (flat_map childList (calculateLayout gap10 [sampleData]))
          [(0, 82.5); (92.5, 247.5)]
  ∧ ¬ Forall2 (fun n sr => hasAngles n (degrees (fst sr)) (degrees (snd sr)))
              (flat_map childList (calculateLayout gap10 [sampleData]))
              [(0, 87.5); (97.5, 262.5)]
  ∧ Forall2 (fun n sr => hasAngles n (degrees (fst sr)) (degrees (snd sr)))
            (calculateLayout gap10 twoRoots) [(0, 85); (95, 255)].
Proof.
  split; [|split].
  - repeat constructor; eexists _, _;
      (split; [reflexivity
              |split; [reflexivity|split; vm_compute; reflexivity]]).
  - intros H. inversion H as [|a sr la lsr (s & r & Hs & Hr & _ & E) _]; subst.
    vm_compute in Hr. injection Hr as <-. vm_compute in E. discriminate.
  - repeat constructor; eexists _, _;
      (split; [reflexivity
              |split; [reflexivity|split; vm_compute; reflexivity]]).
Qed.

(** ** The calls of [createLayoutNode] *)

(** Every node of a placed subtree is the result of a call of
    [createLayoutNode], on a layout that descends from the one of the
    subtree. *)
Lemma createLayoutNode_calls (o : Options) (I : Layout → Prop) :
  (∀ layout child, I layout → childLayoutOf o layout child → I child) →
  ∀ n layout p,
    I layout → In p (subnodes (createLayoutNode o n layout)) →
    ∃ n' layout', I layout' ∧ p = createLayoutNode o n' layout'.
Proof.
  intros Hstep n. induction n as [n IH] using node_subtree_ind.
  intros layout p HI Hp.
  rewrite subnodes_eq in Hp. destruct Hp as [<- | Hp]; [eauto|].
  rewrite createLayoutNode_eq in Hp. unfold childList in Hp.
  destruct (children n) as [[|c cs]|] eqn:Hch; simpl in Hp;
    try (rewrite Hch in Hp; simpl in Hp; tauto).
  specialize (IH _ eq_refl). rewrite Forall_forall in IH.
  fold (forEachSibling (createLayoutNode o)) in Hp.
  change (In p (flat_map subnodes
            (forEachSibling (createLayoutNode o)
               (calculateTotalWeight (c :: cs))
               (l_angleRange layout - totalGapAngle o (length (c :: cs)))
               (gapRadians o) (length (c :: cs)) (l_depth layout + 1)
               (l_innerRadius layout
                + (l_outerRadius layout - l_innerRadius layout)
                  / ofNat (opt_maxDepth o + 1) * ofNat (l_depth layout + 1))
               (l_innerRadius layout
                + (l_outerRadius layout - l_innerRadius layout)
                  / ofNat (opt_maxDepth o + 1) * ofNat (l_depth layout + 1)
                + (l_outerRadius layout - l_innerRadius layout)
                  / ofNat (opt_maxDepth o + 1))
               (c :: cs) 0%nat (l_startAngle layout)))) in Hp.
  apply in_flat_map in Hp as (q & Hq & Hp).
  apply forEachSibling_In in Hq as (n' & s' & Hn' & ->).
  eapply IH; [apply list_elem_of_In; exact Hn'| |exact Hp].
  eapply Hstep; [exact HI|]. repeat split.
Qed.

Lemma createLayoutNode_children (o : Options) (n : node) (layout : Layout)
    (c : node) (cs : list node) :
  children (createLayoutNode o n layout) = Some (c :: cs) →
  ∃ tw, 0 < tw
    ∧ ∀ c', In c' (c :: cs) →
        ∃ n' s lay,
          c' = createLayoutNode o n' lay
          ∧ childLayoutOf o layout lay
          ∧ l_startAngle lay = s
          ∧ l_angleRange lay
            = calculateNodeWeight n' / tw
              * (l_angleRange layout - totalGapAngle o (length (c :: cs))).
Proof.
  rewrite createLayoutNode_eq.
  destruct (children n) as [[|c0 cs0]|] eqn:Hch;
    try (simpl; rewrite Hch; discriminate).
  cbv zeta. remember (c0 :: cs0) as ch eqn:Ech.
  unfold setChildren. cbn [children]. intros E. injection E as E.
  exists (calculateTotalWeight ch).
  split; [apply calculateTotalWeight_pos; rewrite Ech; discriminate|].
  intros c' Hc'. rewrite <- E in Hc'.
  apply forEachSibling_In in Hc' as (n' & s & _ & ->).
  eexists n', s, _. split; [reflexivity|].
  split; [repeat split|]. split; [reflexivity|]. cbn [l_angleRange].
  rewrite <- E, forEachSibling_length. reflexivity.
Qed.

(** ** C5 and C6: rings *)

Lemma call_rings (o : Options) (n : node) (layout : Layout) (c : node) :
  In c (childList (createLayoutNode o n layout)) →
  ringOfChild o (createLayoutNode o n layout) c.
Proof.
  unfold childList.
  destruct (children (createLayoutNode o n layout)) as [[|c0 cs]|] eqn:Hch;
    try (simpl; tauto).
  intros Hc. apply createLayoutNode_children in Hch as (tw & _ & Hall).
  destruct (Hall c Hc) as (n' & s & lay & -> & (Hd & Hi & He) & _ & _).
  destruct (createLayoutNode_fields o n layout) as (_ & _ & Fd & Fi & Fe).
  destruct (createLayoutNode_fields o n' lay) as (_ & _ & Cd & Ci & Ce).
  exists (l_innerRadius layout), (l_outerRadius layout), (l_depth lay),
         (l_innerRadius lay), (l_outerRadius lay).
  rewrite Fd, Fi, Fe, Cd, Ci, Ce, Hd, Hi, He.
  repeat split; try reflexivity; try lia.
  f_equal. lia.
Qed.

Lemma calculateLayout_roots (o : Options) (forest : list node) (r : node) :
  In r (calculateLayout o forest) →
  innerRadius r = Some (opt_innerRadius o)
  ∧ outerRadius r = Some (opt_outerRadius o)
  ∧ depth r = Some 0%nat.
Proof.
  unfold calculateLayout. destruct forest as [|n0 rest]; [simpl; tauto|].
  intros Hr. apply forEachSibling_In in Hr as (n & s & _ & ->).
  destruct (createLayoutNode_fields o n
    {| l_startAngle := s;
       l_angleRange :=
         calculateNodeWeight n / calculateTotalWeight (n0 :: rest)
         * (2 * Math_PI - totalGapAngle o (length (n0 :: rest)));
       l_depth := 0;
       l_innerRadius := opt_innerRadius o;
       l_outerRadius := opt_outerRadius o |}) as (_ & _ & Fd & Fi & Fe).
  auto.
Qed.

(** C6, as stated, fails: the single root of a layout with the default
    options does not lie in band 0 of the eleven bands of the root
    range. *)
Lemma band_assignment_fails :
  bandAssignment defaults (calculateLayout defaults [leaf "A" 1]) = false.
Proof. vm_compute. reflexivity. Qed.

(** C6, amended.  A root occupies the whole configured range
    [[innerRadius, outerRadius]] at depth 0.  A child at depth [d]
    occupies band number [d] of the [maxDepth + 1] equal bands of its
    parent's ring (for a child of a root: of the root range); no depth
    is clamped. *)
Theorem radial_band_assignment (o : Options) (forest : list node) :
  (∀ r, In r (calculateLayout o forest) →
     innerRadius r = Some (opt_innerRadius o)
     ∧ outerRadius r = Some (opt_outerRadius o)
     ∧ depth r = Some 0%nat)
  ∧ (∀ p c, In p (allNodes (calculateLayout o forest)) →
       In c (childList p) → ringOfChild o p c).
Proof.
  split; [apply calculateLayout_roots|].
  intros p c Hp Hc.
  apply calculateLayout_nodes in Hp as (n & s & _ & Hp).
  apply (createLayoutNode_calls o (fun _ => True)) in Hp
    as (n' & lay' & _ & ->); auto.
  apply call_rings. exact Hc.
Qed.

Lemma radiusStep_pos (o : Options) (pi po : Q) :
  pi < po → 0 < (po - pi) / ofNat (opt_maxDepth o + 1).
Proof.
  intros H. apply Qlt_shift_div_l.
  - apply ofNat_pos. lia.
  - lra.
Qed.

Lemma createLayoutNode_ring_wf (o : Options) (n : node) (layout : Layout)
    (p : node) :
  l_innerRadius layout < l_outerRadius layout →
  In p (subnodes (createLayoutNode o n layout)) →
  ∃ n' layout',
    l_innerRadius layout' < l_outerRadius layout'
    ∧ p = createLayoutNode o n' layout'.
Proof.
  apply (createLayoutNode_calls o
           (fun lay => l_innerRadius lay < l_outerRadius lay)).
  intros lay child Hlt (_ & -> & ->).
  pose proof (radiusStep_pos o _ _ Hlt). lra.
Qed.


(** In exact arithmetic, when the configured range has [innerRadius <
    outerRadius], a parent/child pair of the layout satisfies
    [parent.inner <= child.inner < child.outer <= parent.outer] when the
    child lies at a depth of at most [maxDepth]; the ring of a deeper
    child ends beyond the ring of its parent. *)
Lemma rings_in_exact_arithmetic (o : Options) (forest : list node) (p c : node)
    (d : nat) :
  opt_innerRadius o < opt_outerRadius o →
  In p (allNodes (calculateLayout o forest)) →
  In c (childList p) →
  depth c = Some d →
  ((d <= opt_maxDepth o)%nat → nested p c)
  ∧ ((opt_maxDepth o < d)%nat →
     ∃ po co, outerRadius p = Some po ∧ outerRadius c = Some co ∧ po < co).
Proof.
  intros Hcfg Hp Hc Hd.
  apply calculateLayout_nodes in Hp as (n & s & _ & Hp).
  apply createLayoutNode_ring_wf in Hp as (n' & lay & Hlt & ->);
    [|exact Hcfg].
  apply call_rings in Hc
    as (pi & po & d' & ci & co & Hpi & Hpo & Hd' & _ & Hd1 & Hci & Hco
        & Eci & Eco).
  destruct (createLayoutNode_fields o n' lay) as (_ & _ & _ & Fi & Fe).
  rewrite Fi in Hpi. rewrite Fe in Hpo.
  injection Hpi as <-. injection Hpo as <-.
  rewrite Hd in Hd'. injection Hd' as <-.
  pose proof (radiusStep_pos o _ _ Hlt) as Hs.
  set (step := (l_outerRadius lay - l_innerRadius lay)
               / ofNat (opt_maxDepth o + 1)) in *.
  assert (E : step * ofNat (opt_maxDepth o + 1)
              == l_outerRadius lay - l_innerRadius lay).
  { unfold step. field.
    assert (0 < ofNat (opt_maxDepth o + 1)) by (apply ofNat_pos; lia). lra. }
  split.
  - intros Hmax. exists (l_innerRadius lay), (l_outerRadius lay), ci, co.
    repeat split; try assumption.
    + rewrite Eci. pose proof (ofNat_nonneg d). nra.
    + rewrite Eco. lra.
    + rewrite Eco, Eci.
      assert (Hle : ofNat d + 1 <= ofNat (opt_maxDepth o + 1)).
      { rewrite <- ofNat_S. apply ofNat_le. lia. }
      nra.
  - intros Hdeep. exists (l_outerRadius lay), co.
    split; [exact Fe|]. split; [exact Hco|]. rewrite Eco, Eci.
    assert (Hle : ofNat (opt_maxDepth o + 1) <= ofNat d)
      by (apply ofNat_le; lia).
    nra.
Qed.

(** ** C5: rings, with the rounding of the arithmetic *)

(** With no rounding at all the layout of [Rounded] is the layout of
    [LayoutCalculator]. *)
Lemma rounded_exact (o : Options) (forest : list node) :
  Rounded.calculateLayout (fun x => x) o forest = calculateLayout o forest.
Proof. reflexivity. Qed.

Section RoundedRings.
Variable fl : Q → Q.
Hypothesis fl_monotone : ∀ x y, x <= y → fl x <= fl y.
Hypothesis fl_stored : ∀ x, fl (fl x) == fl x.
Hypothesis fl_zero : fl 0 == 0.
Variable o : Options.

Lemma fl_nonneg (x : Q) : 0 <= x → 0 <= fl x.
Proof. intros H. rewrite <- fl_zero. apply fl_monotone. exact H. Qed.

Lemma rounded_createLayoutNode_eq (n : node) (layout : Layout) :
  Rounded.createLayoutNode fl o n layout =
  match children n with
  | Some (c :: cs) =>
      let ch := c :: cs in
      let childDepth := (l_depth layout + 1)%nat in
      let radiusStep :=
        fl (fl (l_outerRadius layout - l_innerRadius layout)
            / ofNat (opt_maxDepth o + 1)) in
      let childInnerRadius :=
        fl (l_innerRadius layout + fl (radiusStep * ofNat childDepth)) in
      setChildren (spread n layout)
        (Rounded.forEachSibling fl (Rounded.createLayoutNode fl o)
           (Rounded.calculateTotalWeight fl ch)
           (fl (l_angleRange layout - Rounded.totalGapAngle fl o (length ch)))
           (Rounded.gapRadians fl o) (length ch)
           childDepth childInnerRadius (fl (childInnerRadius + radiusStep))
           ch 0%nat (l_startAngle layout))
  | _ => spread n layout
  end.
Proof. destruct n as [i nm v [[|c cs]|] g s r d ir or]; reflexivity. Qed.

Lemma rounded_radii (n : node) (layout : Layout) :
  innerRadius (Rounded.createLayoutNode fl o n layout)
  = Some (l_innerRadius layout)
  ∧ outerRadius (Rounded.createLayoutNode fl o n layout)
    = Some (l_outerRadius layout).
Proof.
  rewrite rounded_createLayoutNode_eq.
  destruct (children n) as [[|c cs]|]; split; reflexivity.
Qed.

Lemma rounded_forEachSibling_In (place : node → Layout → node)
    (tw av g : Q) (cnt d : nat) (inn out : Q) (l : list node) :
  ∀ i a p,
    In p (Rounded.forEachSibling fl place tw av g cnt d inn out l i a) →
    ∃ n layout, In n l ∧ p = place n layout
      ∧ l_innerRadius layout = inn ∧ l_outerRadius layout = out.
Proof.
  induction l as [|n l IH]; intros i a p; cbn [Rounded.forEachSibling];
    [simpl; tauto|].
  intros [<- | H].
  - eexists n, _. split; [left; reflexivity|]. repeat split.
  - apply IH in H as (n' & lay & Hin & -> & Hi & Ho). exists n', lay.
    split; [right; exact Hin|]. auto.
Qed.

Lemma child_ring (layout : Layout) :
  ringStored fl layout →
  let radiusStep :=
    fl (fl (l_outerRadius layout - l_innerRadius layout)
        / ofNat (opt_maxDepth o + 1)) in
  let childInnerRadius :=
    fl (l_innerRadius layout
        + fl (radiusStep * ofNat (l_depth layout + 1))) in
  l_innerRadius layout <= childInnerRadius
  ∧ childInnerRadius <= fl (childInnerRadius + radiusStep)
  ∧ fl childInnerRadius == childInnerRadius.
Proof.
  intros [Hle Hst]. cbv zeta.
  assert (Hm : 0 < ofNat (opt_maxDepth o + 1)) by (apply ofNat_pos; lia).
  assert (Hd : 0 <= ofNat (l_depth layout + 1)).
  { unfold ofNat. change 0 with (inject_Z 0). rewrite <- Zle_Qle. lia. }
  set (w := fl (l_outerRadius layout - l_innerRadius layout)).
  assert (Hw : 0 <= w) by (apply fl_nonneg; lra).
  set (step := fl (w / ofNat (opt_maxDepth o + 1))).
  assert (Hstep : 0 <= step).
  { apply fl_nonneg. apply Qle_shift_div_l; [exact Hm|]. lra. }
  set (up := fl (step * ofNat (l_depth layout + 1))).
  assert (Hup : 0 <= up).
  { apply fl_nonneg. apply Qmult_le_0_compat; assumption. }
  set (ci := fl (l_innerRadius layout + up)).
  split; [|split].
  - rewrite <- Hst at 1. apply fl_monotone. lra.
  - assert (Hci : fl ci == ci) by apply fl_stored.
    rewrite <- Hci at 1. apply fl_monotone. lra.
  - apply fl_stored.
Qed.

Lemma rounded_nesting (n : node) :
  ∀ layout p c,
    ringStored fl layout →
    In p (subnodes (Rounded.createLayoutNode fl o n layout)) →
    In c (childList p) → nestedBelow p c.
Proof.
  induction n as [n IH] using node_subtree_ind. intros layout p c HI Hp Hc.
  rewrite subnodes_eq in Hp. destruct Hp as [<- | Hp].
  - destruct (rounded_radii n layout) as [Fi _].
    rewrite rounded_createLayoutNode_eq in Hc.
    unfold childList in Hc.
    destruct (children n) as [[|c0 cs]|] eqn:Hch;
      try (cbn [spread children] in Hc; rewrite Hch in Hc; simpl in Hc;
           tauto).
    cbv zeta in Hc. cbn [setChildren children] in Hc.
    apply rounded_forEachSibling_In in Hc as (n' & lay & _ & -> & Hi & Ho).
    destruct (rounded_radii n' lay) as [Ci Co].
    destruct (child_ring layout HI) as (H1 & H2 & _).
    exists (l_innerRadius layout), (l_innerRadius lay), (l_outerRadius lay).
    rewrite Fi, Ci, Co, Hi, Ho. auto.
  - rewrite rounded_createLayoutNode_eq in Hp. unfold childList in Hp.
    destruct (children n) as [[|c0 cs]|] eqn:Hch;
      try (cbn [spread children] in Hp; rewrite Hch in Hp; simpl in Hp;
           tauto).
    cbv zeta in Hp. cbn [setChildren children] in Hp.
    specialize (IH _ eq_refl). rewrite Forall_forall in IH.
    apply in_flat_map in Hp as (q & Hq & Hp).
    apply rounded_forEachSibling_In in Hq as (n' & lay & Hn' & -> & Hi & Ho).
    apply (IH n' ltac:(apply list_elem_of_In; exact Hn') lay p c);
      [|exact Hp|exact Hc].
    destruct (child_ring layout HI) as (_ & H2 & H3).
    split; [rewrite Hi, Ho; exact H2|rewrite Hi; exact H3].
Qed.
End RoundedRings.


(** On doubles the upper bound is lost at depth [maxDepth] already,
    where exact arithmetic puts the end of the ring of the child on the
    end of the ring of its parent: with the ring from 0.3 to 0.9 and
    [maxDepth] 1, the ring of a child at depth 1 ends above 0.9. *)
Lemma nesting_lost_to_rounding :
  (0.9 <? Doubles.childOuterRadius 0.3 0.9 1 1)%float = true.
Proof. vm_compute. reflexivity. Qed.

(** Rounding to sixty-fourths is monotone and leaves its own results as
    they are. *)
Lemma Qfloor_half (z : Z) : Qfloor (inject_Z z + (1 # 2)) = z.
Proof.
  pose proof (Qfloor_le (inject_Z z + (1 # 2))) as H1.
  pose proof (Qlt_floor (inject_Z z + (1 # 2))) as H2.
  set (f := Qfloor (inject_Z z + (1 # 2))) in *.
  assert (L : (f <= z)%Z).
  { apply Z.lt_succ_r. rewrite Zlt_Qlt. unfold Z.succ. rewrite inject_Z_plus.
    change (inject_Z 1) with 1. lra. }
  assert (U : (z < f + 1)%Z).
  { rewrite Zlt_Qlt. lra. }
  lia.
Qed.

Lemma toSixtyFourths_monotone (x y : Q) :
  x <= y → toSixtyFourths x <= toSixtyFourths y.
Proof.
  intros H. unfold toSixtyFourths, Qle. cbn [Qnum Qden].
  apply Z.mul_le_mono_nonneg_r; [lia|]. apply Qfloor_resp_le. lra.
Qed.

Lemma toSixtyFourths_stored (x : Q) :
  toSixtyFourths (toSixtyFourths x) == toSixtyFourths x.
Proof.
  unfold toSixtyFourths at 1.
  assert (E : toSixtyFourths x * 64 + (1 # 2)
              == inject_Z (Qfloor (x * 64 + (1 # 2))) + (1 # 2)).
  { unfold toSixtyFourths. rewrite (Qmake_Qdiv _ 64).
    change (inject_Z (Z.pos 64)) with 64. field. }
  rewrite E, Qfloor_half. reflexivity.
Qed.


(** ** C8: depth *)

Lemma levelsFrom_eq (d : nat) (n : node) :
  levelsFrom d n = d :: flat_map (levelsFrom (S d)) (childList n).
Proof. destruct n as [i nm v [ch|] g s r dd ir or]; reflexivity. Qed.

Lemma forEachSibling_depths (o : Options) (tw av g : Q) (cnt d : nat)
    (inn out : Q) (l : list node) :
  Forall (fun n => ∀ layout,
            map depth (subnodes (createLayoutNode o n layout))
            = map Some (levelsFrom (l_depth layout) n)) l →
  ∀ i a,
    map depth (flat_map subnodes
                 (forEachSibling (createLayoutNode o) tw av g cnt d inn out
                                 l i a))
    = map Some (flat_map (levelsFrom d) l).
Proof.
  induction 1 as [|n l Hn _ IH]; intros i a; [reflexivity|].
  cbn [forEachSibling flat_map]. fold (forEachSibling (createLayoutNode o)).
  rewrite !map_app, Hn. cbn [l_depth]. f_equal. apply IH.
Qed.

Lemma createLayoutNode_depths (o : Options) (n : node) :
  ∀ layout,
    map depth (subnodes (createLayoutNode o n layout))
    = map Some (levelsFrom (l_depth layout) n).
Proof.
  induction n as [n IH] using node_subtree_ind. intros layout.
  rewrite subnodes_eq, levelsFrom_eq, childList_createLayoutNode.
  destruct (createLayoutNode_fields o n layout) as (_ & _ & Fd & _).
  cbn [map]. rewrite Fd. f_equal.
  destruct (childList n) as [|c cs] eqn:Hcl; [reflexivity|].
  cbv zeta. rewrite forEachSibling_depths.
  - replace (l_depth layout + 1)%nat with (S (l_depth layout)) by lia.
    reflexivity.
  - unfold childList in Hcl. destruct (children n) as [ch|] eqn:Hch;
      [|discriminate]. simpl in Hcl. subst ch. apply (IH _ eq_refl).
Qed.

Lemma calculateLayout_depths (o : Options) (forest : list node) :
  map depth (allNodes (calculateLayout o forest)) = map Some (levels forest).
Proof.
  unfold allNodes, levels, calculateLayout.
  destruct forest as [|n rest]; [reflexivity|].
  apply forEachSibling_depths. apply Forall_forall. intros x _.
  apply createLayoutNode_depths.
Qed.

(** C8, as stated, fails: with [maxDepth] 1 the layout of a chain of
    three nodes holds a node at depth 2. *)
Lemma depth_truncation_fails :
  depthBounded twoLevels [chain 2] = false.
Proof. vm_compute. reflexivity. Qed.

Lemma countNode_length (n : node) :
  ∀ k, countNode n k = (k + length (subnodes n))%nat.
Proof.
  induction n as [n IH] using node_subtree_ind. intros k.
  rewrite subnodes_eq. unfold childList.
  destruct n as [i nm v [ch|] g s r d ir or]; cbn [countNode children length];
    [|simpl; lia].
  specialize (IH _ eq_refl). cbn [children] in IH.
  replace (k + S (length (flat_map subnodes ch)))%nat
    with (S k + length (flat_map subnodes ch))%nat by lia.
  generalize (S k). clear k.
  induction IH as [|c ch Hc _ IHch]; intros k; cbn [fold_left flat_map].
  - simpl. lia.
  - rewrite IHch, Hc, length_app. lia.
Qed.

Lemma countNodes_length (forest : list node) :
  countNodes forest = length (allNodes forest).
Proof.
  unfold countNodes, allNodes.
  change (length (flat_map subnodes forest))
    with (0 + length (flat_map subnodes forest))%nat.
  generalize 0%nat. induction forest as [|n rest IH]; intros k.
  - simpl. lia.
  - cbn [fold_left flat_map]. rewrite IH, countNode_length, length_app. lia.
Qed.

Lemma fold_calculateDepth (d : nat) (ch : list node) :
  Forall (fun c => ∀ d m,
            calculateDepth c d m = Nat.max m (list_max (levelsFrom d c))) ch →
  ∀ m, fold_left (fun m c => calculateDepth c d m) ch m
       = Nat.max m (list_max (flat_map (levelsFrom d) ch)).
Proof.
  induction 1 as [|c ch Hc _ IHch]; intros m; cbn [fold_left flat_map].
  - simpl. lia.
  - rewrite IHch, Hc, list_max_app. lia.
Qed.

Lemma calculateDepth_levels (n : node) :
  ∀ d m, calculateDepth n d m = Nat.max m (list_max (levelsFrom d n)).
Proof.
  induction n as [n IH] using node_subtree_ind. intros d m.
  rewrite levelsFrom_eq. unfold childList.
  change (list_max (d :: ?l)) with (Nat.max d (list_max l)).
  destruct n as [i nm v [ch|] g s r dd ir or]; cbn [calculateDepth children].
  - rewrite fold_calculateDepth by (apply (IH _ eq_refl)). lia.
  - simpl. lia.
Qed.

Lemma calculateMaxDepth_levels (forest : list node) :
  calculateMaxDepth forest = list_max (levels forest).
Proof.
  unfold calculateMaxDepth, levels.
  rewrite fold_calculateDepth; [reflexivity|].
  apply Forall_forall. intros n _. apply calculateDepth_levels.
Qed.

Lemma forEachSibling_levels (o : Options) (tw av g : Q) (cnt d d' : nat)
    (inn out : Q) (l : list node) :
  Forall (fun n => ∀ layout k,
            levelsFrom k (createLayoutNode o n layout) = levelsFrom k n) l →
  ∀ i a,
    flat_map (levelsFrom d')
      (forEachSibling (createLayoutNode o) tw av g cnt d inn out l i a)
    = flat_map (levelsFrom d') l.
Proof.
  induction 1 as [|n l Hn _ IH]; intros i a; [reflexivity|].
  cbn [forEachSibling flat_map]. fold (forEachSibling (createLayoutNode o)).
  rewrite Hn. f_equal. apply IH.
Qed.

Lemma createLayoutNode_levels (o : Options) (n : node) :
  ∀ layout k, levelsFrom k (createLayoutNode o n layout) = levelsFrom k n.
Proof.
  induction n as [n IH] using node_subtree_ind. intros layout k.
  rewrite !levelsFrom_eq, childList_createLayoutNode. f_equal.
  destruct (childList n) as [|c cs] eqn:Hcl; [reflexivity|].
  cbv zeta. apply forEachSibling_levels.
  unfold childList in Hcl. destruct (children n) as [ch|] eqn:Hch;
    [|discriminate]. subst ch. apply (IH _ eq_refl).
Qed.

Lemma calculateLayout_levels (o : Options) (forest : list node) :
  levels (calculateLayout o forest) = levels forest.
Proof.
  unfold levels, calculateLayout.
  destruct forest as [|n rest]; [reflexivity|].
  apply forEachSibling_levels. apply Forall_forall. intros x _.
  apply createLayoutNode_levels.
Qed.

(** C8, amended.  The layout never truncates.  A call of
    [calculateLayout] that finds no entry for its input in the memo
    table returns the layout it computes, whatever [maxDepth] is: one
    node for each input node, in the same order, which carries what the
    input node carries ([id], [name], [value], [isGap]) and as [depth]
    the level of that node in the input; [countNodes] and
    [calculateMaxDepth] give on it what they give on the input.  So it
    holds a node deeper than [maxDepth] whenever the input does, and
    nothing is reported.  A call that finds an entry returns the stored
    array as it then is, whatever the input. *)
Theorem depth_not_truncated (stringify : list node → string) (o : Options)
    (cache : gmap string (list node)) (forest : list node) :
  (cache !! generateCacheKey stringify forest = None →
   fst (calculateLayoutCached stringify o cache forest)
   = calculateLayout o forest)
  ∧ (∀ stored, forest ≠ [] →
       cache !! generateCacheKey stringify forest = Some stored →
       fst (calculateLayoutCached stringify o cache forest) = stored)
  ∧ map depth (allNodes (calculateLayout o forest)) = map Some (levels forest)
  ∧ map payload (allNodes (calculateLayout o forest))
    = map payload (allNodes forest)
  ∧ countNodes (calculateLayout o forest) = countNodes forest
  ∧ calculateMaxDepth (calculateLayout o forest) = calculateMaxDepth forest.
Proof.
  pose proof (calculateLayout_depths o forest) as H.
  split; [|split; [|split; [exact H|split; [|split]]]].
  - intros Hmiss. destruct forest as [|n rest]; [reflexivity|].
    rewrite calculateLayoutCached_miss by (discriminate || exact Hmiss).
    reflexivity.
  - intros stored Hne Hhit.
    rewrite (calculateLayoutCached_hit _ _ _ _ stored Hne Hhit). reflexivity.
  - apply calculateLayout_payload.
  - rewrite !countNodes_length.
    rewrite <- (length_map payload), calculateLayout_payload, length_map.
    reflexivity.
  - rewrite !calculateMaxDepth_levels, calculateLayout_levels. reflexivity.
Qed.

(** [depth_not_truncated] on a call that finds no entry, and on a call
    that finds the layout of another input under the key of its own. *)
Lemma depth_not_truncated_witness :
  fst (calculateLayoutCached sampleKey twoLevels emptyCache [chain 2])
  = calculateLayout twoLevels [chain 2]
  ∧ fst (calculateLayoutCached sampleKey defaults staleCache [sampleTree])
    = layoutOverGaps.
Proof.
  split.
  - apply (proj1 (depth_not_truncated sampleKey twoLevels emptyCache
                    [chain 2])).
    reflexivity.
  - apply (proj1 (proj2 (depth_not_truncated sampleKey defaults staleCache
                           [sampleTree])) layoutOverGaps).
    + discriminate.
    + reflexivity.
Defined.

(** ** C7: the sign of an angle range *)

Lemma share_sign (w tw av : Q) :
  0 < w → 0 < tw → (0 < w / tw * av ↔ 0 < av).
Proof.
  intros Hw Htw.
  assert (Hs : 0 < w / tw) by (apply Qlt_shift_div_l; lra).
  split; intros H; nra.
Qed.

Lemma optimizeLayout_floor (nodes : list node) (minAngle : Q) (n : node)
    (r : Q) :
  In n (optimizeLayout nodes minAngle) → angleRange n = Some r →
  minAngle <= r.
Proof.
  unfold optimizeLayout. intros Hn Hr.
  apply in_map_iff in Hn as (m & <- & _).
  destruct (nlt (angleRange m) (Some minAngle)) eqn:E.
  - simpl in Hr. injection Hr as <-. lra.
  - unfold nlt in E. rewrite Hr in E. apply negb_false_iff in E.
    apply Qle_bool_iff in E. exact E.
Qed.

Lemma optimizeLayout_children (nodes : list node) (minAngle : Q) :
  map children (optimizeLayout nodes minAngle) = map children nodes.
Proof.
  unfold optimizeLayout. rewrite map_map. apply map_ext. intros n.
  destruct (nlt (angleRange n) (Some minAngle)); reflexivity.
Qed.

(** C7, as stated, fails: in the layout of [skewedTree] with the default
    options a real node has a negative angle range, and it still has
    after [optimizeLayout]. *)
Lemma minimum_angle_fails :
  positiveAngles (calculateLayout defaults [skewedTree]) = false
  ∧ positiveAngles
      (optimizeLayout (calculateLayout defaults [skewedTree]) 0.05)
    = false.
Proof. split; vm_compute; reflexivity. Qed.

Lemma root_share (o : Options) (forest : list node) (k : nat) (c : node) :
  nth_error (calculateLayout o forest) k = Some c →
  ∃ n, nth_error forest k = Some n
    ∧ payload c = payload n
    ∧ angleRange c
      = Some (calculateNodeWeight n / calculateTotalWeight forest
              * (2 * Math_PI - totalGapAngle o (length forest)))
    ∧ (0 < calculateNodeWeight n / calculateTotalWeight forest
           * (2 * Math_PI - totalGapAngle o (length forest))
       ↔ 0 < 2 * Math_PI - totalGapAngle o (length forest)).
Proof.
  unfold calculateLayout. destruct forest as [|n0 rest].
  { destruct k; discriminate. }
  intros Hk. apply forEachSibling_nth in Hk as (n & Hn & ->); [|reflexivity].
  exists n. split; [exact Hn|]. split; [apply payload_createLayoutNode|].
  split; [apply createLayoutNode_fields|].
  apply share_sign; [apply calculateNodeWeight_pos|].
  apply calculateTotalWeight_pos. discriminate.
Qed.

Lemma child_share (o : Options) (n : node) (layout : Layout) (c : node) :
  In c (childList (createLayoutNode o n layout)) →
  angleRange c
  = Some (calculateNodeWeight c
          / calculateTotalWeight (childList (createLayoutNode o n layout))
          * (l_angleRange layout
             - totalGapAngle o
                 (length (childList (createLayoutNode o n layout)))))
  ∧ (0 < calculateNodeWeight c
         / calculateTotalWeight (childList (createLayoutNode o n layout))
         * (l_angleRange layout
            - totalGapAngle o
                (length (childList (createLayoutNode o n layout))))
     ↔ 0 < l_angleRange layout
           - totalGapAngle o
               (length (childList (createLayoutNode o n layout)))).
Proof.
  rewrite childList_createLayoutNode.
  destruct (childList n) as [|c0 cs] eqn:Hcl; [simpl; tauto|].
  cbv zeta. intros Hc.
  rewrite forEachSibling_length.
  rewrite (calculateTotalWeight_map _ (c0 :: cs))
    by apply forEachSibling_weights.
  apply forEachSibling_In in Hc as (n' & s & _ & ->).
  rewrite calculateNodeWeight_createLayoutNode.
  split; [apply createLayoutNode_fields|].
  apply share_sign; [apply calculateNodeWeight_pos|].
  apply calculateTotalWeight_pos. discriminate.
Qed.

Lemma optimizeLayout_nth (nodes : list node) (minAngle : Q) (k : nat)
    (n : node) :
  nth_error nodes k = Some n →
  (∀ r, angleRange n = Some r → r < minAngle →
        nth_error (optimizeLayout nodes minAngle) k
        = Some (setAngleRange n (Some minAngle)))
  ∧ ((∀ r, angleRange n = Some r → minAngle <= r) →
     nth_error (optimizeLayout nodes minAngle) k = Some n).
Proof.
  intros Hk. unfold optimizeLayout. rewrite nth_error_map, Hk. cbn.
  split.
  - intros r Hr Hlt. rewrite Hr.
    replace (nlt (Some r) (Some minAngle)) with true; [reflexivity|].
    symmetry. apply nlt_Some. exact Hlt.
  - intros Hge. destruct (angleRange n) as [r|] eqn:Hr; [|reflexivity].
    replace (nlt (Some r) (Some minAngle)) with false; [reflexivity|].
    symmetry. apply nlt_Some_false. apply Hge. reflexivity.
Qed.

(** C7, amended.  The layout applies no floor.  A root is placed for
    the input root at its place and gets its weight share of the
    available angle, the full circle less the gap angle reserved for the
    roots; a child gets its weight share, among the children of its
    parent, of the range of the parent less the gap angle reserved for
    them; the weights are those of the input nodes.  So the range of a
    placed node is positive exactly when the available angle is,
    whatever the weight.  [optimizeLayout], when it is called, keeps the
    list as long as it is, replaces by [minAngle] an angle range below
    it, leaves every other node of the list as it is, and never
    touches the children. *)
Theorem angle_sign :
  (∀ (o : Options) (forest : list node) (k : nat) (c : node),
     nth_error (calculateLayout o forest) k = Some c →
     ∃ n, nth_error forest k = Some n
       ∧ payload c = payload n
       ∧ angleRange c
         = Some (calculateNodeWeight n / calculateTotalWeight forest
                 * (2 * Math_PI - totalGapAngle o (length forest)))
       ∧ (0 < calculateNodeWeight n / calculateTotalWeight forest
              * (2 * Math_PI - totalGapAngle o (length forest))
          ↔ 0 < 2 * Math_PI - totalGapAngle o (length forest)))
  ∧ (∀ (o : Options) (forest : list node) (p c : node),
       In p (allNodes (calculateLayout o forest)) →
       In c (childList p) →
       ∃ r, angleRange p = Some r
         ∧ angleRange c
           = Some (calculateNodeWeight c / calculateTotalWeight (childList p)
                   * (r - totalGapAngle o (length (childList p))))
         ∧ (0 < calculateNodeWeight c / calculateTotalWeight (childList p)
                * (r - totalGapAngle o (length (childList p)))
            ↔ 0 < r - totalGapAngle o (length (childList p))))
  ∧ (∀ (o : Options) (forest : list node),
       map calculateNodeWeight (allNodes (calculateLayout o forest))
       = map calculateNodeWeight (allNodes forest))
  ∧ (∀ (nodes : list node) (minAngle : Q),
       length (optimizeLayout nodes minAngle) = length nodes
       ∧ map children (optimizeLayout nodes minAngle) = map children nodes
       ∧ (∀ k n, nth_error nodes k = Some n →
            (∀ r, angleRange n = Some r → r < minAngle →
                  nth_error (optimizeLayout nodes minAngle) k
                  = Some (setAngleRange n (Some minAngle)))
            ∧ ((∀ r, angleRange n = Some r → minAngle <= r) →
               nth_error (optimizeLayout nodes minAngle) k = Some n))
       ∧ ∀ n r, In n (optimizeLayout nodes minAngle) →
                angleRange n = Some r → minAngle <= r).
Proof.
  split; [exact root_share|]. split; [|split].
  - intros o forest p c Hp Hc.
    apply calculateLayout_nodes in Hp as (n & s & _ & Hp).
    apply (createLayoutNode_calls o (fun _ => True)) in Hp
      as (n' & lay' & _ & ->); auto.
    exists (l_angleRange lay').
    split; [apply createLayoutNode_fields|].
    apply child_share. exact Hc.
  - intros o forest. apply calculateLayout_map.
    apply calculateNodeWeight_createLayoutNode.
  - intros nodes minAngle.
    split; [unfold optimizeLayout; apply length_map|].
    split; [apply optimizeLayout_children|].
    split; [intros k n; apply optimizeLayout_nth|].
    intros n r. apply optimizeLayout_floor.
Qed.

(** ** C3: hit-testing *)

(** The loop of [findNodeByPolar], as the source writes it. *)
Lemma hitNode_eq (angle radiusRatio : Q) (n : node) :
  hitNode angle radiusRatio n =
  if angleInRange angle n && radiusInRange radiusRatio n then
    match children n with
    | Some (c :: cs) =>
        match findNodeByPolar angle radiusRatio (c :: cs) with
        | Some childResult => Some childResult
        | None => Some n
        end
    | _ => Some n
    end
  else None.
Proof. destruct n as [i nm v [[|c cs]|] g s r d ir or]; reflexivity. Qed.

Lemma findNodeByPolar_cons (angle radiusRatio : Q) (n : node)
    (rest : list node) :
  findNodeByPolar angle radiusRatio (n :: rest) =
  match hitNode angle radiusRatio n with
  | Some r => Some r
  | None => findNodeByPolar angle radiusRatio rest
  end.
Proof. reflexivity. Qed.

Lemma findNodeByPolar_Some (angle radiusRatio : Q) (l : list node) (x : node) :
  findNodeByPolar angle radiusRatio l = Some x →
  ∃ n, In n l ∧ hitNode angle radiusRatio n = Some x.
Proof.
  induction l as [|n l IH]; [discriminate|]. rewrite findNodeByPolar_cons.
  destruct (hitNode angle radiusRatio n) as [y|] eqn:E.
  - intros [= ->]. exists n. split; [left; reflexivity|exact E].
  - intros H. destruct (IH H) as (m & Hm & Hx).
    exists m. split; [right; exact Hm|exact Hx].
Qed.

Lemma findNodeByPolar_None (angle radiusRatio : Q) (l : list node) :
  findNodeByPolar angle radiusRatio l = None ↔
  ∀ n, In n l → hitNode angle radiusRatio n = None.
Proof.
  induction l as [|n l IH].
  - split; [intros _ n []|reflexivity].
  - rewrite findNodeByPolar_cons.
    destruct (hitNode angle radiusRatio n) as [y|] eqn:E.
    + split; [discriminate|]. intros H. rewrite <- E. apply H. left; auto.
    + rewrite IH. split.
      * intros H m [<- | Hm]; auto.
      * intros H m Hm. apply H. right; auto.
Qed.

Lemma hitNode_None (angle radiusRatio : Q) (n : node) :
  hitNode angle radiusRatio n = None ↔ contains angle radiusRatio n = false.
Proof.
  rewrite hitNode_eq. unfold contains.
  destruct (angleInRange angle n && radiusInRange radiusRatio n).
  - split; [|discriminate].
    destruct (children n) as [[|c cs]|]; try discriminate.
    destruct (findNodeByPolar angle radiusRatio (c :: cs)); discriminate.
  - split; reflexivity.
Qed.

Lemma hitNode_Some (angle radiusRatio : Q) (n : node) :
  ∀ x, hitNode angle radiusRatio n = Some x →
    In x (subnodes n)
    ∧ contains angle radiusRatio x = true
    ∧ ∀ c, In c (childList x) → contains angle radiusRatio c = false.
Proof.
  induction n as [n IH] using node_subtree_ind. intros x.
  rewrite hitNode_eq. fold (contains angle radiusRatio n).
  destruct (contains angle radiusRatio n) eqn:Hn; [|discriminate].
  assert (Hself : children n = Some [] ∨ children n = None
                  ∨ (∀ c, In c (childList n) →
                          contains angle radiusRatio c = false) →
                  In n (subnodes n) ∧ contains angle radiusRatio n = true
                  ∧ ∀ c, In c (childList n) →
                         contains angle radiusRatio c = false).
  { intros H. split; [apply subnodes_self|]. split; [exact Hn|].
    unfold childList.
    destruct H as [-> | [-> | H]]; [intros c []|intros c []|exact H]. }
  destruct (children n) as [[|c cs]|] eqn:Hch.
  - intros [= <-]. apply Hself. auto.
  - destruct (findNodeByPolar angle radiusRatio (c :: cs)) as [y|] eqn:E.
    + intros [= <-]. apply findNodeByPolar_Some in E as (m & Hm & Hy).
      specialize (IH _ eq_refl). rewrite Forall_forall in IH.
      apply list_elem_of_In in Hm as Hm'.
      destruct (IH m Hm' y Hy) as (Hin & Hrest).
      split; [|exact Hrest]. eapply subnodes_child; eauto.
    + intros [= <-]. apply Hself. right; right.
      unfold childList. rewrite Hch. cbn iota. intros m Hm.
      apply hitNode_None. eapply findNodeByPolar_None in E; eauto.
  - intros [= <-]. apply Hself. auto.
Qed.

Lemma contains_above (angle radiusRatio : Q) (n : node) (e : Q) :
  outerRadius n = Some e → e < radiusRatio →
  contains angle radiusRatio n = false.
Proof.
  intros He Hlt. unfold contains, radiusInRange, nle. rewrite He.
  destruct (Qle_bool radiusRatio e) eqn:E.
  - apply Qle_bool_iff in E. lra.
  - rewrite !andb_false_r. reflexivity.
Qed.

(** C3, as stated, fails: a point of ratio 0.05, in bounds, at the
    centre hole of a layout hits no node; and in a layout computed from
    data that holds gap nodes, a point on a gap node hits that gap
    node. *)
Lemma hit_test_claim_fails :
  ¬ hitTestClaim (calculateLayout defaults [sampleTree]) 0.1 0.05
  ∧ ¬ hitTestClaim layoutOverGaps 2 0.25.
Proof.
  split.
  - intros [Hnull _].
    assert (E : findNodeByPolar 0.1 0.05
                  (calculateLayout defaults [sampleTree]) = None)
      by (vm_compute; reflexivity).
    apply Hnull in E. vm_compute in E. discriminate.
  - intros [_ Hgap].
    destruct (findNodeByPolar 2 0.25 layoutOverGaps) as [g|] eqn:E;
      vm_compute in E; [|discriminate].
    specialize (Hgap g eq_refl). injection E as <-. discriminate.
Qed.

(** C3, amended.  Hit-testing returns no node exactly when no top-level
    sector contains the point: so it does for every point out of bounds
    (a ratio above 1 over sectors that end at 1 at most, and, from screen
    coordinates, a distance above the radius), and for points in bounds
    that no root covers as well.  A node it returns is a node of the
    forest whose sector contains the point and none of whose children
    does; [isGap] is not looked at, so a point in the space left between
    children resolves to the enclosing node, and a gap node that carries
    a ring is returned like any other. *)
Theorem hit_test_classification (forest : list node) (angle radiusRatio : Q) :
  (findNodeByPolar angle radiusRatio forest = None ↔
   ∀ root, In root forest → contains angle radiusRatio root = false)
  ∧ (∀ n, findNodeByPolar angle radiusRatio forest = Some n →
       In n (allNodes forest)
       ∧ contains angle radiusRatio n = true
       ∧ ∀ c, In c (childList n) → contains angle radiusRatio c = false)
  ∧ (1 < radiusRatio →
     (∀ root, In root forest → ∃ e, outerRadius root = Some e ∧ e <= 1) →
     findNodeByPolar angle radiusRatio forest = None)
  ∧ (∀ (Math_sqrt : Q → Q) (Math_atan2 : Q → Q → Q) (x y width height : Q),
       Qmin width height / 2
       < Math_sqrt ((x - width / 2) * (x - width / 2)
                    + (y - height / 2) * (y - height / 2)) →
       findNodeByCoordinates Math_sqrt Math_atan2 x y forest width height
       = None).
Proof.
  assert (Hnone : findNodeByPolar angle radiusRatio forest = None ↔
                  ∀ root, In root forest →
                          contains angle radiusRatio root = false).
  { rewrite findNodeByPolar_None. split; intros H root Hr;
      apply hitNode_None, H, Hr. }
  split; [exact Hnone|]. split; [|split].
  - intros n Hn. apply findNodeByPolar_Some in Hn as (root & Hroot & Hn).
    apply hitNode_Some in Hn as (Hin & Hrest). split; [|exact Hrest].
    unfold allNodes. apply in_flat_map. eauto.
  - intros Hout Hrings. apply Hnone. intros root Hroot.
    destruct (Hrings root Hroot) as (e & He & Hle).
    eapply contains_above; [exact He|lra].
  - intros Math_sqrt Math_atan2 x y width height Hfar.
    unfold findNodeByCoordinates.
    destruct (Qle_bool _ _) eqn:E; [|reflexivity].
    apply Qle_bool_iff in E. lra.
Qed.

(** ** C4: removing the gaps that were inserted *)

Lemma removeGapsFrom_eq (n : node) (start range : num) :
  GapManager.removeGapsFrom n start range =
  match children n with
  | None => setAngles n start range
  | Some ch =>
      let realChildren := List.filter GapManager.isReal ch in
      let count := length realChildren in
      if (0 <? count)%nat then
        setChildren (setAngles n start range)
          (GapManager.forEachReal GapManager.removeGapsFrom start
             (ndiv range (Some (ofNat count))) ch 0%nat)
      else setChildren (setAngles n start range) realChildren
  end.
Proof. destruct n as [i nm v [ch|] g s r d ir or]; reflexivity. Qed.

(** The loop of [removeGapsFromNode] in the form of the source: over the
    filtered children, with the index of each among them. *)
Lemma forEachReal_filter (recur : node → num → num → node)
    (start childAngle : num) (l : list node) (j : nat) :
  GapManager.forEachReal recur start childAngle l j
  = imap (fun index child =>
            recur child
                  (nadd start (nmul childAngle (Some (ofNat (j + index)))))
                  childAngle)
         (List.filter GapManager.isReal l).
Proof.
  revert j. induction l as [|c l IH]; intros j; [reflexivity|].
  cbn [GapManager.forEachReal List.filter].
  destruct (GapManager.isReal c).
  - cbn [imap]. rewrite Nat.add_0_r. f_equal. rewrite IH.
    apply imap_ext. intros i x _. cbn.
    replace (S (j + i)) with (j + S i)%nat by lia. reflexivity.
  - apply IH.
Qed.

Lemma removeGapsFrom_angles (n : node) (start range : num) :
  startAngle (GapManager.removeGapsFrom n start range) = start
  ∧ angleRange (GapManager.removeGapsFrom n start range) = range
  ∧ isGap (GapManager.removeGapsFrom n start range) = isGap n.
Proof.
  rewrite removeGapsFrom_eq. destruct (children n) as [ch|]; [|auto].
  cbv zeta. destruct (0 <? _)%nat; auto.
Qed.

Lemma removeGapsFrom_setAngles (m : node) (a b start range : num) :
  GapManager.removeGapsFrom (setAngles m a b) start range
  = GapManager.removeGapsFrom m start range.
Proof. destruct m as [i nm v [ch|] g s r d ir or]; reflexivity. Qed.

Lemma removeGapsFrom_setChildren (n : node) (ch : list node)
    (start range : num) :
  GapManager.removeGapsFrom (setChildren n ch) start range
  = let realChildren := List.filter GapManager.isReal ch in
    let count := length realChildren in
    if (0 <? count)%nat then
      setChildren (setAngles n start range)
        (GapManager.forEachReal GapManager.removeGapsFrom start
           (ndiv range (Some (ofNat count))) ch 0%nat)
    else setChildren (setAngles n start range) realChildren.
Proof.
  rewrite removeGapsFrom_eq. cbn [children setChildren]. cbv zeta.
  destruct (0 <? _)%nat; destruct n; reflexivity.
Qed.

Lemma processNode_isGap (o : GapManager.Options) (n : node) (range start : Q) :
  isGap (GapManager.processNode o n range start) = isGap n.
Proof.
  rewrite processNode_eq. destruct (children n) as [ch|]; [|reflexivity].
  destruct (_ <? _)%nat; reflexivity.
Qed.

Section RemoveInserted.
Variable after : node → num → num → node.
Variable recur : node → Q → Q → node.
Variable parentNode : node.
Variables gap childAngle : Q.
Variable childrenCount : nat.
Variables start angle : num.

(** The loop of [removeGaps] over what the loop of [insertGaps] built
    from real nodes [l] is the loop of [removeGaps] over [l]: the gap
    nodes are skipped, and the processed children are handled as the
    children they come from. *)
Lemma forEachReal_forEachChild (l : list node) :
  Forall (fun c => isGap c = false
                   ∧ ∀ range s0,
                       isGap (recur c range s0) = false
                       ∧ ∀ s r, after (recur c range s0) s r = after c s r)
         l →
  ∀ i a gi j,
    GapManager.forEachReal after start angle
      (GapManager.forEachChild recur parentNode gap childAngle
                               childrenCount l i a gi) j
    = GapManager.forEachReal after start angle l j.
Proof.
  induction 1 as [|c l (Hc & Hrec) _ IH]; intros i a gi j; [reflexivity|].
  cbn [GapManager.forEachChild].
  destruct (Hrec childAngle a) as (Hg & Hafter).
  destruct (i <? childrenCount - 1)%nat;
    cbn [GapManager.forEachReal]; unfold GapManager.isReal;
    rewrite Hg, Hc; cbn [negb isGap GapManager.createGapNode];
    rewrite Hafter, IH; reflexivity.
Qed.
End RemoveInserted.

Lemma forEachReal_length (recur : node → num → num → node)
    (start childAngle : num) (l : list node) (j : nat) :
  length (GapManager.forEachReal recur start childAngle l j)
  = length (List.filter GapManager.isReal l).
Proof. rewrite forEachReal_filter, length_imap. reflexivity. Qed.

Lemma round_trip_node (o : GapManager.Options) (n : node) :
  (∀ p, In p (subnodes n) → isGap p = false) →
  ∀ range start s r,
    GapManager.removeGapsFrom (GapManager.processNode o n range start) s r
    = GapManager.removeGapsFrom n s r.
Proof.
  induction n as [n IH] using node_subtree_ind.
  intros Hfree range start s r. rewrite processNode_eq.
  destruct (children n) as [ch|] eqn:Hch; [|reflexivity].
  destruct (_ <? _)%nat; [reflexivity|]. cbv zeta.
  specialize (IH _ eq_refl).
  match goal with
  | |- context [GapManager.forEachChild ?rc ?pn ?g ?ca ?cnt ?l ?i ?a ?gi] =>
      set (built := GapManager.forEachChild rc pn g ca cnt l i a gi);
      assert (Hloop : ∀ s0 ang j,
                GapManager.forEachReal GapManager.removeGapsFrom s0 ang built j
                = GapManager.forEachReal GapManager.removeGapsFrom s0 ang ch j)
  end.
  { intros s0 ang j. apply forEachReal_forEachChild.
    rewrite Forall_forall in IH. apply Forall_forall. intros c Hc.
    apply list_elem_of_In in Hc as Hc'.
    assert (Hsub : ∀ p, In p (subnodes c) → isGap p = false).
    { intros p Hp. apply Hfree. eapply subnodes_child; eauto. }
    split; [apply Hsub, subnodes_self|]. intros rg s1. split.
    - cbn [isGap setAngles]. rewrite processNode_isGap.
      apply Hsub, subnodes_self.
    - intros s2 r2. rewrite removeGapsFrom_setAngles. apply IH; auto. }
  assert (Hlen : length (List.filter GapManager.isReal built)
                 = length (List.filter GapManager.isReal ch)).
  { rewrite <- (forEachReal_length GapManager.removeGapsFrom None None built 0),
            <- (forEachReal_length GapManager.removeGapsFrom None None ch 0).
    f_equal. apply Hloop. }
  rewrite removeGapsFrom_setChildren, removeGapsFrom_eq, Hch. cbv zeta.
  rewrite Hlen, Hloop.
  destruct (0 <? length (List.filter GapManager.isReal ch))%nat eqn:E;
    [reflexivity|].
  apply Nat.ltb_ge in E.
  destruct (List.filter GapManager.isReal built); [|simpl in Hlen; lia].
  destruct (List.filter GapManager.isReal ch); [|simpl in E; lia].
  reflexivity.
Qed.

Lemma forEachReal_nth (recur : node → num → num → node)
    (start childAngle : num) (l : list node) (j i : nat) (c : node) :
  nth_error (GapManager.forEachReal recur start childAngle l j) i = Some c →
  ∃ m, In m l
    ∧ c = recur m (nadd start (nmul childAngle (Some (ofNat (j + i)))))
                childAngle.
Proof.
  revert j i. induction l as [|x l IH]; intros j i.
  - destruct i; discriminate.
  - cbn [GapManager.forEachReal]. destruct (GapManager.isReal x).
    + destruct i as [|i]; cbn [nth_error].
      * intros [= <-]. exists x. rewrite Nat.add_0_r. split; [left|]; auto.
      * intros H. apply IH in H as (m & Hm & ->). exists m.
        replace (S j + i)%nat with (j + S i)%nat by lia.
        split; [right|]; auto.
    + intros H. apply IH in H as (m & Hm & ->). exists m.
      split; [right|]; auto.
Qed.

Lemma removeGapsFrom_even (n : node) :
  ∀ start range p,
    In p (subnodes (GapManager.removeGapsFrom n start range)) →
    evenlySplit p.
Proof.
  induction n as [n IH] using node_subtree_ind. intros start range p.
  rewrite removeGapsFrom_eq.
  destruct (children n) as [ch|] eqn:Hch.
  - specialize (IH _ eq_refl). rewrite Forall_forall in IH. cbv zeta.
    destruct (0 <? _)%nat eqn:E.
    + rewrite subnodes_setChildren. intros [<- | Hp].
      * unfold evenlySplit, childList. cbn [children setChildren
          angleRange startAngle setAngles]. rewrite forEachReal_length.
        intros i c Hc. apply forEachReal_nth in Hc as (m & _ & ->).
        destruct (removeGapsFrom_angles m
                    (nadd start
                       (nmul (ndiv range
                                (Some (ofNat (length
                                   (List.filter GapManager.isReal ch)))))
                             (Some (ofNat (0 + i)))))
                    (ndiv range
                       (Some (ofNat (length
                          (List.filter GapManager.isReal ch))))))
          as (Hs & Hr & _).
        rewrite Hs, Hr. split; reflexivity.
      * apply in_flat_map in Hp as (q & Hq & Hp).
        apply In_nth_error in Hq as (i & Hq).
        apply forEachReal_nth in Hq as (m & Hm & ->).
        eapply IH; [apply list_elem_of_In; exact Hm|exact Hp].
    + apply Nat.ltb_ge in E.
      destruct (List.filter GapManager.isReal ch); [|simpl in E; lia].
      rewrite subnodes_setChildren. intros [<- | []].
      intros i c Hc. destruct i; discriminate.
  - rewrite subnodes_eq. unfold childList. cbn [children setAngles].
    rewrite Hch. intros [<- | []]. intros i c Hc.
    unfold childList in Hc. cbn [children setAngles] in Hc.
    rewrite Hch in Hc. destruct i; discriminate.
Qed.

(** C4, as stated, fails: on the layout of [sampleTree], whose angles
    [calculateLayout] assigned by weight, removing the gaps that were
    inserted does not give back the angles within 1e-6 rad. *)
Lemma gap_round_trip_fails :
  sameAssignment (1 # 1000000)
    (GapManager.removeGaps
       (GapManager.insertGaps GapManager.defaults
          (calculateLayout defaults [sampleTree])))
    (calculateLayout defaults [sampleTree])
  = false.
Proof. vm_compute. reflexivity. Qed.

Lemma filter_isReal_all (l : list node) :
  (∀ c, In c l → isGap c = false) → List.filter GapManager.isReal l = l.
Proof.
  induction l as [|c l IH]; intros H; [reflexivity|].
  cbn [List.filter]. unfold GapManager.isReal at 1.
  rewrite (H c) by (left; reflexivity). cbn [negb]. f_equal.
  apply IH. intros c' Hc'. apply H. right. exact Hc'.
Qed.

Lemma skeleton_setAngles (n : node) (s r : num) :
  skeleton (setAngles n s r) = skeleton n.
Proof. destruct n; reflexivity. Qed.

Lemma skeleton_setChildren (n : node) (ch : list node) :
  skeleton (setChildren n ch)
  = Node (id n) (name n) (value n) (Some (map skeleton ch)) (isGap n)
         None None (depth n) (innerRadius n) (outerRadius n).
Proof. destruct n; reflexivity. Qed.

Lemma map_imap_fixed {A B : Type} (g : A → B) (f : nat → A → A)
    (l : list A) :
  (∀ i a, In a l → g (f i a) = g a) → map g (imap f l) = map g l.
Proof.
  revert f. induction l as [|a l IH]; intros f H; [reflexivity|].
  cbn [imap map]. rewrite H by (left; reflexivity). f_equal.
  apply IH. intros i b Hb. apply H. right. exact Hb.
Qed.

(** Below a node without gap nodes [removeGapsFromNode] changes angles
    only. *)
Lemma skeleton_removeGapsFrom (n : node) :
  (∀ p, In p (subnodes n) → isGap p = false) →
  ∀ start range,
    skeleton (GapManager.removeGapsFrom n start range) = skeleton n.
Proof.
  induction n as [n IH] using node_subtree_ind. intros Hfree start range.
  rewrite removeGapsFrom_eq. destruct (children n) as [ch|] eqn:Hch;
    [|apply skeleton_setAngles].
  specialize (IH _ eq_refl). rewrite Forall_forall in IH.
  assert (Hreal : List.filter GapManager.isReal ch = ch).
  { apply filter_isReal_all. intros c Hc. apply Hfree.
    eapply subnodes_child; [exact Hch|exact Hc|apply subnodes_self]. }
  cbv zeta. rewrite forEachReal_filter, Hreal.
  assert (Hn : skeleton n
               = Node (id n) (name n) (value n) (Some (map skeleton ch))
                      (isGap n) None None (depth n) (innerRadius n)
                      (outerRadius n)).
  { destruct n as [i nm v och g s r d ir or]. cbn in Hch. subst och.
    reflexivity. }
  destruct (0 <? length ch)%nat; rewrite skeleton_setChildren, Hn;
    cbn [id name value isGap depth innerRadius outerRadius setAngles];
    [|reflexivity].
  do 2 f_equal. apply map_imap_fixed. intros i c Hc.
  apply IH; [apply list_elem_of_In; exact Hc|].
  intros p Hp. apply Hfree. eapply subnodes_child; eauto.
Qed.

Lemma removeGaps_insertGaps (o : GapManager.Options) (x : list node) :
  (∀ p, In p (allNodes x) → isGap p = false) →
  GapManager.removeGaps (GapManager.insertGaps o x) = GapManager.removeGaps x.
Proof.
  intros Hfree. unfold GapManager.removeGaps, GapManager.insertGaps.
  destruct (_ || _); [reflexivity|]. rewrite map_map.
  apply map_ext_in. intros n Hn. unfold GapManager.removeGapsFromNode.
  assert (Hfields :
            startAngle (GapManager.processNode o n (2 * Math_PI) 0)
            = startAngle n
            ∧ angleRange (GapManager.processNode o n (2 * Math_PI) 0)
              = angleRange n).
  { rewrite processNode_eq. destruct (children n) as [ch|]; [|auto].
    destruct (_ <? _)%nat; auto. }
  destruct Hfields as [-> ->]. apply round_trip_node.
  intros p Hp. apply Hfree. unfold allNodes. apply in_flat_map. eauto.
Qed.

Lemma removeGaps_even (x : list node) (p : node) :
  In p (allNodes (GapManager.removeGaps x)) → evenlySplit p.
Proof.
  intros Hp. unfold allNodes, GapManager.removeGaps in Hp.
  apply in_flat_map in Hp as (q & Hq & Hp).
  apply in_map_iff in Hq as (n & <- & _).
  eapply removeGapsFrom_even. exact Hp.
Qed.

(** *** The angles of the input that come back *)

Lemma numEq_refl (a : num) : numEq a a.
Proof. destruct a; simpl; [reflexivity|exact I]. Qed.

Lemma numEq_sym (a b : num) : numEq a b → numEq b a.
Proof. destruct a, b; simpl; auto. intros H. symmetry. exact H. Qed.

Lemma numEq_trans (a b c : num) : numEq a b → numEq b c → numEq a c.
Proof.
  destruct a, b, c; simpl; try tauto. intros H1 H2. rewrite H1. exact H2.
Qed.

Lemma numEq_nadd (a a' b b' : num) :
  numEq a a' → numEq b b' → numEq (nadd a b) (nadd a' b').
Proof.
  destruct a, a', b, b'; simpl; try tauto. intros -> ->. reflexivity.
Qed.

Lemma numEq_nmul (a a' b b' : num) :
  numEq a a' → numEq b b' → numEq (nmul a b) (nmul a' b').
Proof.
  destruct a, a', b, b'; simpl; try tauto. intros -> ->. reflexivity.
Qed.

Lemma numEq_ndiv (a a' b b' : num) :
  numEq a a' → numEq b b' → numEq (ndiv a b) (ndiv a' b').
Proof.
  destruct a, a', b, b'; simpl; try tauto. intros -> ->. reflexivity.
Qed.

Lemma closeNum_zero (a b : num) : closeNum 0 a b = true ↔ numEq a b.
Proof.
  destruct a as [x|], b as [y|]; unfold closeNum, numEq;
    try (split; [discriminate|tauto]); [|tauto].
  rewrite Qle_bool_iff. split.
  - intros H. apply Qabs_Qle_condition in H. lra.
  - intros ->. assert (E : y - y == 0) by ring. rewrite E. discriminate.
Qed.

Lemma sameAssignment_zero (f g : list node) :
  sameAssignment 0 f g = true ↔ Forall2 sameAngles (allNodes f) (allNodes g).
Proof.
  unfold sameAssignment. generalize (allNodes f) (allNodes g).
  intros l. induction l as [|a l IH]; intros [|b l'].
  - split; [constructor|reflexivity].
  - split; [discriminate|]. intros H. inversion H.
  - split; [discriminate|]. intros H. inversion H.
  - cbn [length combine forallb fst snd]. specialize (IH l').
    rewrite andb_true_iff in IH |- *. rewrite !andb_true_iff.
    rewrite !closeNum_zero. cbn [Nat.eqb]. split.
    + intros (Hlen & (Hs & Hr) & Hall). constructor; [split; assumption|].
      apply IH. auto.
    + intros H. inversion H as [|? ? ? ? [Hs Hr] Hrest]; subst.
      apply IH in Hrest as [Hlen Hall]. auto.
Qed.

Lemma childList_removeGapsFrom (n : node) (start range : num) :
  (∀ c, In c (childList n) → isGap c = false) →
  childList (GapManager.removeGapsFrom n start range)
  = imap (fun index child =>
            GapManager.removeGapsFrom child
              (nadd start
                 (nmul (ndiv range (Some (ofNat (length (childList n)))))
                       (Some (ofNat index))))
              (ndiv range (Some (ofNat (length (childList n))))))
         (childList n).
Proof.
  intros Hfree. rewrite removeGapsFrom_eq. unfold childList in *.
  destruct (children n) as [ch|] eqn:Hch; [|cbn; rewrite Hch; reflexivity].
  rewrite (filter_isReal_all ch Hfree). cbv zeta.
  destruct (0 <? length ch)%nat eqn:E; cbn [children setChildren].
  - rewrite forEachReal_filter, (filter_isReal_all ch Hfree). reflexivity.
  - apply Nat.ltb_ge in E. destruct ch; [reflexivity|simpl in E; lia].
Qed.

Lemma length_subnodes_removeGapsFrom (n : node) :
  (∀ p, In p (subnodes n) → isGap p = false) →
  ∀ start range,
    length (subnodes (GapManager.removeGapsFrom n start range))
    = length (subnodes n).
Proof.
  intros Hfree start range.
  rewrite <- (length_map skeleton (subnodes n)).
  rewrite <- (length_map skeleton
                (subnodes (GapManager.removeGapsFrom n start range))).
  assert (Hsk : ∀ t, map skeleton (subnodes t) = subnodes (skeleton t)).
  { intros t. induction t as [t IH] using node_subtree_ind.
    destruct t as [i nm v [ch|] g s r d ir or]; [|reflexivity].
    specialize (IH _ eq_refl). cbn [children] in IH.
    cbn [subnodes children skeleton map]. f_equal.
    induction IH as [|c ch Hc _ IHch]; [reflexivity|].
    cbn [flat_map map]. rewrite map_app, Hc, IHch. reflexivity. }
  rewrite !Hsk, skeleton_removeGapsFrom by exact Hfree. reflexivity.
Qed.

(** Two lists of trees, tree by tree of the same size, have their nodes
    related one for one exactly when the trees do. *)
Lemma Forall2_blocks (R : node → node → Prop) (f : nat → node → node)
    (l : list node) :
  (∀ i c, In c l → length (subnodes (f i c)) = length (subnodes c)) →
  Forall2 R (flat_map subnodes (imap f l)) (flat_map subnodes l)
  ↔ ∀ i c, nth_error l i = Some c → Forall2 R (subnodes (f i c)) (subnodes c).
Proof.
  revert f. induction l as [|a l IH]; intros f Hlen.
  - cbn. split; [intros _ i c Hi; destruct i; discriminate|constructor].
  - cbn [imap flat_map].
    assert (Hl : ∀ i c, In c l
                 → length (subnodes (f (S i) c)) = length (subnodes c)).
    { intros i c Hc. apply Hlen. right. exact Hc. }
    specialize (IH (f ∘ S) Hl). split.
    + intros H.
      apply Forall2_app_inv in H as [H1 H2];
        [|apply Hlen; left; reflexivity].
      intros [|i] c Hi; cbn [nth_error] in Hi.
      * injection Hi as <-. exact H1.
      * apply (proj1 IH H2 i c Hi).
    + intros H. apply Forall2_app.
      * apply (H 0%nat a). reflexivity.
      * apply IH. intros i c Hi. apply (H (S i) c). exact Hi.
Qed.

(** The angles that [removeGapsFromNode] leaves in a tree without gap
    nodes are the angles the tree had exactly when the angles handed to
    the root are those of the root and every group of children was an
    even split. *)
Lemma removeGapsFrom_same (n : node) :
  (∀ p, In p (subnodes n) → isGap p = false) →
  ∀ start range,
    Forall2 sameAngles (subnodes (GapManager.removeGapsFrom n start range))
            (subnodes n)
    ↔ numEq start (startAngle n) ∧ numEq range (angleRange n)
      ∧ ∀ p, In p (subnodes n) → evenSplit p.
Proof.
  induction n as [n IH] using node_subtree_ind. intros Hfree start range.
  assert (Hch : ∀ c, In c (childList n) → isGap c = false).
  { intros c Hc. apply Hfree. rewrite subnodes_eq. right.
    apply in_flat_map. exists c. split; [exact Hc|apply subnodes_self]. }
  assert (Hsub : ∀ c, In c (childList n) →
                 ∀ p, In p (subnodes c) → In p (subnodes n)).
  { intros c Hc p Hp. rewrite (subnodes_eq n). right.
    apply in_flat_map. eauto. }
  assert (IHc : ∀ c, In c (childList n) → ∀ s r,
             Forall2 sameAngles (subnodes (GapManager.removeGapsFrom c s r))
                     (subnodes c)
             ↔ numEq s (startAngle c) ∧ numEq r (angleRange c)
               ∧ ∀ p, In p (subnodes c) → evenSplit p).
  { intros c Hc. unfold childList in Hc.
    destruct (children n) as [ch|] eqn:E; [|destruct Hc].
    specialize (IH _ eq_refl). rewrite Forall_forall in IH.
    apply IH; [apply list_elem_of_In; exact Hc|].
    intros p Hp. apply Hfree. apply (Hsub c); [|exact Hp].
    unfold childList. rewrite E. exact Hc. }
  rewrite (subnodes_eq (GapManager.removeGapsFrom n start range)),
          (subnodes_eq n).
  rewrite (childList_removeGapsFrom n start range Hch).
  set (k := Some (ofNat (length (childList n)))).
  set (f := fun (index : nat) (child : node) =>
              GapManager.removeGapsFrom child
                (nadd start (nmul (ndiv range k) (Some (ofNat index))))
                (ndiv range k)).
  assert (Hblocks := Forall2_blocks sameAngles f (childList n)
            (fun i c Hc => length_subnodes_removeGapsFrom c
               (fun p Hp => Hfree p (Hsub c Hc p Hp)) _ _)).
  destruct (removeGapsFrom_angles n start range) as (Fs & Fr & _).
  split.
  - intros H. inversion H as [|? ? ? ? [Hs Hr] Hrest]; subst.
    rewrite Fs in Hs. rewrite Fr in Hr.
    split; [exact Hs|]. split; [exact Hr|].
    pose proof (proj1 Hblocks Hrest) as Hall.
    intros p [<- | Hp].
    + intros i c Hi. specialize (Hall i c Hi).
      apply (IHc c (nth_error_In _ _ Hi)) in Hall as (H1 & H2 & _).
      fold k. split.
      * apply numEq_sym. eapply numEq_trans; [|exact H2].
        apply numEq_ndiv; [apply numEq_sym; exact Hr|apply numEq_refl].
      * apply numEq_sym. eapply numEq_trans; [|exact H1].
        apply numEq_nadd; [apply numEq_sym; exact Hs|].
        apply numEq_nmul; [|apply numEq_refl].
        apply numEq_ndiv; [apply numEq_sym; exact Hr|apply numEq_refl].
    + apply in_flat_map in Hp as (c & Hc & Hp).
      destruct (In_nth_error _ _ Hc) as (i & Hi).
      specialize (Hall i c Hi).
      apply (IHc c Hc) in Hall as (_ & _ & H3). apply H3. exact Hp.
  - intros (Hs & Hr & Heven). constructor.
    + split; [rewrite Fs; exact Hs|rewrite Fr; exact Hr].
    + apply Hblocks. intros i c Hi.
      pose proof (nth_error_In _ _ Hi) as Hc.
      apply (IHc c Hc). unfold f.
      destruct (Heven n (or_introl eq_refl) i c Hi) as [Er Es].
      fold k in Er, Es.
      split; [|split].
      * apply numEq_sym. eapply numEq_trans; [exact Es|].
        apply numEq_nadd; [apply numEq_sym; exact Hs|].
        apply numEq_nmul; [|apply numEq_refl].
        apply numEq_ndiv; [apply numEq_sym; exact Hr|apply numEq_refl].
      * apply numEq_sym. eapply numEq_trans; [exact Er|].
        apply numEq_ndiv; [apply numEq_sym; exact Hr|apply numEq_refl].
      * intros p Hp. apply Heven. right. apply in_flat_map. eauto.
Qed.

Lemma removeGaps_same (x : list node) :
  gapFree x →
  sameAssignment 0 (GapManager.removeGaps x) x = true
  ↔ ∀ p, In p (allNodes x) → evenSplit p.
Proof.
  intros Hfree. rewrite sameAssignment_zero.
  unfold allNodes, GapManager.removeGaps.
  assert (Hin : ∀ n, In n x → ∀ p, In p (subnodes n) → isGap p = false).
  { intros n Hn p Hp. apply Hfree. unfold allNodes. apply in_flat_map. eauto. }
  assert (E : map GapManager.removeGapsFromNode x
              = imap (fun _ => GapManager.removeGapsFromNode) x).
  { clear. induction x as [|n x IH]; [reflexivity|].
    cbn [map imap]. f_equal. exact IH. }
  rewrite E.
  rewrite (Forall2_blocks sameAngles (fun _ => GapManager.removeGapsFromNode) x
             (fun _ n Hn => length_subnodes_removeGapsFrom n (Hin n Hn) _ _)).
  split.
  - intros H p Hp. apply in_flat_map in Hp as (n & Hn & Hp).
    destruct (In_nth_error _ _ Hn) as (i & Hi).
    specialize (H i n Hi). unfold GapManager.removeGapsFromNode in H.
    apply (removeGapsFrom_same n (Hin n Hn)) in H as (_ & _ & H).
    apply H. exact Hp.
  - intros H i n Hi. pose proof (nth_error_In _ _ Hi) as Hn.
    unfold GapManager.removeGapsFromNode.
    apply (removeGapsFrom_same n (Hin n Hn)).
    split; [apply numEq_refl|]. split; [apply numEq_refl|].
    intros p Hp. apply H. apply in_flat_map. eauto.
Qed.

(** C4, amended.  On a forest [x] without gap nodes, [removeGaps] after
    [insertGaps] gives what [removeGaps] alone gives.  The result has
    the nodes of [x], each with what it carried and at its place in the
    tree, and no other node: the gap nodes are gone.  The roots have the
    angles they had in [x], and below them every group of children
    splits the range of its parent evenly, child number [i] of [k]
    starting at [start + i * range / k].  So the angles of [x] come
    back, every one of them the number it was, exactly when every group
    of children of [x] was that even split. *)
Theorem gap_round_trip (o : GapManager.Options) (x : list node) :
  gapFree x →
  GapManager.removeGaps (GapManager.insertGaps o x) = GapManager.removeGaps x
  ∧ map skeleton (GapManager.removeGaps (GapManager.insertGaps o x))
    = map skeleton x
  ∧ map (fun n => (startAngle n, angleRange n))
        (GapManager.removeGaps (GapManager.insertGaps o x))
    = map (fun n => (startAngle n, angleRange n)) x
  ∧ (∀ p, In p (allNodes (GapManager.removeGaps (GapManager.insertGaps o x)))
          → evenlySplit p)
  ∧ (sameAssignment 0 (GapManager.removeGaps (GapManager.insertGaps o x)) x
     = true
     ↔ ∀ p, In p (allNodes x) → evenSplit p).
Proof.
  intros Hfree. rewrite (removeGaps_insertGaps o x Hfree).
  assert (Hsub : ∀ n, In n x → ∀ p, In p (subnodes n) → In p (allNodes x)).
  { intros n Hn p Hp. unfold allNodes. apply in_flat_map. eauto. }
  split; [reflexivity|]. split; [|split; [|split]].
  - unfold GapManager.removeGaps. rewrite map_map.
    apply map_ext_in. intros n Hn. apply skeleton_removeGapsFrom.
    intros p Hp. apply Hfree. eapply Hsub; eauto.
  - unfold GapManager.removeGaps. rewrite map_map. apply map_ext.
    intros n. unfold GapManager.removeGapsFromNode.
    destruct (removeGapsFrom_angles n (startAngle n) (angleRange n))
      as (-> & -> & _). reflexivity.
  - apply removeGaps_even.
  - apply removeGaps_same. exact Hfree.
Qed.

(** ** C9: the store *)

(** *** The store and the values *)

Lemma forest_length s ls ts X : forest s ls ts X → length ls = length ts.
Proof. induction 1; simpl; congruence. Qed.

Lemma tree_inv s l t X :
  tree s l t X →
  ∃ ob, s !! l = Some ob
    ∧ ((Heap.o_children ob = None ∧ t = Heap.valueOf ob None ∧ X = {[l]})
       ∨ (∃ ls ts X0,
            Heap.o_children ob = Some ls ∧ forest s ls ts X0 ∧ (l ∉ X0)
            ∧ t = Heap.valueOf ob (Some ts) ∧ X = {[l]} ∪ X0)).
Proof. destruct 1; eauto 12. Qed.

Lemma forest_inv_nil s ls X : forest s ls [] X → ls = [] ∧ X = ∅.
Proof. intros H. inversion H. auto. Qed.

Lemma forest_inv_cons s ls t ts X :
  forest s ls (t :: ts) X →
  ∃ c ls' X0 Y,
    ls = c :: ls' ∧ tree s c t X0 ∧ forest s ls' ts Y ∧ X0 ## Y
    ∧ X = X0 ∪ Y.
Proof. intros H. inversion H; subst. eauto 10. Qed.

Lemma forest_dom_with s ts :
  Forall (fun t => ∀ l X, tree s l t X → X ⊆ dom s) ts →
  ∀ ls X, forest s ls ts X → X ⊆ dom s.
Proof.
  induction 1 as [|t ts Ht _ IH]; intros ls X Hf.
  - apply forest_inv_nil in Hf as [-> ->]. set_solver.
  - apply forest_inv_cons in Hf
      as (c & ls' & X0 & Y & -> & Hc & Hf' & Hdisj & ->).
    specialize (Ht _ _ Hc). specialize (IH _ _ Hf'). set_solver.
Qed.

Lemma tree_dom s (t : node) :
  ∀ l X, tree s l t X → X ⊆ dom s.
Proof.
  induction t as [t IH] using node_subtree_ind. intros l X Ht.
  apply tree_inv in Ht
    as (ob & Hl & [(Hch & -> & ->)
                  |(ls & ts & X0 & Hch & Hf & Hnin & -> & ->)]).
  - apply singleton_subseteq_l. apply elem_of_dom. eauto.
  - specialize (IH ts eq_refl).
    pose proof (forest_dom_with s ts IH ls X0 Hf).
    assert (l ∈ dom s) by (apply elem_of_dom; eauto). set_solver.
Qed.

Lemma forest_dom s ls ts X : forest s ls ts X → X ⊆ dom s.
Proof.
  apply forest_dom_with. apply Forall_forall. intros t _. apply tree_dom.
Qed.

Lemma forest_frame_with (s s' : Heap.store) ts :
  Forall (fun t => ∀ l X, tree s l t X →
                     (∀ l', l' ∈ X → s' !! l' = s !! l') → tree s' l t X) ts →
  ∀ ls X, forest s ls ts X →
    (∀ l', l' ∈ X → s' !! l' = s !! l') → forest s' ls ts X.
Proof.
  induction 1 as [|t ts Ht _ IH]; intros ls X Hf Hag.
  - apply forest_inv_nil in Hf as [-> ->]. constructor.
  - apply forest_inv_cons in Hf
      as (c & ls' & X0 & Y & -> & Hc & Hf' & Hdisj & ->).
    constructor.
    + apply Ht; [exact Hc|]. intros; apply Hag; set_solver.
    + apply IH; [exact Hf'|]. intros; apply Hag; set_solver.
    + exact Hdisj.
Qed.

Lemma tree_frame (s s' : Heap.store) (t : node) :
  ∀ l X, tree s l t X → (∀ l', l' ∈ X → s' !! l' = s !! l') → tree s' l t X.
Proof.
  induction t as [t IH] using node_subtree_ind. intros l X Ht Hagree.
  apply tree_inv in Ht
    as (ob & Hl & [(Hch & -> & ->)
                  |(ls & ts & X0 & Hch & Hf & Hnin & -> & ->)]).
  - apply tree_leaf; [|exact Hch]. rewrite Hagree; [exact Hl|set_solver].
  - eapply tree_node;
      [rewrite Hagree; [exact Hl|set_solver]|exact Hch| |exact Hnin].
    apply (forest_frame_with s s' ts (IH ts eq_refl)); [exact Hf|].
    intros; apply Hagree; set_solver.
Qed.

Lemma forest_frame (s s' : Heap.store) ls ts X :
  forest s ls ts X → (∀ l', l' ∈ X → s' !! l' = s !! l') → forest s' ls ts X.
Proof.
  apply forest_frame_with. apply Forall_forall. intros t _. apply tree_frame.
Qed.

(** Assigning the two angles of a stored node. *)
Lemma tree_assignAngles (s : Heap.store) (l : Heap.loc) (t : node)
    (X : gset Heap.loc) (ob : Heap.object) (sa ar : num) :
  tree s l t X → s !! l = Some ob →
  tree (<[l := Heap.assignAngles sa ar ob]> s) l (setAngles t sa ar) X.
Proof.
  intros Ht Hl.
  apply tree_inv in Ht
    as (ob' & Hl' & [(Hch & -> & ->)
                    |(ls & ts & X0 & Hch & Hf & Hnin & -> & ->)]);
    rewrite Hl in Hl'; injection Hl' as <-.
  - apply (tree_leaf _ l (Heap.assignAngles sa ar ob));
      [apply lookup_insert_eq|exact Hch].
  - apply (tree_node _ l (Heap.assignAngles sa ar ob) ls ts X0);
      [apply lookup_insert_eq|exact Hch| |exact Hnin].
    eapply forest_frame; [exact Hf|]. intros l' Hl'.
    apply lookup_insert_ne. set_solver.
Qed.

Lemma processNode_setAngles (o : GapManager.Options) (t : node)
    (sa ar : num) (range start : Q) :
  GapManager.processNode o (setAngles t sa ar) range start
  = setAngles (GapManager.processNode o t range start) sa ar.
Proof.
  rewrite !processNode_eq. cbn [children setAngles].
  destruct (children t) as [ch|]; [|reflexivity].
  destruct (_ <? _)%nat; [reflexivity|]. cbv zeta.
  destruct t; reflexivity.
Qed.

Lemma gapId_agree (pob : Heap.object) (parentNode : node) (gi : nat) :
  Heap.o_id pob = id parentNode →
  Heap.gapId pob gi = GapManager.gapId parentNode gi.
Proof. unfold Heap.gapId, GapManager.gapId. intros ->. reflexivity. Qed.

(** Locations that are new to a tree are new to the trees next to it. *)
Lemma new_cells_disjoint (X X' Y D : gset Heap.loc) :
  (∀ l, l ∈ X' → l ∉ X → l ∉ D) → X ## Y → Y ⊆ D → X' ## Y.
Proof. intros HN Hdisj Hsub l H1 H2. apply (HN l H1); set_solver. Qed.

Lemma new_cells_union (X X' Y Y' D D' : gset Heap.loc) :
  (∀ l, l ∈ X' → l ∉ X → l ∉ D) →
  (∀ l, l ∈ Y' → l ∉ Y → l ∉ D') →
  D ⊆ D' →
  ∀ l, l ∈ X' ∪ Y' → l ∉ X ∪ Y → l ∉ D.
Proof.
  intros HX HY Hsub l Hl Hnin.
  apply elem_of_union in Hl as [Hl|Hl].
  - apply (HX l Hl). set_solver.
  - intros HD. apply (HY l Hl); set_solver.
Qed.

Lemma simulates_loop (o : GapManager.Options) (fuel : nat)
    (pl : Heap.loc) (pob : Heap.object) (parentNode : node)
    (g ca : Q) (cnt : nat) (ts : list node) :
  Forall (simulates o) ts →
  Forall (fun t => height t <= fuel)%nat ts →
  Heap.o_id pob = id parentNode →
  ∀ ls X s i a gi,
    forest s ls ts X → pl ∉ X → s !! pl = Some pob →
    (i + length ts = cnt)%nat →
    ∃ s' ls' X',
      Heap.forEachChild (Heap.processNode fuel o) pl g ca cnt ls i a gi s
      = Some (ls', s')
      ∧ forest s' ls'
          (GapManager.forEachChild
             (fun child range start =>
                setAngles (GapManager.processNode o child range start)
                          (Some start) (Some range))
             parentNode g ca cnt ts i a gi) X'
      ∧ (∀ l', l' ∈ X' → l' ∉ X → l' ∉ dom s)
      ∧ (∀ l', l' ∈ dom s → l' ∉ X → s' !! l' = s !! l')
      ∧ dom s ⊆ dom s'.
Proof.
  intros Hsim Hfuel Hid. revert Hfuel.
  induction Hsim as [|t ts Ht _ IH];
    intros Hfuel ls X s i a gi Hf Hpl Hpob Hlen.
  - apply forest_inv_nil in Hf as [-> ->]. exists s, [], ∅.
    split; [reflexivity|]. split; [constructor|].
    split; [intros l' Hl'; clear -Hl'; set_solver|]. split; [reflexivity|].
    reflexivity.
  - apply forest_inv_cons in Hf
      as (c & ls' & X0 & Y & -> & Hc & Hf' & Hdisj & ->).
    apply Forall_cons in Hfuel as [Hfuel_t Hfuel_ts].
    cbn [length] in Hlen.
    cbn [Heap.forEachChild GapManager.forEachChild]. unfold Heap.bind at 1.
    pose proof (tree_dom _ _ _ _ Hc) as HdomX0.
    pose proof (forest_dom _ _ _ _ Hf') as HdomY.
    destruct (tree_inv _ _ _ _ Hc) as (cob & Hcob & Hshape).
    assert (Hc_in : c ∈ X0).
    { destruct Hshape as [(_ & _ & ->)|(? & ? & ? & _ & _ & _ & _ & ->)];
        set_solver. }
    clear Hshape.
    assert (Hpl0 : pl ∉ X0) by (clear -Hpl; set_solver).
    assert (HplY : pl ∉ Y) by (clear -Hpl; set_solver).
    assert (Hplc : pl ≠ c) by (clear -Hpl0 Hc_in; set_solver).
    assert (Hpldom : pl ∈ dom s) by (apply elem_of_dom; eauto).
    unfold Heap.write at 1. rewrite Hcob.
    set (s0 := <[c := Heap.assignAngles (Some a) (Some ca) cob]> s).
    assert (Hdom0 : dom s0 = dom s).
    { unfold s0. rewrite dom_insert_L.
      assert (c ∈ dom s) by (apply elem_of_dom; eauto).
      clear -H. set_solver. }
    pose proof (tree_assignAngles s c t X0 cob (Some a) (Some ca) Hc Hcob)
      as Hc0. fold s0 in Hc0.
    destruct (Ht (Some a) (Some ca) s0 c X0 fuel ca a Hc0 Hfuel_t)
      as (s1 & X1 & Hrun & Hc1 & HN1 & HF1 & HM1).
    unfold Heap.bind at 1. rewrite Hrun.
    rewrite processNode_setAngles in Hc1.
    pose proof (tree_dom _ _ _ _ Hc1) as HdomX1.
    rewrite Hdom0 in HN1, HM1.
    assert (Hframe01 : ∀ l', l' ∈ dom s → l' ∉ X0 → s1 !! l' = s !! l').
    { intros l' Hl' Hnin. rewrite HF1; [|rewrite Hdom0; exact Hl'|exact Hnin].
      unfold s0. apply lookup_insert_ne. intros ->. exact (Hnin Hc_in). }
    clear HF1 Hdom0 Hc0.
    assert (Hpl1 : s1 !! pl = Some pob)
      by (rewrite Hframe01; assumption).
    assert (HX1Y : X1 ## Y)
      by (exact (new_cells_disjoint X0 X1 Y (dom s) HN1 Hdisj HdomY)).
    assert (Hagree1 : ∀ l', l' ∈ Y → s1 !! l' = s !! l').
    { intros l' Hl'. apply Hframe01; [exact (HdomY l' Hl')|].
      intros H0. exact (Hdisj l' H0 Hl'). }
    destruct (i <? cnt - 1)%nat eqn:Ei.
    + (* a gap node follows *)
      unfold Heap.bind at 1, Heap.createGapNode, Heap.bind at 1, Heap.read.
      rewrite Hpl1. unfold Heap.alloc.
      set (gl := fresh (dom s1)).
      set (gob := Heap.Obj (Some (Heap.gapId pob gi)) EmptyString (Some 0)
                           (Some []) true (Some (a + ca)) (Some g)).
      set (s2 := <[gl := gob]> s1).
      assert (Hgl : gl ∉ dom s1) by apply is_fresh.
      assert (Hdom2 : dom s2 = {[gl]} ∪ dom s1)
        by (unfold s2; apply dom_insert_L).
      assert (Hframe12 : ∀ l', l' ∈ dom s1 → s2 !! l' = s1 !! l').
      { intros l' Hl'. unfold s2. apply lookup_insert_ne. intros <-.
        exact (Hgl Hl'). }
      assert (Hf2 : forest s2 ls' ts Y).
      { eapply forest_frame; [exact Hf'|]. intros l' Hl'.
        rewrite Hframe12; [apply Hagree1; exact Hl'|].
        apply HM1, HdomY, Hl'. }
      assert (Hpl2 : s2 !! pl = Some pob).
      { rewrite Hframe12; [exact Hpl1|]. apply elem_of_dom. eauto. }
      destruct (IH Hfuel_ts ls' Y s2 (S i) (a + ca + g) (S gi) Hf2 HplY Hpl2)
        as (s3 & ls3 & Y3 & Hloop & Hf3 & HN3 & HF3 & HM3); [lia|].
      unfold Heap.bind at 1. rewrite Hloop.
      exists s3, (c :: gl :: ls3), (X1 ∪ ({[gl]} ∪ Y3)).
      split; [reflexivity|].
      assert (Hsub2 : dom s ⊆ dom s2)
        by (rewrite Hdom2; clear -HM1; set_solver).
      assert (HX1s2 : X1 ⊆ dom s2)
        by (rewrite Hdom2; clear -HdomX1; set_solver).
      assert (HX1Y3 : X1 ## Y3).
      { apply disjoint_sym.
        refine (new_cells_disjoint Y Y3 X1 (dom s2) HN3 _ HX1s2).
        apply disjoint_sym, HX1Y. }
      assert (HglX1 : gl ∉ X1) by (clear -Hgl HdomX1; set_solver).
      assert (HglY : gl ∉ Y) by (clear -Hgl HdomY HM1; set_solver).
      assert (Hgl2 : gl ∈ dom s2) by (rewrite Hdom2; clear; set_solver).
      assert (HglY3 : gl ∉ Y3).
      { intros H3. exact (HN3 gl H3 HglY Hgl2). }
      assert (Hagree3 : ∀ l', l' ∈ X1 → s3 !! l' = s1 !! l').
      { intros l' Hl'. rewrite HF3.
        - apply Hframe12, HdomX1, Hl'.
        - apply HX1s2, Hl'.
        - intros HY. exact (HX1Y l' Hl' HY). }
      split.
      { constructor; [|constructor|].
        - eapply tree_frame; [exact Hc1|exact Hagree3].
        - assert (Hgap : GapManager.createGapNode (a + ca) g parentNode gi
                         = Heap.valueOf gob (Some [])).
          { unfold GapManager.createGapNode, Heap.valueOf, gob. cbn.
            rewrite (gapId_agree pob parentNode gi Hid). reflexivity. }
          rewrite Hgap.
          replace ({[gl]} : gset Heap.loc) with ({[gl]} ∪ ∅ : gset Heap.loc)
            by apply union_empty_r_L.
          apply (tree_node _ gl gob [] [] ∅);
            [|reflexivity|constructor|apply not_elem_of_empty].
          rewrite HF3; [apply lookup_insert_eq|exact Hgl2|exact HglY].
        - exact Hf3.
        - clear -HglY3. set_solver.
        - clear -HX1Y3 HglX1. set_solver. }
      split; [|split].
      * assert (HN23 : ∀ l', l' ∈ {[gl]} ∪ Y3 → l' ∉ Y → l' ∉ dom s1).
        { intros l' Hl' Hnin. apply elem_of_union in Hl' as [Hg|H3].
          - apply elem_of_singleton in Hg as ->. exact Hgl.
          - intros Hd. apply (HN3 l' H3 Hnin). rewrite Hdom2.
            clear -Hd. set_solver. }
        exact (new_cells_union X0 X1 Y ({[gl]} ∪ Y3) (dom s) (dom s1)
                               HN1 HN23 HM1).
      * intros l' Hl' Hnin.
        assert (Hn0 : l' ∉ X0) by (clear -Hnin; set_solver).
        assert (HnY : l' ∉ Y) by (clear -Hnin; set_solver).
        rewrite HF3; [|apply Hsub2, Hl'|exact HnY].
        rewrite Hframe12 by (apply HM1, Hl').
        apply Hframe01; assumption.
      * etransitivity; [exact Hsub2|exact HM3].
    + (* the last child *)
      assert (Hf1 : forest s1 ls' ts Y).
      { eapply forest_frame; [exact Hf'|exact Hagree1]. }
      destruct (IH Hfuel_ts ls' Y s1 (S i) (a + ca) gi Hf1 HplY Hpl1)
        as (s3 & ls3 & Y3 & Hloop & Hf3 & HN3 & HF3 & HM3); [lia|].
      unfold Heap.bind at 1. rewrite Hloop.
      exists s3, (c :: ls3), (X1 ∪ Y3).
      split; [reflexivity|].
      assert (HX1Y3 : X1 ## Y3).
      { apply disjoint_sym.
        refine (new_cells_disjoint Y Y3 X1 (dom s1) HN3 _ HdomX1).
        apply disjoint_sym, HX1Y. }
      split.
      { constructor.
        - eapply tree_frame; [exact Hc1|]. intros l' Hl'.
          apply HF3; [apply HdomX1, Hl'|].
          intros HY. exact (HX1Y l' Hl' HY).
        - exact Hf3.
        - exact HX1Y3. }
      split; [|split].
      * exact (new_cells_union X0 X1 Y Y3 (dom s) (dom s1) HN1 HN3 HM1).
      * intros l' Hl' Hnin.
        assert (Hn0 : l' ∉ X0) by (clear -Hnin; set_solver).
        assert (HnY : l' ∉ Y) by (clear -Hnin; set_solver).
        rewrite HF3; [|apply HM1, Hl'|exact HnY].
        apply Hframe01; assumption.
      * etransitivity; [exact HM1|exact HM3].
Qed.

Lemma height_children (t : node) (ts : list node) (fuel : nat) :
  children t = Some ts → (height t <= S fuel)%nat →
  Forall (fun c => height c <= fuel)%nat ts.
Proof.
  intros Hch Hh. destruct t as [i nm v och g s r d ir or]. cbn in Hch.
  subst och. cbn [height children] in Hh.
  assert (Hmax : (list_max (map height ts) <= fuel)%nat) by lia.
  apply list_max_le in Hmax. rewrite Forall_map in Hmax.
  apply Forall_forall. intros c Hc. rewrite Forall_forall in Hmax.
  apply Hmax. exact Hc.
Qed.

Lemma simulates_all (o : GapManager.Options) (t : node) : simulates o t.
Proof.
  induction t as [t IH] using node_subtree_ind.
  intros sa ar s l X fuel range start Ht Hfuel.
  destruct fuel as [|fuel].
  { destruct t; cbn in Hfuel; lia. }
  cbn [Heap.processNode]. unfold Heap.bind at 1, Heap.read.
  destruct (tree_inv _ _ _ _ Ht) as (ob & Hl & Hshape). rewrite Hl.
  rewrite processNode_eq.
  destruct Hshape
    as [(Hch & Et & ->)|(ls & ts & X0 & Hch & Hf & Hnin & Et & ->)].
  - rewrite Hch. rewrite Et. cbn [children Heap.valueOf]. rewrite <- Et.
    exists s, {[l]}. split; [reflexivity|]. split; [exact Ht|]. set_solver.
  - rewrite Hch.
    assert (Hcht : children t = Some ts).
    { apply (f_equal children) in Et. exact Et. }
    assert (Hid : Heap.o_id ob = id (setAngles t sa ar)).
    { rewrite Et. reflexivity. }
    assert (Hchn : children (setAngles t sa ar) = Some ts)
      by (rewrite Et; reflexivity).
    rewrite Hchn, (forest_length _ _ _ _ Hf).
    destruct (_ <? _)%nat.
    { exists s, ({[l]} ∪ X0). split; [reflexivity|]. split; [exact Ht|].
      set_solver. }
    cbv zeta.
    destruct (simulates_loop o fuel l ob (setAngles t sa ar)
                (GapManager.gapRadians o)
                ((range - GapManager.totalGapAngle o (length ts))
                 / ofNat (length ts))
                (length ts) ts (IH _ Hcht)
                (height_children t ts fuel Hcht Hfuel) Hid
                ls X0 s 0%nat start 0%nat Hf Hnin Hl eq_refl)
      as (s1 & ls1 & X1 & Hloop & Hf1 & HN & HF & HM).
    unfold Heap.bind at 1. rewrite Hloop.
    assert (Hldom : l ∈ dom s) by (apply elem_of_dom; eauto).
    assert (Hl1 : s1 !! l = Some ob) by (rewrite HF; auto).
    unfold Heap.bind at 1, Heap.write. rewrite Hl1. cbn [Heap.ret].
    assert (HlX1 : l ∉ X1).
    { intros H1. apply (HN l H1); assumption. }
    eexists _, ({[l]} ∪ X1). split; [reflexivity|]. split; [|split; [|split]].
    + rewrite Et.
      change (setChildren (Heap.valueOf ob (Some ts)) ?new)
        with (Heap.valueOf (Heap.assignChildren ls1 ob) (Some new)).
      eapply tree_node; [apply lookup_insert_eq|reflexivity| |exact HlX1].
      rewrite <- Et. eapply forest_frame; [exact Hf1|].
      intros l' Hl'. apply lookup_insert_ne. set_solver.
    + intros l' Hl' Hnin'. apply (HN l'); set_solver.
    + intros l' Hl' Hnin'. rewrite lookup_insert_ne by set_solver.
      apply HF; set_solver.
    + rewrite dom_insert_L. set_solver.
Qed.

Lemma simulates_roots (o : GapManager.Options) (fuel : nat) (range start : Q)
    (ts : list node) :
  Forall (fun t => height t <= fuel)%nat ts →
  ∀ ls X s,
    forest s ls ts X →
    ∃ s' X',
      Heap.mapArray (fun n => Heap.processNode fuel o n range start) ls s
      = Some (ls, s')
      ∧ forest s' ls
          (map (fun n => GapManager.processNode o n range start) ts) X'
      ∧ (∀ l', l' ∈ X' → l' ∉ X → l' ∉ dom s)
      ∧ (∀ l', l' ∈ dom s → l' ∉ X → s' !! l' = s !! l')
      ∧ dom s ⊆ dom s'.
Proof.
  induction 1 as [|t ts Hh _ IH]; intros ls X s Hf.
  - apply forest_inv_nil in Hf as [-> ->]. exists s, ∅.
    split; [reflexivity|]. split; [constructor|]. set_solver.
  - apply forest_inv_cons in Hf
      as (c & ls' & X0 & Y & -> & Hc & Hf' & Hdisj & ->).
    pose proof (tree_dom _ _ _ _ Hc) as HdomX0.
    pose proof (forest_dom _ _ _ _ Hf') as HdomY.
    rewrite <- (setAngles_same t) in Hc.
    destruct (simulates_all o t _ _ s c X0 fuel range start Hc Hh)
      as (s1 & X1 & Hrun & Hc1 & HN1 & HF1 & HM1).
    rewrite setAngles_same in Hc1.
    pose proof (tree_dom _ _ _ _ Hc1) as HdomX1.
    assert (Hf1 : forest s1 ls' ts Y).
    { eapply forest_frame; [exact Hf'|]. intros l' Hl'.
      apply HF1; set_solver. }
    destruct (IH ls' Y s1 Hf1) as (s2 & Y2 & Hrest & Hf2 & HN2 & HF2 & HM2).
    cbn [Heap.mapArray map]. unfold Heap.bind at 1. rewrite Hrun.
    unfold Heap.bind at 1. rewrite Hrest.
    exists s2, (X1 ∪ Y2). split; [reflexivity|].
    assert (HX1Y : X1 ## Y).
    { intros l' H1 HY. destruct (decide (l' ∈ X0)); [set_solver|].
      apply (HN1 l' H1); [assumption|]. set_solver. }
    assert (HX1Y2 : X1 ## Y2).
    { intros l' H1 H2. destruct (decide (l' ∈ Y)); [set_solver|].
      apply (HN2 l' H2); [assumption|]. set_solver. }
    split; [|split; [|split]].
    + constructor; [|exact Hf2|exact HX1Y2].
      eapply tree_frame; [exact Hc1|]. intros l' Hl'. apply HF2; set_solver.
    + intros l' Hl' Hnin. apply elem_of_union in Hl' as [H1|H2].
      * pose proof (HN1 l' H1). set_solver.
      * pose proof (HN2 l' H2). set_solver.
    + intros l' Hl' Hnin. rewrite HF2; [|set_solver|set_solver].
      apply HF1; set_solver.
    + set_solver.
Qed.

(** On a store that holds a forest, each object at one place only,
    [insertGaps] on the store returns the roots it was given and leaves
    in the store the forest that [insertGaps] on values computes; the
    objects outside the forest are untouched. *)
Theorem heap_insertGaps_refines (o : GapManager.Options) (fuel : nat)
    (s : Heap.store) (data : list Heap.loc) (ts : list node)
    (X : gset Heap.loc) :
  forest s data ts X →
  Forall (fun t => height t <= fuel)%nat ts →
  ∃ s' X',
    Heap.insertGaps fuel o data s = Some (data, s')
    ∧ forest s' data (GapManager.insertGaps o ts) X'
    ∧ (∀ l', l' ∈ dom s → l' ∉ X → s' !! l' = s !! l').
Proof.
  intros Hf Hfuel. unfold Heap.insertGaps, GapManager.insertGaps.
  destruct (_ || _).
  - exists s, X. split; [reflexivity|]. split; [exact Hf|]. reflexivity.
  - destruct (simulates_roots o fuel (2 * Math_PI) 0 ts Hfuel data X s Hf)
      as (s' & X' & Hrun & Hf' & _ & HF & _).
    exists s', X'. auto.
Qed.

Lemma tree_root_in (s : Heap.store) (l : Heap.loc) (t : node)
    (X : gset Heap.loc) :
  tree s l t X → l ∈ X.
Proof.
  intros Ht. apply tree_inv in Ht
    as (ob & _ & [(_ & _ & ->)|(? & ? & ? & _ & _ & _ & _ & ->)]);
    set_solver.
Qed.

Lemma tree_isGap (s : Heap.store) (l : Heap.loc) (t : node) (X : gset Heap.loc)
    (ob : Heap.object) :
  tree s l t X → s !! l = Some ob → Heap.o_isGap ob = isGap t.
Proof.
  intros Ht Hl. apply tree_inv in Ht
    as (ob' & Hl' & [(_ & -> & _)|(? & ? & ? & _ & _ & _ & -> & _)]);
    rewrite Hl in Hl'; injection Hl' as <-; reflexivity.
Qed.

Lemma filterReal_forest (s : Heap.store) (ls : list Heap.loc) (ts : list node)
    (X : gset Heap.loc) :
  forest s ls ts X →
  ∃ lsr Xr,
    Heap.filterReal ls s = Some (lsr, s)
    ∧ forest s lsr (List.filter GapManager.isReal ts) Xr
    ∧ Xr ⊆ X.
Proof.
  induction 1 as [|c ls t ts X Y Hc Hf (lsr & Yr & Hrun & Hfr & Hsub) Hdisj].
  - exists [], ∅. split; [reflexivity|]. split; [constructor|reflexivity].
  - destruct (tree_inv _ _ _ _ Hc) as (cob & Hcob & _).
    pose proof (tree_isGap _ _ _ _ _ Hc Hcob) as Hgap.
    cbn [Heap.filterReal List.filter]. unfold Heap.bind at 1, Heap.read.
    rewrite Hcob.
    unfold Heap.bind at 1. rewrite Hrun. cbn [Heap.ret].
    unfold GapManager.isReal at 1. rewrite <- Hgap.
    destruct (Heap.o_isGap cob); cbn [negb].
    + exists lsr, Yr. split; [reflexivity|]. split; [exact Hfr|].
      clear -Hsub. set_solver.
    + exists (c :: lsr), (X ∪ Yr). split; [reflexivity|]. split.
      * constructor; [exact Hc|exact Hfr|]. clear -Hsub Hdisj. set_solver.
      * clear -Hsub. set_solver.
Qed.

Lemma simulatesRemove_loop (fuel : nat) (n : Heap.loc) (nob : Heap.object)
    (ca : num) (ts : list node) :
  Forall simulatesRemove ts →
  Forall (fun t => height t <= fuel)%nat ts →
  ∀ ls X s j,
    forest s ls ts X → n ∉ X → s !! n = Some nob →
    ∃ s' X',
      Heap.forEachReal (Heap.removeGapsFromNode fuel) n ca ls j s
      = Some (tt, s')
      ∧ forest s' ls
          (imap (fun index child =>
                   GapManager.removeGapsFrom child
                     (nadd (Heap.o_startAngle nob)
                           (nmul ca (Some (ofNat (j + index)))))
                     ca) ts) X'
      ∧ X' ⊆ X
      ∧ (∀ l', l' ∉ X → s' !! l' = s !! l')
      ∧ dom s' = dom s.
Proof.
  intros Hsim. induction Hsim as [|t ts Ht _ IH];
    intros Hfuel ls X s j Hf Hn Hnob.
  - apply forest_inv_nil in Hf as [-> ->]. exists s, ∅.
    split; [reflexivity|]. split; [constructor|]. auto.
  - apply forest_inv_cons in Hf
      as (c & ls' & X0 & Y & -> & Hc & Hf' & Hdisj & ->).
    apply Forall_cons in Hfuel as [Hfuel_t Hfuel_ts].
    destruct (tree_inv _ _ _ _ Hc) as (cob & Hcob & _).
    pose proof (tree_root_in _ _ _ _ Hc) as Hc_in.
    assert (Hn0 : n ∉ X0) by (clear -Hn; set_solver).
    assert (HnY : n ∉ Y) by (clear -Hn; set_solver).
    cbn [Heap.forEachReal imap]. unfold Heap.bind at 1, Heap.read. rewrite Hnob.
    unfold Heap.bind at 1, Heap.write. rewrite Hcob.
    set (sa := nadd (Heap.o_startAngle nob) (nmul ca (Some (ofNat j)))).
    set (s0 := <[c := Heap.assignAngles sa ca cob]> s).
    assert (Hdom0 : dom s0 = dom s).
    { unfold s0. rewrite dom_insert_L.
      assert (c ∈ dom s) by (apply elem_of_dom; eauto).
      clear -H. set_solver. }
    pose proof (tree_assignAngles s c t X0 cob sa ca Hc Hcob) as Hc0.
    fold s0 in Hc0.
    destruct (Ht sa ca s0 c X0 fuel Hc0 Hfuel_t)
      as (s1 & X1 & Hrun & Hc1 & Hsub1 & HF1 & Hdom1).
    unfold Heap.bind at 1. rewrite Hrun.
    assert (Hframe01 : ∀ l', l' ∉ X0 → s1 !! l' = s !! l').
    { intros l' Hnin. rewrite HF1 by exact Hnin.
      unfold s0. apply lookup_insert_ne. intros ->. exact (Hnin Hc_in). }
    assert (Hf1 : forest s1 ls' ts Y).
    { eapply forest_frame; [exact Hf'|]. intros l' Hl'. apply Hframe01.
      intros H0. exact (Hdisj l' H0 Hl'). }
    assert (Hnob1 : s1 !! n = Some nob) by (rewrite Hframe01; assumption).
    destruct (IH Hfuel_ts ls' Y s1 (S j) Hf1 HnY Hnob1)
      as (s2 & Y2 & Hloop & Hf2 & Hsub2 & HF2 & Hdom2).
    rewrite Hloop. exists s2, (X1 ∪ Y2). split; [reflexivity|].
    split; [|split; [|split]].
    + replace (j + 0)%nat with j by lia. constructor.
      * eapply tree_frame; [exact Hc1|]. intros l' Hl'. apply HF2.
        intros HY. apply (Hdisj l'); [apply Hsub1, Hl'|exact HY].
      * erewrite imap_ext; [exact Hf2|]. intros i x _. cbn.
        replace (j + S i)%nat with (S (j + i)) by lia. reflexivity.
      * clear -Hsub1 Hsub2 Hdisj. set_solver.
    + clear -Hsub1 Hsub2. set_solver.
    + intros l' Hnin. rewrite HF2 by (clear -Hnin; set_solver).
      apply Hframe01. clear -Hnin. set_solver.
    + rewrite Hdom2, Hdom1. exact Hdom0.
Qed.

Lemma simulatesRemove_all (t : node) : simulatesRemove t.
Proof.
  induction t as [t IH] using node_subtree_ind.
  intros sa ar s l X fuel Ht Hfuel.
  destruct fuel as [|fuel].
  { destruct t; cbn in Hfuel; lia. }
  cbn [Heap.removeGapsFromNode]. unfold Heap.bind at 1, Heap.read.
  destruct (tree_inv _ _ _ _ Ht) as (ob & Hl & Hshape). rewrite Hl.
  rewrite removeGapsFrom_eq.
  destruct Hshape
    as [(Hch & Et & ->)|(ls & ts & X0 & Hch & Hf & Hnin & Et & ->)].
  - rewrite Hch.
    assert (Hcht : children t = None)
      by (apply (f_equal children) in Et; exact Et).
    rewrite Hcht. exists s, {[l]}. split; [reflexivity|].
    split; [exact Ht|]. auto.
  - rewrite Hch.
    assert (Hcht : children t = Some ts)
      by (apply (f_equal children) in Et; exact Et).
    assert (Hsa : Heap.o_startAngle ob = sa)
      by (apply (f_equal startAngle) in Et; symmetry; exact Et).
    assert (Har : Heap.o_angleRange ob = ar)
      by (apply (f_equal angleRange) in Et; symmetry; exact Et).
    rewrite Hcht. cbv zeta.
    destruct (filterReal_forest _ _ _ _ Hf)
      as (lsr & Xr & Hfilter & Hfr & Hsubr).
    unfold Heap.bind at 1. rewrite Hfilter.
    rewrite <- (forest_length _ _ _ _ Hfr).
    assert (HnXr : l ∉ Xr) by (clear -Hnin Hsubr; set_solver).
    assert (Hvalue : ∀ new,
              setChildren (setAngles t sa ar) new
              = Heap.valueOf (Heap.assignChildren lsr ob) (Some new)).
    { intros new. rewrite Et. reflexivity. }
    destruct (0 <? length lsr)%nat.
    + assert (Hsim : Forall simulatesRemove (List.filter GapManager.isReal ts)).
      { specialize (IH _ Hcht). rewrite Forall_forall in IH.
        apply Forall_forall. intros c Hc. apply IH.
        apply list_elem_of_In. apply list_elem_of_In in Hc.
        apply filter_In in Hc as [Hc _]. exact Hc. }
      assert (Hh : Forall (fun c => height c <= fuel)%nat
                          (List.filter GapManager.isReal ts)).
      { pose proof (height_children t ts fuel Hcht Hfuel) as Hall.
        rewrite Forall_forall in Hall.
        apply Forall_forall. intros c Hc. apply Hall.
        apply list_elem_of_In. apply list_elem_of_In in Hc.
        apply filter_In in Hc as [Hc _]. exact Hc. }
      destruct (simulatesRemove_loop fuel l ob
                  (ndiv (Heap.o_angleRange ob) (Some (ofNat (length lsr))))
                  _ Hsim Hh lsr Xr s 0%nat Hfr HnXr Hl)
        as (s1 & X1 & Hloop & Hf1 & Hsub1 & HF1 & Hdom1).
      unfold Heap.bind at 1. rewrite Hloop.
      assert (Hl1 : s1 !! l = Some ob) by (rewrite HF1; assumption).
      unfold Heap.bind at 1, Heap.write. rewrite Hl1. cbn [Heap.ret].
      eexists _, ({[l]} ∪ X1). split; [reflexivity|].
      split; [|split; [|split]].
      * rewrite Hvalue, forEachReal_filter.
        eapply tree_node; [apply lookup_insert_eq|reflexivity| |].
        -- eapply forest_frame.
           ++ rewrite Hsa, Har in Hf1. exact Hf1.
           ++ intros l' Hl'. apply lookup_insert_ne. intros <-.
              apply HnXr, Hsub1, Hl'.
        -- intros H1. apply HnXr, Hsub1, H1.
      * clear -Hsub1 Hsubr. set_solver.
      * intros l' Hnin'. rewrite lookup_insert_ne by (clear -Hnin'; set_solver).
        apply HF1. clear -Hnin' Hsubr. set_solver.
      * rewrite dom_insert_L, Hdom1.
        assert (l ∈ dom s) by (apply elem_of_dom; eauto).
        clear -H. set_solver.
    + unfold Heap.bind at 1, Heap.ret at 1.
      unfold Heap.bind at 1, Heap.write. rewrite Hl. cbn [Heap.ret].
      eexists _, ({[l]} ∪ Xr). split; [reflexivity|].
      split; [|split; [|split]].
      * rewrite Hvalue.
        eapply tree_node; [apply lookup_insert_eq|reflexivity| |exact HnXr].
        eapply forest_frame; [exact Hfr|].
        intros l' Hl'. apply lookup_insert_ne. intros <-. exact (HnXr Hl').
      * clear -Hsubr. set_solver.
      * intros l' Hnin'. apply lookup_insert_ne. clear -Hnin'. set_solver.
      * rewrite dom_insert_L.
        assert (l ∈ dom s) by (apply elem_of_dom; eauto).
        clear -H. set_solver.
Qed.

Lemma simulatesRemove_roots (fuel : nat) (ts : list node) :
  Forall (fun t => height t <= fuel)%nat ts →
  ∀ ls X s,
    forest s ls ts X →
    ∃ s' X',
      Heap.removeGaps fuel ls s = Some (ls, s')
      ∧ forest s' ls (GapManager.removeGaps ts) X'
      ∧ X' ⊆ X
      ∧ (∀ l', l' ∉ X → s' !! l' = s !! l')
      ∧ dom s' = dom s.
Proof.
  unfold Heap.removeGaps, GapManager.removeGaps.
  induction 1 as [|t ts Hh _ IH]; intros ls X s Hf.
  - apply forest_inv_nil in Hf as [-> ->]. exists s, ∅.
    split; [reflexivity|]. split; [constructor|]. auto.
  - apply forest_inv_cons in Hf
      as (c & ls' & X0 & Y & -> & Hc & Hf' & Hdisj & ->).
    rewrite <- (setAngles_same t) in Hc.
    destruct (simulatesRemove_all t _ _ s c X0 fuel Hc Hh)
      as (s1 & X1 & Hrun & Hc1 & Hsub1 & HF1 & Hdom1).
    assert (Hf1 : forest s1 ls' ts Y).
    { eapply forest_frame; [exact Hf'|]. intros l' Hl'. apply HF1.
      intros H0. exact (Hdisj l' H0 Hl'). }
    destruct (IH ls' Y s1 Hf1) as (s2 & Y2 & Hrest & Hf2 & Hsub2 & HF2 & Hdom2).
    cbn [Heap.mapArray map]. unfold Heap.bind at 1. rewrite Hrun.
    unfold Heap.bind at 1. rewrite Hrest.
    exists s2, (X1 ∪ Y2). split; [reflexivity|].
    split; [|split; [|split]].
    + constructor; [|exact Hf2|clear -Hsub1 Hsub2 Hdisj; set_solver].
      eapply tree_frame; [exact Hc1|]. intros l' Hl'. apply HF2.
      intros HY. apply (Hdisj l'); [apply Hsub1, Hl'|apply HY].
    + clear -Hsub1 Hsub2. set_solver.
    + intros l' Hnin. rewrite HF2 by (clear -Hnin; set_solver).
      apply HF1. clear -Hnin. set_solver.
    + rewrite Hdom2. exact Hdom1.
Qed.

Lemma height_setAngles (t : node) (sa ar : num) :
  height (setAngles t sa ar) = height t.
Proof. destruct t; reflexivity. Qed.

Lemma height_pos (t : node) : (1 <= height t)%nat.
Proof. destruct t; cbn; lia. Qed.

Lemma forEachChild_heights (recur : node → Q → Q → node) (parentNode : node)
    (g ca : Q) (cnt : nat) (l : list node) :
  Forall (fun c => ∀ r s, height (recur c r s) = height c) l →
  ∀ i a gi,
    list_max (map height
                (GapManager.forEachChild recur parentNode g ca cnt l i a gi))
    = list_max (map height l).
Proof.
  induction 1 as [|c l Hc _ IH]; intros i a gi; [reflexivity|].
  cbn [GapManager.forEachChild]. pose proof (height_pos c).
  destruct (i <? cnt - 1)%nat; cbn [map list_max fold_right];
    rewrite Hc; fold (list_max (map height l));
    try (change (fold_right Nat.max 0%nat ?x) with (list_max x));
    rewrite IH.
  - cbn. lia.
  - reflexivity.
Qed.

Lemma processNode_height (o : GapManager.Options) (t : node) :
  ∀ range start, height (GapManager.processNode o t range start) = height t.
Proof.
  induction t as [t IH] using node_subtree_ind. intros range start.
  rewrite processNode_eq. destruct (children t) as [ch|] eqn:Hch;
    [|reflexivity].
  destruct (_ <? _)%nat; [reflexivity|]. cbv zeta.
  destruct t as [i nm v och gp s r d ir or]. cbn in Hch. subst och.
  cbn [height children setChildren]. f_equal.
  apply forEachChild_heights.
  specialize (IH _ eq_refl). cbn [children] in IH.
  rewrite Forall_forall in IH. apply Forall_forall. intros c Hc r0 s0.
  rewrite height_setAngles. apply IH. exact Hc.
Qed.

(** The same for [removeGaps]. *)
Theorem heap_removeGaps_refines (fuel : nat) (s : Heap.store)
    (data : list Heap.loc) (ts : list node) (X : gset Heap.loc) :
  forest s data ts X →
  Forall (fun t => height t <= fuel)%nat ts →
  ∃ s' X',
    Heap.removeGaps fuel data s = Some (data, s')
    ∧ forest s' data (GapManager.removeGaps ts) X'
    ∧ (∀ l', l' ∉ X → s' !! l' = s !! l').
Proof.
  intros Hf Hfuel.
  destruct (simulatesRemove_roots fuel ts Hfuel data X s Hf)
    as (s' & X' & Hrun & Hf' & _ & HF & _).
  exists s', X'. auto.
Qed.

(** X22.  On a store that holds a forest, [insertGaps] and then
    [removeGaps] run to their end with a recursion budget of the height
    of the forest, each returns the locations it was given, and the
    store then holds at these locations the forest that the two
    functions on values compute. *)
Theorem heap_round_trip (o : GapManager.Options) (fuel : nat) (s : Heap.store)
    (data : list Heap.loc) (ts : list node) (X : gset Heap.loc) :
  forest s data ts X →
  Forall (fun t => height t <= fuel)%nat ts →
  ∃ s1 s2 X2,
    Heap.insertGaps fuel o data s = Some (data, s1)
    ∧ Heap.removeGaps fuel data s1 = Some (data, s2)
    ∧ forest s2 data (GapManager.removeGaps (GapManager.insertGaps o ts)) X2.
Proof.
  intros Hf Hfuel.
  destruct (heap_insertGaps_refines o fuel s data ts X Hf Hfuel)
    as (s1 & X1 & Hins & Hf1 & _).
  assert (Hfuel1 : Forall (fun t => height t <= fuel)%nat
                          (GapManager.insertGaps o ts)).
  { unfold GapManager.insertGaps. destruct (_ || _); [exact Hfuel|].
    rewrite Forall_map. apply Forall_forall. intros t Ht. cbn.
    rewrite processNode_height. rewrite Forall_forall in Hfuel.
    apply Hfuel, Ht. }
  destruct (heap_removeGaps_refines fuel s1 data _ X1 Hf1 Hfuel1)
    as (s2 & X2 & Hrem & Hf2 & _).
  exists s1, s2, X2. auto.
Qed.

(** [sampleStore] holds [sampleData]: the theorems above apply to it. *)
Lemma sampleStore_forest :
  forest sampleStore [0%nat] [sampleData] ({[0%nat]} ∪ ({[1%nat]} ∪ {[2%nat]})).
Proof.
  replace ({[0%nat]} ∪ ({[1%nat]} ∪ {[2%nat]}) : gset Heap.loc)
    with (({[0%nat]} ∪ ({[1%nat]} ∪ ({[2%nat]} ∪ ∅))) ∪ ∅ : gset Heap.loc)
    by set_solver.
  constructor; [|constructor|set_solver].
  apply (tree_node sampleStore 0%nat
           (Heap.Obj (Some "R") "R" None (Some [1%nat; 2%nat]) false
                     None None)
           [1%nat; 2%nat] [leaf "A" 1; leaf "B" 3]);
    [reflexivity|reflexivity| |set_solver].
  constructor; [|constructor; [|constructor|set_solver]|set_solver].
  - apply (tree_leaf sampleStore 1%nat (leafObject "A" 1)); reflexivity.
  - apply (tree_leaf sampleStore 2%nat (leafObject "B" 3)); reflexivity.
Qed.

Lemma heap_round_trip_on_sample :
  ∃ s1 s2 X2,
    Heap.insertGaps 2 GapManager.defaults [0%nat] sampleStore
    = Some ([0%nat], s1)
    ∧ Heap.removeGaps 2 [0%nat] s1 = Some ([0%nat], s2)
    ∧ forest s2 [0%nat]
        (GapManager.removeGaps
           (GapManager.insertGaps GapManager.defaults [sampleData])) X2.
Proof.
  eapply heap_round_trip; [exact sampleStore_forest|].
  repeat constructor.
Defined.

(** The store, read back, and the values give the same trees on the
    sample. *)
Lemma store_agrees_on_sample :
  Heap.reify 5 sampleStore 0%nat = Some sampleData
  ∧ match Heap.insertGaps 3 GapManager.defaults [0%nat] sampleStore with
    | Some (r, s') => mapM (Heap.reify 5 s') r
    | None => None
    end
    = Some (GapManager.insertGaps GapManager.defaults [sampleData])
  ∧ match Heap.insertGaps 3 GapManager.defaults [0%nat] sampleStore with
    | Some (r, s1) =>
        match Heap.removeGaps 3 r s1 with
        | Some (r', s2) => mapM (Heap.reify 5 s2) r'
        | None => None
        end
    | None => None
    end
    = Some (GapManager.removeGaps
              (GapManager.insertGaps GapManager.defaults [sampleData])).
Proof. repeat split; vm_compute; reflexivity. Qed.

(** C9, as stated, fails: after [insertGaps] on a root with two leaves,
    the first leaf no longer is the object it was. *)
Lemma insertGaps_not_pure :
  ¬ leavesInputUnchanged 3 GapManager.defaults [0%nat] sampleStore.
Proof.
  intros H.
  destruct (Heap.insertGaps 3 GapManager.defaults [0%nat] sampleStore)
    as [[r s']|] eqn:E; [|vm_compute in E; discriminate].
  specialize (H r s' E 1%nat (leafObject "A" 1) eq_refl).
  vm_compute in E. injection E as <- <-. vm_compute in H. discriminate.
Qed.

(** *** The entries of the new [children] array *)

(** In the array the loop of [processNode] builds, the entries at the
    even places are the children it was given, and the entries at the
    odd places are objects made by the loop. *)
Lemma heap_forEachChild_entries (recur : Heap.loc → Q → Q → Heap.M Heap.loc)
    (parentNode : Heap.loc) (gap childAngle : Q) (childrenCount : nat) :
  (∀ c r0 s0 s r s', recur c r0 s0 s = Some (r, s') →
                     r = c ∧ dom s ⊆ dom s') →
  ∀ l i a gi s r s',
    (i + length l = childrenCount)%nat →
    Heap.forEachChild recur parentNode gap childAngle childrenCount
                      l i a gi s = Some (r, s') →
    (∀ k c, nth_error l k = Some c → nth_error r (2 * k) = Some c)
    ∧ (∀ k g, nth_error r (2 * k + 1) = Some g → g ∉ dom s)
    ∧ dom s ⊆ dom s'.
Proof.
  intros Hrec. induction l as [|c l IH]; intros i a gi s r s' Hlen.
  - intros [= <- <-]. split; [intros k c Hk; destruct k; discriminate|].
    split; [|reflexivity]. intros k g Hk.
    replace (2 * k + 1)%nat with (S (2 * k)) in Hk by lia. discriminate.
  - cbn [length] in Hlen. cbn [Heap.forEachChild]. unfold Heap.bind.
    unfold Heap.write at 1. destruct (s !! c) as [cob|] eqn:Hc;
      [|discriminate].
    destruct (recur c childAngle a _) as [[p s1]|] eqn:Hrun; [|discriminate].
    apply Hrec in Hrun as [-> Hdom1]. rewrite dom_insert in Hdom1.
    assert (Hs1 : dom s ⊆ dom s1) by (clear -Hdom1; set_solver).
    destruct (i <? childrenCount - 1)%nat eqn:Ei.
    + unfold Heap.createGapNode, Heap.bind, Heap.read, Heap.alloc.
      destruct (s1 !! parentNode) as [pob|]; [|discriminate].
      match goal with
      | |- context [Heap.forEachChild _ _ _ _ _ l _ _ _ ?st] =>
          destruct (Heap.forEachChild recur parentNode gap childAngle
                      childrenCount l (S i) (a + childAngle + gap) (S gi) st)
            as [[tl s3]|] eqn:E; [|discriminate];
          assert (Hs2 : dom s1 ⊆ dom st)
            by (rewrite dom_insert; clear; set_solver)
      end.
      intros [= <- <-]. apply IH in E as (He & Ho & Hd); [|lia].
      split; [|split].
      * intros k c' Hk. destruct k as [|k]; [exact Hk|].
        replace (2 * S k)%nat with (S (S (2 * k))) by lia.
        cbn [nth_error] in Hk |- *. apply He. exact Hk.
      * intros k g Hk. destruct k as [|k].
        -- cbn in Hk. injection Hk as <-. intros Hin.
           apply (is_fresh (dom s1)). apply Hs1. exact Hin.
        -- replace (2 * S k + 1)%nat with (S (S (2 * k + 1))) in Hk by lia.
           cbn [nth_error] in Hk. intros Hin. apply (Ho k g Hk).
           apply Hs2, Hs1. exact Hin.
      * clear -Hs1 Hs2 Hd. set_solver.
    + apply Nat.ltb_ge in Ei.
      destruct (Heap.forEachChild _ _ _ _ _ l _ _ _ s1) as [[tl s3]|] eqn:E;
        [|discriminate].
      intros [= <- <-]. destruct l as [|c' l]; [|simpl in Hlen; lia].
      cbn [Heap.forEachChild] in E. unfold Heap.ret in E.
      injection E as <- <-. split; [|split].
      * intros k c' Hk. destruct k as [|[|k]]; try discriminate. exact Hk.
      * intros k g Hk.
        replace (2 * k + 1)%nat with (S (2 * k)) in Hk by lia.
        cbn [nth_error] in Hk. destruct (2 * k)%nat; discriminate.
      * exact Hs1.
Qed.

Lemma heap_processNode_dom (o : GapManager.Options) (fuel : nat) :
  ∀ n range start s r s',
    Heap.processNode fuel o n range start s = Some (r, s') →
    r = n ∧ dom s ⊆ dom s'.
Proof.
  induction fuel as [|fuel IH]; intros n range start s r s';
    [discriminate|].
  cbn [Heap.processNode]. unfold Heap.bind at 1, Heap.read.
  destruct (s !! n) as [ob|]; [|discriminate].
  destruct (Heap.o_children ob) as [ch|]; [|intros [= <- <-]; auto].
  destruct (_ <? _)%nat; [intros [= <- <-]; auto|]. cbv zeta.
  unfold Heap.bind at 1.
  destruct (Heap.forEachChild _ _ _ _ _ _ _ _ _ s) as [[nc s1]|] eqn:El;
    [|discriminate].
  apply heap_forEachChild_entries in El as (_ & _ & Hd);
    [|exact IH|reflexivity].
  unfold Heap.bind, Heap.write. destruct (s1 !! n) as [ob1|]; [|discriminate].
  intros [= <- <-]. split; [reflexivity|]. rewrite dom_insert.
  clear -Hd. set_solver.
Qed.

(** The [children] array a call of [processNode] leaves at an object
    with enough children. *)
Lemma heap_processNode_entries (o : GapManager.Options) (fuel : nat)
    (n : Heap.loc) (range start : Q) (s s' : Heap.store) (ob : Heap.object)
    (ls : list Heap.loc) (r : Heap.loc) :
  s !! n = Some ob → Heap.o_children ob = Some ls →
  (GapManager.opt_minChildrenForGap o <= length ls)%nat →
  Heap.processNode fuel o n range start s = Some (r, s') →
  ∃ ob' ls', s' !! n = Some ob' ∧ Heap.o_children ob' = Some ls'
    ∧ (∀ k c, nth_error ls k = Some c → nth_error ls' (2 * k) = Some c)
    ∧ (∀ k g, nth_error ls' (2 * k + 1) = Some g → g ∉ dom s).
Proof.
  intros Hn Hch Hmin. destruct fuel as [|fuel]; [discriminate|].
  cbn [Heap.processNode]. unfold Heap.bind, Heap.read. rewrite Hn, Hch.
  destruct (_ <? _)%nat eqn:E; [apply Nat.ltb_lt in E; lia|]. cbv zeta.
  destruct (Heap.forEachChild _ _ _ _ _ _ _ _ _ s) as [[nc s1]|] eqn:El;
    [|discriminate].
  apply heap_forEachChild_entries in El as (He & Ho & _);
    [|apply heap_processNode_dom|reflexivity].
  unfold Heap.write. destruct (s1 !! n) as [ob1|]; [|discriminate].
  intros [= _ <-]. exists (Heap.assignChildren nc ob1), nc.
  rewrite lookup_insert_eq. auto.
Qed.

Lemma valueOf_inj (ob ob' : Heap.object) (ts ts' : list node) (ls' : list Heap.loc) :
  setChildren (Heap.valueOf ob (Some ts)) ts' = Heap.valueOf ob' (Some ts') →
  Heap.o_children ob' = Some ls' →
  ob' = Heap.assignChildren ls' ob.
Proof.
  destruct ob, ob'. unfold setChildren, Heap.valueOf, Heap.assignChildren.
  cbn. intros [= <- <- <- <- <- <-] ->. reflexivity.
Qed.

(** C9, amended.  [insertGaps] works in place.  On a store that holds
    the forest [ts] at the locations [data], each object at one place
    only, and with a recursion budget of the height of the forest, the
    call returns, and what it returns is the list [data] itself: the
    very objects it was given, which now hold the forest with the gap
    nodes that [insertGaps] on values computes; the objects of the
    forest are the old ones or new ones, and no object outside the
    forest is touched.  With gaps disabled ([enableGaps] false or
    [gapAngle <= 0]) the store is left as it is.  A call of
    [processNode] on an object with at least [minChildrenForGap]
    children returns that object, whose [children] now is a new list:
    at the even places the children it had, the same objects,
    processed; at the odd places new objects, the gap nodes. *)
Theorem insertGaps_in_place (o : GapManager.Options) (fuel : nat)
    (s : Heap.store) :
  (∀ data ts X,
     forest s data ts X → Forall (fun t => height t <= fuel)%nat ts →
     ∃ s' X',
       Heap.insertGaps fuel o data s = Some (data, s')
       ∧ forest s' data (GapManager.insertGaps o ts) X'
       ∧ (∀ l', l' ∈ X' → l' ∉ X → l' ∉ dom s)
       ∧ (∀ l', l' ∈ dom s → l' ∉ X → s' !! l' = s !! l'))
  ∧ (∀ data,
       GapManager.opt_enableGaps o = false ∨ GapManager.opt_gapAngle o <= 0 →
       Heap.insertGaps fuel o data s = Some (data, s))
  ∧ (∀ l t X ob ls range start,
       tree s l t X → (height t <= fuel)%nat →
       s !! l = Some ob → Heap.o_children ob = Some ls →
       (GapManager.opt_minChildrenForGap o <= length ls)%nat →
       ∃ s' ls' ch ch' Y,
         Heap.processNode fuel o l range start s = Some (l, s')
         ∧ s' !! l = Some (Heap.assignChildren ls' ob)
         ∧ children t = Some ch
         ∧ spliced o t range start ch ch'
         ∧ forest s' ls' ch' Y
         ∧ (∀ k c, nth_error ls k = Some c → nth_error ls' (2 * k) = Some c)
         ∧ (∀ k g, nth_error ls' (2 * k + 1) = Some g → g ∉ dom s)
         ∧ (∀ l', l' ∈ dom s → l' ∉ X → s' !! l' = s !! l')).
Proof.
  split; [|split].
  - intros data ts X Hf Hfuel. unfold Heap.insertGaps, GapManager.insertGaps.
    destruct (_ || _).
    + exists s, X. split; [reflexivity|]. split; [exact Hf|].
      split; [intros l' H1 H2; contradiction|reflexivity].
    + destruct (simulates_roots o fuel (2 * Math_PI) 0 ts Hfuel data X s Hf)
        as (s' & X' & Hrun & Hf' & HN & HF & _).
      exists s', X'. auto.
  - intros data Hoff. unfold Heap.insertGaps.
    destruct (negb (GapManager.opt_enableGaps o)
              || Qle_bool (GapManager.opt_gapAngle o) 0) eqn:E;
      [reflexivity|].
    apply orb_false_iff in E as [E1 E2].
    destruct Hoff as [Hoff | Hoff].
    + rewrite Hoff in E1. discriminate.
    + apply Qle_bool_iff in Hoff. congruence.
  - intros l t X ob ls range start Ht Hfuel Hl Hch Hmin.
    pose proof Ht as Ht0. rewrite <- (setAngles_same t) in Ht0.
    destruct (simulates_all o t _ _ s l X fuel range start Ht0 Hfuel)
      as (s' & X' & Hrun & Ht' & _ & HF & _).
    rewrite setAngles_same in Ht'.
    destruct (tree_inv _ _ _ _ Ht) as (ob0 & Hl0 & Hshape).
    rewrite Hl in Hl0. injection Hl0 as <-.
    destruct Hshape
      as [(Hnone & _)|(ls0 & ts & X0 & Hch0 & Hf & _ & Et & _)];
      [congruence|].
    rewrite Hch in Hch0. injection Hch0 as <-.
    assert (Hcht : children t = Some ts) by (rewrite Et; reflexivity).
    pose proof (forest_length _ _ _ _ Hf) as Hlen.
    destruct (processNode_spliced o t range start ts Hcht
                ltac:(rewrite <- Hlen; exact Hmin))
      as (ch' & Ech' & Hsp).
    destruct (heap_processNode_entries o fuel l range start s s' ob ls l
                Hl Hch Hmin Hrun)
      as (ob' & ls' & Hl' & Hch' & He & Ho).
    destruct (tree_inv _ _ _ _ Ht') as (ob1 & Hl1 & Hshape').
    rewrite Hl' in Hl1. injection Hl1 as <-.
    destruct Hshape'
      as [(Hnone & _)|(ls1 & ts' & X1 & Hch1 & Hf' & _ & Et' & _)];
      [congruence|].
    rewrite Hch' in Hch1. injection Hch1 as <-.
    assert (Ets : ts' = ch').
    { rewrite Et' in Ech'. cbn in Ech'. congruence. }
    subst ts'.
    assert (Eob : ob' = Heap.assignChildren ls' ob).
    { apply (valueOf_inj ob ob' ts ch' ls'); [|exact Hch'].
      rewrite <- Et, <- Et'. rewrite processNode_eq, Hcht.
      destruct (length ts <? GapManager.opt_minChildrenForGap o)%nat eqn:E.
      { apply Nat.ltb_lt in E. lia. }
      cbv zeta. rewrite processNode_eq, Hcht, E in Ech'. cbv zeta in Ech'.
      cbn [children setChildren] in Ech'. injection Ech' as ->.
      reflexivity. }
    exists s', ls', ts, ch', X1. rewrite <- Eob. auto 10.
Qed.

(** ** The theorems at work on the samples *)

Lemma sampleRoot_in_layout : In sampleRoot (allNodes sampleLayout).
Proof. vm_compute. left. reflexivity. Defined.

Lemma sampleChild_in_root : In sampleChild (childList sampleRoot).
Proof. vm_compute. left. reflexivity. Defined.

(** [weight_model] on the root of [sampleTree], valued 2. *)
Lemma weight_model_witness :
  calculateNodeWeight (setValue sampleTree (Some 2))
  == 2 + 0.1 * ofNat (length (childList (setValue sampleTree (Some 2))))
  ∧ 2 < calculateNodeWeight (setValue sampleTree (Some 2)).
Proof.
  apply (proj2 (proj2 (proj2 (proj2
           (weight_model (setValue sampleTree (Some 2))))))).
  - reflexivity.
  - reflexivity.
  - reflexivity.
Defined.

(** [hit_test_classification] on [sampleLayout]: a point out of bounds
    hits nothing, and the node hit at ratio 0.25 contains the point. *)
Lemma hit_test_classification_witness :
  findNodeByPolar 0.1 1.1 sampleLayout = None
  ∧ (In sampleChild (allNodes sampleLayout)
     ∧ contains 0.1 0.25 sampleChild = true
     ∧ ∀ c, In c (childList sampleChild) → contains 0.1 0.25 c = false).
Proof.
  split.
  - apply (proj1 (proj2 (proj2
             (hit_test_classification sampleLayout 0.1 1.1)))).
    + reflexivity.
    + intros root Hroot. vm_compute in Hroot. destruct Hroot as [<- | []].
      eexists. split; [reflexivity|]. vm_compute. discriminate.
  - apply (proj1 (proj2 (hit_test_classification sampleLayout 0.1 0.25))).
    vm_compute. reflexivity.
Defined.

Lemma sampleLayout_gapFree : gapFree sampleLayout.
Proof.
  intros p Hp. vm_compute in Hp.
  repeat (destruct Hp as [<- | Hp]; [reflexivity|]). destruct Hp.
Defined.

(** [gap_round_trip] on [sampleLayout]. *)
Lemma gap_round_trip_witness :
  GapManager.removeGaps (GapManager.insertGaps GapManager.defaults sampleLayout)
  = GapManager.removeGaps sampleLayout
  ∧ map skeleton
        (GapManager.removeGaps
           (GapManager.insertGaps GapManager.defaults sampleLayout))
    = map skeleton sampleLayout
  ∧ map (fun n => (startAngle n, angleRange n))
        (GapManager.removeGaps
           (GapManager.insertGaps GapManager.defaults sampleLayout))
    = map (fun n => (startAngle n, angleRange n)) sampleLayout
  ∧ (∀ p, In p (allNodes
                  (GapManager.removeGaps
                     (GapManager.insertGaps GapManager.defaults sampleLayout)))
          → evenlySplit p)
  ∧ (sameAssignment 0
       (GapManager.removeGaps
          (GapManager.insertGaps GapManager.defaults sampleLayout))
       sampleLayout
     = true
     ↔ ∀ p, In p (allNodes sampleLayout) → evenSplit p).
Proof.
  apply (gap_round_trip GapManager.defaults sampleLayout).
  exact sampleLayout_gapFree.
Defined.

(** [radial_band_assignment] on the root of [sampleLayout] and its
    first child. *)
Lemma radial_band_assignment_witness :
  (innerRadius sampleRoot = Some (opt_innerRadius defaults)
   ∧ outerRadius sampleRoot = Some (opt_outerRadius defaults)
   ∧ depth sampleRoot = Some 0%nat)
  ∧ ringOfChild defaults sampleRoot sampleChild.
Proof.
  split.
  - apply (proj1 (radial_band_assignment defaults [sampleTree]) sampleRoot).
    vm_compute. left. reflexivity.
  - apply (proj2 (radial_band_assignment defaults [sampleTree])
             sampleRoot sampleChild).
    + exact sampleRoot_in_layout.
    + exact sampleChild_in_root.
Defined.

(** [angle_sign] on [sampleLayout]: its root and the first child of the
    root, and [optimizeLayout] with a floor of 7 on the root, whose
    range is below it. *)
Lemma angle_sign_witness :
  (∃ n, nth_error [sampleTree] 0 = Some n
     ∧ payload sampleRoot = payload n
     ∧ angleRange sampleRoot
       = Some (calculateNodeWeight n / calculateTotalWeight [sampleTree]
               * (2 * Math_PI - totalGapAngle defaults 1))
     ∧ (0 < calculateNodeWeight n / calculateTotalWeight [sampleTree]
            * (2 * Math_PI - totalGapAngle defaults 1)
        ↔ 0 < 2 * Math_PI - totalGapAngle defaults 1))
  ∧ (∃ r, angleRange sampleRoot = Some r
       ∧ angleRange sampleChild
         = Some (calculateNodeWeight sampleChild
                 / calculateTotalWeight (childList sampleRoot)
                 * (r - totalGapAngle defaults (length (childList sampleRoot))))
       ∧ (0 < calculateNodeWeight sampleChild
              / calculateTotalWeight (childList sampleRoot)
              * (r - totalGapAngle defaults (length (childList sampleRoot)))
          ↔ 0 < r - totalGapAngle defaults (length (childList sampleRoot))))
  ∧ nth_error (optimizeLayout sampleLayout 7) 0
    = Some (setAngleRange sampleRoot (Some 7)).
Proof.
  split; [|split].
  - apply (proj1 angle_sign defaults [sampleTree] 0%nat sampleRoot).
    reflexivity.
  - apply (proj1 (proj2 angle_sign) defaults [sampleTree]
             sampleRoot sampleChild).
    + exact sampleRoot_in_layout.
    + exact sampleChild_in_root.
  - apply (proj1 (proj1 (proj2 (proj2 (proj2 (proj2 (proj2 angle_sign))
                                          sampleLayout 7)))
                    0%nat sampleRoot eq_refl)
             (calculateNodeWeight sampleTree / calculateTotalWeight [sampleTree]
              * (2 * Math_PI - totalGapAngle defaults 1))).
    + vm_compute. reflexivity.
    + vm_compute. reflexivity.
Defined.

Lemma sampleStore_tree :
  ∃ X, tree sampleStore 0%nat sampleData X.
Proof.
  destruct (forest_inv_cons _ _ _ _ _ sampleStore_forest)
    as (c & ls' & X0 & Y & E & Ht & _).
  injection E as <- _. exists X0. exact Ht.
Qed.

(** [insertGaps_in_place] on [sampleStore]: the call of [insertGaps]
    returns the root it was given, and the store then holds
    [sampleData] with a gap node between its two leaves; the call of
    [processNode] on the root leaves the two leaves at the places 0 and
    2 of its new list of children. *)
Lemma insertGaps_in_place_witness :
  (∃ s' X',
     Heap.insertGaps 2 GapManager.defaults [0%nat] sampleStore
     = Some ([0%nat], s')
     ∧ forest s' [0%nat]
         (GapManager.insertGaps GapManager.defaults [sampleData]) X')
  ∧ ∃ s' ls' ch',
      Heap.processNode 2 GapManager.defaults 0%nat (2 * Math_PI) 0 sampleStore
      = Some (0%nat, s')
      ∧ (∃ ob', s' !! 0%nat = Some ob' ∧ Heap.o_children ob' = Some ls')
      ∧ spliced GapManager.defaults sampleData (2 * Math_PI) 0
          [leaf "A" 1; leaf "B" 3] ch'
      ∧ nth_error ls' 0 = Some 1%nat
      ∧ nth_error ls' 2 = Some 2%nat.
Proof.
  split.
  - destruct (proj1 (insertGaps_in_place GapManager.defaults 2 sampleStore)
                [0%nat] [sampleData] _ sampleStore_forest
                ltac:(repeat constructor))
      as (s' & X' & Hrun & Hf & _).
    exists s', X'. auto.
  - destruct sampleStore_tree as (X & Ht).
    destruct (proj2 (proj2 (insertGaps_in_place GapManager.defaults 2
                              sampleStore))
                0%nat sampleData X
                (Heap.Obj (Some "R") "R" None (Some [1%nat; 2%nat]) false
                          None None)
                [1%nat; 2%nat] (2 * Math_PI) 0 Ht
                ltac:(vm_compute; lia) eq_refl eq_refl
                ltac:(vm_compute; lia))
      as (s' & ls' & ch & ch' & Y & Hrun & Hl & Hch & Hsp & _ & He & _).
    injection Hch as <-.
    exists s', ls', ch'. split; [exact Hrun|].
    split; [eexists; split; [exact Hl|reflexivity]|].
    split; [exact Hsp|].
    split; [apply (He 0%nat)|apply (He 1%nat)]; reflexivity.
Defined.

(** * Part 4: validation, statistics, reports and the engine

    Properties of the functions around the layout and the gaps: the
    validator and the statistics of [LayoutCalculator], the reports of
    [GapManager], and the functions of [SunburstEngine] on its data. *)

Lemma calculateLayout_total (o : Options) (forest : list node) :
  forest ≠ [] →
  ∃ s, sumAngleRange (calculateLayout o forest) = Some s
    ∧ s == 2 * Math_PI - totalGapAngle o (length forest).
Proof.
  intros Hne. unfold calculateLayout.
  destruct forest as [|n0 rest]; [congruence|].
  apply placed_sum; [exact Hne|reflexivity].
Qed.

(** ** [validateLayout] on the layouts of the calculator *)

Lemma checkOverlap_cons (node1 node2 : node) (rest : list node) :
  checkOverlap (node1 :: node2 :: rest)
  = (if nlt (startAngle node2) (nadd (startAngle node1) (angleRange node1))
     then [AngleOverlap (name node1) (name node2)] else [])
    ++ checkOverlap (node2 :: rest).
Proof. reflexivity. Qed.

(** A sibling group placed with shares and a gap that are not negative
    is sorted by start angle as it stands, and no sector reaches into
    the next. *)
Lemma forEachSibling_sorted (o : Options) (tw av g : Q) (cnt d : nat)
    (inn out : Q) (l : list node) :
  0 <= g → (∀ n, In n l → 0 <= calculateNodeWeight n / tw * av) →
  ∀ i a,
    let placed := forEachSibling (createLayoutNode o) tw av g cnt d inn out
                                 l i a in
    Forall (fun p => ∃ s, startAngle p = Some s ∧ a <= s) placed
    ∧ sortByStartAngle placed = placed
    ∧ checkOverlap placed = [].
Proof.
  intros Hg. induction l as [|n rest IH]; intros Hw i a; cbv zeta.
  - cbn. auto.
  - cbn [forEachSibling].
    set (r := calculateNodeWeight n / tw * av).
    set (a' := if (i <? cnt - 1)%nat then a + r + g else a + r).
    assert (Hr : 0 <= r) by (apply Hw; left; reflexivity).
    assert (Ha : a + r <= a') by (unfold a'; destruct (i <? cnt - 1)%nat; lra).
    destruct (IH (fun m Hm => Hw m (or_intror Hm)) (S i) a')
      as (Hall & Hsort & Hover).
    fold (forEachSibling (createLayoutNode o) tw av g cnt d inn out) in *.
    set (lay := {| l_startAngle := a; l_angleRange := r; l_depth := d;
                   l_innerRadius := inn; l_outerRadius := out |}).
    destruct (createLayoutNode_fields o n lay) as (Fs & Fr & _).
    cbn [l_startAngle l_angleRange lay] in Fs, Fr.
    set (p := createLayoutNode o n lay) in *.
    set (rest' := forEachSibling (createLayoutNode o) tw av g cnt d inn out
                    rest (S i) a') in *.
    split; [|split].
    + constructor.
      * exists a. split; [exact Fs|lra].
      * eapply Forall_impl; [exact Hall|].
        intros q (s & Es & Hs). exists s. split; [exact Es|lra].
    + cbn [sortByStartAngle fold_right].
      fold (sortByStartAngle rest'). rewrite Hsort.
      destruct rest' as [|q rest'']; [reflexivity|].
      apply Forall_cons in Hall as ((s & Es & Hs) & _).
      cbn [insertSorted]. rewrite Fs, Es. cbn [nsub].
      assert (E : nlt (Some 0) (Some (a - s)) = false)
        by (apply nlt_Some_false; lra).
      rewrite E. reflexivity.
    + destruct rest' as [|q rest'']; [reflexivity|].
      apply Forall_cons in Hall as ((s & Es & Hs) & _).
      rewrite checkOverlap_cons, Hover, Fs, Fr, Es. cbn [nadd].
      assert (E : nlt (Some s) (Some (a + r)) = false)
        by (apply nlt_Some_false; lra).
      rewrite E. reflexivity.
Qed.

(** X1.  [validateLayout] rejects the layout [calculateLayout] makes
    as soon as the gap angle reserved for the roots exceeds 0.01 rad:
    the angle error it reports is that gap angle, and the first issue is
    the angle sum.  With the default options (gaps of 3 degrees) this
    is so for every forest that is not empty. *)
Theorem validateLayout_rejects_gaps :
  (∀ (o : Options) (forest : list node),
     forest ≠ [] →
     0.01 < totalGapAngle o (length forest) →
     let v := validateLayout (calculateLayout o forest) in
     v_isValid v = false
     ∧ (∃ e, v_angleError v = Some e
          ∧ e == totalGapAngle o (length forest))
     ∧ ∃ t, head (v_issues v) = Some (AngleSumError (2 * Math_PI) (Some t)))
  ∧ (∀ forest : list node,
       forest ≠ [] →
       v_isValid (validateLayout (calculateLayout defaults forest)) = false).
Proof.
  assert (G : ∀ (o : Options) (forest : list node),
     forest ≠ [] →
     0.01 < totalGapAngle o (length forest) →
     let v := validateLayout (calculateLayout o forest) in
     v_isValid v = false
     ∧ (∃ e, v_angleError v = Some e
          ∧ e == totalGapAngle o (length forest))
     ∧ ∃ t, head (v_issues v) = Some (AngleSumError (2 * Math_PI) (Some t))).
  { intros o forest Hne Hgap.
    destruct (calculateLayout_total o forest Hne) as (s & Hs & Es).
    cbv zeta. unfold validateLayout. rewrite Hs. cbn [nsub nabs].
    assert (Ee : Qabs (s - 2 * Math_PI) == totalGapAngle o (length forest)).
    { rewrite Es.
      assert (E : 2 * Math_PI - totalGapAngle o (length forest)
                  - 2 * Math_PI == - totalGapAngle o (length forest)) by ring.
      rewrite E, Qabs_opp. apply Qabs_pos. lra. }
    assert (Hlt : nlt (Some 0.01) (Some (Qabs (s - 2 * Math_PI))) = true).
    { apply nlt_Some. rewrite Ee. exact Hgap. }
    rewrite Hlt. cbn [app v_isValid v_angleError v_issues head].
    split; [reflexivity|]. split; [eexists; split; [reflexivity|exact Ee]|].
    eexists; reflexivity. }
  split; [exact G|].
  intros forest Hne. apply G; [exact Hne|].
  unfold totalGapAngle, gapRadians. cbn [opt_gapAngle defaults].
  assert (H1 : 1 <= ofNat (length forest)).
  { destruct forest as [|n0 rest]; [congruence|].
    cbn [length]. rewrite ofNat_S. pose proof (ofNat_nonneg (length rest)). lra. }
  assert (Hg : 0.05 < 3 * Math_PI / 180) by reflexivity.
  nra.
Qed.

(** [validateLayout_rejects_gaps] on the two roots of the scenario and
    on [sampleLayout]. *)
Lemma validateLayout_rejects_gaps_witness :
  v_isValid (validateLayout (calculateLayout gap10 twoRoots)) = false
  ∧ v_isValid (validateLayout sampleLayout) = false.
Proof.
  split.
  - apply (proj1 validateLayout_rejects_gaps gap10 twoRoots).
    + discriminate.
    + reflexivity.
  - apply (proj2 validateLayout_rejects_gaps [sampleTree]). discriminate.
Defined.

Lemma checkNodeRadius_kinds (n : node) (i : issue) :
  In i (checkNodeRadius n) → angleIssue i = false.
Proof.
  induction n as [n IH] using node_subtree_ind.
  destruct n as [id nm v och g s r d ir or]. cbn [checkNodeRadius children].
  intros Hi. apply in_app_or in Hi as [Hi|Hi].
  { destruct (nge _ _); [destruct Hi as [<-|[]]; reflexivity|destruct Hi]. }
  apply in_app_or in Hi as [Hi|Hi].
  { destruct (_ || _); [destruct Hi as [<-|[]]; reflexivity|destruct Hi]. }
  destruct och as [ch|]; [|destruct Hi].
  specialize (IH _ eq_refl). rewrite Forall_forall in IH.
  apply in_flat_map in Hi as (c & Hc & Hi).
  apply in_app_or in Hi as [Hi|Hi].
  - destruct (_ || _); [destruct Hi as [<-|[]]; reflexivity|destruct Hi].
  - apply (IH c); [apply list_elem_of_In; exact Hc|exact Hi].
Qed.

(** X2.  On the layout [calculateLayout] makes, when the gap angle is
    not negative and the angle reserved for the roots is at most 0.01
    rad, [validateLayout] reports no issue about angles: the roots add
    up to the full circle within the tolerance, and no root begins
    before the one before it ends.  Every issue it reports is one of
    [checkNodeRadius], about a ring. *)
Theorem validateLayout_angles_pass (o : Options) (forest : list node) :
  forest ≠ [] →
  0 <= opt_gapAngle o →
  totalGapAngle o (length forest) <= 0.01 →
  (∃ e, v_angleError (validateLayout (calculateLayout o forest)) = Some e
        ∧ e <= 0.01)
  ∧ checkOverlap (sortByStartAngle (calculateLayout o forest)) = []
  ∧ ∀ i, In i (v_issues (validateLayout (calculateLayout o forest))) →
         angleIssue i = false.
Proof.
  intros Hne Hg Hgap.
  assert (Hgr : 0 <= gapRadians o).
  { unfold gapRadians.
    assert (0 < Math_PI) by reflexivity.
    apply Qle_shift_div_l; [reflexivity|]. nra. }
  assert (HT : 0 <= totalGapAngle o (length forest)).
  { unfold totalGapAngle. pose proof (ofNat_nonneg (length forest)). nra. }
  destruct (calculateLayout_total o forest Hne) as (s & Hs & Es).
  assert (Eabs : Qabs (s - 2 * Math_PI) == totalGapAngle o (length forest)).
  { rewrite Es.
    assert (E : 2 * Math_PI - totalGapAngle o (length forest)
                - 2 * Math_PI == - totalGapAngle o (length forest)) by ring.
    rewrite E, Qabs_opp, Qabs_pos; lra. }
  assert (Hover : checkOverlap (sortByStartAngle (calculateLayout o forest))
                  = []).
  { assert (Hav : 0 < 2 * Math_PI - totalGapAngle o (length forest)).
    { assert (3 < Math_PI) by reflexivity. lra. }
    unfold calculateLayout.
    destruct forest as [|n0 rest] eqn:Ef; [congruence|]. rewrite <- Ef in *.
    assert (Hshare : ∀ n, In n forest →
              0 <= calculateNodeWeight n / calculateTotalWeight forest
                   * (2 * Math_PI - totalGapAngle o (length forest))).
    { intros n Hn.
      assert (Hw := calculateNodeWeight_pos n).
      assert (Htw : 0 < calculateTotalWeight forest)
        by (apply calculateTotalWeight_pos; exact Hne).
      apply Qlt_le_weak. apply share_sign; assumption. }
    destruct (forEachSibling_sorted o _ _ _ (length forest) 0%nat
                (opt_innerRadius o) (opt_outerRadius o) forest Hgr Hshare
                0%nat 0) as (_ & Hsort & Hov).
    rewrite Hsort. exact Hov. }
  split; [|split; [exact Hover|]].
  - unfold validateLayout. cbn [v_angleError]. rewrite Hs. cbn [nsub nabs].
    eexists. split; [reflexivity|]. rewrite Eabs. exact Hgap.
  - unfold validateLayout. cbn [v_issues]. rewrite Hs. cbn [nsub nabs].
    assert (E1 : nlt (Some 0.01) (Some (Qabs (s - 2 * Math_PI))) = false).
    { apply nlt_Some_false. rewrite Eabs. exact Hgap. }
    rewrite E1, Hover. cbn [app]. intros i Hi.
    apply in_flat_map in Hi as (n & _ & Hi).
    apply (checkNodeRadius_kinds n i Hi).
Qed.

(** [validateLayout_angles_pass] on [sampleTree] laid out without
    gaps. *)
Lemma validateLayout_angles_pass_witness :
  (∃ e, v_angleError (validateLayout (calculateLayout noGaps [sampleTree]))
        = Some e ∧ e <= 0.01)
  ∧ checkOverlap (sortByStartAngle (calculateLayout noGaps [sampleTree])) = []
  ∧ ∀ i, In i (v_issues (validateLayout (calculateLayout noGaps [sampleTree])))
         → angleIssue i = false.
Proof.
  apply (validateLayout_angles_pass noGaps [sampleTree]).
  - discriminate.
  - discriminate.
  - discriminate.
Defined.

(** ** [optimizeLayout] *)

Lemma optimizeLayout_cons (n : node) (rest : list node) (minAngle : Q) :
  optimizeLayout (n :: rest) minAngle
  = (if nlt (angleRange n) (Some minAngle)
     then setAngleRange n (Some minAngle) else n)
    :: optimizeLayout rest minAngle.
Proof. reflexivity. Qed.

(** X3.  A second pass of [optimizeLayout] with the same minimum changes
    nothing, and a pass changes nothing but the [angleRange] of the
    nodes it is given. *)
Theorem optimizeLayout_idempotent (nodes : list node) (minAngle : Q) :
  optimizeLayout (optimizeLayout nodes minAngle) minAngle
  = optimizeLayout nodes minAngle
  ∧ map (fun n => setAngleRange n None) (optimizeLayout nodes minAngle)
    = map (fun n => setAngleRange n None) nodes.
Proof.
  induction nodes as [|n rest [IH1 IH2]]; [split; reflexivity|].
  rewrite !optimizeLayout_cons. cbn [map]. rewrite IH1, IH2.
  destruct (nlt (angleRange n) (Some minAngle)) eqn:E.
  - cbn [angleRange setAngleRange].
    assert (E' : nlt (Some minAngle) (Some minAngle) = false)
      by (apply nlt_Some_false; lra).
    rewrite E'. split; reflexivity.
  - rewrite E. split; reflexivity.
Qed.

Lemma sumAngleRange_from (l : list node) :
  ∀ acc s,
    fold_left (fun sum n => nadd sum (angleRange n)) l (Some acc) = Some s →
    ∀ minAngle acc', acc <= acc' →
      ∃ s', fold_left (fun sum n => nadd sum (angleRange n))
                      (optimizeLayout l minAngle) (Some acc') = Some s'
        ∧ s <= s'
        ∧ (acc < acc'
           ∨ (∃ n r, In n l ∧ angleRange n = Some r ∧ r < minAngle) →
           s < s').
Proof.
  induction l as [|n rest IH]; intros acc s Hs minAngle acc' Hacc.
  - cbn in Hs. injection Hs as <-. exists acc'. cbn.
    split; [reflexivity|]. split; [exact Hacc|].
    intros [H|(n & r & [] & _)]. exact H.
  - cbn [fold_left] in Hs.
    destruct (angleRange n) as [r|] eqn:Er.
    2:{ cbn [nadd] in Hs. exfalso. clear - Hs.
        induction rest as [|m rest IH]; [discriminate|].
        cbn [fold_left nadd] in Hs. auto. }
    cbn [nadd] in Hs. rewrite optimizeLayout_cons, Er. cbn [fold_left].
    destruct (nlt (Some r) (Some minAngle)) eqn:E.
    + apply nlt_Some in E. cbn [angleRange setAngleRange nadd].
      destruct (IH _ _ Hs minAngle (acc' + minAngle)) as (s' & Hs' & Hle & Hlt);
        [lra|].
      exists s'. split; [exact Hs'|]. split; [exact Hle|].
      intros _. apply Hlt. left. lra.
    + apply nlt_Some_false in E. rewrite Er. cbn [nadd].
      destruct (IH _ _ Hs minAngle (acc' + r)) as (s' & Hs' & Hle & Hlt);
        [lra|].
      exists s'. split; [exact Hs'|]. split; [exact Hle|].
      intros [H|(m & rm & [<-|Hm] & Erm & Hrm)].
      * apply Hlt. left. lra.
      * rewrite Er in Erm. injection Erm as <-. lra.
      * apply Hlt. right. exists m, rm. auto.
Qed.

(** X4.  [optimizeLayout] lowers no angle: the ranges of a layout add
    up after the pass to at least what they added up to before, and to
    more as soon as one node was below the minimum. *)
Theorem optimizeLayout_total (nodes : list node) (minAngle s : Q) :
  sumAngleRange nodes = Some s →
  ∃ s', sumAngleRange (optimizeLayout nodes minAngle) = Some s'
    ∧ s <= s'
    ∧ ((∃ n r, In n nodes ∧ angleRange n = Some r ∧ r < minAngle) →
       s < s').
Proof.
  intros Hs.
  destruct (sumAngleRange_from nodes 0 s Hs minAngle 0) as (s' & Hs' & Hle & Hlt);
    [lra|].
  exists s'. split; [exact Hs'|]. split; [exact Hle|].
  intros H. apply Hlt. right. exact H.
Qed.

(** [optimizeLayout_total] on [sampleLayout] with a minimum of 7 rad,
    which its root is below. *)
Lemma optimizeLayout_total_witness :
  ∃ s s', sumAngleRange sampleLayout = Some s
    ∧ sumAngleRange (optimizeLayout sampleLayout 7) = Some s'
    ∧ s < s'.
Proof.
  destruct (sumAngleRange sampleLayout) as [s|] eqn:Es;
    [|vm_compute in Es; discriminate].
  destruct (optimizeLayout_total sampleLayout 7 s Es) as (s' & Hs' & _ & Hlt).
  exists s, s'. split; [reflexivity|]. split; [exact Hs'|].
  apply Hlt. exists sampleRoot. eexists.
  split; [vm_compute; left; reflexivity|]. split; reflexivity.
Defined.

(** ** [getLayoutStats] *)

Lemma Math_min_NaN (l : list num) :
  fold_left (fun acc x =>
               match acc, x with
               | NaN, _ | _, None => NaN
               | Infinity, Some q => Finite q
               | Finite m, Some q => Finite (Qmin m q)
               | NegInfinity, Some _ => NegInfinity
               end) l NaN = NaN.
Proof. induction l as [|x l IH]; [reflexivity|exact IH]. Qed.

Lemma Math_max_NaN (l : list num) :
  fold_left (fun acc x =>
               match acc, x with
               | NaN, _ | _, None => NaN
               | NegInfinity, Some q => Finite q
               | Finite m, Some q => Finite (Qmax m q)
               | Infinity, Some _ => Infinity
               end) l NaN = NaN.
Proof. induction l as [|x l IH]; [reflexivity|exact IH]. Qed.

Lemma sumAngleRange_NaN (l : list node) :
  fold_left (fun sum n => nadd sum (angleRange n)) l None = None.
Proof. induction l as [|x l IH]; [reflexivity|exact IH]. Qed.

Lemma stats_missing (l : list node) (n : node) :
  In n l → angleRange n = None →
  ∀ a b c,
    fold_left (fun acc x =>
                 match acc, x with
                 | NaN, _ | _, None => NaN
                 | Infinity, Some q => Finite q
                 | Finite m, Some q => Finite (Qmin m q)
                 | NegInfinity, Some _ => NegInfinity
                 end) (map angleRange l) a = NaN
    ∧ fold_left (fun acc x =>
                   match acc, x with
                   | NaN, _ | _, None => NaN
                   | NegInfinity, Some q => Finite q
                   | Finite m, Some q => Finite (Qmax m q)
                   | Infinity, Some _ => Infinity
                   end) (map angleRange l) b = NaN
    ∧ fold_left (fun sum n => nadd sum (angleRange n)) l c = None.
Proof.
  intros Hn En. induction l as [|m rest IH]; [destruct Hn|].
  intros a b c. cbn [map fold_left]. destruct Hn as [->|Hn].
  - rewrite En.
    replace (nadd c None) with (@None Q) by (destruct c; reflexivity).
    rewrite sumAngleRange_NaN.
    destruct a, b; rewrite ?Math_min_NaN, ?Math_max_NaN; auto.
  - apply IH. exact Hn.
Qed.

(** The folds of [Math.min], of [Math.max] and of the sum over nodes
    that all have an [angleRange], from a minimum [mn] and a maximum
    [mx] seen so far: the results bound every range, and each is [mn],
    [mx] or the range of a node. *)
Lemma extremes_folds (l : list node) :
  Forall (fun n => angleRange n ≠ None) l →
  ∀ mn mx acc,
    ∃ mn' mx' s,
      fold_left (fun acc x =>
                   match acc, x with
                   | NaN, _ | _, None => NaN
                   | Infinity, Some q => Finite q
                   | Finite m, Some q => Finite (Qmin m q)
                   | NegInfinity, Some _ => NegInfinity
                   end) (map angleRange l) (Finite mn) = Finite mn'
      ∧ fold_left (fun acc x =>
                     match acc, x with
                     | NaN, _ | _, None => NaN
                     | NegInfinity, Some q => Finite q
                     | Finite m, Some q => Finite (Qmax m q)
                     | Infinity, Some _ => Infinity
                     end) (map angleRange l) (Finite mx) = Finite mx'
      ∧ fold_left (fun sum n => nadd sum (angleRange n)) l (Some acc) = Some s
      ∧ mn' <= mn ∧ mx <= mx'
      ∧ (∀ n, In n l → ∃ r, angleRange n = Some r ∧ mn' <= r ∧ r <= mx')
      ∧ (mn' = mn ∨ ∃ n, In n l ∧ angleRange n = Some mn')
      ∧ (mx' = mx ∨ ∃ n, In n l ∧ angleRange n = Some mx').
Proof.
  induction 1 as [|n rest Hn _ IH]; intros mn mx acc.
  - exists mn, mx, acc. cbn [map fold_left].
    repeat split; try reflexivity; try lra; auto. intros n [].
  - destruct (angleRange n) as [r|] eqn:Er; [|congruence].
    cbn [map fold_left]. rewrite Er. cbn [nadd].
    pose proof (Q.le_min_l mn r). pose proof (Q.le_min_r mn r).
    pose proof (Q.le_max_l mx r). pose proof (Q.le_max_r mx r).
    destruct (IH (Qmin mn r) (Qmax mx r) (acc + r))
      as (mn' & mx' & s & E1 & E2 & E3 & L1 & L2 & Hall & Hmin & Hmax).
    exists mn', mx', s.
    split; [exact E1|]. split; [exact E2|]. split; [exact E3|].
    split; [lra|]. split; [lra|]. split; [|split].
    + intros m [<- | Hm].
      * exists r. split; [exact Er|]. lra.
      * apply Hall. exact Hm.
    + destruct Hmin as [-> | (m & Hm & Em)].
      * unfold Qmin, GenericMinMax.gmin. destruct (mn ?= r); auto;
          right; exists n; split; auto; left; reflexivity.
      * right. exists m. split; [right; exact Hm|exact Em].
    + destruct Hmax as [-> | (m & Hm & Em)].
      * unfold Qmax, GenericMinMax.gmax. destruct (mx ?= r); auto;
          right; exists n; split; auto; left; reflexivity.
      * right. exists m. split; [right; exact Hm|exact Em].
Qed.

(** X5.  The angle statistics of [getLayoutStats].  On nodes that all
    have an [angleRange], [minAngle] is the least and [maxAngle] the
    greatest of the ranges, each the range of one of the nodes, and
    [avgAngle] is a number; with one [angleRange] missing the three are
    [NaN]; and on the empty array [minAngle] is [Infinity], [maxAngle]
    is [-Infinity] and [avgAngle] is [NaN]. *)
Theorem getLayoutStats_angles :
  (∀ nodes : list node,
     nodes ≠ [] → Forall (fun n => angleRange n ≠ None) nodes →
     ∃ mn mx av,
       st_minAngle (getLayoutStats nodes) = Finite mn
       ∧ st_maxAngle (getLayoutStats nodes) = Finite mx
       ∧ st_avgAngle (getLayoutStats nodes) = Some av
       ∧ (∀ n, In n nodes →
               ∃ r, angleRange n = Some r ∧ mn <= r ∧ r <= mx)
       ∧ (∃ n, In n nodes ∧ angleRange n = Some mn)
       ∧ (∃ n, In n nodes ∧ angleRange n = Some mx))
  ∧ (∀ (nodes : list node) (n : node),
       In n nodes → angleRange n = None →
       st_minAngle (getLayoutStats nodes) = NaN
       ∧ st_maxAngle (getLayoutStats nodes) = NaN
       ∧ st_avgAngle (getLayoutStats nodes) = None)
  ∧ st_minAngle (getLayoutStats []) = Infinity
  ∧ st_maxAngle (getLayoutStats []) = NegInfinity
  ∧ st_avgAngle (getLayoutStats []) = None.
Proof.
  split; [|split; [|repeat split]].
  - intros [|n rest] Hne Hall; [congruence|].
    apply Forall_cons in Hall as (Hn & Hrest).
    destruct (angleRange n) as [r|] eqn:Er; [|congruence].
    destruct (extremes_folds rest Hrest r r (0 + r))
      as (mn & mx & s & E1 & E2 & E3 & L1 & L2 & Hall & Hmin & Hmax).
    unfold getLayoutStats, Math_min, Math_max, sumAngleRange.
    cbn [st_minAngle st_maxAngle st_avgAngle map fold_left].
    rewrite Er. cbn [nadd]. rewrite E1, E2, E3. cbn [ndiv].
    exists mn, mx, (s / ofNat (length (n :: rest))).
    split; [reflexivity|]. split; [reflexivity|]. split; [reflexivity|].
    split; [|split].
    + intros m [<- | Hm]; [|apply Hall; exact Hm].
      exists r. split; [exact Er|]. lra.
    + destruct Hmin as [-> | (m & Hm & Em)].
      * exists n. split; [left; reflexivity|exact Er].
      * exists m. split; [right; exact Hm|exact Em].
    + destruct Hmax as [-> | (m & Hm & Em)].
      * exists n. split; [left; reflexivity|exact Er].
      * exists m. split; [right; exact Hm|exact Em].
  - intros nodes n Hn En.
    unfold getLayoutStats, Math_min, Math_max, sumAngleRange.
    cbn [st_minAngle st_maxAngle st_avgAngle].
    destruct (stats_missing nodes n Hn En Infinity NegInfinity (Some 0))
      as (E1 & E2 & E3).
    rewrite E1, E2, E3. destruct nodes; auto.
Qed.

(** [getLayoutStats_angles] on [sampleLayout], and on [sampleTree] as
    it comes, without an [angleRange]. *)
Lemma getLayoutStats_angles_witness :
  (∃ mn mx av,
     st_minAngle (getLayoutStats sampleLayout) = Finite mn
     ∧ st_maxAngle (getLayoutStats sampleLayout) = Finite mx
     ∧ st_avgAngle (getLayoutStats sampleLayout) = Some av
     ∧ (∀ n, In n sampleLayout →
             ∃ r, angleRange n = Some r ∧ mn <= r ∧ r <= mx)
     ∧ (∃ n, In n sampleLayout ∧ angleRange n = Some mn)
     ∧ (∃ n, In n sampleLayout ∧ angleRange n = Some mx))
  ∧ st_avgAngle (getLayoutStats [sampleTree]) = None.
Proof.
  split.
  - apply (proj1 getLayoutStats_angles sampleLayout).
    + discriminate.
    + repeat constructor. discriminate.
  - apply (proj1 (proj2 getLayoutStats_angles) [sampleTree] sampleTree).
    + left. reflexivity.
    + reflexivity.
Defined.

(** ** The reports of [GapManager] *)

Lemma processNode_children (o : GapManager.Options) (n : node)
    (range start : Q) (ch : list node) :
  children n = Some ch →
  (GapManager.opt_minChildrenForGap o <= length ch)%nat →
  ∃ ch', children (GapManager.processNode o n range start) = Some ch'
    ∧ length ch' = (length ch + (length ch - 1))%nat.
Proof.
  intros Hch Hmin. rewrite processNode_eq, Hch.
  destruct (length ch <? GapManager.opt_minChildrenForGap o)%nat eqn:E.
  { apply Nat.ltb_lt in E. lia. }
  cbv zeta. eexists. split; [reflexivity|].
  apply forEachChild_length. reflexivity.
Qed.

(** X6.  [calculateTotalGapAngle] counts the gap nodes among the
    children: on a node that [processNode] of [insertGaps] has worked
    on it gives twice what it gave before, which was the angle of the
    gaps then placed; and [calculateAvailableAngle] gives the range of
    the node less twice that angle. *)
Theorem calculateTotalGapAngle_after_insert (o : GapManager.Options)
    (n : node) (range start : Q) (ch : list node) :
  children n = Some ch →
  (GapManager.opt_minChildrenForGap o <= length ch)%nat →
  GapManager.calculateTotalGapAngle o
    (GapManager.processNode o n range start)
  == 2 * GapManager.calculateTotalGapAngle o n
  ∧ GapManager.calculateTotalGapAngle o n
    == GapManager.gapRadians o * ofNat (length ch - 1)
  ∧ ∀ r, angleRange n = Some r →
      ∃ x, GapManager.calculateAvailableAngle o
             (GapManager.processNode o n range start) = Some x
        ∧ x == r - 2 * (GapManager.gapRadians o * ofNat (length ch - 1)).
Proof.
  intros Hch Hmin.
  assert (Hboth :
    GapManager.calculateTotalGapAngle o
      (GapManager.processNode o n range start)
    == 2 * GapManager.calculateTotalGapAngle o n
    ∧ GapManager.calculateTotalGapAngle o n
      == GapManager.gapRadians o * ofNat (length ch - 1)).
  { destruct (processNode_children o n range start ch Hch Hmin)
      as (ch' & Hch' & Hlen).
    unfold GapManager.calculateTotalGapAngle. rewrite Hch', Hch, Hlen.
    destruct (length ch) as [|[|k]] eqn:El.
    - cbn [Nat.ltb Nat.leb Nat.add Nat.sub]. change (ofNat 0) with 0.
      split; ring.
    - cbn [Nat.ltb Nat.leb Nat.add Nat.sub]. change (ofNat 0) with 0.
      split; ring.
    - replace (S (S k) + (S (S k) - 1) <? 2)%nat with false
        by (symmetry; apply Nat.ltb_ge; lia).
      replace (S (S k) <? 2)%nat with false
        by (symmetry; apply Nat.ltb_ge; lia).
      replace (S (S k) + (S (S k) - 1) - 1)%nat with (S k + S k)%nat by lia.
      replace (S (S k) - 1)%nat with (S k) by lia.
      split; [|reflexivity].
      unfold ofNat. rewrite Nat2Z.inj_add, inject_Z_plus. ring. }
  destruct Hboth as (Hdouble & Hgaps).
  split; [exact Hdouble|]. split; [exact Hgaps|].
  intros r Hr. unfold GapManager.calculateAvailableAngle.
  assert (Er : angleRange (GapManager.processNode o n range start) = Some r).
  { rewrite processNode_eq, Hch. destruct (_ <? _)%nat; exact Hr. }
  rewrite Er. cbn [nsub]. eexists. split; [reflexivity|].
  rewrite Hdouble, Hgaps. reflexivity.
Qed.

(** [calculateTotalGapAngle_after_insert] on the root of [sampleData]. *)
Lemma calculateTotalGapAngle_after_insert_witness :
  GapManager.calculateTotalGapAngle GapManager.defaults
    (GapManager.processNode GapManager.defaults sampleData (2 * Math_PI) 0)
  == 2 * GapManager.calculateTotalGapAngle GapManager.defaults sampleData.
Proof.
  apply (proj1 (calculateTotalGapAngle_after_insert GapManager.defaults
                  sampleData (2 * Math_PI) 0 [leaf "A" 1; leaf "B" 3]
                  eq_refl ltac:(simpl; lia))).
Defined.

Lemma forEachChild_In (recur : node → Q → Q → node) (parentNode : node)
    (gap childAngle : Q) (childrenCount : nat) (l : list node) :
  ∀ i a gi c,
    In c (GapManager.forEachChild recur parentNode gap childAngle
            childrenCount l i a gi) →
    (∃ a' gi', c = GapManager.createGapNode a' gap parentNode gi')
    ∨ (∃ child s, In child l ∧ c = recur child childAngle s).
Proof.
  induction l as [|child rest IH]; intros i a gi c Hc; [destruct Hc|].
  cbn [GapManager.forEachChild] in Hc.
  destruct (i <? childrenCount - 1)%nat.
  - destruct Hc as [<-|[<-|Hc]].
    + right. exists child, a. split; [left|]; reflexivity.
    + left. eauto.
    + destruct (IH _ _ _ _ Hc) as [H|(ch' & s & Hin & ->)]; [left; exact H|].
      right. exists ch', s. split; [right; exact Hin|reflexivity].
  - destruct Hc as [<-|Hc].
    + right. exists child, a. split; [left|]; reflexivity.
    + destruct (IH _ _ _ _ Hc) as [H|(ch' & s & Hin & ->)]; [left; exact H|].
      right. exists ch', s. split; [right; exact Hin|reflexivity].
Qed.

(** X7.  [validateGapConfiguration] on a node with two children or
    more, gaps enabled and a positive gap angle: the node is accepted
    exactly when its [angleRange] is missing, or when the range exceeds
    the angle of one gap fewer than it has children and leaves 0.01 rad
    or more to each child.  As [processNode] reserves one gap more, a
    node accepted with a least child angle [m] gets children of
    [m - gapRadians / n] from it. *)
Theorem validateGapConfiguration_accepts (o : GapManager.Options) (n : node)
    (ch : list node) :
  GapManager.opt_enableGaps o = true → 0 < GapManager.opt_gapAngle o →
  children n = Some ch → (2 <= length ch)%nat →
  (GapManager.gv_isValid (GapManager.validateGapConfiguration o n) = true ↔
   angleRange n = None
   ∨ ∃ r, angleRange n = Some r
       ∧ GapManager.gapRadians o * ofNat (length ch - 1) < r
       ∧ 0.01 <= (r - GapManager.gapRadians o * ofNat (length ch - 1))
                 / ofNat (length ch))
  ∧ (∀ r start m c,
       angleRange n = Some r →
       GapManager.gv_message (GapManager.validateGapConfiguration o n)
       = GapManager.ConfigurationValid (Some m) →
       (GapManager.opt_minChildrenForGap o <= length ch)%nat →
       In c (childList (GapManager.processNode o n r start)) →
       (∃ a gi, c = GapManager.createGapNode a (GapManager.gapRadians o) n gi)
       ∨ ∃ x, angleRange c = Some x
           ∧ x == m - GapManager.gapRadians o / ofNat (length ch)).
Proof.
  intros Hen Hg Hch Hlen.
  assert (Hcfg : GapManager.validateGapConfiguration o n =
    let totalGapAngle := GapManager.gapRadians o * ofNat (length ch - 1) in
    if nge (Some totalGapAngle) (angleRange n) then
      {| GapManager.gv_isValid := false;
         GapManager.gv_message :=
           GapManager.GapsExceedRange totalGapAngle (angleRange n) |}
    else
      let minChildAngle :=
        ndiv (nsub (angleRange n) (Some totalGapAngle))
             (Some (ofNat (length ch))) in
      if nlt minChildAngle (Some 0.01) then
        {| GapManager.gv_isValid := false;
           GapManager.gv_message := GapManager.ChildAngleTooSmall minChildAngle |}
      else
        {| GapManager.gv_isValid := true;
           GapManager.gv_message := GapManager.ConfigurationValid minChildAngle |}).
  { unfold GapManager.validateGapConfiguration. rewrite Hen, Hch.
    cbn [negb].
    replace (Qle_bool (GapManager.opt_gapAngle o) 0) with false.
    2:{ symmetry. destruct (Qle_bool (GapManager.opt_gapAngle o) 0) eqn:E;
          [|reflexivity]. apply Qle_bool_iff in E. lra. }
    replace (length ch <? 2)%nat with false
      by (symmetry; apply Nat.ltb_ge; lia).
    reflexivity. }
  rewrite Hcfg. cbv zeta. clear Hcfg.
  split.
  - destruct (angleRange n) as [r|]; cbn [nge nle nsub ndiv nlt].
    + destruct (Qle_bool r (GapManager.gapRadians o * ofNat (length ch - 1)))
        eqn:E1; cbn [GapManager.gv_isValid].
      * apply Qle_bool_iff in E1. split; [discriminate|].
        intros [H|(r' & Hr' & H1 & _)]; [discriminate|].
        injection Hr' as <-. lra.
      * assert (H1 : GapManager.gapRadians o * ofNat (length ch - 1) < r).
        { destruct (Qlt_le_dec (GapManager.gapRadians o
                                * ofNat (length ch - 1)) r) as [H|H];
            [exact H|]. apply Qle_bool_iff in H. congruence. }
        destruct (Qle_bool 0.01 _) eqn:E2; cbn [negb GapManager.gv_isValid].
        -- apply Qle_bool_iff in E2. split; [|reflexivity].
           intros _. right. exists r. auto.
        -- split; [discriminate|].
           intros [H|(r' & Hr' & _ & H2)]; [discriminate|].
           injection Hr' as <-. apply Qle_bool_iff in H2. congruence.
    + cbn [GapManager.gv_isValid]. split; [left|]; reflexivity.
  - intros r start m c Hr Hmsg Hmin Hc. rewrite Hr in Hmsg.
    cbn [nge nle nsub ndiv nlt] in Hmsg.
    destruct (Qle_bool r _) in Hmsg; [discriminate|].
    destruct (negb _) in Hmsg; [discriminate|].
    cbn [GapManager.gv_message] in Hmsg. injection Hmsg as <-.
    unfold childList in Hc. rewrite processNode_eq, Hch in Hc.
    replace (length ch <? GapManager.opt_minChildrenForGap o)%nat with false
      in Hc by (symmetry; apply Nat.ltb_ge; lia).
    cbv zeta in Hc. cbn [children setChildren] in Hc.
    apply forEachChild_In in Hc as [H|(child & s & _ & ->)]; [left; exact H|].
    right. eexists. split; [reflexivity|].
    unfold GapManager.totalGapAngle.
    assert (Hpos : 0 < ofNat (length ch)) by (apply ofNat_pos; lia).
    rewrite (ofNat_pred (length ch)) by lia. field. lra.
Qed.

(** [validateGapConfiguration_accepts] on [sampleData], which has no
    [angleRange]. *)
Lemma validateGapConfiguration_accepts_witness :
  GapManager.gv_isValid
    (GapManager.validateGapConfiguration GapManager.defaults sampleData)
  = true.
Proof.
  apply (proj1 (validateGapConfiguration_accepts GapManager.defaults
                  sampleData [leaf "A" 1; leaf "B" 3]
                  eq_refl eq_refl eq_refl ltac:(simpl; lia))).
  left. reflexivity.
Defined.

(** ** [getGapStats] *)

Lemma countGaps_eq (n : node) (c : GapManager.GapCounters) :
  GapManager.countGaps n c =
  match children n with
  | None => c
  | Some ch =>
      let '(c, nodeGapCount) :=
        fold_left
          (fun (acc : GapManager.GapCounters * nat) child =>
             let '(c, nodeGapCount) := acc in
             if isGap child then
               ({| GapManager.totalGaps := S (GapManager.totalGaps c);
                   GapManager.maxGapsPerNode := GapManager.maxGapsPerNode c;
                   GapManager.nodesWithGaps :=
                     {[ GapManager.idOrRoot n ]} ∪ GapManager.nodesWithGaps c |},
                S nodeGapCount)
             else (GapManager.countGaps child c, nodeGapCount))
          ch (c, 0%nat) in
      {| GapManager.totalGaps := GapManager.totalGaps c;
         GapManager.maxGapsPerNode :=
           Nat.max (GapManager.maxGapsPerNode c) nodeGapCount;
         GapManager.nodesWithGaps := GapManager.nodesWithGaps c |}
  end.
Proof. destruct n; reflexivity. Qed.

(** A node whose descendants are all real leaves the counters as they
    are. *)
Lemma countGaps_real (n : node) :
  (∀ p, In p (subnodes n) → ∀ c, In c (childList p) → isGap c = false) →
  ∀ c, GapManager.countGaps n c = c.
Proof.
  induction n as [n IH] using node_subtree_ind. intros Hreal c.
  rewrite countGaps_eq. destruct (children n) as [ch|] eqn:Ech; [|reflexivity].
  specialize (IH ch eq_refl).
  assert (Hloop : ∀ l, (∀ x, In x l → In x ch) →
    ∀ c k, fold_left
      (fun (acc : GapManager.GapCounters * nat) child =>
         let '(c, nodeGapCount) := acc in
         if isGap child then
           ({| GapManager.totalGaps := S (GapManager.totalGaps c);
               GapManager.maxGapsPerNode := GapManager.maxGapsPerNode c;
               GapManager.nodesWithGaps :=
                 {[ GapManager.idOrRoot n ]} ∪ GapManager.nodesWithGaps c |},
            S nodeGapCount)
         else (GapManager.countGaps child c, nodeGapCount)) l (c, k) = (c, k)).
  { induction l as [|x l IHl]; intros Hsub c0 k; [reflexivity|].
    cbn [fold_left].
    assert (Hx : In x ch) by (apply Hsub; left; reflexivity).
    assert (Ex : isGap x = false).
    { apply (Hreal n (subnodes_self n)). unfold childList. rewrite Ech.
      exact Hx. }
    rewrite Ex. rewrite Forall_forall in IH.
    rewrite (IH x).
    - apply IHl. intros y Hy. apply Hsub. right. exact Hy.
    - apply list_elem_of_In. exact Hx.
    - intros p Hp. apply Hreal. eapply subnodes_child; eauto. }
  rewrite Hloop by auto. destruct c as [t m s]. cbn.
  rewrite Nat.max_0_r. reflexivity.
Qed.

Lemma forEachReal_In (recur : node → num → num → node)
    (start childAngle : num) (l : list node) :
  ∀ j c, In c (GapManager.forEachReal recur start childAngle l j) →
    ∃ m a, In m l ∧ isGap m = false ∧ c = recur m a childAngle.
Proof.
  induction l as [|x l IH]; intros j c Hc; [destruct Hc|].
  cbn [GapManager.forEachReal] in Hc. unfold GapManager.isReal in Hc.
  destruct (isGap x) eqn:Ex; cbn [negb] in Hc.
  - destruct (IH _ _ Hc) as (m & a & Hm & Hg & ->).
    exists m, a. split; [right; exact Hm|]. split; [exact Hg|reflexivity].
  - destruct Hc as [<-|Hc].
    + exists x. eexists. split; [left; reflexivity|].
      split; [exact Ex|reflexivity].
    + destruct (IH _ _ Hc) as (m & a & Hm & Hg & ->).
      exists m, a. split; [right; exact Hm|]. split; [exact Hg|reflexivity].
Qed.

(** What [removeGapsFromNode] returns has no gap node among the
    children of any of its nodes. *)
Lemma removeGapsFrom_real (n : node) :
  ∀ start range p,
    In p (subnodes (GapManager.removeGapsFrom n start range)) →
    ∀ c, In c (childList p) → isGap c = false.
Proof.
  induction n as [n IH] using node_subtree_ind. intros start range p.
  rewrite removeGapsFrom_eq.
  destruct (children n) as [ch|] eqn:Hch.
  - specialize (IH _ eq_refl). rewrite Forall_forall in IH. cbv zeta.
    destruct (0 <? _)%nat eqn:E.
    + rewrite subnodes_setChildren. intros [<- | Hp].
      * unfold childList. cbn [children setChildren].
        intros c Hc. apply forEachReal_In in Hc as (m & a & _ & Hg & ->).
        destruct (removeGapsFrom_angles m a
                    (ndiv range
                       (Some (ofNat (length
                          (List.filter GapManager.isReal ch))))))
          as (_ & _ & Hgap).
        rewrite Hgap. exact Hg.
      * apply in_flat_map in Hp as (q & Hq & Hp).
        apply forEachReal_In in Hq as (m & a & Hm & _ & ->).
        eapply IH; [apply list_elem_of_In; exact Hm|exact Hp].
    + apply Nat.ltb_ge in E.
      destruct (List.filter GapManager.isReal ch); [|simpl in E; lia].
      rewrite subnodes_setChildren. intros [<- | []].
      intros c Hc. destruct Hc.
  - rewrite subnodes_eq. unfold childList. cbn [children setAngles].
    rewrite Hch. intros [<- | []]. intros c Hc.
    unfold childList in Hc. cbn [children setAngles] in Hc.
    rewrite Hch in Hc. destruct Hc.
Qed.

Lemma countGaps_forest (data : list node) :
  (∀ n, In n data → ∀ c, GapManager.countGaps n c = c) →
  ∀ c, fold_left (fun c n => GapManager.countGaps n c) data c = c.
Proof.
  induction data as [|n rest IH]; intros H c; [reflexivity|].
  cbn [fold_left]. rewrite (H n (or_introl eq_refl)).
  apply IH. intros m Hm. apply H. right. exact Hm.
Qed.

(** X8.  After [removeGaps] the statistics count no gap: whatever the
    data, [getGapStats] of what [removeGaps] returns has [totalGaps],
    [maxGapsPerNode] and [nodesWithGapsCount] at 0. *)
Theorem getGapStats_after_removeGaps (o : GapManager.Options)
    (data : list node) :
  GapManager.gs_totalGaps
    (GapManager.getGapStats o (GapManager.removeGaps data)) = 0%nat
  ∧ GapManager.gs_maxGapsPerNode
      (GapManager.getGapStats o (GapManager.removeGaps data)) = 0%nat
  ∧ GapManager.gs_nodesWithGapsCount
      (GapManager.getGapStats o (GapManager.removeGaps data)) = 0%nat.
Proof.
  unfold GapManager.getGapStats.
  rewrite countGaps_forest; [repeat split|].
  intros n Hn. unfold GapManager.removeGaps in Hn.
  apply in_map_iff in Hn as (m & <- & _).
  apply countGaps_real. apply removeGapsFrom_real.
Qed.

Lemma countGaps_setAngles (n : node) (s r : num) (c : GapManager.GapCounters) :
  GapManager.countGaps (setAngles n s r) c = GapManager.countGaps n c.
Proof. destruct n; reflexivity. Qed.

Lemma gapsBetween_app (l l' : list node) :
  gapsBetween (l ++ l') = (gapsBetween l + gapsBetween l')%nat.
Proof. unfold gapsBetween. rewrite map_app, list_sum_app. reflexivity. Qed.

Lemma mostGapsBetween_app (l l' : list node) :
  mostGapsBetween (l ++ l')
  = Nat.max (mostGapsBetween l) (mostGapsBetween l').
Proof. unfold mostGapsBetween. rewrite map_app, list_max_app. reflexivity. Qed.

Section CountInserted.
Variable o : GapManager.Options.
Variable parentNode countedNode : node.
Variables gap childAngle : Q.
Variable childrenCount : nat.

Local Abbreviation recur :=
  (fun child range start =>
     setAngles (GapManager.processNode o child range start)
               (Some start) (Some range)).

Local Abbreviation step :=
  (fun (acc : GapManager.GapCounters * nat) child =>
     let '(c, nodeGapCount) := acc in
     if isGap child then
       ({| GapManager.totalGaps := S (GapManager.totalGaps c);
           GapManager.maxGapsPerNode := GapManager.maxGapsPerNode c;
           GapManager.nodesWithGaps :=
             {[ GapManager.idOrRoot countedNode ]}
             ∪ GapManager.nodesWithGaps c |},
        S nodeGapCount)
     else (GapManager.countGaps child c, nodeGapCount)).

(** The loop of [countGaps] over the children that the loop of
    [processNode] has made. *)
Lemma countGaps_forEachChild (l : list node) :
  Forall (fun x =>
            isGap x = false
            ∧ ∀ range start c,
                GapManager.totalGaps
                  (GapManager.countGaps
                     (GapManager.processNode o x range start) c)
                = (GapManager.totalGaps c + gapsBetween (subnodes x))%nat
                ∧ GapManager.maxGapsPerNode
                    (GapManager.countGaps
                       (GapManager.processNode o x range start) c)
                  = Nat.max (GapManager.maxGapsPerNode c)
                            (mostGapsBetween (subnodes x))) l →
  ∀ i a gi c k,
    (i + length l = childrenCount)%nat →
    ∃ c',
      fold_left step
        (GapManager.forEachChild recur parentNode gap childAngle
           childrenCount l i a gi) (c, k)
      = (c', (k + (length l - 1))%nat)
      ∧ GapManager.totalGaps c'
        = (GapManager.totalGaps c + (length l - 1)
           + gapsBetween (flat_map subnodes l))%nat
      ∧ GapManager.maxGapsPerNode c'
        = Nat.max (GapManager.maxGapsPerNode c)
                  (mostGapsBetween (flat_map subnodes l)).
Proof.
  induction 1 as [|x l (Hx & Hrec) _ IH]; intros i a gi c k Hlen.
  - exists c. cbn. rewrite !Nat.add_0_r, Nat.max_0_r. auto.
  - cbn [length] in Hlen. cbn [GapManager.forEachChild flat_map].
    rewrite gapsBetween_app, mostGapsBetween_app.
    destruct (Hrec childAngle a c) as (Ht & Hm).
    destruct (i <? childrenCount - 1)%nat eqn:Ei.
    + apply Nat.ltb_lt in Ei. cbn [fold_left].
      cbn [isGap setAngles GapManager.createGapNode].
      rewrite processNode_isGap, Hx, countGaps_setAngles.
      match goal with
      | |- context [fold_left _ _ (?c1, S k)] =>
          destruct (IH (S i) (a + childAngle + gap) (S gi) c1 (S k))
            as (c' & E & Ht' & Hm'); [lia|]
      end.
      exists c'. rewrite E. cbn [GapManager.totalGaps
        GapManager.maxGapsPerNode] in Ht', Hm'.
      split; [f_equal; cbn [length]; lia|].
      rewrite Ht', Hm', Ht, Hm. cbn [length]. split; lia.
    + apply Nat.ltb_ge in Ei. destruct l as [|y l]; [|simpl in Hlen; lia].
      cbn [fold_left GapManager.forEachChild].
      cbn [isGap setAngles].
      rewrite processNode_isGap, Hx, countGaps_setAngles.
      eexists. split; [f_equal; cbn; lia|].
      rewrite Ht, Hm. cbn. unfold gapsBetween, mostGapsBetween. cbn.
      split; lia.
Qed.
End CountInserted.

Lemma gapsBetween_subnodes (n : node) :
  gapsBetween (subnodes n)
  = (length (childList n) - 1
     + gapsBetween (flat_map subnodes (childList n)))%nat
  ∧ mostGapsBetween (subnodes n)
    = Nat.max (length (childList n) - 1)
              (mostGapsBetween (flat_map subnodes (childList n))).
Proof. rewrite subnodes_eq. split; reflexivity. Qed.

(** [countGaps] on what [processNode] returns, for a node without gap
    nodes all of whose nodes with children have
    [minChildrenForGap] of them or more. *)
Lemma countGaps_processNode (o : GapManager.Options) (n : node) :
  (∀ p, In p (subnodes n) → isGap p = false) →
  (∀ p, In p (subnodes n) → hasChildren p = true →
        (GapManager.opt_minChildrenForGap o <= length (childList p))%nat) →
  ∀ range start c,
    GapManager.totalGaps
      (GapManager.countGaps (GapManager.processNode o n range start) c)
    = (GapManager.totalGaps c + gapsBetween (subnodes n))%nat
    ∧ GapManager.maxGapsPerNode
        (GapManager.countGaps (GapManager.processNode o n range start) c)
      = Nat.max (GapManager.maxGapsPerNode c) (mostGapsBetween (subnodes n)).
Proof.
  induction n as [n IH] using node_subtree_ind.
  intros Hfree Hmin range start c.
  destruct (gapsBetween_subnodes n) as (-> & ->).
  rewrite processNode_eq.
  destruct (children n) as [ch|] eqn:Hch.
  2:{ rewrite countGaps_eq, Hch. unfold childList. rewrite Hch.
      cbn. split; lia. }
  assert (Ech : childList n = ch) by (unfold childList; rewrite Hch; reflexivity).
  rewrite Ech.
  destruct (length ch <? GapManager.opt_minChildrenForGap o)%nat eqn:E.
  { apply Nat.ltb_lt in E. destruct ch as [|x ch].
    - rewrite countGaps_eq, Hch. cbn. split; lia.
    - specialize (Hmin n (subnodes_self n)). unfold hasChildren in Hmin.
      rewrite Hch, Ech in Hmin. specialize (Hmin eq_refl). lia. }
  cbv zeta. rewrite countGaps_eq. cbn [children setChildren].
  specialize (IH ch eq_refl).
  assert (HF : Forall (fun x =>
            isGap x = false
            ∧ ∀ range start c,
                GapManager.totalGaps
                  (GapManager.countGaps
                     (GapManager.processNode o x range start) c)
                = (GapManager.totalGaps c + gapsBetween (subnodes x))%nat
                ∧ GapManager.maxGapsPerNode
                    (GapManager.countGaps
                       (GapManager.processNode o x range start) c)
                  = Nat.max (GapManager.maxGapsPerNode c)
                            (mostGapsBetween (subnodes x))) ch).
  { rewrite Forall_forall in IH. apply Forall_forall. intros x Hx.
    apply list_elem_of_In in Hx as Hx'.
    assert (Hsub : ∀ p, In p (subnodes x) → In p (subnodes n))
      by (intros p Hp; eapply subnodes_child; eauto).
    split; [apply Hfree, Hsub, subnodes_self|].
    intros rg st c0. apply IH; auto. }
  match goal with
  | |- context [GapManager.forEachChild ?rc ?pn ?g ?ca ?cnt ?l ?i ?a ?gi] =>
      destruct (countGaps_forEachChild o pn
                  (setChildren n
                     (GapManager.forEachChild rc pn g ca cnt l i a gi))
                  g ca cnt l HF i a gi c 0%nat eq_refl)
        as (c' & El & Ht & Hm)
  end.
  rewrite El. cbn [GapManager.totalGaps GapManager.maxGapsPerNode].
  rewrite Ht, Hm. split; lia.
Qed.

Lemma countGaps_roots (o : GapManager.Options) (data : list node) :
  (∀ p, In p (allNodes data) → isGap p = false) →
  (∀ p, In p (allNodes data) → hasChildren p = true →
        (GapManager.opt_minChildrenForGap o <= length (childList p))%nat) →
  ∀ c,
    let c' := fold_left (fun c n => GapManager.countGaps n c)
                (map (fun n => GapManager.processNode o n (2 * Math_PI) 0) data)
                c in
    GapManager.totalGaps c'
    = (GapManager.totalGaps c + gapsBetween (allNodes data))%nat
    ∧ GapManager.maxGapsPerNode c'
      = Nat.max (GapManager.maxGapsPerNode c) (mostGapsBetween (allNodes data)).
Proof.
  induction data as [|n rest IH]; intros Hfree Hmin c; cbv zeta.
  - cbn. split; lia.
  - cbn [map fold_left]. unfold allNodes in *. cbn [flat_map] in *.
    rewrite gapsBetween_app, mostGapsBetween_app.
    destruct (countGaps_processNode o n
                (fun p Hp => Hfree p (in_or_app _ _ _ (or_introl Hp)))
                (fun p Hp => Hmin p (in_or_app _ _ _ (or_introl Hp)))
                (2 * Math_PI) 0 c) as (Ht & Hm).
    destruct (IH (fun p Hp => Hfree p (in_or_app _ _ _ (or_intror Hp)))
                 (fun p Hp => Hmin p (in_or_app _ _ _ (or_intror Hp)))
                 (GapManager.countGaps
                    (GapManager.processNode o n (2 * Math_PI) 0) c))
      as (Ht' & Hm').
    rewrite Ht', Hm', Ht, Hm. split; lia.
Qed.

(** X9.  The statistics after [insertGaps], gaps enabled, on data
    without gap nodes.  When every node with children has
    [minChildrenForGap] of them or more, [totalGaps] is the number of
    nodes that have a sibling before them, and [maxGapsPerNode] the
    largest number of children of a node less one.  When every root
    has fewer children than [minChildrenForGap], [insertGaps] returns
    the data as it is: nothing below such a root gets a gap. *)
Theorem getGapStats_after_insertGaps (o : GapManager.Options)
    (data : list node) :
  GapManager.opt_enableGaps o = true → 0 < GapManager.opt_gapAngle o →
  ((gapFree data
    ∧ ∀ p, In p (allNodes data) → hasChildren p = true →
        (GapManager.opt_minChildrenForGap o <= length (childList p))%nat) →
   GapManager.gs_totalGaps
     (GapManager.getGapStats o (GapManager.insertGaps o data))
   = gapsBetween (allNodes data)
   ∧ GapManager.gs_maxGapsPerNode
       (GapManager.getGapStats o (GapManager.insertGaps o data))
     = mostGapsBetween (allNodes data))
  ∧ ((∀ n, In n data →
        (length (childList n) < GapManager.opt_minChildrenForGap o)%nat) →
     GapManager.insertGaps o data = data).
Proof.
  intros Hen Hg.
  assert (Eins : GapManager.insertGaps o data
                 = map (fun n => GapManager.processNode o n (2 * Math_PI) 0)
                       data).
  { unfold GapManager.insertGaps. rewrite Hen. cbn [negb orb].
    destruct (Qle_bool (GapManager.opt_gapAngle o) 0) eqn:E; [|reflexivity].
    apply Qle_bool_iff in E. lra. }
  rewrite Eins. split.
  - intros (Hfree & Hmin). unfold GapManager.getGapStats.
    cbn [GapManager.gs_totalGaps GapManager.gs_maxGapsPerNode].
    destruct (countGaps_roots o data Hfree Hmin
                {| GapManager.totalGaps := 0;
                   GapManager.maxGapsPerNode := 0;
                   GapManager.nodesWithGaps := ∅ |}) as (Ht & Hm).
    rewrite Ht, Hm. cbn. split; lia.
  - intros Hfew. clear Eins. induction data as [|n rest IH]; [reflexivity|].
    cbn [map]. f_equal.
    + rewrite processNode_eq. unfold childList in Hfew.
      specialize (Hfew n (or_introl eq_refl)).
      destruct (children n) as [ch|]; [|reflexivity].
      apply Nat.ltb_lt in Hfew. rewrite Hfew. reflexivity.
    + apply IH. intros m Hm. apply Hfew. right. exact Hm.
Qed.

(** [getGapStats_after_insertGaps] on [sampleTree], which gets two gaps,
    and on a chain, which gets none. *)
Lemma getGapStats_after_insertGaps_witness :
  GapManager.gs_totalGaps
    (GapManager.getGapStats GapManager.defaults
       (GapManager.insertGaps GapManager.defaults [sampleTree]))
  = gapsBetween (allNodes [sampleTree])
  ∧ GapManager.insertGaps GapManager.defaults [chain 3] = [chain 3].
Proof.
  split.
  - apply (proj1 (getGapStats_after_insertGaps GapManager.defaults
                    [sampleTree] eq_refl eq_refl)).
    split.
    + intros p Hp. vm_compute in Hp.
      repeat (destruct Hp as [<- | Hp]; [reflexivity|]). destruct Hp.
    + intros p Hp. vm_compute in Hp.
      repeat (destruct Hp as [<- | Hp];
              [first [discriminate | intros _; simpl; lia]|]).
      destruct Hp.
  - apply (proj2 (getGapStats_after_insertGaps GapManager.defaults
                    [chain 3] eq_refl eq_refl)).
    intros n [<- | []]. simpl. lia.
Defined.

(** ** [removeGaps] twice, and [adjustGapAngle] *)

Lemma forEachReal_twice (start childAngle start' childAngle' : num)
    (l : list node) :
  Forall (fun c => ∀ a b a' b',
            GapManager.removeGapsFrom (GapManager.removeGapsFrom c a b) a' b'
            = GapManager.removeGapsFrom c a' b') l →
  ∀ j j',
    GapManager.forEachReal GapManager.removeGapsFrom start' childAngle'
      (GapManager.forEachReal GapManager.removeGapsFrom start childAngle l j)
      j'
    = GapManager.forEachReal GapManager.removeGapsFrom start' childAngle' l j'.
Proof.
  induction 1 as [|x l Hx _ IH]; intros j j'; [reflexivity|].
  cbn [GapManager.forEachReal]. unfold GapManager.isReal.
  destruct (isGap x) eqn:Ex; cbn [negb]; [apply IH|].
  cbn [GapManager.forEachReal]. unfold GapManager.isReal.
  match goal with
  | |- context [isGap (GapManager.removeGapsFrom x ?a ?b)] =>
      destruct (removeGapsFrom_angles x a b) as (_ & _ & ->)
  end.
  rewrite Ex. cbn [negb]. rewrite Hx, IH. reflexivity.
Qed.

Lemma removeGapsFrom_twice (n : node) :
  ∀ a b a' b',
    GapManager.removeGapsFrom (GapManager.removeGapsFrom n a b) a' b'
    = GapManager.removeGapsFrom n a' b'.
Proof.
  induction n as [n IH] using node_subtree_ind. intros a b a' b'.
  rewrite (removeGapsFrom_eq n a b).
  destruct (children n) as [ch|] eqn:Hch.
  2:{ apply removeGapsFrom_setAngles. }
  specialize (IH ch eq_refl). cbv zeta.
  rewrite (removeGapsFrom_eq n a' b'), Hch. cbv zeta.
  destruct (0 <? length (List.filter GapManager.isReal ch))%nat eqn:E.
  - rewrite removeGapsFrom_setChildren. cbv zeta.
    rewrite <- (forEachReal_length GapManager.removeGapsFrom a' None _ 0).
    rewrite forEachReal_twice by exact IH.
    rewrite !forEachReal_length, E.
    rewrite forEachReal_twice by exact IH. reflexivity.
  - apply Nat.ltb_ge in E.
    destruct (List.filter GapManager.isReal ch); [|simpl in E; lia].
    rewrite removeGapsFrom_setChildren. reflexivity.
Qed.

Lemma removeGapsFromNode_twice (n : node) :
  GapManager.removeGapsFromNode (GapManager.removeGapsFromNode n)
  = GapManager.removeGapsFromNode n.
Proof.
  unfold GapManager.removeGapsFromNode.
  destruct (removeGapsFrom_angles n (startAngle n) (angleRange n))
    as (-> & -> & _).
  apply removeGapsFrom_twice.
Qed.

(** X10.  [removeGaps] twice is [removeGaps] once, whatever the data. *)
Theorem removeGaps_idempotent (data : list node) :
  GapManager.removeGaps (GapManager.removeGaps data)
  = GapManager.removeGaps data.
Proof.
  unfold GapManager.removeGaps. rewrite map_map. apply map_ext.
  exact removeGapsFromNode_twice.
Qed.

Lemma subnodes_setAngles (n : node) (s r : num) :
  subnodes (setAngles n s r)
  = setAngles n s r :: flat_map subnodes (childList n).
Proof. rewrite subnodes_eq. reflexivity. Qed.

(** The gap nodes among the children of what [processNode] returns are
    the ones it made, when the node it is given had none. *)
Lemma processNode_gaps (o : GapManager.Options) (n : node) :
  (∀ p, In p (subnodes n) → ∀ c, In c (childList p) → isGap c = false) →
  ∀ range start p,
    In p (subnodes (GapManager.processNode o n range start)) →
    ∀ c, In c (childList p) → isGap c = true →
      angleRange c = Some (GapManager.gapRadians o) ∧ children c = Some [].
Proof.
  induction n as [n IH] using node_subtree_ind.
  intros Hreal range start p. rewrite processNode_eq.
  destruct (children n) as [ch|] eqn:Hch.
  2:{ intros Hp c Hc Hg. rewrite (Hreal p Hp c Hc) in Hg. discriminate. }
  destruct (_ <? _)%nat.
  { intros Hp c Hc Hg. rewrite (Hreal p Hp c Hc) in Hg. discriminate. }
  cbv zeta. specialize (IH ch eq_refl). rewrite Forall_forall in IH.
  rewrite subnodes_setChildren. intros [<- | Hp] c Hc Hg.
  - unfold childList in Hc. cbn [children setChildren] in Hc.
    apply forEachChild_In in Hc as [(a & gi & ->)|(child & s & Hin & ->)].
    + split; reflexivity.
    + cbn [isGap setAngles] in Hg. rewrite processNode_isGap in Hg.
      rewrite (Hreal n (subnodes_self n) child) in Hg; [discriminate|].
      unfold childList. rewrite Hch. exact Hin.
  - apply in_flat_map in Hp as (q & Hq & Hp).
    apply forEachChild_In in Hq as [(a & gi & ->)|(child & s & Hin & ->)].
    + destruct Hp as [<- | []]. destruct Hc.
    + assert (Hsub : ∀ p', In p' (subnodes child) →
                ∀ c', In c' (childList p') → isGap c' = false).
      { intros p' Hp'. apply Hreal. eapply subnodes_child; eauto. }
      apply list_elem_of_In in Hin.
      rewrite subnodes_setAngles in Hp. destruct Hp as [<- | Hp].
      * match type of Hc with
        | In c (childList (setAngles ?X _ _)) =>
            change (In c (childList X)) in Hc;
            exact (IH child Hin Hsub _ _ X (subnodes_self X) c Hc Hg)
        end.
      * match type of Hp with
        | In p (flat_map subnodes (childList ?X)) =>
            assert (Hp' : In p (subnodes X))
              by (rewrite subnodes_eq; right; exact Hp);
            exact (IH child Hin Hsub _ _ p Hp' c Hc Hg)
        end.
Qed.

Lemma subnodes_root_or_child (n : node) :
  ∀ p, In p (subnodes n) →
    p = n ∨ ∃ q, In q (subnodes n) ∧ In p (childList q).
Proof.
  induction n as [n IH] using node_subtree_ind. intros p.
  rewrite subnodes_eq. intros [<- | Hp]; [left; reflexivity|].
  right. apply in_flat_map in Hp as (x & Hx & Hp).
  unfold childList in Hx. destruct (children n) as [ch|] eqn:Hch; [|destruct Hx].
  specialize (IH ch eq_refl). rewrite Forall_forall in IH.
  destruct (IH x (proj2 (list_elem_of_In _ _) Hx) p Hp) as [-> | (q & Hq & Hpq)].
  - exists n. split; [left; reflexivity|].
    unfold childList. rewrite Hch. exact Hx.
  - exists q. split; [|exact Hpq]. right. apply in_flat_map.
    exists x. split; [|exact Hq]. unfold childList. rewrite Hch. exact Hx.
Qed.

(** X11.  [adjustGapAngle].  With a new angle of 0 or less it is
    [removeGaps].  With a positive angle, gaps enabled, every gap node
    among the children of a node of the result has the new angle as its
    [angleRange], and no children: no gap of the old angle is left.
    And when no root of the data is a gap node, [removeGaps] recovers
    from the result what it recovers from the data. *)
Theorem adjustGapAngle_replaces_gaps (o : GapManager.Options)
    (newGapAngle : Q) (data : list node) :
  GapManager.opt_gapAngle (fst (GapManager.adjustGapAngle o newGapAngle data))
  = newGapAngle
  ∧ (newGapAngle <= 0 →
     snd (GapManager.adjustGapAngle o newGapAngle data)
     = GapManager.removeGaps data)
  ∧ (0 < newGapAngle → GapManager.opt_enableGaps o = true →
     ∀ p c,
       In p (allNodes (snd (GapManager.adjustGapAngle o newGapAngle data))) →
       In c (childList p) → isGap c = true →
       angleRange c = Some (newGapAngle * Math_PI / 180)
       ∧ children c = Some [])
  ∧ ((∀ n, In n data → isGap n = false) →
     GapManager.removeGaps (snd (GapManager.adjustGapAngle o newGapAngle data))
     = GapManager.removeGaps data).
Proof.
  unfold GapManager.adjustGapAngle. cbn [fst snd GapManager.opt_gapAngle].
  split; [reflexivity|]. split; [|split].
  - intros Hle. unfold GapManager.insertGaps. cbn [GapManager.opt_gapAngle].
    apply Qle_bool_iff in Hle. rewrite Hle, orb_true_r. reflexivity.
  - intros Hlt Hen p c Hp Hc Hg.
    unfold GapManager.insertGaps in Hp.
    cbn [GapManager.opt_gapAngle GapManager.opt_enableGaps] in Hp.
    rewrite Hen in Hp. cbn [negb orb] in Hp.
    replace (Qle_bool newGapAngle 0) with false in Hp.
    2:{ symmetry. destruct (Qle_bool newGapAngle 0) eqn:E; [|reflexivity].
        apply Qle_bool_iff in E. lra. }
    unfold allNodes in Hp. apply in_flat_map in Hp as (q & Hq & Hp).
    apply in_map_iff in Hq as (m & <- & Hm).
    unfold GapManager.removeGaps in Hm.
    apply in_map_iff in Hm as (n & <- & _).
    match type of Hp with
    | In p (subnodes (GapManager.processNode ?o' ?x ?r ?s)) =>
        exact (processNode_gaps o' x
                 (removeGapsFrom_real n (startAngle n) (angleRange n))
                 r s p Hp c Hc Hg)
    end.
  - intros Hroots.
    assert (Htwice : GapManager.removeGaps (GapManager.removeGaps data)
                     = GapManager.removeGaps data).
    { unfold GapManager.removeGaps. rewrite map_map. apply map_ext.
      exact removeGapsFromNode_twice. }
    rewrite <- Htwice at 2.
    apply removeGaps_insertGaps.
    intros p Hp. unfold allNodes, GapManager.removeGaps in Hp.
    apply in_flat_map in Hp as (q & Hq & Hp).
    apply in_map_iff in Hq as (n & <- & Hn).
    destruct (subnodes_root_or_child _ p Hp) as [-> | (q & Hq & Hpq)].
    + unfold GapManager.removeGapsFromNode.
      destruct (removeGapsFrom_angles n (startAngle n) (angleRange n))
        as (_ & _ & ->).
      apply Hroots. exact Hn.
    + eapply removeGapsFrom_real; eauto.
Qed.

(** [adjustGapAngle_replaces_gaps] on [sampleTree] after [insertGaps]
    with the default angle: no gap, gaps of 5 degrees, and the same
    data without gaps. *)
Lemma adjustGapAngle_replaces_gaps_witness :
  snd (GapManager.adjustGapAngle GapManager.defaults 0
         (GapManager.insertGaps GapManager.defaults [sampleTree]))
  = GapManager.removeGaps
      (GapManager.insertGaps GapManager.defaults [sampleTree])
  ∧ (∀ p c,
       In p (allNodes (snd (GapManager.adjustGapAngle GapManager.defaults 5
              (GapManager.insertGaps GapManager.defaults [sampleTree])))) →
       In c (childList p) → isGap c = true →
       angleRange c = Some (5 * Math_PI / 180) ∧ children c = Some [])
  ∧ GapManager.removeGaps
      (snd (GapManager.adjustGapAngle GapManager.defaults 5
              (GapManager.insertGaps GapManager.defaults [sampleTree])))
    = GapManager.removeGaps
        (GapManager.insertGaps GapManager.defaults [sampleTree]).
Proof.
  split; [|split].
  - apply (proj1 (proj2 (adjustGapAngle_replaces_gaps GapManager.defaults 0
             (GapManager.insertGaps GapManager.defaults [sampleTree])))).
    discriminate.
  - apply (proj1 (proj2 (proj2 (adjustGapAngle_replaces_gaps
             GapManager.defaults 5
             (GapManager.insertGaps GapManager.defaults [sampleTree]))))).
    + reflexivity.
    + reflexivity.
  - apply (proj2 (proj2 (proj2 (adjustGapAngle_replaces_gaps
             GapManager.defaults 5
             (GapManager.insertGaps GapManager.defaults [sampleTree]))))).
    intros n [<- | []]. reflexivity.
Defined.


(** ** [createGapExample] *)

Lemma createGapExample_eq (o : GapManager.Options) (childCount : nat)
    (parentAngle : Q) :
  GapManager.opt_enableGaps o = true → 0 < GapManager.opt_gapAngle o →
  GapManager.createGapExample o childCount parentAngle
  = let parentNode :=
      GapManager.processNode o (exampleParent childCount parentAngle)
                             (2 * Math_PI) 0 in
    {| GapManager.ex_data := [parentNode];
       GapManager.ex_stats := GapManager.getGapStats o [parentNode];
       GapManager.ex_validation :=
         GapManager.validateGapConfiguration o parentNode;
       GapManager.ex_config := o |}.
Proof.
  intros Hen Hg.
  assert (Eins : ∀ x, GapManager.insertGaps o [x]
                      = [GapManager.processNode o x (2 * Math_PI) 0]).
  { intros x. unfold GapManager.insertGaps. rewrite Hen. cbn [negb orb].
    destruct (Qle_bool (GapManager.opt_gapAngle o) 0) eqn:E; [|reflexivity].
    apply Qle_bool_iff in E. lra. }
  unfold GapManager.createGapExample. cbv zeta.
  fold (exampleParent childCount parentAngle). rewrite Eins. reflexivity.
Qed.

Lemma exampleParent_children (childCount : nat) (parentAngle : Q) :
  ∃ kids, children (exampleParent childCount parentAngle) = Some kids
    ∧ length kids = childCount
    ∧ ∀ k, In k kids → isGap k = false ∧ children k = Some [].
Proof.
  eexists. split; [reflexivity|]. split.
  - rewrite length_map, length_seq. reflexivity.
  - intros k Hk. apply in_map_iff in Hk as (i & <- & _). split; reflexivity.
Qed.

Lemma gapsBetween_leaves (l : list node) :
  (∀ k, In k l → children k = Some []) →
  gapsBetween (flat_map subnodes l) = 0%nat.
Proof.
  induction l as [|k l IH]; intros H; [reflexivity|].
  cbn [flat_map]. rewrite gapsBetween_app, IH
    by (intros x Hx; apply H; right; exact Hx).
  destruct (gapsBetween_subnodes k) as (-> & _).
  unfold childList. rewrite (H k (or_introl eq_refl)). reflexivity.
Qed.

Lemma ofNat_add (a b : nat) : ofNat (a + b) == ofNat a + ofNat b.
Proof. unfold ofNat. rewrite Nat2Z.inj_add, inject_Z_plus. reflexivity. Qed.

Lemma validateGapConfiguration_room (o : GapManager.Options) (n : node)
    (ch : list node) (r : Q) :
  GapManager.opt_enableGaps o = true → 0 < GapManager.opt_gapAngle o →
  children n = Some ch → (2 <= length ch)%nat → angleRange n = Some r →
  GapManager.gv_isValid (GapManager.validateGapConfiguration o n) = true →
  GapManager.gapRadians o * ofNat (length ch - 1) < r.
Proof.
  intros Hen Hg Hch Hlen Hr.
  unfold GapManager.validateGapConfiguration. rewrite Hen, Hch, Hr.
  cbn [negb].
  replace (Qle_bool (GapManager.opt_gapAngle o) 0) with false.
  2:{ symmetry. destruct (Qle_bool (GapManager.opt_gapAngle o) 0) eqn:E;
        [|reflexivity]. apply Qle_bool_iff in E. lra. }
  replace (length ch <? 2)%nat with false
    by (symmetry; apply Nat.ltb_ge; lia).
  cbn [nge nle].
  destruct (Qle_bool r (GapManager.gapRadians o * ofNat (length ch - 1)))
    eqn:E; [discriminate|].
  intros _.
  destruct (Qlt_le_dec (GapManager.gapRadians o * ofNat (length ch - 1)) r)
    as [H|H]; [exact H|].
  apply Qle_bool_iff in H. congruence.
Qed.

(** X12.  [createGapExample] with gaps enabled and as many children as
    [minChildrenForGap] asks for: the parent ends up with [2n - 1]
    children and the statistics count [n - 1] gaps; the children are
    laid out over the full circle, the same whatever [parentAngle] is;
    and [validation] is computed on the parent with its gap nodes, so
    that it passes only when the parent angle exceeds twice the angle of
    the gaps placed. *)
Theorem createGapExample_report (o : GapManager.Options) (childCount : nat)
    (parentAngle : Q) :
  GapManager.opt_enableGaps o = true → 0 < GapManager.opt_gapAngle o →
  (1 <= childCount)%nat →
  (GapManager.opt_minChildrenForGap o <= childCount)%nat →
  let example := GapManager.createGapExample o childCount parentAngle in
  ∃ parentNode,
    GapManager.ex_data example = [parentNode]
    ∧ length (childList parentNode) = (2 * childCount - 1)%nat
    ∧ GapManager.gs_totalGaps (GapManager.ex_stats example)
      = (childCount - 1)%nat
    ∧ (∀ parentAngle',
         map children
             (GapManager.ex_data
                (GapManager.createGapExample o childCount parentAngle'))
         = [children parentNode])
    ∧ ((2 <= childCount)%nat →
       GapManager.gv_isValid (GapManager.ex_validation example) = true →
       2 * (GapManager.gapRadians o * ofNat (childCount - 1))
       < parentAngle * Math_PI / 180).
Proof.
  intros Hen Hg H1 Hmin. cbv zeta.
  rewrite (createGapExample_eq o childCount parentAngle Hen Hg). cbv zeta.
  cbn [GapManager.ex_data GapManager.ex_stats GapManager.ex_validation].
  destruct (exampleParent_children childCount parentAngle)
    as (kids & Hkids & Hlen & Hleaf).
  set (parent := exampleParent childCount parentAngle) in *.
  exists (GapManager.processNode o parent (2 * Math_PI) 0).
  destruct (processNode_children o parent (2 * Math_PI) 0 kids Hkids)
    as (ch' & Hch' & Hlen'); [lia|].
  assert (Ecl : childList (GapManager.processNode o parent (2 * Math_PI) 0)
                = ch') by (unfold childList; rewrite Hch'; reflexivity).
  split; [reflexivity|]. split; [rewrite Ecl; lia|]. split; [|split].
  - unfold GapManager.getGapStats. cbn [GapManager.gs_totalGaps fold_left].
    destruct (countGaps_processNode o parent) with
      (range := 2 * Math_PI) (start := 0)
      (c := {| GapManager.totalGaps := 0; GapManager.maxGapsPerNode := 0;
               GapManager.nodesWithGaps := ∅ |}) as (Ht & _).
    + intros p Hp. rewrite subnodes_eq in Hp. destruct Hp as [<- | Hp];
        [reflexivity|].
      apply in_flat_map in Hp as (k & Hk & Hp).
      unfold childList in Hk. rewrite Hkids in Hk.
      destruct (Hleaf k Hk) as (Hgk & Hck).
      rewrite subnodes_eq in Hp. unfold childList in Hp. rewrite Hck in Hp.
      destruct Hp as [<- | []]. exact Hgk.
    + intros p Hp Hhas. rewrite subnodes_eq in Hp.
      destruct Hp as [<- | Hp].
      * unfold childList. rewrite Hkids. lia.
      * apply in_flat_map in Hp as (k & Hk & Hp).
        unfold childList in Hk. rewrite Hkids in Hk.
        destruct (Hleaf k Hk) as (Hgk & Hck).
        rewrite subnodes_eq in Hp. unfold childList in Hp. rewrite Hck in Hp.
        destruct Hp as [<- | []]. unfold hasChildren in Hhas.
        rewrite Hck in Hhas. discriminate.
    + rewrite Ht. cbn [GapManager.totalGaps].
      destruct (gapsBetween_subnodes parent) as (-> & _).
      unfold childList at 1 2. rewrite Hkids.
      rewrite gapsBetween_leaves by (intros k Hk; apply Hleaf; exact Hk).
      lia.
  - intros a'. rewrite (createGapExample_eq o childCount a' Hen Hg).
    cbv zeta. cbn [GapManager.ex_data map]. f_equal.
    change (exampleParent childCount a')
      with (setAngles parent (Some 0) (Some (a' * Math_PI / 180))).
    rewrite processNode_setAngles. reflexivity.
  - intros H2 Hvalid.
    assert (Hr : angleRange (GapManager.processNode o parent (2 * Math_PI) 0)
                 = Some (parentAngle * Math_PI / 180)).
    { rewrite processNode_eq, Hkids.
      destruct (_ <? _)%nat; reflexivity. }
    assert (Hlt := validateGapConfiguration_room o
                (GapManager.processNode o parent (2 * Math_PI) 0) ch'
                (parentAngle * Math_PI / 180) Hen Hg Hch'
                ltac:(lia) Hr Hvalid).
    rewrite Hlen', Hlen in Hlt.
    replace (childCount + (childCount - 1) - 1)%nat
      with ((childCount - 1) + (childCount - 1))%nat in Hlt by lia.
    rewrite ofNat_add in Hlt. lra.
Qed.

(** [createGapExample_report] with the default options and arguments:
    five children, four gaps. *)
Lemma createGapExample_report_witness :
  ∃ parentNode,
    GapManager.ex_data (GapManager.createGapExample GapManager.defaults 5 360)
    = [parentNode]
    ∧ length (childList parentNode) = 9%nat
    ∧ GapManager.gs_totalGaps
        (GapManager.ex_stats
           (GapManager.createGapExample GapManager.defaults 5 360))
      = 4%nat.
Proof.
  destruct (createGapExample_report GapManager.defaults 5 360
              eq_refl eq_refl ltac:(lia) ltac:(simpl; lia))
    as (parentNode & Hd & Hl & Hs & _).
  exists parentNode. split; [exact Hd|]. split; [exact Hl|exact Hs].
Defined.

(** ** [applyGaps] of the engine *)

Lemma engine_processNode_eq (g : Q) (n : node) (range start : Q) :
  SunburstEngine.processNode g n range start =
  match children n with
  | Some (c :: cs) =>
      let ch := c :: cs in
      let childAngle := (range - g * ofNat (length ch)) / ofNat (length ch) in
      setChildren n
        (SunburstEngine.forEachChild
           (fun child range start =>
              setAngles (SunburstEngine.processNode g child range start)
                        (Some start) (Some range))
           g childAngle (length ch) ch 0%nat start)
  | _ => n
  end.
Proof. destruct n as [i nm v [[|c cs]|] gp s r d ir or]; reflexivity. Qed.

Lemma withoutGapIds_eq (n : node) :
  withoutGapIds n
  = Node (if isGap n then None else id n) (name n) (value n)
         (match children n with
          | Some ch => Some (map withoutGapIds ch)
          | None => None
          end)
         (isGap n) (startAngle n) (angleRange n) (depth n)
         (innerRadius n) (outerRadius n).
Proof. destruct n; reflexivity. Qed.

Lemma withoutGapIds_setAngles (n : node) (s r : num) :
  withoutGapIds (setAngles n s r) = setAngles (withoutGapIds n) s r.
Proof. destruct n; reflexivity. Qed.

Lemma withoutGapIds_setChildren (n : node) (ch : list node) :
  withoutGapIds (setChildren n ch)
  = setChildren (withoutGapIds n) (map withoutGapIds ch).
Proof. destruct n; reflexivity. Qed.

(** The two loops make the same children, but for the [id] of the gap
    nodes. *)
Lemma forEachChild_agree (recur recur' : node → Q → Q → node)
    (parentNode : node) (gap childAngle : Q) (childrenCount : nat)
    (l : list node) :
  Forall (fun x => ∀ range start,
            withoutGapIds (recur x range start)
            = withoutGapIds (recur' x range start)) l →
  ∀ i a gi,
    map withoutGapIds
        (GapManager.forEachChild recur parentNode gap childAngle
           childrenCount l i a gi)
    = map withoutGapIds
          (SunburstEngine.forEachChild recur' gap childAngle childrenCount
             l i a).
Proof.
  induction 1 as [|x l Hx _ IH]; intros i a gi; [reflexivity|].
  cbn [GapManager.forEachChild SunburstEngine.forEachChild].
  destruct (i <? childrenCount - 1)%nat; cbn [map]; rewrite Hx, IH;
    reflexivity.
Qed.

Lemma processNode_agree (o : GapManager.Options) (n : node) :
  (GapManager.opt_minChildrenForGap o <= 1)%nat →
  ∀ range start,
    withoutGapIds (GapManager.processNode o n range start)
    = withoutGapIds
        (SunburstEngine.processNode (GapManager.gapRadians o) n range start).
Proof.
  intros Hmin. induction n as [n IH] using node_subtree_ind.
  intros range start. rewrite processNode_eq, engine_processNode_eq.
  destruct (children n) as [[|c cs]|] eqn:Hch; [| |reflexivity].
  - destruct (_ <? _)%nat; [reflexivity|]. cbv zeta.
    cbn [GapManager.forEachChild]. destruct n; cbn in Hch; subst; reflexivity.
  - replace (length (c :: cs) <? GapManager.opt_minChildrenForGap o)%nat
      with false by (symmetry; apply Nat.ltb_ge; cbn [length]; lia).
    cbv zeta. rewrite !withoutGapIds_setChildren. f_equal.
    unfold GapManager.totalGapAngle.
    apply forEachChild_agree.
    specialize (IH _ eq_refl). eapply Forall_impl; [exact IH|].
    intros x Hx rg st. cbv beta. rewrite !withoutGapIds_setAngles, Hx.
    reflexivity.
Qed.

(** X13.  [applyGaps] of the engine and [insertGaps] of the manager,
    gaps enabled and [minChildrenForGap] at 1 or less, put the same
    nodes at the same places of the data and give them the same
    [name], [value], [isGap], [startAngle] and [angleRange].  The two
    results differ in the [id] that the manager gives its gap nodes,
    and in the presentation properties of the gap nodes, which are left
    out of the nodes here. *)
Theorem applyGaps_insertGaps (o : GapManager.Options) (data : list node) :
  GapManager.opt_enableGaps o = true → 0 < GapManager.opt_gapAngle o →
  (GapManager.opt_minChildrenForGap o <= 1)%nat →
  map withoutGapIds (SunburstEngine.applyGaps data (GapManager.opt_gapAngle o))
  = map withoutGapIds (GapManager.insertGaps o data).
Proof.
  intros Hen Hg Hmin. unfold SunburstEngine.applyGaps, GapManager.insertGaps.
  rewrite Hen. cbn [negb orb].
  replace (Qle_bool (GapManager.opt_gapAngle o) 0) with false.
  2:{ symmetry. destruct (Qle_bool (GapManager.opt_gapAngle o) 0) eqn:E;
        [|reflexivity]. apply Qle_bool_iff in E. lra. }
  rewrite !map_map. apply map_ext. intros n. symmetry.
  apply processNode_agree. exact Hmin.
Qed.

(** [applyGaps_insertGaps] on [sampleTree] with gaps of 3 degrees. *)
Lemma applyGaps_insertGaps_witness :
  map withoutGapIds (SunburstEngine.applyGaps [sampleTree] 3)
  = map withoutGapIds (GapManager.insertGaps everyNode [sampleTree]).
Proof.
  apply (applyGaps_insertGaps everyNode [sampleTree]).
  - reflexivity.
  - reflexivity.
  - simpl. lia.
Defined.

Lemma engine_forEachChild_length (recur : node → Q → Q → node)
    (g childAngle : Q) (childrenCount : nat) (l : list node) :
  ∀ i a,
    (i + length l = childrenCount)%nat →
    length (SunburstEngine.forEachChild recur g childAngle childrenCount l i a)
    = (2 * length l - 1)%nat.
Proof.
  induction l as [|x l IH]; intros i a Hlen; [reflexivity|].
  cbn [length] in Hlen. cbn [SunburstEngine.forEachChild].
  destruct (i <? childrenCount - 1)%nat eqn:Ei.
  - apply Nat.ltb_lt in Ei. cbn [length]. rewrite IH by lia. lia.
  - apply Nat.ltb_ge in Ei. destruct l as [|y l]; [|simpl in Hlen; lia].
    reflexivity.
Qed.

Lemma engine_processNode_length (g : Q) (n : node) (range start : Q) :
  length (childList (SunburstEngine.processNode g n range start))
  = (2 * length (childList n) - 1)%nat.
Proof.
  rewrite engine_processNode_eq. unfold childList.
  destruct (children n) as [[|c cs]|] eqn:Hch; rewrite ?Hch; try reflexivity.
  cbv zeta. cbn [children setChildren].
  apply engine_forEachChild_length. reflexivity.
Qed.

(** X14.  [applyGaps] on data that went through it before takes the
    gap nodes for children and puts gaps between them: a node with [k]
    children has [2k - 1] after one pass and [4k - 3] after two. *)
Theorem applyGaps_twice (data : list node) (gapAngle gapAngle' : Q) :
  map (fun n => length (childList n))
      (SunburstEngine.applyGaps data gapAngle)
  = map (fun n => (2 * length (childList n) - 1)%nat) data
  ∧ map (fun n => length (childList n))
        (SunburstEngine.applyGaps
           (SunburstEngine.applyGaps data gapAngle) gapAngle')
    = map (fun n => (4 * length (childList n) - 3)%nat) data.
Proof.
  unfold SunburstEngine.applyGaps. rewrite !map_map. split.
  - apply map_ext. intros n. apply engine_processNode_length.
  - apply map_ext. intros n. rewrite !engine_processNode_length. lia.
Qed.

(** ** The searches by position of the engine *)

Lemma nodeVisit_eq (index : Z) (n : node) (currentIndex : nat) :
  SunburstEngine.nodeVisit index n currentIndex =
  if (Z.of_nat currentIndex =? index)%Z then inl n
  else
    match childList n with
    | [] => inr (S currentIndex)
    | c :: cs =>
        SunburstEngine.findLoop (SunburstEngine.nodeVisit index) (c :: cs)
                                (S currentIndex)
    end.
Proof.
  destruct n as [i nm v [[|c cs]|] g s r d ir or]; reflexivity.
Qed.

Lemma indexVisit_eq (nodeId : option string) (n : node) (currentIndex : nat) :
  SunburstEngine.indexVisit nodeId n currentIndex =
  if bool_decide (id n = nodeId) then inl currentIndex
  else
    match childList n with
    | [] => inr (S currentIndex)
    | c :: cs =>
        SunburstEngine.findLoop (SunburstEngine.indexVisit nodeId) (c :: cs)
                                (S currentIndex)
    end.
Proof.
  destruct n as [i nm v [[|c cs]|] g s r d ir or]; reflexivity.
Qed.

(** The loop over siblings, when the body on a node answers for the
    nodes of its subtree, counted from [currentIndex] on. *)
Lemma findLoop_nth (body : node → nat → node + nat) (k : nat)
    (l : list node) :
  Forall (fun x => ∀ cur, (cur <= k)%nat →
            body x cur
            = match nth_error (subnodes x) (k - cur) with
              | Some p => inl p
              | None => inr (cur + length (subnodes x))%nat
              end) l →
  ∀ cur, (cur <= k)%nat →
    SunburstEngine.findLoop body l cur
    = match nth_error (flat_map subnodes l) (k - cur) with
      | Some p => inl p
      | None => inr (cur + length (flat_map subnodes l))%nat
      end.
Proof.
  induction 1 as [|x l Hx _ IH]; intros cur Hcur.
  - cbn. destruct (k - cur)%nat; cbn; f_equal; lia.
  - cbn [SunburstEngine.findLoop flat_map]. rewrite (Hx cur Hcur).
    destruct (nth_error (subnodes x) (k - cur)) as [p|] eqn:E.
    + rewrite nth_error_app1 by (apply nth_error_Some; congruence).
      rewrite E. reflexivity.
    + apply nth_error_None in E.
      rewrite nth_error_app2 by exact E.
      rewrite IH by lia.
      replace (k - (cur + length (subnodes x)))%nat
        with (k - cur - length (subnodes x))%nat by lia.
      rewrite length_app.
      destruct (nth_error _ _); [reflexivity|]. f_equal. lia.
Qed.

Lemma nodeVisit_nth (k : nat) (n : node) :
  ∀ cur, (cur <= k)%nat →
    SunburstEngine.nodeVisit (Z.of_nat k) n cur
    = match nth_error (subnodes n) (k - cur) with
      | Some p => inl p
      | None => inr (cur + length (subnodes n))%nat
      end.
Proof.
  induction n as [n IH] using node_subtree_ind. intros cur Hcur.
  rewrite nodeVisit_eq, (subnodes_eq n).
  destruct (Z.of_nat cur =? Z.of_nat k)%Z eqn:E.
  - apply Z.eqb_eq in E. apply Nat2Z.inj in E. subst cur.
    rewrite Nat.sub_diag. reflexivity.
  - apply Z.eqb_neq in E.
    assert (Hlt : (cur < k)%nat) by lia.
    replace (k - cur)%nat with (S (k - S cur)) by lia.
    cbn [nth_error length].
    assert (Hloop := findLoop_nth (SunburstEngine.nodeVisit (Z.of_nat k)) k
                       (childList n)).
    unfold childList in *.
    destruct (children n) as [[|c cs]|] eqn:Hch.
    + cbn. destruct (k - S cur)%nat; cbn; f_equal; lia.
    + rewrite Hloop; [| exact (IH _ eq_refl) | lia].
      destruct (nth_error _ _); [reflexivity|]. f_equal. lia.
    + cbn. destruct (k - S cur)%nat; cbn; f_equal; lia.
Qed.

(** An index before the counter is never met. *)
Lemma findLoop_past (body : node → nat → node + nat) (l : list node) :
  Forall (fun x => ∀ cur, body x cur = inr (cur + length (subnodes x))%nat) l →
  ∀ cur, SunburstEngine.findLoop body l cur
         = inr (cur + length (flat_map subnodes l))%nat.
Proof.
  induction 1 as [|x l Hx _ IH]; intros cur.
  - cbn. f_equal. lia.
  - cbn [SunburstEngine.findLoop flat_map]. rewrite Hx, IH, length_app.
    f_equal. lia.
Qed.

Lemma nodeVisit_past (index : Z) (n : node) :
  (index < 0)%Z →
  ∀ cur, SunburstEngine.nodeVisit index n cur
         = inr (cur + length (subnodes n))%nat.
Proof.
  intros Hneg. induction n as [n IH] using node_subtree_ind. intros cur.
  rewrite nodeVisit_eq, (subnodes_eq n).
  replace (Z.of_nat cur =? index)%Z with false
    by (symmetry; apply Z.eqb_neq; lia).
  cbn [length].
  assert (Hloop := findLoop_past (SunburstEngine.nodeVisit index)
                     (childList n)).
  unfold childList in *.
  destruct (children n) as [[|c cs]|] eqn:Hch.
  - cbn. f_equal. lia.
  - rewrite Hloop by exact (IH _ eq_refl). f_equal. lia.
  - cbn. f_equal. lia.
Qed.

Lemma findNodeByIndex_nth (data : list node) (index : Z) :
  SunburstEngine.findNodeByIndex data index
  = if (0 <=? index)%Z then nth_error (allNodes data) (Z.to_nat index)
    else None.
Proof.
  unfold SunburstEngine.findNodeByIndex, allNodes.
  destruct (0 <=? index)%Z eqn:E.
  - apply Z.leb_le in E.
    rewrite <- (Z2Nat.id index E) at 1.
    rewrite (findLoop_nth _ (Z.to_nat index)); [|
      apply Forall_forall; intros x _ cur Hcur;
      apply nodeVisit_nth; exact Hcur | lia].
    rewrite Nat.sub_0_r. destruct (nth_error _ _); reflexivity.
  - apply Z.leb_gt in E.
    rewrite findLoop_past; [reflexivity|].
    apply Forall_forall. intros x _ cur. apply nodeVisit_past. exact E.
Qed.

(** X15.  [findNodeByIndex] gives the node at the given position of
    the data read parents first, children in order; it gives a node
    exactly for the positions from 0 up to [countNodes] of the data,
    and [null] for any other number. *)
Theorem findNodeByIndex_position (data : list node) (index : Z) :
  (∀ k, index = Z.of_nat k →
        SunburstEngine.findNodeByIndex data index
        = nth_error (allNodes data) k)
  ∧ (SunburstEngine.findNodeByIndex data index ≠ None
     ↔ (0 <= index < Z.of_nat (countNodes data))%Z).
Proof.
  rewrite findNodeByIndex_nth, countNodes_length. split.
  - intros k ->. replace (0 <=? Z.of_nat k)%Z with true
      by (symmetry; apply Z.leb_le; lia).
    rewrite Nat2Z.id. reflexivity.
  - destruct (0 <=? index)%Z eqn:E.
    + apply Z.leb_le in E. rewrite nth_error_Some. lia.
    + apply Z.leb_gt in E. split; [congruence|lia].
Qed.

(** [findNodeByIndex_position] on [sampleTree]: position 2 holds the
    node B. *)
Lemma findNodeByIndex_position_witness :
  SunburstEngine.findNodeByIndex [sampleTree] 2
  = nth_error (allNodes [sampleTree]) 2
  ∧ SunburstEngine.findNodeByIndex [sampleTree] 2 ≠ None.
Proof.
  split.
  - apply (proj1 (findNodeByIndex_position [sampleTree] 2) 2%nat).
    reflexivity.
  - apply (proj2 (findNodeByIndex_position [sampleTree] 2)).
    vm_compute. split; [discriminate|reflexivity].
Defined.

Lemma list_find_append {A : Type} (P : A → Prop) `{∀ x, Decision (P x)}
    (l l' : list A) :
  list_find P (l ++ l')
  = match list_find P l with
    | Some r => Some r
    | None => prod_map (fun k => (length l + k)%nat) Datatypes.id
                <$> list_find P l'
    end.
Proof.
  induction l as [|x l IH]; cbn [app list_find length].
  - destruct (list_find P l') as [[k y]|]; reflexivity.
  - destruct (decide (P x)); [reflexivity|]. rewrite IH.
    destruct (list_find P l) as [[k y]|]; [reflexivity|].
    destruct (list_find P l') as [[k y]|]; reflexivity.
Qed.

Lemma lookup_nth_error {A : Type} (l : list A) (k : nat) :
  l !! k = nth_error l k.
Proof.
  revert k. induction l as [|x l IH]; intros [|k]; try reflexivity.
  apply IH.
Qed.

Section FindIndex.
Variable nodeId : option string.

Local Abbreviation hasId := (fun p : node => id p = nodeId).

Lemma findLoop_find (body : node → nat → nat + nat) (l : list node) :
  Forall (fun x => ∀ cur,
            body x cur
            = match list_find hasId (subnodes x) with
              | Some (k, _) => inl (cur + k)%nat
              | None => inr (cur + length (subnodes x))%nat
              end) l →
  ∀ cur,
    SunburstEngine.findLoop body l cur
    = match list_find hasId (flat_map subnodes l) with
      | Some (k, _) => inl (cur + k)%nat
      | None => inr (cur + length (flat_map subnodes l))%nat
      end.
Proof.
  induction 1 as [|x l Hx _ IH]; intros cur.
  - cbn. f_equal. lia.
  - cbn [SunburstEngine.findLoop flat_map]. rewrite Hx, list_find_append.
    destruct (list_find hasId (subnodes x)) as [[k y]|]; [reflexivity|].
    rewrite IH, length_app.
    destruct (list_find hasId (flat_map subnodes l)) as [[k y]|]; cbn;
      f_equal; lia.
Qed.

Lemma indexVisit_find (n : node) :
  ∀ cur,
    SunburstEngine.indexVisit nodeId n cur
    = match list_find hasId (subnodes n) with
      | Some (k, _) => inl (cur + k)%nat
      | None => inr (cur + length (subnodes n))%nat
      end.
Proof.
  induction n as [n IH] using node_subtree_ind. intros cur.
  rewrite indexVisit_eq, (subnodes_eq n). cbn [list_find length].
  destruct (decide (id n = nodeId)) as [E|E].
  - rewrite bool_decide_eq_true_2 by exact E. f_equal. lia.
  - rewrite bool_decide_eq_false_2 by exact E.
    assert (Hloop := findLoop_find (SunburstEngine.indexVisit nodeId)
                       (childList n)).
    unfold childList in *.
    destruct (children n) as [[|c cs]|] eqn:Hch.
    + cbn. f_equal. lia.
    + rewrite Hloop by exact (IH _ eq_refl).
      destruct (list_find hasId (flat_map subnodes (c :: cs))) as [[k y]|];
        cbn; f_equal; lia.
    + cbn. f_equal. lia.
Qed.

Lemma findNodeIndex_find (data : list node) :
  SunburstEngine.findNodeIndex data nodeId
  = match list_find hasId (allNodes data) with
    | Some (k, _) => Z.of_nat k
    | None => (-1)%Z
    end.
Proof.
  unfold SunburstEngine.findNodeIndex, allNodes.
  rewrite findLoop_find
    by (apply Forall_forall; intros x _; apply indexVisit_find).
  destruct (list_find hasId (flat_map subnodes data)) as [[k y]|]; reflexivity.
Qed.
End FindIndex.

(** X16.  [findNodeIndex] gives the position of the first node with
    the given [id], parents first and children in order, and -1 when
    no node has it; and [findNodeByIndex] at the position it gives is
    that first node, or [null] when there is none. *)
Theorem findNodeIndex_round_trip (data : list node) (nodeId : option string) :
  (SunburstEngine.findNodeIndex data nodeId = (-1)%Z
   ↔ ∀ p, In p (allNodes data) → id p ≠ nodeId)
  ∧ (∀ k, SunburstEngine.findNodeIndex data nodeId = Z.of_nat k →
          ∃ p, nth_error (allNodes data) k = Some p ∧ id p = nodeId
             ∧ ∀ j q, (j < k)%nat → nth_error (allNodes data) j = Some q →
                      id q ≠ nodeId)
  ∧ SunburstEngine.findNodeByIndex data
      (SunburstEngine.findNodeIndex data nodeId)
    = snd <$> list_find (fun p => id p = nodeId) (allNodes data).
Proof.
  rewrite findNodeByIndex_nth, findNodeIndex_find.
  destruct (list_find (fun p => id p = nodeId) (allNodes data))
    as [[k p]|] eqn:E.
  - apply list_find_Some in E as (Hk & Hp & Hfirst).
    split; [|split].
    + split; [lia|]. intros Hno. exfalso.
      apply (Hno p); [|exact Hp].
      apply list_elem_of_In. eapply list_elem_of_lookup_2. exact Hk.
    + intros k' Hk'. apply Nat2Z.inj in Hk'. subst k'.
      exists p. split; [rewrite <- Hk; symmetry; apply lookup_nth_error|].
      split; [exact Hp|].
      intros j q Hj Hq. apply (Hfirst j q); [|exact Hj].
      rewrite <- Hq. apply lookup_nth_error.
    + replace (0 <=? Z.of_nat k)%Z with true
        by (symmetry; apply Z.leb_le; lia).
      rewrite Nat2Z.id. cbn. rewrite <- Hk. symmetry.
      apply lookup_nth_error.
  - apply list_find_None in E. rewrite Forall_forall in E.
    split; [|split].
    + split; [|reflexivity]. intros _ p Hp. apply E.
      apply list_elem_of_In. exact Hp.
    + intros k Hk. lia.
    + reflexivity.
Qed.

(** [findNodeIndex_round_trip] on [sampleTree]: no node has the id Z,
    and the node D is at position 4. *)
Lemma findNodeIndex_round_trip_witness :
  SunburstEngine.findNodeIndex [sampleTree] (Some "Z") = (-1)%Z
  ∧ ∃ p, nth_error (allNodes [sampleTree]) 4 = Some p ∧ id p = Some "D".
Proof.
  split.
  - apply (proj1 (findNodeIndex_round_trip [sampleTree] (Some "Z"))).
    intros p Hp. vm_compute in Hp.
    repeat (destruct Hp as [<- | Hp]; [discriminate|]). destruct Hp.
  - destruct (proj1 (proj2 (findNodeIndex_round_trip [sampleTree]
                              (Some "D"))) 4%nat eq_refl)
      as (p & Hp & Hid & _).
    exists p. split; [exact Hp|exact Hid].
Defined.

(** ** [labelFormatter] *)

Lemma jsLength_append (a b : string) :
  jsLength (String.append a b) = (jsLength a + jsLength b)%nat.
Proof.
  induction a as [|c a IH]; [reflexivity|].
  change (codeUnits c + jsLength (String.append a b)
          = codeUnits c + jsLength a + jsLength b)%nat.
  rewrite IH. lia.
Qed.

Lemma jsLength_jsPrefix_le (k : nat) (s : string) :
  (jsLength (jsPrefix k s) <= k)%nat.
Proof.
  revert k. induction s as [|c s IH]; intros k; [cbn; lia|].
  cbn [jsPrefix]. destruct (codeUnits c) as [|u] eqn:Eu.
  - cbn [jsLength]. rewrite Eu. apply IH.
  - destruct (S u <=? k)%nat eqn:E; [|cbn; lia].
    apply Nat.leb_le in E. cbn [jsLength]. rewrite Eu.
    specialize (IH (k - S u)%nat). lia.
Qed.

Lemma jsLength_jsPrefix (k : nat) (s : string) :
  basicPlane s → (k <= jsLength s)%nat → jsLength (jsPrefix k s) = k.
Proof.
  revert k. induction s as [|c s IH]; intros k Hs Hk.
  - cbn in Hk |- *. lia.
  - destruct Hs as [Hc Hs]. cbn [jsLength] in Hk. cbn [jsPrefix].
    destruct (codeUnits c) as [|u] eqn:Eu.
    + cbn [jsLength]. rewrite Eu. apply IH; [exact Hs|lia].
    + assert (u = 0%nat) by lia. subst u.
      destruct (1 <=? k)%nat eqn:E.
      * apply Nat.leb_le in E. cbn [jsLength]. rewrite Eu.
        rewrite IH; [lia|exact Hs|lia].
      * apply Nat.leb_gt in E. cbn. lia.
Qed.



(** ** The event listeners of the engine *)

Lemma spliceFirst_absent (l : SunburstEngine.listener)
    (ls : list SunburstEngine.listener) :
  ¬ In l ls → SunburstEngine.spliceFirst l ls = ls.
Proof.
  induction ls as [|x ls IH]; intros Hin; [reflexivity|].
  cbn [SunburstEngine.spliceFirst].
  rewrite bool_decide_eq_false_2 by (intros ->; apply Hin; left; reflexivity).
  rewrite IH; [reflexivity|]. intros H. apply Hin. right. exact H.
Qed.

Lemma spliceFirst_snoc (l : SunburstEngine.listener)
    (ls : list SunburstEngine.listener) :
  ¬ In l ls → SunburstEngine.spliceFirst l (ls ++ [l]) = ls.
Proof.
  induction ls as [|x ls IH]; intros Hin.
  - cbn. rewrite bool_decide_eq_true_2 by reflexivity. reflexivity.
  - cbn [app SunburstEngine.spliceFirst].
    rewrite bool_decide_eq_false_2 by (intros ->; apply Hin; left; reflexivity).
    rewrite IH; [reflexivity|]. intros H. apply Hin. right. exact H.
Qed.

Lemma spliceFirst_present (l : SunburstEngine.listener)
    (ls : list SunburstEngine.listener) :
  In l ls →
  ∃ before after,
    ls = before ++ l :: after ∧ ¬ In l before
    ∧ SunburstEngine.spliceFirst l ls = before ++ after.
Proof.
  induction ls as [|x ls IH]; intros Hin; [destruct Hin|].
  cbn [SunburstEngine.spliceFirst].
  destruct (decide (x = l)) as [->|Hne].
  - rewrite bool_decide_eq_true_2 by reflexivity.
    exists [], ls. split; [reflexivity|]. split; [intros []|reflexivity].
  - rewrite bool_decide_eq_false_2 by exact Hne.
    destruct Hin as [E|Hin]; [congruence|].
    destruct (IH Hin) as (before & after & -> & Hnot & ->).
    exists (x :: before), after. split; [reflexivity|].
    split; [|reflexivity]. intros [E|H]; [congruence|exact (Hnot H)].
Qed.

(** X18.  The listeners of the engine.  [on] adds the listener behind
    the listeners of the event, also when it is among them already, and
    leaves the other events alone.  [off] takes away the earliest
    registration of the listener and no more, and leaves the other
    events alone: a listener that is not registered changes nothing,
    and [off] after [on] gives back the listeners there were when the
    listener was not among them. *)
Theorem listeners_on_off (event : string) (l : SunburstEngine.listener)
    (m : SunburstEngine.listeners) :
  listenersOf event (SunburstEngine.on event l m)
  = listenersOf event m ++ [l]
  ∧ (∀ other, other ≠ event →
       SunburstEngine.on event l m !! other = m !! other
       ∧ SunburstEngine.off event l m !! other = m !! other)
  ∧ (¬ In l (listenersOf event m) →
     listenersOf event (SunburstEngine.off event l m) = listenersOf event m
     ∧ listenersOf event
         (SunburstEngine.off event l (SunburstEngine.on event l m))
       = listenersOf event m)
  ∧ (In l (listenersOf event m) →
     ∃ before after,
       listenersOf event m = before ++ l :: after ∧ ¬ In l before
       ∧ listenersOf event (SunburstEngine.off event l m) = before ++ after).
Proof.
  unfold listenersOf, SunburstEngine.on, SunburstEngine.off.
  split; [|split; [|split]].
  - destruct (m !! event) as [ls|] eqn:E; rewrite lookup_insert_eq;
      reflexivity.
  - intros other Hne.
    destruct (m !! event) as [ls|] eqn:E;
      rewrite ?lookup_insert_ne by (intros H; apply Hne; symmetry; exact H);
      split; reflexivity.
  - intros Hnot. destruct (m !! event) as [ls|] eqn:E.
    + rewrite !lookup_insert_eq.
      rewrite spliceFirst_absent, spliceFirst_snoc by exact Hnot. auto.
    + rewrite E, !lookup_insert_eq. cbn.
      rewrite bool_decide_eq_true_2 by reflexivity. auto.
  - intros Hin. destruct (m !! event) as [ls|] eqn:E; [|destruct Hin].
    rewrite lookup_insert_eq.
    apply spliceFirst_present. exact Hin.
Qed.

(** [listeners_on_off] on an engine without listeners: listener 7 is
    added for the event and taken away again. *)
Lemma listeners_on_off_witness :
  listenersOf "nodeClicked"
    (SunburstEngine.off "nodeClicked" 7%nat
       (SunburstEngine.on "nodeClicked" 7%nat noListeners))
  = [].
Proof.
  apply (proj2 (proj1 (proj2 (proj2
           (listeners_on_off "nodeClicked" 7%nat noListeners)))
           ltac:(vm_compute; intros []))).
Defined.

(** ** Hit-testing the layouts of the calculator *)

(** In a sibling group placed with shares and a gap that are not
    negative, the search reaches the sibling whose sector has the angle
    strictly after its start: the sectors before it end too early. *)
Lemma findNodeByPolar_sibling (o : Options) (tw av g : Q) (cnt d : nat)
    (inn out : Q) (angle radiusRatio : Q) (l : list node) :
  0 <= g → (∀ n, In n l → 0 <= calculateNodeWeight n / tw * av) →
  ∀ i a k p s,
    nth_error (forEachSibling (createLayoutNode o) tw av g cnt d inn out
                 l i a) k = Some p →
    startAngle p = Some s → s < angle →
    contains angle radiusRatio p = true →
    findNodeByPolar angle radiusRatio
      (forEachSibling (createLayoutNode o) tw av g cnt d inn out l i a)
    = hitNode angle radiusRatio p.
Proof.
  intros Hg. induction l as [|n rest IH]; intros Hw i a k p s Hk Hs Hlt Hc.
  { destruct k; discriminate. }
  cbn [forEachSibling] in Hk |- *.
  fold (forEachSibling (createLayoutNode o) tw av g cnt d inn out) in *.
  rewrite findNodeByPolar_cons.
  set (r := calculateNodeWeight n / tw * av) in *.
  set (a' := if (i <? cnt - 1)%nat then a + r + g else a + r) in *.
  destruct k as [|k].
  - injection Hk as Hk. rewrite Hk.
    destruct (hitNode angle radiusRatio p) eqn:E; [reflexivity|].
    apply hitNode_None in E. congruence.
  - cbn [nth_error] in Hk.
    assert (Hr : 0 <= r) by (apply Hw; left; reflexivity).
    assert (Ha : a + r <= a') by (unfold a'; destruct (i <? cnt - 1)%nat; lra).
    destruct (forEachSibling_sorted o tw av g cnt d inn out rest Hg
                (fun m Hm => Hw m (or_intror Hm)) (S i) a') as (Hall & _ & _).
    rewrite Forall_forall in Hall.
    destruct (Hall p) as (s' & Es' & Hs').
    { apply list_elem_of_In. eapply nth_error_In. exact Hk. }
    rewrite Hs in Es'. injection Es' as <-.
    set (lay := {| l_startAngle := a; l_angleRange := r; l_depth := d;
                   l_innerRadius := inn; l_outerRadius := out |}).
    destruct (createLayoutNode_fields o n lay) as (Fs & Fr & _).
    cbn [l_startAngle l_angleRange lay] in Fs, Fr.
    assert (Hmiss : hitNode angle radiusRatio (createLayoutNode o n lay) = None).
    { apply hitNode_None. unfold contains, angleInRange.
      rewrite Fs, Fr. cbn [nadd]. unfold nge.
      replace (nle (Some a) (Some (a + r))) with true
        by (symmetry; apply nle_Some; lra).
      replace (nle (Some angle) (Some (a + r))) with false
        by (symmetry; apply nle_Some_false; lra).
      rewrite andb_false_r. reflexivity. }
    rewrite Hmiss.
    apply (IH (fun m Hm => Hw m (or_intror Hm)) (S i) a' k p s); assumption.
Qed.

(** X19.  Hit-testing a layout of [calculateLayout] made with a gap
    angle that is not negative and leaves room for the roots.  A point
    whose angle lies in the sector of a root, after its start, and
    whose radius lies in the configured ring is resolved to that root
    or to a node below it; and to the root itself when the radius lies
    in the innermost of the [maxDepth + 1] bands of the ring, where no
    child is placed. *)
Theorem hit_test_on_layout (o : Options) (forest : list node) (k : nat)
    (p : node) (angle radiusRatio : Q) :
  0 <= opt_gapAngle o →
  totalGapAngle o (length forest) < 2 * Math_PI →
  nth_error (calculateLayout o forest) k = Some p →
  ∃ s r,
    startAngle p = Some s ∧ angleRange p = Some r ∧ 0 < r
    ∧ (s < angle → angle <= s + r →
       opt_innerRadius o <= radiusRatio → radiusRatio <= opt_outerRadius o →
       ∃ x,
         findNodeByPolar angle radiusRatio (calculateLayout o forest) = Some x
         ∧ In x (subnodes p)
         ∧ contains angle radiusRatio x = true
         ∧ (opt_innerRadius o < opt_outerRadius o →
            radiusRatio
            < opt_innerRadius o
              + (opt_outerRadius o - opt_innerRadius o)
                / ofNat (opt_maxDepth o + 1) →
            x = p)).
Proof.
  intros Hg Hroom Hk.
  assert (Hne : forest ≠ []).
  { intros ->. destruct k; discriminate. }
  assert (Hgr : 0 <= gapRadians o).
  { unfold gapRadians. assert (0 < Math_PI) by reflexivity.
    apply Qle_shift_div_l; [reflexivity|]. nra. }
  assert (Htw : 0 < calculateTotalWeight forest)
    by (apply calculateTotalWeight_pos; exact Hne).
  assert (Hshare : ∀ n, 0 < calculateNodeWeight n / calculateTotalWeight forest
                        * (2 * Math_PI - totalGapAngle o (length forest))).
  { intros n. apply share_sign; [apply calculateNodeWeight_pos|exact Htw|lra]. }
  pose proof Hk as Hk'.
  unfold calculateLayout in Hk'.
  destruct forest as [|n0 rest] eqn:Ef; [congruence|]. rewrite <- Ef in *.
  apply forEachSibling_nth in Hk' as (n & Hn & Ep); [|reflexivity].
  set (lay := {| l_startAngle := _; l_angleRange := _; l_depth := _;
                 l_innerRadius := _; l_outerRadius := _ |}) in Ep.
  destruct (createLayoutNode_fields o n lay) as (Fs & Fr & Fd & Fi & Fe).
  rewrite <- Ep in Fs, Fr, Fd, Fi, Fe.
  cbn [l_startAngle l_angleRange l_depth l_innerRadius l_outerRadius lay]
    in Fs, Fr, Fd, Fi, Fe.
  eexists. eexists. split; [exact Fs|]. split; [exact Fr|].
  split; [apply Hshare|].
  intros Hs He Hi Ho.
  assert (Hc : contains angle radiusRatio p = true).
  { unfold contains, angleInRange, radiusInRange.
    rewrite Fs, Fr, Fi, Fe. cbn [nadd]. unfold nge.
    specialize (Hshare n).
    repeat match goal with
    | |- context [nle (Some ?x) (Some ?y)] =>
        replace (nle (Some x) (Some y)) with true
          by (symmetry; apply nle_Some; lra)
    end.
    reflexivity. }
  assert (Hfind : findNodeByPolar angle radiusRatio (calculateLayout o forest)
                  = hitNode angle radiusRatio p).
  { unfold calculateLayout in Hk |- *. rewrite Ef in Hk |- *.
    rewrite <- Ef in Hk |- *.
    eapply findNodeByPolar_sibling; eauto.
    intros m _. apply Qlt_le_weak. apply Hshare. }
  destruct (hitNode angle radiusRatio p) as [x|] eqn:Ex.
  2:{ apply hitNode_None in Ex. congruence. }
  exists x. split; [exact Hfind|].
  destruct (hitNode_Some angle radiusRatio p x Ex) as (Hin & Hcx & _).
  split; [exact Hin|]. split; [exact Hcx|].
  intros Hring Hband.
  rewrite hitNode_eq in Ex. unfold contains in Hc. rewrite Hc in Ex.
  destruct (children p) as [[|c cs]|] eqn:Ech; try congruence.
  assert (Hnone : findNodeByPolar angle radiusRatio (c :: cs) = None).
  { apply findNodeByPolar_None. intros q Hq. apply hitNode_None.
    assert (Hq' : In q (childList (createLayoutNode o n lay))).
    { rewrite <- Ep. unfold childList. rewrite Ech. exact Hq. }
    destruct (call_rings o n lay q Hq')
      as (pi & po & dq & ci & co & Pi & Po & Dq & Dp & Hd & Ci & Co & Eci & _).
    rewrite <- Ep in Pi, Po, Dp.
    rewrite Fi in Pi. rewrite Fe in Po. rewrite Fd in Dp.
    injection Pi as <-. injection Po as <-. injection Dp as Dp.
    assert (dq = 1%nat) by lia. subst dq.
    unfold contains, radiusInRange. rewrite Ci. unfold nge.
    replace (nle (Some ci) (Some radiusRatio)) with false.
    { rewrite andb_false_r. reflexivity. }
    symmetry. apply nle_Some_false. rewrite Eci.
    change (ofNat 1) with 1. lra. }
  rewrite Hnone in Ex. congruence.
Qed.

(** [hit_test_on_layout] on [sampleLayout]: a point in the innermost
    band, one radian from the start, hits the root. *)
Lemma hit_test_on_layout_witness :
  findNodeByPolar 1 0.16 sampleLayout = Some sampleRoot.
Proof.
  destruct (hit_test_on_layout defaults [sampleTree] 0 sampleRoot 1 0.16)
    as (s & r & Es & Er & _ & H).
  - discriminate.
  - reflexivity.
  - reflexivity.
  - vm_compute in Es, Er. injection Es as <-. injection Er as <-.
    destruct H as (x & Hx & _ & _ & Hp).
    + reflexivity.
    + vm_compute. discriminate.
    + discriminate.
    + discriminate.
    + unfold sampleLayout. rewrite Hx. f_equal. apply Hp; reflexivity.
Defined.

(** ** The registry of [GapManager] *)

Lemma mapGet_mapSet_eq (k : string) (v : GapManager.GapInfo)
    (m : GapManager.registry) :
  GapManager.mapGet k (GapManager.mapSet k v m) = Some v.
Proof.
  induction m as [|[k' v'] m IH]; cbn [GapManager.mapSet GapManager.mapGet].
  - rewrite String.eqb_refl. reflexivity.
  - destruct (String.eqb k' k) eqn:E; cbn [GapManager.mapGet].
    + rewrite String.eqb_refl. reflexivity.
    + rewrite E. exact IH.
Qed.

Lemma mapGet_mapSet_keeps (k k' : string) (v : GapManager.GapInfo)
    (m : GapManager.registry) :
  GapManager.mapGet k m ≠ None →
  GapManager.mapGet k (GapManager.mapSet k' v m) ≠ None.
Proof.
  induction m as [|[k0 v0] m IH]; cbn [GapManager.mapSet GapManager.mapGet];
    [congruence|].
  intros H. destruct (String.eqb k0 k') eqn:E; cbn [GapManager.mapGet].
  - apply String.eqb_eq in E. subst k0.
    destruct (String.eqb k' k); [congruence|exact H].
  - destruct (String.eqb k0 k); [congruence|]. apply IH. exact H.
Qed.

Lemma mapSet_keys (k : string) (v : GapManager.GapInfo)
    (m : GapManager.registry) :
  map fst (GapManager.mapSet k v m)
  = if bool_decide (k ∈ map fst m) then map fst m else map fst m ++ [k].
Proof.
  induction m as [|[k0 v0] m IH]; cbn [GapManager.mapSet map fst app].
  - rewrite bool_decide_eq_false_2 by (apply not_elem_of_nil). reflexivity.
  - destruct (String.eqb k0 k) eqn:E.
    + apply String.eqb_eq in E. subst k0. cbn [map fst].
      rewrite bool_decide_eq_true_2 by (left). reflexivity.
    + apply String.eqb_neq in E. cbn [map fst]. rewrite IH.
      destruct (decide (k ∈ map fst m)) as [Hin|Hin].
      * rewrite !bool_decide_eq_true_2; [reflexivity|right; exact Hin|exact Hin].
      * rewrite !bool_decide_eq_false_2; [reflexivity| |exact Hin].
        intros H. apply elem_of_cons in H as [H|H]; [congruence|exact (Hin H)].
Qed.

Lemma mapSet_In (k : string) (v : GapManager.GapInfo) (m : GapManager.registry)
    (k' : string) (v' : GapManager.GapInfo) :
  In (k', v') (GapManager.mapSet k v m) →
  (k', v') = (k, v) ∨ In (k', v') m.
Proof.
  induction m as [|[k0 v0] m IH]; cbn [GapManager.mapSet].
  - intros [H|[]]. left. symmetry. exact H.
  - destruct (String.eqb k0 k).
    + intros [H|H]; [left; symmetry; exact H|right; right; exact H].
    + intros [H|H]; [right; left; exact H|].
      destruct (IH H) as [E|E]; [left; exact E|right; right; exact E].
Qed.

Lemma registerGap_ok (gap start : Q) (parentNode : node) (gapIndex : nat)
    (m : GapManager.registry) :
  registryOk gap m →
  registryOk gap (GapManager.registerGap start gap parentNode gapIndex m).
Proof.
  intros (Hnd & Hent). unfold GapManager.registerGap. cbv zeta. split.
  - rewrite mapSet_keys.
    destruct (decide (GapManager.gapId parentNode gapIndex ∈ map fst m))
      as [Hin|Hin].
    + rewrite bool_decide_eq_true_2 by exact Hin. exact Hnd.
    + rewrite bool_decide_eq_false_2 by exact Hin.
      apply NoDup_app. split; [exact Hnd|]. split; [|apply NoDup_singleton].
      intros x Hx Hx'. apply list_elem_of_singleton in Hx'. subst x.
      exact (Hin Hx).
  - intros k v Hin. apply mapSet_In in Hin as [E|Hin]; [|exact (Hent k v Hin)].
    injection E as -> ->. split; reflexivity.
Qed.

Lemma gapsRegistered_mono (l : list node) (m m' : GapManager.registry) :
  (∀ k, GapManager.mapGet k m ≠ None → GapManager.mapGet k m' ≠ None) →
  gapsRegistered l m → gapsRegistered l m'.
Proof.
  intros Hmono H p c Hp Hc Hg.
  destruct (H p c Hp Hc Hg) as (k & v & Hk & Hv).
  unfold GapManager.getGapInfo in *.
  destruct (GapManager.mapGet k m') as [v'|] eqn:E.
  - exists k, v'. auto.
  - exfalso. apply (Hmono k); [congruence|exact E].
Qed.

Lemma gapsRegistered_app (l l' : list node) (m : GapManager.registry) :
  gapsRegistered l m → gapsRegistered l' m → gapsRegistered (l ++ l') m.
Proof.
  intros H H' p c Hp. apply in_app_or in Hp as [Hp|Hp]; eauto.
Qed.

Section RegistryLoop.
Variable o : GapManager.Options.
Variable parentNode : node.
Variable childAngle : Q.
Variable childrenCount : nat.

Local Abbreviation gap := (GapManager.gapRadians o).

Local Abbreviation recur :=
  (fun child range start =>
     setAngles (GapManager.processNode o child range start)
               (Some start) (Some range)).

Local Abbreviation recurWith :=
  (fun child range start m =>
     let '(processed, m) :=
       GapManager.processNodeWith o child range start m in
     (setAngles processed (Some start) (Some range), m)).

Lemma forEachChildWith_registers (l : list node) :
  Forall (registers o) l →
  ∀ i a gi m,
    let r := GapManager.forEachChildWith recurWith parentNode gap childAngle
               childrenCount l i a gi m in
    fst r = GapManager.forEachChild recur parentNode gap childAngle
              childrenCount l i a gi
    ∧ (registryOk gap m → registryOk gap (snd r))
    ∧ (∀ k, GapManager.mapGet k m ≠ None → GapManager.mapGet k (snd r) ≠ None)
    ∧ ((∀ x, In x l → isGap x = false) →
       (∀ x p c, In x l → In p (subnodes x) → In c (childList p) →
                 isGap c = false) →
       (∀ c, In c (fst r) → isGap c = true →
             ∃ k, id c = Some k ∧ GapManager.mapGet k (snd r) ≠ None)
       ∧ gapsRegistered (flat_map subnodes (fst r)) (snd r)).
Proof.
  induction 1 as [|x l Hx _ IH]; intros i a gi m; cbv zeta.
  - cbn. split; [reflexivity|]. split; [auto|]. split; [auto|].
    intros _ _. split; [intros c []|intros p c []].
  - cbn [GapManager.forEachChildWith GapManager.forEachChild].
    destruct (Hx childAngle a m) as (Hfst & Hok & Hmono & Hreg).
    destruct (GapManager.processNodeWith o x childAngle a m) as [n1 m1].
    cbn [fst snd] in Hfst, Hok, Hmono, Hreg. subst n1.
    assert (Hown : (∀ p c, In p (subnodes x) → In c (childList p) →
                           isGap c = false) →
              gapsRegistered
                (subnodes (setAngles
                             (GapManager.processNode o x childAngle a)
                             (Some a) (Some childAngle))) m1).
    { intros Hreal p c Hp Hc Hg. specialize (Hreg Hreal).
      rewrite subnodes_setAngles in Hp. destruct Hp as [<- | Hp].
      - apply (Hreg (GapManager.processNode o x childAngle a) c);
          [apply subnodes_self|exact Hc|exact Hg].
      - apply (Hreg p c); [|exact Hc|exact Hg].
        rewrite subnodes_eq. right. exact Hp. }
    destruct (i <? childrenCount - 1)%nat.
    + set (m2 := GapManager.registerGap (a + childAngle) gap parentNode gi m1).
      specialize (IH (S i) (a + childAngle + gap) (S gi) m2).
      cbv zeta in IH. destruct IH as (Ifst & Iok & Imono & Ireg).
      destruct (GapManager.forEachChildWith _ _ _ _ _ l (S i)
                  (a + childAngle + gap) (S gi) m2) as [others m3].
      cbn [fst snd] in *. subst others.
      assert (Hkeep : ∀ k, GapManager.mapGet k m1 ≠ None →
                           GapManager.mapGet k m3 ≠ None).
      { intros k Hk. apply Imono. unfold m2, GapManager.registerGap.
        apply mapGet_mapSet_keeps. exact Hk. }
      split; [reflexivity|].
      split; [intros H0; apply Iok, registerGap_ok, Hok, H0|].
      split; [intros k Hk; apply Hkeep, Hmono, Hk|].
      intros Hgaps Hreal.
      destruct Ireg as (IA & IB).
      { intros y Hy. apply Hgaps. right. exact Hy. }
      { intros y p c Hy. apply Hreal. right. exact Hy. }
      split.
      * intros c [<- | [<- | Hc]] Hg.
        -- cbn [isGap setAngles] in Hg. rewrite processNode_isGap in Hg.
           rewrite (Hgaps x (or_introl eq_refl)) in Hg. discriminate.
        -- eexists. split; [reflexivity|]. apply Imono.
           unfold m2, GapManager.registerGap. cbv zeta.
           rewrite mapGet_mapSet_eq. discriminate.
        -- apply IA; assumption.
      * cbn [flat_map].
        apply gapsRegistered_app; [|apply gapsRegistered_app].
        -- eapply gapsRegistered_mono; [exact Hkeep|]. apply Hown.
           intros p c. apply Hreal. left. reflexivity.
        -- intros p c [<- | []] Hc. destruct Hc.
        -- exact IB.
    + specialize (IH (S i) (a + childAngle) gi m1).
      cbv zeta in IH. destruct IH as (Ifst & Iok & Imono & Ireg).
      destruct (GapManager.forEachChildWith _ _ _ _ _ l (S i)
                  (a + childAngle) gi m1) as [others m3].
      cbn [fst snd] in *. subst others.
      split; [reflexivity|].
      split; [intros H0; apply Iok, Hok, H0|].
      split; [intros k Hk; apply Imono, Hmono, Hk|].
      intros Hgaps Hreal.
      destruct Ireg as (IA & IB).
      { intros y Hy. apply Hgaps. right. exact Hy. }
      { intros y p c Hy. apply Hreal. right. exact Hy. }
      split.
      * intros c [<- | Hc] Hg.
        -- cbn [isGap setAngles] in Hg. rewrite processNode_isGap in Hg.
           rewrite (Hgaps x (or_introl eq_refl)) in Hg. discriminate.
        -- apply IA; assumption.
      * cbn [flat_map]. apply gapsRegistered_app; [|exact IB].
        eapply gapsRegistered_mono; [exact Imono|]. apply Hown.
        intros p c. apply Hreal. left. reflexivity.
Qed.
End RegistryLoop.

Lemma processNodeWith_eq (o : GapManager.Options) (n : node)
    (range start : Q) (m : GapManager.registry) :
  GapManager.processNodeWith o n range start m =
  match children n with
  | None => (n, m)
  | Some ch =>
      if (length ch <? GapManager.opt_minChildrenForGap o)%nat then (n, m)
      else
        let childAngle :=
          (range - GapManager.totalGapAngle o (length ch))
          / ofNat (length ch) in
        let '(newChildren, m) :=
          GapManager.forEachChildWith
            (fun child range start m =>
               let '(processed, m) :=
                 GapManager.processNodeWith o child range start m in
               (setAngles processed (Some start) (Some range), m))
            n (GapManager.gapRadians o) childAngle (length ch)
            ch 0%nat start 0%nat m in
        (setChildren n newChildren, m)
  end.
Proof. destruct n; reflexivity. Qed.

Lemma registers_all (o : GapManager.Options) (n : node) : registers o n.
Proof.
  induction n as [n IH] using node_subtree_ind.
  intros range start m. rewrite processNodeWith_eq, processNode_eq.
  destruct (children n) as [ch|] eqn:Hch.
  2:{ cbn [fst snd]. split; [reflexivity|]. split; [auto|]. split; [auto|].
      intros Hreal p c Hp Hc Hg. rewrite (Hreal p c Hp Hc) in Hg.
      discriminate. }
  destruct (_ <? _)%nat.
  { cbn [fst snd]. split; [reflexivity|]. split; [auto|]. split; [auto|].
    intros Hreal p c Hp Hc Hg. rewrite (Hreal p c Hp Hc) in Hg.
    discriminate. }
  cbv zeta. specialize (IH ch eq_refl).
  match goal with
  | |- context [GapManager.forEachChildWith ?rw ?pn ?g ?ca ?cnt ?l ?i ?a ?gi ?m0] =>
      destruct (forEachChildWith_registers o pn ca cnt l IH i a gi m0)
        as (Lfst & Lok & Lmono & Lreg);
      destruct (GapManager.forEachChildWith rw pn g ca cnt l i a gi m0)
        as [newChildren m']
  end.
  cbn [fst snd] in *. subst newChildren.
  split; [reflexivity|]. split; [exact Lok|]. split; [exact Lmono|].
  intros Hreal.
  destruct Lreg as (LA & LB).
  { intros x Hx. apply (Hreal n x (subnodes_self n)).
    unfold childList. rewrite Hch. exact Hx. }
  { intros x p c Hx Hp. apply Hreal. eapply subnodes_child; eauto. }
  rewrite subnodes_setChildren. intros p c [<- | Hp] Hc Hg.
  - unfold childList in Hc. cbn [children setChildren] in Hc.
    destruct (LA c Hc Hg) as (k & Hk & Hget).
    unfold GapManager.getGapInfo.
    destruct (GapManager.mapGet k m') as [v|] eqn:E; [|congruence].
    exists k, v. auto.
  - exact (LB p c Hp Hc Hg).
Qed.

Lemma registry_lookup (m : GapManager.registry) (k : string)
    (v : GapManager.GapInfo) :
  NoDup (map fst m) → In (k, v) m → GapManager.mapGet k m = Some v.
Proof.
  induction m as [|[k0 v0] m IH]; intros Hnd Hin; [destruct Hin|].
  cbn [map fst] in Hnd. apply NoDup_cons in Hnd as (Hk0 & Hnd).
  cbn [GapManager.mapGet]. destruct Hin as [E|Hin].
  - injection E as -> ->. rewrite String.eqb_refl. reflexivity.
  - destruct (String.eqb k0 k) eqn:E.
    + apply String.eqb_eq in E. subst k0. exfalso. apply Hk0.
      apply list_elem_of_In. apply in_map_iff. exists (k, v). auto.
    + apply IH; assumption.
Qed.

Lemma insertGapsWith_fold (o : GapManager.Options) (data : list node) :
  ∀ done m,
    let r := fold_left
               (fun (acc : list node * GapManager.registry) n =>
                  let '(done, m) := acc in
                  let '(processed, m) :=
                    GapManager.processNodeWith o n (2 * Math_PI) 0 m in
                  (done ++ [processed], m))
               data (done, m) in
    fst r = done ++ map (fun n => GapManager.processNode o n (2 * Math_PI) 0)
                        data
    ∧ (registryOk (GapManager.gapRadians o) m →
       registryOk (GapManager.gapRadians o) (snd r))
    ∧ (∀ k, GapManager.mapGet k m ≠ None → GapManager.mapGet k (snd r) ≠ None)
    ∧ ((∀ p c, In p (allNodes data) → In c (childList p) → isGap c = false) →
       gapsRegistered
         (allNodes (map (fun n => GapManager.processNode o n (2 * Math_PI) 0)
                        data))
         (snd r)).
Proof.
  induction data as [|n rest IH]; intros done m; cbv zeta.
  - cbn. rewrite app_nil_r. split; [reflexivity|]. split; [auto|].
    split; [auto|]. intros _ p c [].
  - cbn [fold_left map].
    destruct (registers_all o n (2 * Math_PI) 0 m) as (Hfst & Hok & Hmono & Hreg).
    destruct (GapManager.processNodeWith o n (2 * Math_PI) 0 m) as [n1 m1].
    cbn [fst snd] in *. subst n1.
    specialize (IH (done ++ [GapManager.processNode o n (2 * Math_PI) 0]) m1).
    cbv zeta in IH. destruct IH as (Ifst & Iok & Imono & Ireg).
    split; [rewrite Ifst, <- app_assoc; reflexivity|].
    split; [intros H0; apply Iok, Hok, H0|].
    split; [intros k Hk; apply Imono, Hmono, Hk|].
    intros Hreal. unfold allNodes in *. cbn [flat_map] in *.
    apply gapsRegistered_app.
    + eapply gapsRegistered_mono; [exact Imono|]. apply Hreg.
      intros p c Hp. apply Hreal. apply in_or_app. left. exact Hp.
    + apply Ireg. intros p c Hp. apply Hreal. apply in_or_app. right. exact Hp.
Qed.

(** X20.  The registry of gap nodes.  With gaps enabled and a positive
    gap angle, [insertGaps] starts from an empty registry whatever it
    held, and leaves one entry to an id, every entry under the id it
    holds and as wide as the gap, so that [getGapInfo] on the id of an
    entry of [getAllGaps] gives that entry; and when the data had no
    gap node among the children of its nodes, every gap node among the
    children of a node of the result is found by [getGapInfo] under its
    id.  With gaps disabled, or a gap angle of 0 or less, [insertGaps]
    returns before it clears the registry, which keeps what it held;
    [removeGaps] always empties it. *)
Theorem insertGaps_registry (o : GapManager.Options) (data : list node)
    (m : GapManager.registry) :
  (GapManager.opt_enableGaps o = true → 0 < GapManager.opt_gapAngle o →
   let r := GapManager.insertGapsWith o data m in
   fst r = GapManager.insertGaps o data
   ∧ snd r = snd (GapManager.insertGapsWith o data [])
   ∧ registryOk (GapManager.gapRadians o) (snd r)
   ∧ (∀ info, In info (GapManager.getAllGaps (snd r)) →
        GapManager.getGapInfo (GapManager.gi_id info) (snd r) = Some info)
   ∧ ((∀ p c, In p (allNodes data) → In c (childList p) → isGap c = false) →
      gapsRegistered (allNodes (GapManager.insertGaps o data)) (snd r)))
  ∧ (GapManager.opt_enableGaps o = false ∨ GapManager.opt_gapAngle o <= 0 →
     GapManager.insertGapsWith o data m = (data, m))
  ∧ snd (GapManager.removeGapsWith data m) = [].
Proof.
  split; [|split; [|reflexivity]].
  - intros Hen Hg. cbv zeta.
    unfold GapManager.insertGapsWith, GapManager.insertGaps.
    rewrite Hen. cbn [negb orb].
    replace (Qle_bool (GapManager.opt_gapAngle o) 0) with false.
    2:{ symmetry. destruct (Qle_bool (GapManager.opt_gapAngle o) 0) eqn:E;
          [|reflexivity]. apply Qle_bool_iff in E. lra. }
    destruct (insertGapsWith_fold o data [] []) as (Hfst & Hok & _ & Hreg).
    cbv zeta in Hfst, Hok, Hreg.
    assert (Hwf : registryOk (GapManager.gapRadians o) []).
    { split; [constructor|intros k v []]. }
    specialize (Hok Hwf).
    split; [exact Hfst|]. split; [reflexivity|]. split; [exact Hok|].
    split; [|exact Hreg].
    intros info Hin. unfold GapManager.getAllGaps in Hin.
    apply in_map_iff in Hin as ([k v] & <- & Hin). cbn [snd].
    destruct Hok as (Hnd & Hent).
    destruct (Hent k v Hin) as (-> & _).
    unfold GapManager.getGapInfo.
    apply registry_lookup; assumption.
  - intros [Hdis|Hle]; unfold GapManager.insertGapsWith.
    + rewrite Hdis. reflexivity.
    + apply Qle_bool_iff in Hle. rewrite Hle, orb_true_r. reflexivity.
Qed.

(** [insertGaps_registry] on [sampleTree]: two gaps are registered; and
    with gaps disabled the registry stays. *)
Lemma insertGaps_registry_witness :
  length (GapManager.getAllGaps
            (snd (GapManager.insertGapsWith GapManager.defaults
                    [sampleTree] [])))
  = 2%nat
  ∧ registryOk (GapManager.gapRadians GapManager.defaults)
      (snd (GapManager.insertGapsWith GapManager.defaults [sampleTree] []))
  ∧ ∀ m, GapManager.insertGapsWith gapsDisabled [sampleTree] m
         = ([sampleTree], m).
Proof.
  split; [reflexivity|]. split.
  - apply (proj1 (insertGaps_registry GapManager.defaults [sampleTree] [])
             eq_refl eq_refl).
  - intros m.
    apply (proj1 (proj2 (insertGaps_registry gapsDisabled [sampleTree] m))).
    left. reflexivity.
Defined.

(** ** [exportConfig] and [importConfig] *)

Lemma mapSet_new (k : string) (v : GapManager.GapInfo)
    (m : GapManager.registry) :
  k ∉ map fst m → GapManager.mapSet k v m = m ++ [(k, v)].
Proof.
  induction m as [|[k0 v0] m IH]; intros Hk; [reflexivity|].
  cbn [GapManager.mapSet app]. cbn [map fst] in Hk.
  apply not_elem_of_cons in Hk as (Hne & Hk).
  replace (String.eqb k0 k) with false
    by (symmetry; apply String.eqb_neq; congruence).
  rewrite IH by exact Hk. reflexivity.
Qed.

(** Setting the entries of a registry again, in order, makes the
    registry. *)
Lemma registry_rebuild (m : GapManager.registry) :
  ∀ acc,
    NoDup (map fst (acc ++ m)) →
    (∀ k v, In (k, v) m → GapManager.gi_id v = k) →
    fold_left (fun reg gapInfo =>
                 GapManager.mapSet (GapManager.gi_id gapInfo) gapInfo reg)
              (map snd m) acc
    = acc ++ m.
Proof.
  induction m as [|[k v] m IH]; intros acc Hnd Hid.
  - cbn. rewrite app_nil_r. reflexivity.
  - cbn [map snd fold_left].
    rewrite (Hid k v (or_introl eq_refl)).
    rewrite mapSet_new.
    + rewrite IH.
      * rewrite <- app_assoc. reflexivity.
      * rewrite <- app_assoc. exact Hnd.
      * intros k' v' H. apply Hid. right. exact H.
    + rewrite map_app in Hnd. cbn [map fst] in Hnd.
      apply NoDup_app in Hnd as (_ & Hdis & _).
      intros Hin. apply (Hdis k Hin). left.
Qed.

Lemma orDefault_same (x : Q) : orDefault (Some x) x = x.
Proof. unfold orDefault. destruct (Qeq_bool x 0); reflexivity. Qed.

Lemma orDefault_taken (x d : Q) : ¬ x == 0 → orDefault (Some x) d = x.
Proof.
  intros H. unfold orDefault. destruct (Qeq_bool x 0) eqn:E; [|reflexivity].
  apply Qeq_bool_iff in E. contradiction.
Qed.

Lemma orDefault_kept (x d : Q) : x == 0 → orDefault (Some x) d = d.
Proof.
  intros H. unfold orDefault. apply Qeq_bool_iff in H. rewrite H. reflexivity.
Qed.

(** X21.  [exportConfig] and [importConfig].  A manager that imports
    its own configuration stays as it is.  A manager that imports the
    configuration of another takes its registry and every option of it
    that is not 0 or empty: it becomes that manager when the gap angle,
    the opacity and [minChildrenForGap] are not 0 and the colour is not
    empty.  An opacity of 0, which is the default and what
    [setGapOpacity] makes of a negative number, is not taken, nor is a
    gap angle of 0; and an empty configuration changes nothing. *)
Theorem importConfig_exportConfig (a b : GapManager.Manager) :
  registryKeyed (GapManager.m_gapNodes a) →
  GapManager.importConfig (GapManager.exportConfig a) a = a
  ∧ (¬ GapManager.opt_gapAngle (GapManager.m_options a) == 0 →
     ¬ GapManager.m_gapOpacity a == 0 →
     GapManager.m_gapColor a ≠ EmptyString →
     GapManager.opt_minChildrenForGap (GapManager.m_options a) ≠ 0%nat →
     GapManager.importConfig (GapManager.exportConfig a) b = a)
  ∧ (GapManager.m_gapOpacity a == 0 →
     GapManager.m_gapOpacity
       (GapManager.importConfig (GapManager.exportConfig a) b)
     = GapManager.m_gapOpacity b)
  ∧ (∀ opacity, opacity <= 0 →
       GapManager.m_gapOpacity
         (GapManager.importConfig
            (GapManager.exportConfig (GapManager.setGapOpacity opacity a)) b)
       = GapManager.m_gapOpacity b)
  ∧ (GapManager.opt_gapAngle (GapManager.m_options a) == 0 →
     GapManager.opt_gapAngle
       (GapManager.m_options
          (GapManager.importConfig (GapManager.exportConfig a) b))
     = GapManager.opt_gapAngle (GapManager.m_options b))
  ∧ GapManager.importConfig
      {| GapManager.c_gapAngle := None; GapManager.c_gapColor := None;
         GapManager.c_gapOpacity := None; GapManager.c_enableGaps := None;
         GapManager.c_minChildrenForGap := None;
         GapManager.c_gapNodes := None |} b
    = b.
Proof.
  intros (Hnd & Hid).
  assert (Hreg : fold_left
            (fun reg gapInfo =>
               GapManager.mapSet (GapManager.gi_id gapInfo) gapInfo reg)
            (map snd (GapManager.m_gapNodes a)) []
          = GapManager.m_gapNodes a).
  { apply (registry_rebuild (GapManager.m_gapNodes a) []); assumption. }
  destruct a as [[ga ea ma] ca oa ra]. destruct b as [[gb eb mb] cb ob rb].
  unfold GapManager.importConfig, GapManager.exportConfig,
    GapManager.setGapOpacity.
  cbn [GapManager.m_options GapManager.m_gapColor GapManager.m_gapOpacity
       GapManager.m_gapNodes GapManager.opt_gapAngle GapManager.opt_enableGaps
       GapManager.opt_minChildrenForGap GapManager.c_gapAngle
       GapManager.c_gapColor GapManager.c_gapOpacity GapManager.c_enableGaps
       GapManager.c_minChildrenForGap GapManager.c_gapNodes] in *.
  rewrite Hreg.
  split; [|split; [|split; [|split; [|split]]]].
  - rewrite !orDefault_same.
    destruct (String.eqb ca "") eqn:E;
      [apply String.eqb_eq in E; subst ca|]; destruct ma; reflexivity.
  - intros Hg Ho Hc Hm.
    rewrite !orDefault_taken by assumption.
    replace (String.eqb ca "") with false
      by (symmetry; apply String.eqb_neq; exact Hc).
    destruct ma; [congruence|reflexivity].
  - intros Ho. apply orDefault_kept. exact Ho.
  - intros opacity Hle. apply orDefault_kept.
    rewrite Q.min_r by lra. rewrite Q.max_l by lra. reflexivity.
  - intros Hg. apply orDefault_kept. exact Hg.
  - reflexivity.
Qed.

(** [importConfig_exportConfig] on a manager with the defaults and
    another: the first keeps itself; the second becomes the first but
    for the opacity. *)
Lemma importConfig_exportConfig_witness :
  GapManager.importConfig (GapManager.exportConfig defaultManager)
                          defaultManager
  = defaultManager
  ∧ GapManager.m_gapOpacity
      (GapManager.importConfig (GapManager.exportConfig defaultManager)
                               otherManager)
    = 0.5.
Proof.
  assert (H : registryKeyed (GapManager.m_gapNodes defaultManager)).
  { split; [constructor|intros k v []]. }
  split.
  - apply (proj1 (importConfig_exportConfig defaultManager defaultManager H)).
  - apply (proj1 (proj2 (proj2 (importConfig_exportConfig defaultManager
                                  otherManager H)))).
    reflexivity.
Defined.
